(** * QMemstat: the page-state decoder and the mosaic layout of mosaicwidget.cpp

    A shallow embedding of the data/protocol/layout core of QMemstat's
    [mosaicwidget.cpp]: the page-flag printer ([printablePageFlags]), the
    streaming frame decoder ([PageInfoReader::addData]), the layout pass of
    [MosaicWidget::updatePageInfo] and the two lookups
    ([MosaicWidget::addressAtPos], [MosaicWidget::printPageFlagsAtAddr]).

    Conventions.
    - A C++ unsigned integer of width w is a [Z] in [0, 2^w); every operation
      that can leave the range is followed by its reduction ([wrap32],
      [wrap64]).  [qint64] values are signed [Z]s ([to_int64]).
    - A [QByteArray] / [std::string] is a [list byte]; a [QString] built from
      the ASCII flag names is a [string].
    - A read through a pointer into the receive buffer that leaves the buffer,
      a failed [assert] and an out-of-range [operator[]] have no defined
      result in C++; they are the [Fault]s of the [result] monad below. *)

From Stdlib Require Import ZArith String Ascii List Bool Lia Arith Sorted.
From Stdlib Require Import Strings.Byte.
Import ListNotations.

Local Open Scope Z_scope.

(** ** Machine integers *)

Definition wrap32 (z : Z) : Z := z mod 2 ^ 32.
Definition wrap64 (z : Z) : Z := z mod 2 ^ 64.

(** Conversion of a [uint64_t] to [qint64] (two's complement). *)
Definition to_int64 (z : Z) : Z :=
  if z <? 2 ^ 63 then z else z - 2 ^ 64.

Definition is_u32 (z : Z) : Prop := 0 <= z < 2 ^ 32.
Definition is_u64 (z : Z) : Prop := 0 <= z < 2 ^ 64.

(** ** Results of partial operations *)

Inductive fault : Type :=
| OutOfBounds     (* a read outside the buffer or outside a vector *)
| AssertFailed    (* an [assert] / [Q_ASSERT] of the source does not hold *)
| FuelExhausted.  (* the loop bound of the embedding was too small *)

Inductive result (A : Type) : Type :=
| Ok (a : A)
| Fault (f : fault).

Arguments Ok {A} a.
Arguments Fault {A} f.

Definition bind {A B : Type} (r : result A) (k : A -> result B) : result B :=
  match r with
  | Ok a => k a
  | Fault f => Fault f
  end.

Notation "x <- c1 ;; c2" := (bind c1 (fun x => c2))
  (at level 61, c1 at next level, right associativity).

Definition assertion (b : bool) : result unit :=
  if b then Ok tt else Fault AssertFailed.

Definition of_option {A : Type} (o : option A) : result A :=
  match o with
  | Some a => Ok a
  | None => Fault OutOfBounds
  end.

(** [PageInfo::pageSize].

    Modelled from the spec: [pageinfo.h], which declares [PageInfo::pageSize],
    is not among the sources at hand; the spec fixes a "4096-class OS page
    size" and its scenario uses [pageSize = 0x1000].  It is used as an
    [unsigned int] constant. *)
Definition pageSize : Z := 4096.

(** ** PageFlags: [pageFlagNames], [isFlagSet], [printablePageFlags] *)

Module PageFlags.

Definition pageFlagCount : Z := 32.

(** The table of the source; [None] is a [nullptr] entry. *)
Definition pageFlagNames : list (option string) :=
  [ Some "LOCKED"; Some "ERROR"; Some "REFERENCED"; Some "UPTODATE";
    Some "DIRTY"; Some "LRU"; Some "ACTIVE"; Some "SLAB"; Some "WRITEBACK";
    Some "RECLAIM"; Some "BUDDY"; Some "MMAP"; Some "ANON"; Some "SWAPCACHE";
    Some "SWAPBACKED"; Some "COMPOUND_HEAD"; Some "COMPOUND_TAIL";
    Some "HUGE"; Some "UNEVICTABLE"; Some "HWPOISON"; Some "NOPAGE";
    Some "KSM"; Some "THP";
    None; None; None; None; None;
    Some "SOFT_DIRTY"; Some "FILE_PAGE / SHARE_ANON"; Some "SWAPPED";
    Some "PRESENT" ]%string.

(** [flags & (1 << testFlagShift)], converted to [bool].  [1 << 31] is the
    [int] with only the sign bit set; converted to [uint32_t] for the [&] it
    is [2^31]. *)
Definition isFlagSet (flags testFlagShift : Z) : bool :=
  negb (Z.land flags (wrap32 (Z.shiftl 1 testFlagShift)) =? 0).

(** The [for (uint i = 0; i < pageFlagCount; i++)] loop; [n] counts the
    iterations that are left.  [assert(pageFlagNames[i])] fails on a
    [nullptr] entry. *)
Fixpoint printablePageFlags_loop (n : nat) (i : Z) (flags : Z) (ret : string)
  : result string :=
  match n with
  | O => Ok ret
  | S n' =>
      if isFlagSet flags i then
        match nth (Z.to_nat i) pageFlagNames None with
        | None => Fault AssertFailed
        | Some name =>
            printablePageFlags_loop n' (i + 1) flags (ret ++ name ++ ", ")
        end
      else printablePageFlags_loop n' (i + 1) flags ret
  end%string.

(** [QString::resize] to a smaller size truncates. *)
Definition resize (s : string) (n : nat) : string := substring 0 n s.

Definition printablePageFlags (flags : Z) : result string :=
  ret <- printablePageFlags_loop (Z.to_nat pageFlagCount) 0 flags "" ;;
  Ok (if (2 <=? String.length ret)%nat
      then resize ret (String.length ret - 2)
      else ret).

(** The names of the set flags, in ascending bit order (the spec's words). *)
Definition flagName (i : nat) : string :=
  match nth i pageFlagNames None with
  | Some name => name
  | None => EmptyString
  end.

Definition setFlags (flags : Z) : list nat :=
  filter (fun i => Z.testbit flags (Z.of_nat i)) (seq 0 32).

Definition setFlagNames (flags : Z) : list string :=
  map flagName (setFlags flags).

(** The unused/reserved bits 23..27. *)
Definition reservedMask : Z := 0x0F800000.

(** Every name followed by ", ", as the loop accumulates them. *)
Fixpoint terminated (names : list string) : string :=
  match names with
  | [] => EmptyString
  | n :: rest => (n ++ ", " ++ terminated rest)%string
  end.

(** Whether the table has a name for bit [i]. *)
Definition named (i : nat) : bool :=
  match nth i pageFlagNames None with
  | Some _ => true
  | None => false
  end.

End PageFlags.

(** ** Cell classification of [MosaicWidget::updatePageInfo] *)

Module Classify.

(** Bit numbers of [linux/kernel-page-flags.h] (a system header); they are the
    indices of "MMAP", "ANON", "NOPAGE" and "THP" in [pageFlagNames]. *)
Definition KPF_MMAP : Z := 11.
Definition KPF_ANON : Z := 12.
Definition KPF_NOPAGE : Z := 20.
Definition KPF_THP : Z := 22.

(** The [QColor] constants of [updatePageInfo]. *)
Inductive QColor : Type :=
| colorWhite          (* Qt::white *)
| colorGray           (* Qt::darkGray *)
| colorMagenta        (* Qt::magenta *)
| colorMagentaLight   (* QColor(Qt::magenta).lighter(150) *)
| colorYellow         (* Qt::yellow *)
| colorCyan           (* Qt::blue, the gap tiles *)
| colorGreen          (* Qt::green *)
| colorGreenDark      (* Qt::darkGreen *)
| colorRedDark        (* Qt::darkRed *)
| colorBlack.         (* Qt::black, the separator *)

Definition flagBit (flags shift : Z) : bool :=
  negb (Z.land flags (wrap32 (Z.shiftl 1 shift)) =? 0).

(** The [if ... else if ...] chain that picks the colour of one page. *)
Definition pageColor (flags useCount : Z) : QColor :=
  if negb (flagBit flags 31) then colorGray
  else if flagBit flags KPF_MMAP && negb (flagBit flags KPF_ANON) then
    (if 1 <? useCount then colorGreen else colorGreenDark)
  else if flagBit flags KPF_THP then colorMagentaLight
  else if useCount =? 1 then colorMagenta
  else if 1 <? useCount then colorYellow
  else if flagBit flags KPF_NOPAGE then colorRedDark
  else colorWhite.

(** The classification of the spec, as a first-match rule list. *)
Inductive CellClass : Type :=
| NotPresentGray | FileGreenDarker | FileGreenLighter | ThpLightMagenta
| PrivateMagenta | SharedYellow | NoPageDarkRed | DefaultWhite.

Definition present (flags : Z) : bool := Z.testbit flags 31.
Definition mmapBackedNonAnon (flags : Z) : bool :=
  Z.testbit flags 11 && negb (Z.testbit flags 12).
Definition transparentHugePage (flags : Z) : bool := Z.testbit flags 22.
Definition noPage (flags : Z) : bool := Z.testbit flags 20.

Definition rules (flags useCount : Z) : list (bool * CellClass) :=
  [ (negb (present flags), NotPresentGray);
    (mmapBackedNonAnon flags && (useCount <=? 1), FileGreenDarker);
    (mmapBackedNonAnon flags && (1 <? useCount), FileGreenLighter);
    (transparentHugePage flags, ThpLightMagenta);
    (useCount =? 1, PrivateMagenta);
    (1 <? useCount, SharedYellow);
    (noPage flags, NoPageDarkRed) ].

Fixpoint firstMatch (rs : list (bool * CellClass)) : CellClass :=
  match rs with
  | [] => DefaultWhite
  | (true, c) :: _ => c
  | (false, _) :: rs' => firstMatch rs'
  end.

Definition classOfColor (c : QColor) : option CellClass :=
  match c with
  | colorGray => Some NotPresentGray
  | colorGreenDark => Some FileGreenDarker
  | colorGreen => Some FileGreenLighter
  | colorMagentaLight => Some ThpLightMagenta
  | colorMagenta => Some PrivateMagenta
  | colorYellow => Some SharedYellow
  | colorRedDark => Some NoPageDarkRed
  | colorWhite => Some DefaultWhite
  | colorCyan | colorBlack => None
  end.

End Classify.

(** ** The frame decoder: [PageInfoReader::addData] *)

Module Decoder.

(** [struct MappedRegion].

    Modelled from the spec: [pageinfo.h], which declares the struct, is not
    among the sources at hand; the fields are those of the spec's data model
    and of the uses in [addData]: two [uint64_t] addresses, the backing file
    as a [std::string], and two [std::vector<uint32_t>]. *)
Record MappedRegion : Type := mkMappedRegion {
  start : Z;
  end_ : Z;
  backingFile : list byte;
  useCounts : list Z;
  combinedFlags : list Z
}.

(** The members of [PageInfoReader].

    Modelled from the spec: [mosaicwidget.h], which declares the class, is
    not among the sources at hand.  [m_length] holds the [u64] length prefix
    of the spec's frame; [addData] compares it with 0 and resets it to [-1],
    so it is a signed 64-bit integer, [-1] while no length prefix has been
    read. *)
Record PageInfoReader : Type := mkPageInfoReader {
  m_mappedRegions : list MappedRegion;
  m_length : Z;
  m_buffer : list byte
}.

Definition newPageInfoReader : PageInfoReader :=
  {| m_mappedRegions := []; m_length := -1; m_buffer := [] |}.

Definition sizeof_size_t : Z := 8.
Definition sizeof_uint64_t : Z := 8.
Definition sizeof_uint32_t : Z := 4.

Definition byte_to_Z (b : byte) : Z := Z.of_N (Byte.to_N b).

(** The integers are in the byte order of the host; the hosts QMemstat runs
    on are little-endian. *)
Definition le_to_Z (bs : list byte) : Z :=
  fold_right (fun b acc => byte_to_Z b + 256 * acc) 0 bs.

Definition slice (buf : list byte) (pos n : Z) : list byte :=
  firstn (Z.to_nat n) (skipn (Z.to_nat pos) buf).

(** Reading [n] bytes at [buf + pos]: defined when no byte outside the buffer
    is touched. *)
Definition read_bytes (buf : list byte) (pos n : Z) : result (list byte) :=
  if n =? 0 then Ok []
  else if pos + n <=? Z.of_nat (length buf) then Ok (slice buf pos n)
  else Fault OutOfBounds.

(** [*reinterpret_cast<const uint64_t *>(buf + pos)] and the 32-bit one. *)
Definition read_u64 (buf : list byte) (pos : Z) : result Z :=
  bs <- read_bytes buf pos sizeof_uint64_t ;; Ok (le_to_Z bs).

Definition read_u32 (buf : list byte) (pos : Z) : result Z :=
  bs <- read_bytes buf pos sizeof_uint32_t ;; Ok (le_to_Z bs).

Fixpoint u32s_of_bytes (bs : list byte) : list Z :=
  match bs with
  | b0 :: b1 :: b2 :: b3 :: rest => le_to_Z [b0; b1; b2; b3] :: u32s_of_bytes rest
  | _ => []
  end.

(** [vector.assign(array, array + count)] with [array] at [buf + pos]. *)
Definition read_u32_array (buf : list byte) (pos count : Z) : result (list Z) :=
  bs <- read_bytes buf pos (sizeof_uint32_t * count) ;; Ok (u32s_of_bytes bs).

(** One pass of the body of
    [for (size_t pos = sizeof(size_t); pos < endPos; )]: the region read at
    [pos] and the position behind it. *)
Definition decodeRegion (buf : list byte) (pos : Z) : result (MappedRegion * Z) :=
  mr_start <- read_u64 buf pos ;;
  let pos := wrap64 (pos + sizeof_uint64_t) in
  mr_end <- read_u64 buf pos ;;
  let pos := wrap64 (pos + sizeof_uint64_t) in
  backingFileLength <- read_u32 buf pos ;;
  let pos := wrap64 (pos + sizeof_uint32_t) in
  mr_backingFile <- read_bytes buf pos backingFileLength ;;
  let pos :=
    wrap64 (pos + Z.land (wrap64 (backingFileLength + sizeof_uint32_t - 1))
                         (wrap64 (Z.lnot 3))) in
  let arrayLength := wrap64 (mr_end - mr_start) / pageSize in
  mr_useCounts <- read_u32_array buf pos arrayLength ;;
  mr_combinedFlags <-
    read_u32_array buf (pos + sizeof_uint32_t * arrayLength) arrayLength ;;
  let pos := wrap64 (pos + wrap64 (2 * arrayLength * sizeof_uint32_t)) in
  Ok ({| start := mr_start; end_ := mr_end; backingFile := mr_backingFile;
         useCounts := mr_useCounts; combinedFlags := mr_combinedFlags |},
      pos).

Fixpoint decodeRegions (fuel : nat) (buf : list byte) (pos endPos : Z)
    (regions : list MappedRegion) : result (list MappedRegion) :=
  if pos <? endPos then
    match fuel with
    | O => Fault FuelExhausted
    | S fuel' =>
        r <- decodeRegion buf pos ;;
        decodeRegions fuel' buf (snd r) endPos (regions ++ [fst r])
    end
  else Ok regions.

(** The [while (true)] loop of [addData], entered with [m_buffer] already
    extended.  A pass that decodes a frame removes at least eight bytes from
    the buffer, so the length of the buffer bounds the number of passes. *)
Fixpoint addData_loop (fuel : nat) (r : PageInfoReader) (ret : bool)
  : result (bool * PageInfoReader) :=
  let len := Z.of_nat (length (m_buffer r)) in
  let length1 :=
    if (m_length r <? 0) && (sizeof_size_t <=? len)
    then to_int64 (le_to_Z (slice (m_buffer r) 0 sizeof_uint64_t))
    else m_length r in
  if (0 <=? length1) && (wrap64 (length1 + sizeof_size_t) <=? len) then
    match fuel with
    | O => Fault FuelExhausted
    | S fuel' =>
        let endPos := wrap64 (length1 + sizeof_size_t) in
        regions <- decodeRegions (length (m_buffer r)) (m_buffer r)
                                 sizeof_size_t endPos [] ;;
        addData_loop fuel'
          {| m_mappedRegions := regions;
             m_length := -1;
             m_buffer := skipn (Z.to_nat endPos) (m_buffer r) |}
          true
    end
  else
    Ok (ret, {| m_mappedRegions := m_mappedRegions r;
                m_length := length1;
                m_buffer := m_buffer r |}).

Definition addData (r : PageInfoReader) (data : list byte)
  : result (bool * PageInfoReader) :=
  let buffer := m_buffer r ++ data in
  addData_loop (length buffer)
    {| m_mappedRegions := m_mappedRegions r;
       m_length := m_length r;
       m_buffer := buffer |}
    false.

(** Feeding a sequence of chunks, one [addData] call per chunk. *)
Fixpoint feedAll (r : PageInfoReader) (chunks : list (list byte))
  : result PageInfoReader :=
  match chunks with
  | [] => Ok r
  | c :: chunks' => x <- addData r c ;; feedAll (snd x) chunks'
  end.

End Decoder.

(** ** The layout: [MosaicWidget::updatePageInfo] and the lookups *)

Module Mosaic.

Import Decoder Classify.

Definition s_pixelsPerTile : Z := 4.
Definition s_columnCount : Z := 512.
Definition tilesPerSeparator : Z := 2.

(** [static const quint64 maxAllowedGap = 64 * PageInfo::pageSize]. *)
Definition maxAllowedGap : Z := wrap32 (64 * pageSize).

(** *** Coalescing into large regions *)

(** The [for (const MappedRegion &r : regions)] loop over [largeRegion] (a
    [pair<quint64, quint64>]) and the vector [largeRegions]. *)
Fixpoint coalesce_loop (rs : list MappedRegion) (largeRegion : Z * Z)
    (largeRegions : list (Z * Z)) : list (Z * Z) :=
  match rs with
  | [] => largeRegions ++ [largeRegion]
  | r :: rs' =>
      if wrap64 (snd largeRegion + maxAllowedGap) <? start r
      then coalesce_loop rs' (start r, end_ r) (largeRegions ++ [largeRegion])
      else coalesce_loop rs' (fst largeRegion, end_ r) largeRegions
  end.

(** The block that fills [largeRegions]; it is reached with a non-empty
    [regions] only. *)
Definition computeLargeRegions (regions : list MappedRegion) : list (Z * Z) :=
  match regions with
  | [] => []
  | front :: _ => coalesce_loop regions (start front, end_ front) []
  end.

(** The coalescing in the spec's words: scan the regions that follow the
    first one; a new large region starts whenever the gap to the previous
    region's end exceeds 64 pages, otherwise the current one is extended. *)
Fixpoint coalesce_spec (current : Z * Z) (rest : list MappedRegion)
  : list (Z * Z) :=
  match rest with
  | [] => [current]
  | r :: rest' =>
      if 64 * pageSize <? start r - snd current
      then current :: coalesce_spec (start r, end_ r) rest'
      else coalesce_spec (fst current, end_ r) rest'
  end.

Definition largeRegions_spec (regions : list MappedRegion) : list (Z * Z) :=
  match regions with
  | [] => []
  | front :: rest => coalesce_spec (start front, end_ front) rest
  end.

(** The number of places where the gap from the previous region's end to the
    next region's start exceeds 64 pages. *)
Fixpoint gapsBeyond (previousEnd : Z) (rest : list MappedRegion) : nat :=
  match rest with
  | [] => 0%nat
  | r :: rest' =>
      if 64 * pageSize <? start r - previousEnd
      then S (gapsBeyond (end_ r) rest')
      else gapsBeyond (end_ r) rest'
  end.

(** An end address that stays clear of the top of the address space, so
    that [end + maxAllowedGap] does not wrap around. *)
Definition gapFits (e : Z) : Prop := 0 <= e /\ e + 64 * pageSize < 2 ^ 64.

(** Sorted ascending and non-overlapping, every region with [start <= end]. *)
Fixpoint sortedRegions (regions : list MappedRegion) : Prop :=
  match regions with
  | [] => True
  | r :: rest =>
      start r <= end_ r /\
      match rest with
      | [] => True
      | r' :: _ => end_ r <= start r'
      end /\ sortedRegions rest
  end.

(** *** The row count *)

(** [uint rowCount = (largeRegions.size() - 1) * tilesPerSeparator] followed
    by the loop that adds the rows of every large region.  The sum is formed
    in 64 bits and stored into the 32-bit [rowCount]. *)
Definition rowsOfLargeRegion (largeRegion : Z * Z) : Z :=
  wrap64 (wrap64 (snd largeRegion - fst largeRegion) / pageSize
          + (s_columnCount - 1)) / s_columnCount.

Definition computeRowCount (largeRegions : list (Z * Z)) : Z :=
  fold_left (fun rowCount largeRegion =>
               wrap32 (wrap64 (rowCount + rowsOfLargeRegion largeRegion)))
            largeRegions
            (wrap32 (wrap64 (wrap64 (Z.of_nat (length largeRegions) - 1)
                             * tilesPerSeparator))).

(** The row count in the spec's words. *)
Definition pagesInSpan (largeRegion : Z * Z) : Z :=
  (snd largeRegion - fst largeRegion) / pageSize.

Definition ceilDiv (a b : Z) : Z := (a + b - 1) / b.

Definition sumRows (largeRegions : list (Z * Z)) : Z :=
  fold_right Z.add 0
    (map (fun lr => ceilDiv (pagesInSpan lr) 512) largeRegions).

Definition rowCount_spec (largeRegions : list (Z * Z)) : Z :=
  sumRows largeRegions + 2 * (Z.of_nat (length largeRegions) - 1).

(** A large region as the coalescing produces it from regions with 64-bit
    addresses. *)
Definition spanOk (largeRegion : Z * Z) : Prop :=
  0 <= fst largeRegion <= snd largeRegion /\ snd largeRegion < 2 ^ 64.

(** *** Painting *)

(** A painted tile: column, row, colour ([ColorCache::paintTile]). *)
Definition tile : Type := (Z * Z * QColor)%type.

Record painter : Type := mkPainter {
  row : Z;                       (* uint *)
  column : Z;                    (* uint *)
  iMappedRegion : Z;             (* size_t *)
  tiles : list tile;
  rowIndex : list (Z * Z)        (* m_largeRegions *)
}.

(** [for ( ; column < endColumn; column++, iPage++)] over the pages of a
    region. *)
Fixpoint paintPageTiles (fuel : nat) (region : MappedRegion)
    (row endColumn column iPage : Z) (tiles : list tile)
  : result (Z * Z * list tile) :=
  if column <? endColumn then
    match fuel with
    | O => Fault FuelExhausted
    | S fuel' =>
        flags <- of_option (nth_error (combinedFlags region) (Z.to_nat iPage)) ;;
        useCount <- of_option (nth_error (useCounts region) (Z.to_nat iPage)) ;;
        paintPageTiles fuel' region row endColumn
          (wrap32 (column + 1)) (wrap64 (iPage + 1))
          (tiles ++ [(column, row, pageColor flags useCount)])
    end
  else Ok (column, iPage, tiles).

(** [while (iPage < region->useCounts.size())]. *)
Fixpoint paintPages (fuel : nat) (region : MappedRegion)
    (row column iPage : Z) (tiles : list tile)
  : result (Z * Z * Z * list tile) :=
  let size := Z.of_nat (length (useCounts region)) in
  if iPage <? size then
    match fuel with
    | O => Fault FuelExhausted
    | S fuel' =>
        let endColumn :=
          Z.min (wrap64 (wrap64 (column + size) - iPage)) s_columnCount in
        x <- paintPageTiles (Z.to_nat s_columnCount) region row endColumn
                            column iPage tiles ;;
        let '(column1, iPage1, tiles1) := x in
        if column1 =? s_columnCount
        then paintPages fuel' region (wrap32 (row + 1)) 0 iPage1 tiles1
        else paintPages fuel' region row column1 iPage1 tiles1
    end
  else Ok (row, column, iPage, tiles).

(** [for ( ; column < endColumn; column++)] painting gap tiles. *)
Fixpoint paintGapTiles (fuel : nat) (row endColumn column : Z)
    (tiles : list tile) : result (Z * list tile) :=
  if column <? endColumn then
    match fuel with
    | O => Fault FuelExhausted
    | S fuel' =>
        paintGapTiles fuel' row endColumn (wrap32 (column + 1))
                      (tiles ++ [(column, row, colorCyan)])
    end
  else Ok (column, tiles).

(** [while (gapPages)]. *)
Fixpoint paintGap (fuel : nat) (gapPages row column : Z) (tiles : list tile)
  : result (Z * Z * list tile) :=
  if negb (gapPages =? 0) then
    match fuel with
    | O => Fault FuelExhausted
    | S fuel' =>
        let endColumn := Z.min s_columnCount (wrap64 (column + gapPages)) in
        let gapPages1 := wrap64 (gapPages - wrap64 (endColumn - column)) in
        x <- paintGapTiles (Z.to_nat s_columnCount) row endColumn column tiles ;;
        let '(column1, tiles1) := x in
        if column1 =? s_columnCount
        then paintGap fuel' gapPages1 (wrap32 (row + 1)) 0 tiles1
        else paintGap fuel' gapPages1 row column1 tiles1
    end
  else Ok (row, column, tiles).

(** The body of
    [for ( ;region->end <= largeRegion.second; region = &regions[iMappedRegion])]
    for one mapped region, up to the test that leaves the loop. *)
Definition paintMappedRegion (regions : list MappedRegion)
    (largeRegion : Z * Z) (region : MappedRegion) (p : painter)
  : result painter :=
  let size := Z.of_nat (length regions) in
  _ <- assertion (iMappedRegion p <? size) ;;
  _ <- assertion (start region <=? end_ region) ;;
  x <- paintPages (S (length (useCounts region))) region
                  (row p) (column p) 0 (tiles p) ;;
  let '(row1, column1, iPage, tiles1) := x in
  _ <- assertion (wrap64 (start region + wrap64 (iPage * pageSize))
                  =? end_ region) ;;
  let iMappedRegion1 := wrap64 (iMappedRegion p + 1) in
  _ <- assertion (column1 <=? s_columnCount) ;;
  let gapPages0 :=
    if column1 =? 0 then 0 else wrap32 (s_columnCount - column1) in
  gapPages <-
    (if iMappedRegion1 <? size then
       next <- of_option (nth_error regions (Z.to_nat iMappedRegion1)) ;;
       if start next <? snd largeRegion then
         _ <- assertion (end_ region <=? start next) ;;
         Ok (wrap64 (start next - end_ region) / pageSize)
       else Ok gapPages0
     else Ok gapPages0) ;;
  _ <- assertion (gapPages <? s_columnCount) ;;
  y <- paintGap (S (Z.to_nat gapPages)) gapPages row1 column1 tiles1 ;;
  let '(row2, column2, tiles2) := y in
  _ <- assertion (end_ region <=? snd largeRegion) ;;
  Ok {| row := row2; column := column2; iMappedRegion := iMappedRegion1;
        tiles := tiles2; rowIndex := rowIndex p |}.

(** The loop over the mapped regions of one large region; it is left when the
    next region ends behind the large region or when there is no next
    region. *)
Fixpoint paintMappedRegions (fuel : nat) (regions : list MappedRegion)
    (largeRegion : Z * Z) (p : painter) : result painter :=
  region <- of_option (nth_error regions (Z.to_nat (iMappedRegion p))) ;;
  if end_ region <=? snd largeRegion then
    match fuel with
    | O => Fault FuelExhausted
    | S fuel' =>
        p1 <- paintMappedRegion regions largeRegion region p ;;
        if Z.of_nat (length regions) <=? iMappedRegion p1 then Ok p1
        else paintMappedRegions fuel' regions largeRegion p1
    end
  else Ok p.

(** The separator: [for (uint y = row; y < row + tilesPerSeparator && y <
    rowCount; y++)] with a full line of black tiles for every [y]. *)
Fixpoint paintSeparator (fuel : nat) (row0 rowCount y : Z) (tiles : list tile)
  : list tile :=
  match fuel with
  | O => tiles
  | S fuel' =>
      if (y <? wrap32 (row0 + tilesPerSeparator)) && (y <? rowCount) then
        paintSeparator fuel' row0 rowCount (wrap32 (y + 1))
          (tiles ++ map (fun x => (Z.of_nat x, y, colorBlack))
                        (seq 0 (Z.to_nat s_columnCount)))
      else tiles
  end.

(** The body of [for (pair<quint64, quint64> largeRegion : largeRegions)]. *)
Definition paintLargeRegion (regions : list MappedRegion) (rowCount : Z)
    (largeRegion : Z * Z) (p : painter) : result painter :=
  _ <- assertion (iMappedRegion p <? Z.of_nat (length regions)) ;;
  region <- of_option (nth_error regions (Z.to_nat (iMappedRegion p))) ;;
  let p0 := {| row := row p; column := 0; iMappedRegion := iMappedRegion p;
               tiles := tiles p;
               rowIndex := rowIndex p ++ [(row p, start region)] |} in
  p1 <- paintMappedRegions (S (length regions)) regions largeRegion p0 ;;
  _ <- assertion (column p1 =? 0) ;;
  Ok {| row := wrap32 (row p1 + tilesPerSeparator);
        column := column p1;
        iMappedRegion := iMappedRegion p1;
        tiles := paintSeparator (Z.to_nat tilesPerSeparator) (row p1) rowCount
                                (row p1) (tiles p1);
        rowIndex := rowIndex p1 |}.

Fixpoint paintLargeRegions (regions : list MappedRegion) (rowCount : Z)
    (largeRegions : list (Z * Z)) (p : painter) : result painter :=
  match largeRegions with
  | [] => Ok p
  | largeRegion :: rest =>
      p1 <- paintLargeRegion regions rowCount largeRegion p ;;
      paintLargeRegions regions rowCount rest p1
  end.

(** The assertions on the input: [end >= start] for every region, and
    [regions[i].start >= regions[i - 1].end]. *)
Fixpoint assertRegionBounds (regions : list MappedRegion) : result unit :=
  match regions with
  | [] => Ok tt
  | r :: rest =>
      _ <- assertion (start r <=? end_ r) ;; assertRegionBounds rest
  end.

Fixpoint assertRegionOrder (regions : list MappedRegion) : result unit :=
  match regions with
  | r :: ((r' :: _) as rest) =>
      _ <- assertion (end_ r <=? start r') ;; assertRegionOrder rest
  | _ => Ok tt
  end.

(** What [updatePageInfo] leaves behind: [m_regions], [m_largeRegions] (the
    row index), the size of the image in tiles and the painted tiles. *)
Record MosaicWidget : Type := mkMosaicWidget {
  m_regions : list MappedRegion;
  m_largeRegions : list (Z * Z);
  imageRows : Z;
  imageTiles : list tile
}.

(** The layout of [MosaicWidget::updatePageInfo]: all of the function but
    the image.  Every call of [cc.paintTile] is recorded, in call order, as
    a tile with its column, row and colour; the image and the pixels that
    the calls write are added in [Picture.updatePageInfo].  The assertions
    are those of a build without [NDEBUG].  The sum [mappedSpace] of the
    source is computed and never used. *)
Definition updatePageInfo (regions : list MappedRegion) : result MosaicWidget :=
  match regions with
  | [] => Ok {| m_regions := regions; m_largeRegions := [];
                imageRows := 0; imageTiles := [] |}
  | _ :: _ =>
      _ <- assertRegionBounds regions ;;
      _ <- assertRegionOrder regions ;;
      let largeRegions := computeLargeRegions regions in
      let rowCount := computeRowCount largeRegions in
      p <- paintLargeRegions regions rowCount largeRegions
             {| row := 0; column := 0; iMappedRegion := 0; tiles := [];
                rowIndex := [] |} ;;
      Ok {| m_regions := regions; m_largeRegions := rowIndex p;
            imageRows := rowCount; imageTiles := tiles p |}
  end.

(** The colours of the pages of a region, in page order. *)
Definition pageColors (region : MappedRegion) : list QColor :=
  map (fun p => pageColor (fst p) (snd p))
      (combine (combinedFlags region) (useCounts region)).

(** *** Reverse lookup *)

(** [std::upper_bound] as the standard library implements it: a binary search
    over the index range [first, first + len).  [comp val x] is the
    comparison object applied to the searched value and an element. *)
Fixpoint upper_bound_loop {A : Type} (fuel : nat) (comp : Z -> A -> bool)
    (v : list A) (val : Z) (first len : nat) : nat :=
  match fuel with
  | O => first
  | S fuel' =>
      if (len =? 0)%nat then first
      else
        let half := Nat.div2 len in
        let middle := (first + half)%nat in
        match nth_error v middle with
        | Some x =>
            if comp val x
            then upper_bound_loop fuel' comp v val first half
            else upper_bound_loop fuel' comp v val (S middle)
                                  (len - half - 1)%nat
        | None => first
        end
  end.

Definition upper_bound {A : Type} (comp : Z -> A -> bool) (v : list A)
    (val : Z) : nat :=
  upper_bound_loop (length v) comp v val 0%nat (length v).

(** The part of [addressAtPos] behind the computation of [row] and [column]:
    the spec's [addressAtCell].  The result [0] stands for "no address".  The
    offset is formed in 32-bit unsigned arithmetic and then added to the
    64-bit base address. *)
Definition addressAtCell (m_largeRegions : list (Z * Z)) (row column : Z) : Z :=
  let lIt := upper_bound (fun lhs rhs => lhs <? fst rhs) m_largeRegions row in
  if (lIt =? 0)%nat then 0
  else
    match nth_error m_largeRegions (lIt - 1)%nat with
    | Some (firstRow, baseAddress) =>
        wrap64 (baseAddress
                + wrap32 (wrap32 (wrap32 (wrap32 (row - firstRow) * s_columnCount)
                                  + column)
                          * pageSize))
    | None => 0
    end.

(** The row index in ascending order of its first rows. *)
Definition rowsAscending (m_largeRegions : list (Z * Z)) : Prop :=
  StronglySorted (fun a b => fst a <= fst b) m_largeRegions.

Definition qBound (min val max : Z) : Z := Z.max min (Z.min max val).

(** [widgetPos] is a [QPoint], a pair of [int]s. *)
Definition addressAtPos (m_largeRegions : list (Z * Z)) (widgetPos : Z * Z) : Z :=
  let row := wrap32 (Z.max 0 (snd widgetPos)) / s_pixelsPerTile in
  let column := qBound 0 (Z.quot (fst widgetPos) s_pixelsPerTile) s_columnCount in
  addressAtCell m_largeRegions row column.

(** *** Forward lookup *)

(** The signals that [printPageFlagsAtAddr] emits. *)
Inductive signal : Type :=
| showFlags (flags : Z)
| showPageInfo (addr useCount : Z) (backingFile : list byte).

(** [Q_ASSERT(cond)].  Qt compiles the check in unless [QT_NO_DEBUG] is
    defined, and leaves no code behind when it is; [qtDebug] tells which of
    the two builds is meant. *)
Definition Q_ASSERT (qtDebug cond : bool) : result unit :=
  if qtDebug then assertion cond else Ok tt.

(** [MosaicWidget::printPageFlagsAtAddr] in either build. *)
Definition printPageFlagsAtAddrIn (qtDebug : bool)
    (m_regions : list MappedRegion) (addr : Z)
  : result (list signal) :=
  if addr =? 0 then Ok []
  else
    let rIt := upper_bound (fun lhs rhs => lhs <? end_ rhs) m_regions addr in
    match nth_error m_regions rIt with
    | None => Ok []
    | Some r =>
        if addr <? start r then
          _ <- Q_ASSERT qtDebug (negb (rIt =? 0)%nat) ;; Ok []
        else
          let index := wrap64 (addr - start r) / pageSize in
          flags <- of_option (nth_error (combinedFlags r) (Z.to_nat index)) ;;
          useCount <- of_option (nth_error (useCounts r) (Z.to_nat index)) ;;
          Ok [showFlags flags; showPageInfo addr useCount (backingFile r)]
    end.

(** The build with [Q_ASSERT] compiled in, the one in which the function
    can stop the program. *)
Definition printPageFlagsAtAddr (m_regions : list MappedRegion) (addr : Z)
  : result (list signal) :=
  printPageFlagsAtAddrIn true m_regions addr.

Definition printPageFlagsAtPos (w : MosaicWidget) (widgetPos : Z * Z)
  : result (list signal) :=
  printPageFlagsAtAddr (m_regions w) (addressAtPos (m_largeRegions w) widgetPos).

End Mosaic.

(** ** The wire format, producer side *)

Module Wire.

Import Decoder.

Definition byte_of_Z (z : Z) : byte :=
  match Byte.of_N (Z.to_N (z mod 256)) with
  | Some b => b
  | None => x00
  end.

(** The [n] low bytes of [z], least significant first. *)
Fixpoint encode_uint (n : nat) (z : Z) : list byte :=
  match n with
  | O => []
  | S n' => byte_of_Z z :: encode_uint n' (z / 256)
  end.

Definition padding (backingFileLen : Z) : nat :=
  Z.to_nat ((4 - backingFileLen mod 4) mod 4).

(** Modelled from the spec: the producer of the stream (the collector's
    serializer) is not among the sources at hand; this is the [region] and
    [frame] layout of the spec's wire format. *)
Definition encode_region (r : MappedRegion) : list byte :=
  encode_uint 8 (start r) ++ encode_uint 8 (end_ r)
  ++ encode_uint 4 (Z.of_nat (length (backingFile r)))
  ++ backingFile r
  ++ repeat x00 (padding (Z.of_nat (length (backingFile r))))
  ++ flat_map (encode_uint 4) (useCounts r)
  ++ flat_map (encode_uint 4) (combinedFlags r).

Definition encode_frame (regions : list MappedRegion) : list byte :=
  let payload := flat_map encode_region regions in
  encode_uint 8 (Z.of_nat (length payload)) ++ payload.

(** The invariant of the data model under which a region has a wire form:
    the fields fit their widths and both vectors have [pageCount] entries. *)
Definition pageCount (r : MappedRegion) : Z :=
  wrap64 (end_ r - start r) / pageSize.

Definition wireRegion (r : MappedRegion) : Prop :=
  is_u64 (start r) /\ is_u64 (end_ r) /\
  Z.of_nat (length (backingFile r)) < 2 ^ 32 /\
  Z.of_nat (length (useCounts r)) = pageCount r /\
  Z.of_nat (length (combinedFlags r)) = pageCount r /\
  Forall is_u32 (useCounts r) /\ Forall is_u32 (combinedFlags r).

(** *** Frames, in the spec's words *)

(** The [u64] length prefix at the front of a buffer. *)
Definition declaredLength (buf : list byte) : Z :=
  le_to_Z (slice buf 0 8).

(** A complete frame at the front of the buffer (the length prefix and a
    payload of the declared length are both there): the frame and the bytes
    behind it. *)
Definition frameAt (buf : list byte) : option (list byte * list byte) :=
  let len := Z.of_nat (length buf) in
  if (8 <=? len) && (declaredLength buf + 8 <=? len)
  then Some (firstn (Z.to_nat (declaredLength buf + 8)) buf,
             skipn (Z.to_nat (declaredLength buf + 8)) buf)
  else None.

(** The complete frames at the front of a buffer, and what is left. *)
Fixpoint splitFrames (fuel : nat) (buf : list byte)
  : list (list byte) * list byte :=
  match fuel with
  | O => ([], buf)
  | S fuel' =>
      match frameAt buf with
      | None => ([], buf)
      | Some (frame, behind) =>
          let (frames, rest) := splitFrames fuel' behind in
          (frame :: frames, rest)
      end
  end.

Definition frames (buf : list byte) : list (list byte) * list byte :=
  splitFrames (length buf) buf.

(** The regions of the frame at the front of [buf], as [addData] decodes
    them. *)
Definition decodeFrame (buf : list byte) : result (list MappedRegion) :=
  decodeRegions (length buf) buf sizeof_size_t
                (declaredLength buf + sizeof_size_t) [].

(** The value of [m_length] between two calls, for a given buffer. *)
Definition pendingLength (buf : list byte) : Z :=
  if 8 <=? Z.of_nat (length buf) then to_int64 (declaredLength buf) else -1.

(** The reader between two calls: no complete frame is pending in it. *)
Definition waiting (regions : list MappedRegion) (buf : list byte)
  : PageInfoReader :=
  {| m_mappedRegions := regions; m_length := pendingLength buf;
     m_buffer := buf |}.

(** [m_length] is either unset or the length prefix of the buffer. *)
Definition readerInv (r : PageInfoReader) : Prop :=
  m_length r = -1 \/
  (8 <= Z.of_nat (length (m_buffer r)) /\
   m_length r = to_int64 (declaredLength (m_buffer r))).

(** Decoding the frames of a split buffer one after the other; every frame
    replaces the regions of the one before. *)
Fixpoint decodeFrames (fs : list (list byte)) (rest : list byte)
    (regions : list MappedRegion) (ret : bool)
  : result (bool * PageInfoReader) :=
  match fs with
  | [] => Ok (ret, waiting regions rest)
  | f :: fs' =>
      decoded <- decodeFrame (f ++ concat fs' ++ rest) ;;
      decodeFrames fs' rest decoded true
  end.

(** A byte string that is exactly one frame. *)
Definition isFrame (frame : list byte) : Prop :=
  8 <= Z.of_nat (length frame) /\
  declaredLength frame + 8 = Z.of_nat (length frame).

End Wire.

(** ** Example data *)

Module Scenario.

Import Decoder.

(** The snapshot of the spec's scenario: one anonymous region
    [(0x1000, 0x3000)], two pages with use count 1 and flag PRESENT. *)
Definition anonRegion : MappedRegion :=
  {| start := 0x1000; end_ := 0x3000; backingFile := [];
     useCounts := [1; 1]; combinedFlags := [2 ^ 31; 2 ^ 31] |}.

(** A zero-length region ([end == start]). *)
Definition emptyRegion : MappedRegion :=
  {| start := 0x5000; end_ := 0x5000; backingFile := [];
     useCounts := []; combinedFlags := [] |}.

(** A region backed by a file with the four-byte name "libc". *)
Definition namedRegion : MappedRegion :=
  {| start := 0x7000; end_ := 0x7000;
     backingFile := ["l"; "i"; "b"; "c"]%byte;
     useCounts := []; combinedFlags := [] |}.

(** A region in the last pages of the 64-bit address space. *)
Definition topRegion : MappedRegion :=
  {| start := 2 ^ 64 - 2 * 4096; end_ := 2 ^ 64 - 4096; backingFile := [];
     useCounts := [1]; combinedFlags := [2 ^ 31] |}.

(** A region that starts at address 0, two present pages. *)
Definition zeroRegion : MappedRegion :=
  {| start := 0; end_ := 0x2000; backingFile := [];
     useCounts := [1; 1]; combinedFlags := [2 ^ 31; 2 ^ 31] |}.

End Scenario.

(** ** The layout in closed form

    What [MosaicWidget::updatePageInfo] paints, written down without loops:
    the predicates on its input and the cell arithmetic that the statements
    about the layout use. *)

Module Layout.

Import Decoder Classify Mosaic.

(** A region with pages: it starts on a page boundary, is not empty, and has
    one use count and one flag word for every page up to its end. *)
Definition pagedRegion (r : MappedRegion) : Prop :=
  0 <= start r /\ start r mod pageSize = 0 /\
  (0 < length (useCounts r))%nat /\
  length (combinedFlags r) = length (useCounts r) /\
  end_ r = start r + pageSize * Z.of_nat (length (useCounts r)).

(** The input that the layout is made for. *)
Definition wellFormed (regions : list MappedRegion) : Prop :=
  sortedRegions regions /\
  Forall pagedRegion regions /\
  Forall (fun r => gapFits (end_ r)) regions.

(** Cell number [k] of the image, counted row by row: its column and row. *)
Definition cell (k : Z) : Z * Z := (k mod s_columnCount, k / s_columnCount).

(** The cells of an image of [rows] rows, row by row. *)
Definition rowMajor (rows : Z) : list (Z * Z) :=
  map (fun k => cell (Z.of_nat k)) (seq 0 (Z.to_nat (s_columnCount * rows))).

(** Tiles of the given colours on consecutive cells from cell [k] on. *)
Fixpoint placeTiles (k : Z) (colors : list QColor) : list tile :=
  match colors with
  | [] => []
  | c :: colors' => (cell k, c) :: placeTiles (k + 1) colors'
  end.

(** The gap, in pages, between a region and the one that follows it. *)
Definition gapPagesBetween (r next : MappedRegion) : Z :=
  (start next - end_ r) / pageSize.

(** The runs of regions that the coalescing merges into one large region
    each: a run ends where the gap to the next region exceeds 64 pages. *)
Fixpoint groups (r : MappedRegion) (rest : list MappedRegion)
  : list (list MappedRegion) :=
  match rest with
  | [] => [[r]]
  | next :: rest' =>
      if 64 * pageSize <? start next - end_ r
      then [r] :: groups next rest'
      else match groups next rest' with
           | g :: gs => (r :: g) :: gs
           | [] => [[r]]
           end
  end.

Definition groupsOf (regions : list MappedRegion) : list (list MappedRegion) :=
  match regions with
  | [] => []
  | r :: rest => groups r rest
  end.

(** The colours of the cells of a run: the pages of every region, and gap
    tiles for the pages between two regions. *)
Fixpoint groupColors (r : MappedRegion) (rest : list MappedRegion)
  : list QColor :=
  pageColors r ++
  match rest with
  | [] => []
  | next :: rest' =>
      repeat colorCyan (Z.to_nat (gapPagesBetween r next))
      ++ groupColors next rest'
  end.

(** The number of cells that fill a row up behind [n] cells. *)
Definition filler (n : Z) : Z :=
  (s_columnCount - n mod s_columnCount) mod s_columnCount.

Definition padded (colors : list QColor) : list QColor :=
  colors ++ repeat colorCyan (Z.to_nat (filler (Z.of_nat (length colors)))).

Definition groupCells (g : list MappedRegion) : list QColor :=
  match g with
  | [] => []
  | r :: rest => padded (groupColors r rest)
  end.

Definition groupRows (g : list MappedRegion) : Z :=
  Z.of_nat (length (groupCells g)) / s_columnCount.

Definition groupStart (g : list MappedRegion) : Z :=
  match g with
  | [] => 0
  | r :: _ => start r
  end.

Definition groupEnd (g : list MappedRegion) : Z :=
  match g with
  | [] => 0
  | r :: rest => end_ (last rest r)
  end.

(** The tiles of the runs from row [firstRow] on, with two separator rows
    between two runs. *)
Fixpoint layoutGroups (firstRow : Z) (gs : list (list MappedRegion))
  : list tile :=
  match gs with
  | [] => []
  | g :: gs' =>
      placeTiles (s_columnCount * firstRow) (groupCells g) ++
      match gs' with
      | [] => []
      | _ :: _ =>
          placeTiles (s_columnCount * (firstRow + groupRows g))
                     (repeat colorBlack (Z.to_nat (tilesPerSeparator * s_columnCount)))
          ++ layoutGroups (firstRow + groupRows g + tilesPerSeparator) gs'
      end
  end.

(** The row index of the runs: the first row and the first address of each. *)
Fixpoint rowIndexGroups (firstRow : Z) (gs : list (list MappedRegion))
  : list (Z * Z) :=
  match gs with
  | [] => []
  | g :: gs' =>
      (firstRow, groupStart g)
      :: rowIndexGroups (firstRow + groupRows g + tilesPerSeparator) gs'
  end.

(** The rows of the runs, separators between them included. *)
Fixpoint rowsOfGroups (gs : list (list MappedRegion)) : Z :=
  match gs with
  | [] => 0
  | g :: gs' =>
      groupRows g +
      match gs' with
      | [] => 0
      | _ :: _ => tilesPerSeparator + rowsOfGroups gs'
      end
  end.

(** The row index in terms of the large regions: every large region starts
    [ceil(pagesInSpan / 512)] rows and two separator rows below the one
    before it. *)
Fixpoint rowIndex_spec (firstRow : Z) (largeRegions : list (Z * Z))
  : list (Z * Z) :=
  match largeRegions with
  | [] => []
  | lr :: rest =>
      (firstRow, fst lr)
      :: rowIndex_spec (firstRow + ceilDiv (pagesInSpan lr) s_columnCount
                        + tilesPerSeparator) rest
  end.

(** The address of page [p] of a region. *)
Definition pageAddress (r : MappedRegion) (p : nat) : Z :=
  start r + pageSize * Z.of_nat p.

(** The painter in front of cell [k], with [i] regions painted. *)
Definition painterAt (k : Z) (i : nat) (tiles : list tile)
    (rowIndex : list (Z * Z)) : painter :=
  {| row := k / s_columnCount; column := k mod s_columnCount;
     iMappedRegion := Z.of_nat i; tiles := tiles; rowIndex := rowIndex |}.

(** A run: every region starts behind the end of the one before it, at most
    64 pages behind. *)
Fixpoint chained (r : MappedRegion) (rest : list MappedRegion) : Prop :=
  match rest with
  | [] => True
  | next :: rest' =>
      end_ r <= start next <= end_ r + 64 * pageSize /\ chained next rest'
  end.

Definition runOk (g : list MappedRegion) : Prop :=
  match g with
  | [] => False
  | r :: rest => chained r rest
  end.

(** Runs that lie more than 64 pages apart. *)
Fixpoint separated (gs : list (list MappedRegion)) : Prop :=
  match gs with
  | [] => True
  | g :: gs' =>
      runOk g /\
      match gs' with
      | [] => True
      | g' :: _ => groupEnd g + 64 * pageSize < groupStart g'
      end /\
      separated gs'
  end.

(** The large region of a run. *)
Definition span (g : list MappedRegion) : Z * Z := (groupStart g, groupEnd g).

(** The first row below the runs [gs] and their separators, when the first
    of them starts in row [firstRow]. *)
Fixpoint firstRowAfter (firstRow : Z) (gs : list (list MappedRegion)) : Z :=
  match gs with
  | [] => firstRow
  | g :: gs' => firstRowAfter (firstRow + groupRows g + tilesPerSeparator) gs'
  end.

(** Large regions in ascending order: each runs from a lower to a higher
    address and ends more than 64 pages below the next one. *)
Fixpoint farApart (largeRegions : list (Z * Z)) : Prop :=
  match largeRegions with
  | [] => True
  | a :: rest =>
      fst a <= snd a /\
      match rest with
      | [] => True
      | b :: _ => snd a + 64 * pageSize < fst b
      end /\
      farApart rest
  end.

(** The region [r] lies inside the large region [lr]. *)
Definition within (r : MappedRegion) (lr : Z * Z) : Prop :=
  fst lr <= start r /\ end_ r <= snd lr.

End Layout.

(** ** The pixels: [Rgb32PixelAccess] and [ColorCache] *)

Module Pixels.

(** Conversion of a [uint] to [int] (two's complement): [setPixel] takes
    [int] coordinates and is called with [uint]s. *)
Definition to_int32 (z : Z) : Z := if z <? 2 ^ 31 then z else z - 2 ^ 32.

Definition is_int (z : Z) : bool := (- 2 ^ 31 <=? z) && (z <? 2 ^ 31).

(** [class Rgb32PixelAccess]: the bits of the image as [quint32] words, row
    after row.  [m_height] is stored and never read. *)
Record Rgb32PixelAccess : Type := mkRgb32PixelAccess {
  m_width : Z;
  m_height : Z;
  m_buffer : list Z
}.

(** The index [y * m_width + x] of a pixel, formed in [int].  It has no
    defined value when the arithmetic overflows, and the access has none
    when the index lies outside the buffer. *)
Definition pixelIndex (img : Rgb32PixelAccess) (x y : Z) : result nat :=
  let product := y * m_width img in
  let index := product + x in
  if is_int product && is_int index
     && (0 <=? index) && (index <? Z.of_nat (length (m_buffer img)))
  then Ok (Z.to_nat index)
  else Fault OutOfBounds.

Definition pixel (img : Rgb32PixelAccess) (x y : Z) : result Z :=
  i <- pixelIndex img x y ;; of_option (nth_error (m_buffer img) i).

(** [m_buffer[i] = v] *)
Fixpoint store (l : list Z) (i : nat) (v : Z) : list Z :=
  match l, i with
  | [], _ => []
  | _ :: l', O => v :: l'
  | a :: l', S i' => a :: store l' i' v
  end.

(** [0xff << 24], converted to [quint32] for the [|]. *)
Definition opaque : Z := wrap32 (Z.shiftl 0xff 24).

Definition setPixel (img : Rgb32PixelAccess) (x y value : Z)
  : result Rgb32PixelAccess :=
  i <- pixelIndex img x y ;;
  Ok {| m_width := m_width img; m_height := m_height img;
        m_buffer := store (m_buffer img) i (Z.lor value opaque) |}.

(** [class ColorCache]. *)
Record ColorCache : Type := mkColorCache {
  m_cachedColor : Z;
  m_colorCache : list Z
}.

(** The constructor: [m_cachedColor(0)] and sixteen entries set to 0. *)
Definition newColorCache : ColorCache :=
  {| m_cachedColor := 0;
     m_colorCache := repeat 0 (Z.to_nat (Mosaic.s_pixelsPerTile * Mosaic.s_pixelsPerTile)) |}.

Section Colors.

(** [QColor] with the two member functions that [ColorCache] calls; they
    belong to Qt and are left open here. *)
Variable QColor : Type.
Variable rgb : QColor -> Z.
Variable darker : QColor -> Z -> QColor.

(** [for (uint i = 0; i < 16; i++) { m_colorCache[i] = c.rgb(); c = c.darker(115); }] *)
Fixpoint updateColors_loop (n i : nat) (c : QColor) (cache : list Z) : list Z :=
  match n with
  | O => cache
  | S n' => updateColors_loop n' (S i) (darker c 115) (store cache i (rgb c))
  end.

Definition maybeUpdateColors (cc : ColorCache) (color : QColor) : ColorCache :=
  if rgb color =? m_cachedColor cc then cc
  else {| m_cachedColor := rgb color;
          m_colorCache :=
            updateColors_loop
              (Z.to_nat (Mosaic.s_pixelsPerTile * Mosaic.s_pixelsPerTile)) 0
              color (m_colorCache cc) |}.

(** [for (y = yStart ; y < yEnd; y++) img->setPixel(x, y, m_colorCache[colorIndex])] *)
Fixpoint paintTile_column (fuel : nat) (img : Rgb32PixelAccess)
    (x y yEnd : Z) (cache : list Z) (colorIndex : Z)
  : result Rgb32PixelAccess :=
  if y <? yEnd then
    match fuel with
    | O => Fault FuelExhausted
    | S fuel' =>
        value <- of_option (nth_error cache (Z.to_nat colorIndex)) ;;
        img1 <- setPixel img (to_int32 x) (to_int32 y) value ;;
        paintTile_column fuel' img1 x (wrap32 (y + 1)) yEnd cache colorIndex
    end
  else Ok img.

(** [for (x = x * tileSize ; x < xEnd; x++)] *)
Fixpoint paintTile_columns (fuel : nat) (img : Rgb32PixelAccess)
    (x xEnd yStart yEnd : Z) (cache : list Z) (colorIndex : Z)
  : result Rgb32PixelAccess :=
  if x <? xEnd then
    match fuel with
    | O => Fault FuelExhausted
    | S fuel' =>
        img1 <- paintTile_column (Z.to_nat yEnd) img x yStart yEnd
                                 cache colorIndex ;;
        paintTile_columns fuel' img1 (wrap32 (x + 1)) xEnd yStart yEnd
                          cache colorIndex
    end
  else Ok img.

(** [ColorCache::paintTile].  [colorIndex] is set to 0 and never changed. *)
Definition paintTile (cc : ColorCache) (img : Rgb32PixelAccess)
    (x y tileSize : Z) (color : QColor)
  : result (ColorCache * Rgb32PixelAccess) :=
  let cc1 := maybeUpdateColors cc color in
  let yStart := wrap32 (y * tileSize) in
  let xEnd := wrap32 (wrap32 (x + 1) * tileSize) in
  let yEnd := wrap32 (wrap32 (y + 1) * tileSize) in
  let colorIndex := 0 in
  img1 <- paintTile_columns (Z.to_nat xEnd) img (wrap32 (x * tileSize)) xEnd
                            yStart yEnd (m_colorCache cc1) colorIndex ;;
  Ok (cc1, img1).

(** The calls [cc.paintTile(&pixels, column, row, s_pixelsPerTile, color)]
    of [updatePageInfo], one for every painted tile, in the order of the
    tiles; [colorOf] gives the [QColor] of a colour constant. *)
Fixpoint paintTiles (colorOf : Classify.QColor -> QColor)
    (cc : ColorCache) (img : Rgb32PixelAccess) (tiles : list Mosaic.tile)
  : result (ColorCache * Rgb32PixelAccess) :=
  match tiles with
  | [] => Ok (cc, img)
  | (column, row, color) :: tiles' =>
      x <- paintTile cc img column row Mosaic.s_pixelsPerTile (colorOf color) ;;
      paintTiles colorOf (fst x) (snd x) tiles'
  end.

End Colors.

(** An image buffer of [m_width * m_height] pixels whose indices fit an
    [int]. *)
Definition imageOk (img : Rgb32PixelAccess) : Prop :=
  0 < m_width img /\ 0 <= m_height img /\
  Z.of_nat (length (m_buffer img)) = m_width img * m_height img /\
  m_width img * m_height img < 2 ^ 31.

(** The first entry of the cache is the colour the cache was filled for. *)
Definition cacheOk (cc : ColorCache) : Prop :=
  nth_error (m_colorCache cc) 0 = Some (m_cachedColor cc).

End Pixels.

(** ** [updatePageInfo] with its image *)

Module Picture.

Import Decoder Classify Mosaic.

(** What [updatePageInfo] leaves behind: [m_regions], [m_largeRegions] and
    the image [m_img], seen through [Rgb32PixelAccess]. *)
Record picture : Type := mkPicture {
  m_regions : list MappedRegion;
  m_largeRegions : list (Z * Z);
  m_img : Pixels.Rgb32PixelAccess
}.

(** The [ColorCache] [cc] and the image behind [pixels]. *)
Definition canvas : Type := (Pixels.ColorCache * Pixels.Rgb32PixelAccess)%type.

(** The local variables of the painting loops. *)
Record painter : Type := mkPainter {
  row : Z;                       (* uint *)
  column : Z;                    (* uint *)
  iMappedRegion : Z;             (* size_t *)
  drawn : canvas;                (* cc, pixels *)
  rowIndex : list (Z * Z)        (* m_largeRegions *)
}.

Section Painting.

(** What belongs to Qt: [QColor] with [rgb()] and [darker()], the memory
    [QImage(width, height, QImage::Format_RGB32).bits()] of a new image as
    [quint32] words, which Qt allocates and does not initialise, and the
    [QColor] of every colour constant.  They are left open; a statement
    about the picture says what it needs of them. *)
Variable QColor : Type.
Variable rgb : QColor -> Z.
Variable darker : QColor -> Z -> QColor.
Variable bits : Z -> Z -> list Z.
Variable colorOf : Classify.QColor -> QColor.

(** [cc.paintTile(&pixels, column, row, s_pixelsPerTile, color)] *)
Definition paint (c : canvas) (column row : Z) (color : Classify.QColor)
  : result canvas :=
  Pixels.paintTile QColor rgb darker (fst c) (snd c) column row
                   s_pixelsPerTile (colorOf color).

(** The calls of [cc.paintTile] for a list of tiles, one after the other. *)
Fixpoint replay (c : canvas) (tiles : list tile) : result canvas :=
  match tiles with
  | [] => Ok c
  | (column, row, color) :: tiles' =>
      c1 <- paint c column row color ;; replay c1 tiles'
  end.

(** [for ( ; column < endColumn; column++, iPage++)] over the pages of a
    region. *)
Fixpoint paintPageTiles (fuel : nat) (region : MappedRegion)
    (row endColumn column iPage : Z) (c : canvas)
  : result (Z * Z * canvas) :=
  if column <? endColumn then
    match fuel with
    | O => Fault FuelExhausted
    | S fuel' =>
        flags <- of_option (nth_error (combinedFlags region) (Z.to_nat iPage)) ;;
        useCount <- of_option (nth_error (useCounts region) (Z.to_nat iPage)) ;;
        c1 <- paint c column row (pageColor flags useCount) ;;
        paintPageTiles fuel' region row endColumn
          (wrap32 (column + 1)) (wrap64 (iPage + 1)) c1
    end
  else Ok (column, iPage, c).

(** [while (iPage < region->useCounts.size())]. *)
Fixpoint paintPages (fuel : nat) (region : MappedRegion)
    (row column iPage : Z) (c : canvas)
  : result (Z * Z * Z * canvas) :=
  let size := Z.of_nat (length (useCounts region)) in
  if iPage <? size then
    match fuel with
    | O => Fault FuelExhausted
    | S fuel' =>
        let endColumn :=
          Z.min (wrap64 (wrap64 (column + size) - iPage)) s_columnCount in
        x <- paintPageTiles (Z.to_nat s_columnCount) region row endColumn
                            column iPage c ;;
        let '(column1, iPage1, c1) := x in
        if column1 =? s_columnCount
        then paintPages fuel' region (wrap32 (row + 1)) 0 iPage1 c1
        else paintPages fuel' region row column1 iPage1 c1
    end
  else Ok (row, column, iPage, c).

(** [for ( ; column < endColumn; column++)] painting gap tiles. *)
Fixpoint paintGapTiles (fuel : nat) (row endColumn column : Z) (c : canvas)
  : result (Z * canvas) :=
  if column <? endColumn then
    match fuel with
    | O => Fault FuelExhausted
    | S fuel' =>
        c1 <- paint c column row colorCyan ;;
        paintGapTiles fuel' row endColumn (wrap32 (column + 1)) c1
    end
  else Ok (column, c).

(** [while (gapPages)]. *)
Fixpoint paintGap (fuel : nat) (gapPages row column : Z) (c : canvas)
  : result (Z * Z * canvas) :=
  if negb (gapPages =? 0) then
    match fuel with
    | O => Fault FuelExhausted
    | S fuel' =>
        let endColumn := Z.min s_columnCount (wrap64 (column + gapPages)) in
        let gapPages1 := wrap64 (gapPages - wrap64 (endColumn - column)) in
        x <- paintGapTiles (Z.to_nat s_columnCount) row endColumn column c ;;
        let '(column1, c1) := x in
        if column1 =? s_columnCount
        then paintGap fuel' gapPages1 (wrap32 (row + 1)) 0 c1
        else paintGap fuel' gapPages1 row column1 c1
    end
  else Ok (row, column, c).

(** The body of
    [for ( ;region->end <= largeRegion.second; region = &regions[iMappedRegion])]
    for one mapped region, up to the test that leaves the loop. *)
Definition paintMappedRegion (regions : list MappedRegion)
    (largeRegion : Z * Z) (region : MappedRegion) (p : painter)
  : result painter :=
  let size := Z.of_nat (length regions) in
  _ <- assertion (iMappedRegion p <? size) ;;
  _ <- assertion (start region <=? end_ region) ;;
  x <- paintPages (S (length (useCounts region))) region
                  (row p) (column p) 0 (drawn p) ;;
  let '(row1, column1, iPage, c1) := x in
  _ <- assertion (wrap64 (start region + wrap64 (iPage * pageSize))
                  =? end_ region) ;;
  let iMappedRegion1 := wrap64 (iMappedRegion p + 1) in
  _ <- assertion (column1 <=? s_columnCount) ;;
  let gapPages0 :=
    if column1 =? 0 then 0 else wrap32 (s_columnCount - column1) in
  gapPages <-
    (if iMappedRegion1 <? size then
       next <- of_option (nth_error regions (Z.to_nat iMappedRegion1)) ;;
       if start next <? snd largeRegion then
         _ <- assertion (end_ region <=? start next) ;;
         Ok (wrap64 (start next - end_ region) / pageSize)
       else Ok gapPages0
     else Ok gapPages0) ;;
  _ <- assertion (gapPages <? s_columnCount) ;;
  y <- paintGap (S (Z.to_nat gapPages)) gapPages row1 column1 c1 ;;
  let '(row2, column2, c2) := y in
  _ <- assertion (end_ region <=? snd largeRegion) ;;
  Ok {| row := row2; column := column2; iMappedRegion := iMappedRegion1;
        drawn := c2; rowIndex := rowIndex p |}.

(** The loop over the mapped regions of one large region; it is left when the
    next region ends behind the large region or when there is no next
    region. *)
Fixpoint paintMappedRegions (fuel : nat) (regions : list MappedRegion)
    (largeRegion : Z * Z) (p : painter) : result painter :=
  region <- of_option (nth_error regions (Z.to_nat (iMappedRegion p))) ;;
  if end_ region <=? snd largeRegion then
    match fuel with
    | O => Fault FuelExhausted
    | S fuel' =>
        p1 <- paintMappedRegion regions largeRegion region p ;;
        if Z.of_nat (length regions) <=? iMappedRegion p1 then Ok p1
        else paintMappedRegions fuel' regions largeRegion p1
    end
  else Ok p.

(** [for (uint x = 0 ; x < s_columnCount; x++)]: a line of black tiles. *)
Fixpoint paintLine (xs : list nat) (y : Z) (c : canvas) : result canvas :=
  match xs with
  | [] => Ok c
  | x :: xs' => c1 <- paint c (Z.of_nat x) y colorBlack ;; paintLine xs' y c1
  end.

(** The separator: [for (uint y = row; y < row + tilesPerSeparator && y <
    rowCount; y++)]. *)
Fixpoint paintSeparator (fuel : nat) (row0 rowCount y : Z) (c : canvas)
  : result canvas :=
  match fuel with
  | O => Ok c
  | S fuel' =>
      if (y <? wrap32 (row0 + tilesPerSeparator)) && (y <? rowCount) then
        c1 <- paintLine (seq 0 (Z.to_nat s_columnCount)) y c ;;
        paintSeparator fuel' row0 rowCount (wrap32 (y + 1)) c1
      else Ok c
  end.

(** The body of [for (pair<quint64, quint64> largeRegion : largeRegions)]. *)
Definition paintLargeRegion (regions : list MappedRegion) (rowCount : Z)
    (largeRegion : Z * Z) (p : painter) : result painter :=
  _ <- assertion (iMappedRegion p <? Z.of_nat (length regions)) ;;
  region <- of_option (nth_error regions (Z.to_nat (iMappedRegion p))) ;;
  let p0 := {| row := row p; column := 0; iMappedRegion := iMappedRegion p;
               drawn := drawn p;
               rowIndex := rowIndex p ++ [(row p, start region)] |} in
  p1 <- paintMappedRegions (S (length regions)) regions largeRegion p0 ;;
  _ <- assertion (column p1 =? 0) ;;
  c <- paintSeparator (Z.to_nat tilesPerSeparator) (row p1) rowCount (row p1)
                      (drawn p1) ;;
  Ok {| row := wrap32 (row p1 + tilesPerSeparator);
        column := column p1;
        iMappedRegion := iMappedRegion p1;
        drawn := c;
        rowIndex := rowIndex p1 |}.

Fixpoint paintLargeRegions (regions : list MappedRegion) (rowCount : Z)
    (largeRegions : list (Z * Z)) (p : painter) : result painter :=
  match largeRegions with
  | [] => Ok p
  | largeRegion :: rest =>
      p1 <- paintLargeRegion regions rowCount largeRegion p ;;
      paintLargeRegions regions rowCount rest p1
  end.

(** [MosaicWidget::updatePageInfo], image included: the image of
    [s_columnCount * s_pixelsPerTile] by [rowCount * s_pixelsPerTile]
    pixels ([uint] products, taken as [int]), the [Rgb32PixelAccess] on its
    bits, a new [ColorCache], and the loops of [Mosaic.updatePageInfo] with
    every tile painted where that one records it.  The assertions are those
    of a build without [NDEBUG]; for an empty [regions] the image is the
    null [QImage()]. *)
Definition updatePageInfo (regions : list MappedRegion) : result picture :=
  match regions with
  | [] =>
      Ok {| m_regions := regions; m_largeRegions := [];
            m_img := {| Pixels.m_width := 0; Pixels.m_height := 0;
                        Pixels.m_buffer := [] |} |}
  | _ :: _ =>
      _ <- assertRegionBounds regions ;;
      _ <- assertRegionOrder regions ;;
      let largeRegions := computeLargeRegions regions in
      let rowCount := computeRowCount largeRegions in
      let width := Pixels.to_int32 (wrap32 (s_columnCount * s_pixelsPerTile)) in
      let height := Pixels.to_int32 (wrap32 (rowCount * s_pixelsPerTile)) in
      let pixels := {| Pixels.m_width := width; Pixels.m_height := height;
                       Pixels.m_buffer := bits width height |} in
      p <- paintLargeRegions regions rowCount largeRegions
             {| row := 0; column := 0; iMappedRegion := 0;
                drawn := (Pixels.newColorCache, pixels); rowIndex := [] |} ;;
      Ok {| m_regions := regions; m_largeRegions := rowIndex p;
            m_img := snd (drawn p) |}
  end.

End Painting.

End Picture.

(** ** The slots that feed [updatePageInfo] *)

Module Widget.

Import Decoder Mosaic.

(** The members of [MosaicWidget] that [networkDataAvailable] uses, up to
    the image: the reader of the network stream and what the layout of the
    last [updatePageInfo] left. *)
Record state : Type := mkState {
  m_pageInfoReader : PageInfoReader;
  shown : MosaicWidget
}.

(** [MosaicWidget::networkDataAvailable] up to the image, with the layout
    of [updatePageInfo] in the place of the whole function: it stops where
    the function stops before it paints.  [data] is what [m_socket.readAll()]
    returns. *)
Definition networkDataAvailable (s : state) (data : list byte) : result state :=
  x <- addData (m_pageInfoReader s) data ;;
  if fst x
  then w <- updatePageInfo (m_mappedRegions (snd x)) ;;
       Ok {| m_pageInfoReader := snd x; shown := w |}
  else Ok {| m_pageInfoReader := snd x; shown := shown s |}.

(** The stream that the producer writes for a sequence of snapshots. *)
Definition encode_stream (snapshots : list (list MappedRegion)) : list byte :=
  concat (map Wire.encode_frame snapshots).

End Widget.

(** ** The slots with the image *)

Module Display.

Import Decoder Mosaic.

(** The members of [MosaicWidget] that the slots use: the reader of the
    network stream and what the last [updatePageInfo] left. *)
Record state : Type := mkState {
  m_pageInfoReader : PageInfoReader;
  shown : Picture.picture
}.

Section Slots.

(** What belongs to Qt, as in [Picture]. *)
Variable QColor : Type.
Variable rgb : QColor -> Z.
Variable darker : QColor -> Z -> QColor.
Variable bits : Z -> Z -> list Z.
Variable colorOf : Classify.QColor -> QColor.

(** [MosaicWidget::networkDataAvailable]; [data] is what
    [m_socket.readAll()] returns. *)
Definition networkDataAvailable (s : state) (data : list byte) : result state :=
  x <- addData (m_pageInfoReader s) data ;;
  if fst x
  then p <- Picture.updatePageInfo QColor rgb darker bits colorOf
              (m_mappedRegions (snd x)) ;;
       Ok {| m_pageInfoReader := snd x; shown := p |}
  else Ok {| m_pageInfoReader := snd x; shown := shown s |}.

(** One call of the slot for every chunk that the socket delivers. *)
Fixpoint receiveAll (s : state) (chunks : list (list byte)) : result state :=
  match chunks with
  | [] => Ok s
  | c :: chunks' => s1 <- networkDataAvailable s c ;; receiveAll s1 chunks'
  end.

(** [MosaicWidget::localUpdateTimeout]; [mappedRegions] is what
    [PageInfo(m_pid).mappedRegions()] returns.  An empty reading emits
    [showPageInfo(0, 0, QString())] and leaves the picture as it is. *)
Definition localUpdateTimeout (s : state) (mappedRegions : list MappedRegion)
  : result (state * list signal) :=
  match mappedRegions with
  | [] => Ok (s, [showPageInfo 0 0 []])
  | _ :: _ =>
      p <- Picture.updatePageInfo QColor rgb darker bits colorOf mappedRegions ;;
      Ok ({| m_pageInfoReader := m_pageInfoReader s; shown := p |}, [])
  end.

(** A snapshot that has a wire form, that the layout is made for, and,
    unless it is empty, whose image Qt has allocated: fewer than [2^18]
    rows, so that the index of a pixel fits an [int], and
    [2048 x 4 * rows] words behind [bits()]. *)
Definition paintable (regions : list MappedRegion) : Prop :=
  Forall Wire.wireRegion regions /\
  Layout.wellFormed regions /\
  (regions <> [] ->
   rowCount_spec (computeLargeRegions regions) < 2 ^ 18 /\
   Z.of_nat (length (bits 2048 (4 * rowCount_spec (computeLargeRegions regions))))
   = 2048 * (4 * rowCount_spec (computeLargeRegions regions))).

End Slots.

End Display.
(** * Facts about machine integers and bits *)

(** Closed propositions over concrete data are settled by evaluation. *)
Ltac closed_prop :=
  lazymatch goal with
  | |- _ /\ _ => split; closed_prop
  | |- (_ <= _)%Z => apply Z.leb_le; vm_compute; reflexivity
  | |- (_ < _)%Z => apply Z.ltb_lt; vm_compute; reflexivity
  | |- (_ <= _)%nat => apply Nat.leb_le; vm_compute; reflexivity
  | |- Forall ?P ?l =>
      let l' := eval vm_compute in l in
      change (Forall P l');
      lazymatch l' with
      | [] => constructor
      | _ => constructor; closed_prop
      end
  | |- _ <> _ => discriminate
  | |- _ = _ => vm_compute; reflexivity
  | |- _ => progress hnf; closed_prop
  end.

Section Bits.

Lemma wrap32_small (z : Z) : 0 <= z < 2 ^ 32 -> wrap32 z = z.
Proof. intros H. unfold wrap32. apply Z.mod_small. exact H. Qed.

Lemma wrap64_small (z : Z) : 0 <= z < 2 ^ 64 -> wrap64 z = z.
Proof. intros H. unfold wrap64. apply Z.mod_small. exact H. Qed.

Lemma land_pow2_eq0 (a i : Z) :
  0 <= i -> (Z.land a (2 ^ i) =? 0) = negb (Z.testbit a i).
Proof.
  intros Hi.
  destruct (Z.testbit a i) eqn:Hb; simpl.
  - apply Z.eqb_neq. intros H0.
    assert (Hc : Z.testbit (Z.land a (2 ^ i)) i = true).
    { rewrite Z.land_spec, Hb, Z.pow2_bits_true by exact Hi. reflexivity. }
    rewrite H0, Z.bits_0 in Hc. discriminate.
  - apply Z.eqb_eq. apply Z.bits_inj'. intros n Hn.
    rewrite Z.land_spec, Z.bits_0, Z.pow2_bits_eqb by exact Hi.
    destruct (Z.eqb_spec i n) as [->|_].
    + rewrite Hb. reflexivity.
    + apply andb_false_r.
Qed.

Lemma shiftl_1_wrap32 (i : Z) :
  0 <= i < 32 -> wrap32 (Z.shiftl 1 i) = 2 ^ i.
Proof.
  intros Hi. rewrite Z.shiftl_1_l. apply wrap32_small. split.
  - apply Z.pow_nonneg. lia.
  - apply Z.pow_lt_mono_r; lia.
Qed.

End Bits.

Section PageFlagsFacts.

Import PageFlags.
Local Open Scope string_scope.

Lemma isFlagSet_testbit (flags i : Z) :
  (0 <= i < 32)%Z -> isFlagSet flags i = Z.testbit flags i.
Proof.
  intros Hi. unfold isFlagSet.
  rewrite shiftl_1_wrap32 by exact Hi.
  rewrite land_pow2_eq0 by lia. apply negb_involutive.
Qed.

Lemma string_app_assoc (a b c : string) : (a ++ b) ++ c = a ++ b ++ c.
Proof. induction a as [|ch a IH]; simpl; [reflexivity | now rewrite IH]. Qed.

Lemma string_app_nil_r (a : string) : a ++ "" = a.
Proof. induction a as [|ch a IH]; simpl; [reflexivity | now rewrite IH]. Qed.

Lemma string_length_app (a b : string) :
  String.length (a ++ b) = (String.length a + String.length b)%nat.
Proof. induction a as [|ch a IH]; simpl; [reflexivity | now rewrite IH]. Qed.

Lemma substring_0_app (a b : string) (k : nat) :
  substring 0 (String.length a + k) (a ++ b) = a ++ substring 0 k b.
Proof. induction a as [|ch a IH]; simpl; [reflexivity | now rewrite IH]. Qed.

Lemma substring_0_0 (s : string) : substring 0 0 s = "".
Proof. destruct s; reflexivity. Qed.

Lemma terminated_length (n : string) (rest : list string) :
  (2 <= String.length (terminated (n :: rest)))%nat.
Proof. simpl. rewrite !string_length_app. simpl. lia. Qed.

Lemma chop_terminated (names : list string) :
  names <> [] ->
  resize (terminated names) (String.length (terminated names) - 2)
  = String.concat ", " names.
Proof.
  unfold resize.
  induction names as [|n rest IH]; intros Hne; [congruence|].
  destruct rest as [|m rest].
  - simpl. rewrite string_length_app. simpl.
    replace (String.length n + 2 - 2)%nat with (String.length n + 0)%nat by lia.
    rewrite substring_0_app. simpl. apply string_app_nil_r.
  - assert (Hlen := terminated_length m rest).
    change (terminated (n :: m :: rest))
      with (n ++ ", " ++ terminated (m :: rest)).
    change (String.concat ", " (n :: m :: rest))
      with (n ++ ", " ++ String.concat ", " (m :: rest)).
    rewrite <- IH by discriminate.
    rewrite !string_length_app.
    remember (terminated (m :: rest)) as t eqn:Ht.
    replace (String.length n + (String.length ", " + String.length t) - 2)%nat
      with (String.length n + (String.length ", " + (String.length t - 2)))%nat
      by (change (String.length ", ") with 2%nat; lia).
    rewrite substring_0_app.
    rewrite (substring_0_app ", "). reflexivity.
Qed.

(** The loop, from bit [k] on, in closed form. *)
Lemma printablePageFlags_loop_spec (flags : Z) (n k : nat) (ret : string) :
  (k + n <= 32)%nat ->
  printablePageFlags_loop n (Z.of_nat k) flags ret =
  let set := filter (fun i => Z.testbit flags (Z.of_nat i)) (seq k n) in
  if forallb named set
  then Ok (ret ++ terminated (map flagName set))
  else Fault AssertFailed.
Proof.
  revert k ret. induction n as [|n IH]; intros k ret Hk.
  - simpl. now rewrite string_app_nil_r.
  - cbn [printablePageFlags_loop seq filter].
    rewrite isFlagSet_testbit by lia.
    rewrite Nat2Z.id.
    replace (Z.of_nat k + 1)%Z with (Z.of_nat (S k)) by lia.
    destruct (Z.testbit flags (Z.of_nat k)) eqn:Hb.
    + cbn [forallb map terminated]. unfold named at 1, flagName at 1.
      destruct (nth k pageFlagNames None) as [name|] eqn:Hn.
      * rewrite IH by lia. cbv zeta. simpl andb.
        destruct (forallb named _); [|reflexivity].
        now rewrite !string_app_assoc.
      * reflexivity.
    + apply IH. lia.
Qed.

End PageFlagsFacts.

Section ReservedBits.

Import PageFlags.

Lemma named_spec (i : nat) :
  (i < 32)%nat -> named i = negb ((23 <=? i)%nat && (i <=? 27)%nat).
Proof.
  intros Hi.
  do 32 (destruct i as [|i]; [reflexivity|]). lia.
Qed.

Lemma reservedMask_bits (n : Z) :
  Z.testbit reservedMask n = (23 <=? n) && (n <=? 27).
Proof.
  change reservedMask with (Z.shiftl (Z.ones 5) 23).
  destruct (Z.ltb_spec n 0) as [Hneg|Hnn].
  - rewrite Z.testbit_neg_r by lia.
    destruct (Z.leb_spec 23 n); [lia | reflexivity].
  - rewrite Z.shiftl_spec by lia.
    destruct (Z.leb_spec 23 n) as [H23|H23]; simpl.
    + destruct (Z.leb_spec n 27) as [H27|H27].
      * apply Z.ones_spec_low. lia.
      * apply Z.ones_spec_high. lia.
    + apply Z.testbit_neg_r. lia.
Qed.

Lemma reserved_clear_iff (flags : Z) :
  Z.land flags reservedMask = 0 <->
  (forall i, 23 <= i <= 27 -> Z.testbit flags i = false).
Proof.
  split.
  - intros H i Hi.
    assert (Hb : Z.testbit (Z.land flags reservedMask) i = false)
      by (rewrite H; apply Z.bits_0).
    rewrite Z.land_spec, reservedMask_bits in Hb.
    destruct (Z.leb_spec 23 i); [|lia].
    destruct (Z.leb_spec i 27); [|lia].
    now rewrite andb_true_r in Hb.
  - intros H. apply Z.bits_inj'. intros n Hn.
    rewrite Z.land_spec, Z.bits_0, reservedMask_bits.
    destruct (Z.leb_spec 23 n); [|apply andb_false_r].
    destruct (Z.leb_spec n 27); [|apply andb_false_r].
    rewrite H by lia. reflexivity.
Qed.

Lemma all_named_iff (flags : Z) :
  forallb named (setFlags flags) = true <-> Z.land flags reservedMask = 0.
Proof.
  rewrite reserved_clear_iff, forallb_forall. unfold setFlags. split.
  - intros H i Hi.
    destruct (Z.testbit flags i) eqn:Hb; [|reflexivity].
    assert (Hn : named (Z.to_nat i) = true).
    { apply H. apply filter_In. split.
      - apply in_seq. lia.
      - rewrite Z2Nat.id by lia. exact Hb. }
    rewrite named_spec in Hn by lia.
    destruct (Nat.leb_spec 23 (Z.to_nat i)); [|lia].
    destruct (Nat.leb_spec (Z.to_nat i) 27); [|lia].
    discriminate.
  - intros H i Hi. apply filter_In in Hi. destruct Hi as [Hin Hb].
    apply in_seq in Hin. rewrite named_spec by lia.
    destruct (Nat.leb_spec 23 i); [|reflexivity].
    destruct (Nat.leb_spec i 27); [|reflexivity].
    rewrite H in Hb by lia. discriminate.
Qed.

Lemma printablePageFlags_closed (flags : Z) :
  printablePageFlags flags =
  if forallb named (setFlags flags)
  then Ok (String.concat ", " (setFlagNames flags))
  else Fault AssertFailed.
Proof.
  unfold printablePageFlags.
  assert (Hloop : printablePageFlags_loop 32 0 flags EmptyString =
     if forallb named (setFlags flags)
     then Ok (EmptyString ++ terminated (setFlagNames flags))%string
     else Fault AssertFailed).
  { exact (printablePageFlags_loop_spec flags 32 0 EmptyString (Nat.le_refl 32)). }
  change (Z.to_nat pageFlagCount) with 32%nat.
  rewrite Hloop. clear Hloop.
  destruct (forallb named (setFlags flags)); [|reflexivity].
  cbn [bind append]. f_equal.
  destruct (setFlagNames flags) as [|n rest] eqn:Hs.
  - reflexivity.
  - assert (Hlen := terminated_length n rest).
    destruct (Nat.leb_spec 2 (String.length (terminated (n :: rest)))); [|lia].
    apply chop_terminated. discriminate.
Qed.

End ReservedBits.

(** C9 (as the code has it): [printablePageFlags] is defined exactly on the
    flag words whose reserved bits 23..27 are clear.  On such a word it
    returns the names of the set flags in ascending bit order, joined by
    ", "; on a word with one of the bits 23..27 set the assertion
    [assert(pageFlagNames[i])] fails, because the table holds no name for
    these bits. *)
Theorem printablePageFlags_defined_iff_reserved_clear (flags : Z) :
  (PageFlags.printablePageFlags flags = Fault AssertFailed <->
   Z.land flags PageFlags.reservedMask <> 0) /\
  (Z.land flags PageFlags.reservedMask = 0 ->
   PageFlags.printablePageFlags flags =
   Ok (String.concat ", " (PageFlags.setFlagNames flags))).
Proof.
  rewrite printablePageFlags_closed.
  pose proof (all_named_iff flags) as Hiff.
  destruct (forallb PageFlags.named (PageFlags.setFlags flags)).
  - assert (H0 : Z.land flags PageFlags.reservedMask = 0) by (apply Hiff; reflexivity).
    split; [|reflexivity].
    split; [discriminate | intros Hne; contradiction].
  - split.
    + split; [|reflexivity].
      intros _ H0. apply Hiff in H0. discriminate.
    + intros H0. apply Hiff in H0. discriminate.
Qed.

Lemma printablePageFlags_defined_witness :
  Z.land (2 ^ 31 + 2 ^ 11 + 1) PageFlags.reservedMask = 0 /\
  PageFlags.printablePageFlags (2 ^ 31 + 2 ^ 11 + 1) =
  Ok "LOCKED, MMAP, PRESENT"%string.
Proof.
  split; [reflexivity|].
  exact (proj2 (printablePageFlags_defined_iff_reserved_clear (2 ^ 31 + 2 ^ 11 + 1))
               eq_refl).
Defined.

(** C9, the claim as stated fails: on the 32-bit flag word with only the
    reserved bit 23 set the function does not return a string, its
    assertion fails. *)
Lemma printablePageFlags_reserved_bit_fails :
  is_u32 (Z.shiftl 1 23) /\
  PageFlags.printablePageFlags (Z.shiftl 1 23) = Fault AssertFailed.
Proof. split; [unfold is_u32; simpl; lia | reflexivity]. Qed.

Section ClassifyFacts.

Import Classify.

Lemma flagBit_testbit (flags i : Z) :
  0 <= i < 32 -> flagBit flags i = Z.testbit flags i.
Proof.
  intros Hi. unfold flagBit.
  rewrite shiftl_1_wrap32 by exact Hi.
  rewrite land_pow2_eq0 by lia. apply negb_involutive.
Qed.

End ClassifyFacts.


(** * The wire format: reading back what was written *)

Section WireFacts.

Import Decoder Wire.

Lemma byte_to_Z_range (b : byte) : 0 <= byte_to_Z b < 256.
Proof.
  unfold byte_to_Z. pose proof (Byte.to_N_bounded b) as H. lia.
Qed.

Lemma byte_to_of_Z (z : Z) : byte_to_Z (byte_of_Z z) = z mod 256.
Proof.
  unfold byte_to_Z, byte_of_Z.
  assert (Hr : 0 <= z mod 256 < 256) by (apply Z.mod_pos_bound; lia).
  destruct (Byte.of_N (Z.to_N (z mod 256))) as [b|] eqn:Hb.
  - apply Byte.to_of_N in Hb. rewrite Hb. lia.
  - apply Byte.of_N_None_iff in Hb. lia.
Qed.

Lemma length_encode_uint (n : nat) (z : Z) : length (encode_uint n z) = n.
Proof.
  revert z. induction n as [|n IH]; intros z; simpl; [reflexivity|].
  now rewrite IH.
Qed.

Lemma le_to_Z_encode_uint (n : nat) (z : Z) :
  0 <= z < 256 ^ Z.of_nat n -> le_to_Z (encode_uint n z) = z.
Proof.
  revert z. induction n as [|n IH]; intros z Hz.
  - simpl in *. lia.
  - cbn [encode_uint le_to_Z fold_right].
    fold (le_to_Z (encode_uint n (z / 256))).
    rewrite byte_to_of_Z.
    rewrite Nat2Z.inj_succ, Z.pow_succ_r in Hz by lia.
    rewrite IH.
    + pose proof (Z.div_mod z 256). lia.
    + split; [apply Z.div_pos; lia | apply Z.div_lt_upper_bound; lia].
Qed.

Lemma le_to_Z_range (bs : list byte) :
  0 <= le_to_Z bs < 256 ^ Z.of_nat (length bs).
Proof.
  induction bs as [|b bs IH].
  - simpl. lia.
  - cbn [le_to_Z fold_right length]. fold (le_to_Z bs).
    rewrite Nat2Z.inj_succ, Z.pow_succ_r by lia.
    pose proof (byte_to_Z_range b). lia.
Qed.

Lemma slice_app (a b c : list byte) :
  slice (a ++ b ++ c) (Z.of_nat (length a)) (Z.of_nat (length b)) = b.
Proof.
  unfold slice. rewrite !Nat2Z.id.
  rewrite skipn_app, skipn_all, Nat.sub_diag. simpl.
  rewrite firstn_app, firstn_all, Nat.sub_diag. simpl.
  apply app_nil_r.
Qed.

Lemma read_bytes_app (a b c : list byte) :
  read_bytes (a ++ b ++ c) (Z.of_nat (length a)) (Z.of_nat (length b)) = Ok b.
Proof.
  unfold read_bytes.
  destruct (Z.eqb_spec (Z.of_nat (length b)) 0) as [H0|H0].
  - destruct b; [reflexivity | simpl in H0; lia].
  - rewrite !length_app.
    destruct (Z.leb_spec (Z.of_nat (length a) + Z.of_nat (length b))
                (Z.of_nat (length a + (length b + length c)))); [|lia].
    now rewrite slice_app.
Qed.

Lemma read_u64_app (a c : list byte) (z : Z) :
  is_u64 z -> read_u64 (a ++ encode_uint 8 z ++ c) (Z.of_nat (length a)) = Ok z.
Proof.
  intros Hz. unfold read_u64.
  change sizeof_uint64_t with (Z.of_nat 8).
  rewrite <- (length_encode_uint 8 z) at 2.
  rewrite read_bytes_app. cbn [bind].
  now rewrite le_to_Z_encode_uint.
Qed.

Lemma read_u32_app (a c : list byte) (z : Z) :
  is_u32 z -> read_u32 (a ++ encode_uint 4 z ++ c) (Z.of_nat (length a)) = Ok z.
Proof.
  intros Hz. unfold read_u32.
  change sizeof_uint32_t with (Z.of_nat 4).
  rewrite <- (length_encode_uint 4 z) at 2.
  rewrite read_bytes_app. cbn [bind].
  now rewrite le_to_Z_encode_uint.
Qed.

Lemma length_encode_u32s (l : list Z) :
  length (flat_map (encode_uint 4) l) = (4 * length l)%nat.
Proof.
  induction l as [|z l IH]; [reflexivity|].
  cbn [flat_map]. rewrite length_app, length_encode_uint, IH. simpl. lia.
Qed.

Lemma u32s_of_bytes_encode (l : list Z) :
  Forall is_u32 l -> u32s_of_bytes (flat_map (encode_uint 4) l) = l.
Proof.
  induction 1 as [|z l Hz _ IH]; [reflexivity|].
  change (flat_map (encode_uint 4) (z :: l))
    with (encode_uint 4 z ++ flat_map (encode_uint 4) l).
  change (u32s_of_bytes (encode_uint 4 z ++ flat_map (encode_uint 4) l))
    with (le_to_Z (encode_uint 4 z)
          :: u32s_of_bytes (flat_map (encode_uint 4) l)).
  rewrite IH. f_equal.
  exact (le_to_Z_encode_uint 4 z Hz).
Qed.

Lemma read_u32_array_app (a c : list byte) (l : list Z) :
  Forall is_u32 l ->
  read_u32_array (a ++ flat_map (encode_uint 4) l ++ c)
                 (Z.of_nat (length a)) (Z.of_nat (length l)) = Ok l.
Proof.
  intros Hl. unfold read_u32_array.
  replace (sizeof_uint32_t * Z.of_nat (length l))
    with (Z.of_nat (length (flat_map (encode_uint 4) l)))
    by (rewrite length_encode_u32s; unfold sizeof_uint32_t; lia).
  rewrite read_bytes_app. cbn [bind].
  now rewrite u32s_of_bytes_encode.
Qed.

(** [(n + 3) & ~3] rounds [n] up to a multiple of four. *)
Lemma round_up_4 (n : Z) :
  0 <= n < 2 ^ 32 ->
  Z.land (wrap64 (n + sizeof_uint32_t - 1)) (wrap64 (Z.lnot 3))
  = n + (4 - n mod 4) mod 4.
Proof.
  intros Hn. unfold sizeof_uint32_t.
  rewrite (wrap64_small (n + 4 - 1)) by lia.
  unfold wrap64. rewrite <- Z.land_ones by lia.
  rewrite (Z.land_comm (Z.lnot 3)), Z.land_assoc.
  rewrite Z.land_ones by lia.
  rewrite (Z.mod_small (n + 4 - 1)) by lia.
  rewrite <- Z.ldiff_land.
  change 3 with (Z.ones 2).
  rewrite Z.ldiff_ones_r by lia.
  rewrite Z.shiftr_div_pow2, Z.shiftl_mul_pow2 by lia.
  change (2 ^ 2) with 4. change (Z.ones 2) with 3.
  Z.to_euclidean_division_equations. lia.
Qed.

Lemma length_encode_region (r : MappedRegion) :
  Z.of_nat (length (encode_region r)) =
  20 + Z.of_nat (length (backingFile r))
  + Z.of_nat (padding (Z.of_nat (length (backingFile r))))
  + 4 * Z.of_nat (length (useCounts r))
  + 4 * Z.of_nat (length (combinedFlags r)).
Proof.
  unfold encode_region.
  rewrite !length_app, !length_encode_uint, repeat_length, !length_encode_u32s.
  lia.
Qed.

End WireFacts.

Section RegionRoundTrip.

Import Decoder Wire.

Lemma read_bytes_at (buf pre x post : list byte) (pos n : Z) :
  buf = pre ++ x ++ post -> pos = Z.of_nat (length pre) ->
  n = Z.of_nat (length x) -> read_bytes buf pos n = Ok x.
Proof. intros -> -> ->. apply read_bytes_app. Qed.

Lemma read_u64_at (buf pre post : list byte) (pos z : Z) :
  buf = pre ++ encode_uint 8 z ++ post -> pos = Z.of_nat (length pre) ->
  is_u64 z -> read_u64 buf pos = Ok z.
Proof. intros -> -> Hz. now apply read_u64_app. Qed.

Lemma read_u32_at (buf pre post : list byte) (pos z : Z) :
  buf = pre ++ encode_uint 4 z ++ post -> pos = Z.of_nat (length pre) ->
  is_u32 z -> read_u32 buf pos = Ok z.
Proof. intros -> -> Hz. now apply read_u32_app. Qed.

Lemma read_u32_array_at (buf pre post : list byte) (pos n : Z) (l : list Z) :
  buf = pre ++ flat_map (encode_uint 4) l ++ post ->
  pos = Z.of_nat (length pre) -> n = Z.of_nat (length l) ->
  Forall is_u32 l -> read_u32_array buf pos n = Ok l.
Proof. intros -> -> -> Hl. now apply read_u32_array_app. Qed.

Lemma padding_spec (n : Z) :
  Z.of_nat (padding n) = (4 - n mod 4) mod 4.
Proof.
  unfold padding. apply Z2Nat.id.
  apply Z.mod_pos_bound. lia.
Qed.

Ltac list_eq := rewrite <- ?app_assoc; reflexivity.
Ltac len_eq :=
  rewrite ?length_app, ?length_encode_uint, ?repeat_length,
    ?length_encode_u32s; lia.

(** A region written by the producer is read back, wherever it stands in the
    buffer, and the position moves behind it. *)
Lemma decodeRegion_encoded (a c : list byte) (r : MappedRegion) :
  wireRegion r ->
  Z.of_nat (length (a ++ encode_region r ++ c)) < 2 ^ 63 ->
  decodeRegion (a ++ encode_region r ++ c) (Z.of_nat (length a))
  = Ok (r, Z.of_nat (length a) + Z.of_nat (length (encode_region r))).
Proof.
  intros (Hs & He & Hbf & Huc & Hfl & Hucr & Hflr) Hlen.
  pose proof (length_encode_region r) as Hlr.
  pose proof (padding_spec (Z.of_nat (length (backingFile r)))) as Hpad.
  rewrite !length_app in Hlen.
  unfold decodeRegion, encode_region in *.
  set (bfl := Z.of_nat (length (backingFile r))) in *.
  set (pad := repeat x00 (padding bfl)) in *.
  set (buf := a ++ _ ++ c).
  unfold sizeof_uint64_t, sizeof_uint32_t.
  assert (Hbfl : is_u32 bfl) by (unfold is_u32, bfl; lia).
  erewrite (read_u64_at buf a _ _ (start r)); [|subst buf; list_eq|reflexivity|exact Hs].
  cbn [bind].
  rewrite (wrap64_small (Z.of_nat (length a) + 8)) by lia.
  erewrite (read_u64_at buf (a ++ encode_uint 8 (start r)) _ _ (end_ r));
    [|subst buf; list_eq|len_eq|exact He].
  cbn [bind].
  rewrite (wrap64_small (Z.of_nat (length a) + 8 + 8)) by lia.
  erewrite (read_u32_at buf (a ++ encode_uint 8 (start r) ++ encode_uint 8 (end_ r))
             _ _ bfl); [|subst buf; list_eq|len_eq|exact Hbfl].
  cbn [bind].
  rewrite (wrap64_small (Z.of_nat (length a) + 8 + 8 + 4)) by lia.
  erewrite (read_bytes_at buf
             (a ++ encode_uint 8 (start r) ++ encode_uint 8 (end_ r)
                ++ encode_uint 4 bfl) (backingFile r) _);
    [|subst buf; list_eq|len_eq|reflexivity].
  cbn [bind].
  pose proof (round_up_4 bfl Hbfl) as Hround.
  unfold sizeof_uint32_t in Hround. rewrite Hround, <- Hpad.
  assert (Hp : Z.of_nat (padding bfl) < 4).
  { rewrite Hpad. apply Z.mod_pos_bound. lia. }
  rewrite (wrap64_small (Z.of_nat (length a) + 8 + 8 + 4
                         + (bfl + Z.of_nat (padding bfl)))) by lia.
  fold (pageCount r). rewrite <- Huc.
  erewrite (read_u32_array_at buf
             (a ++ encode_uint 8 (start r) ++ encode_uint 8 (end_ r)
                ++ encode_uint 4 bfl ++ backingFile r ++ pad) _ _ _
             (useCounts r));
    [|subst buf; list_eq|subst pad bfl; len_eq|reflexivity|exact Hucr].
  cbn [bind].
  erewrite (read_u32_array_at buf
             (a ++ encode_uint 8 (start r) ++ encode_uint 8 (end_ r)
                ++ encode_uint 4 bfl ++ backingFile r ++ pad
                ++ flat_map (encode_uint 4) (useCounts r)) _ _ _
             (combinedFlags r));
    [|subst buf; list_eq|subst pad bfl; len_eq|lia|exact Hflr].
  cbn [bind].
  rewrite (wrap64_small (2 * Z.of_nat (length (useCounts r)) * 4)) by lia.
  rewrite wrap64_small by lia.
  destruct r as [s e bf uc fl]. cbn [start end_ backingFile useCounts combinedFlags] in *.
  f_equal. f_equal. lia.
Qed.

End RegionRoundTrip.

Section FrameFacts.

Import Decoder Wire.

Lemma encode_region_min (r : MappedRegion) :
  20 <= Z.of_nat (length (encode_region r)).
Proof. rewrite length_encode_region. lia. Qed.

Lemma length_payload_ge (rs : list MappedRegion) :
  (length rs <= length (flat_map encode_region rs))%nat.
Proof.
  induction rs as [|r rs IH]; [apply Nat.le_refl|].
  cbn [flat_map length]. rewrite length_app.
  pose proof (encode_region_min r). lia.
Qed.

(** The region loop reads a whole payload back. *)
Lemma decodeRegions_encoded (rs : list MappedRegion) :
  forall (a c : list byte) (acc : list MappedRegion) (fuel : nat),
  Forall wireRegion rs ->
  Z.of_nat (length (a ++ flat_map encode_region rs ++ c)) < 2 ^ 63 ->
  (length rs <= fuel)%nat ->
  decodeRegions fuel (a ++ flat_map encode_region rs ++ c)
    (Z.of_nat (length a))
    (Z.of_nat (length a) + Z.of_nat (length (flat_map encode_region rs)))
    acc
  = Ok (acc ++ rs).
Proof.
  induction rs as [|r rs IH]; intros a c acc fuel Hw Hlen Hfuel.
  - destruct fuel; cbn [decodeRegions flat_map length];
      rewrite Z.add_0_r, Z.ltb_irrefl, app_nil_r; reflexivity.
  - inversion Hw as [|? ? Hr Hrs]; subst.
    destruct fuel as [|fuel]; [simpl in Hfuel; lia|].
    cbn [decodeRegions flat_map].
    pose proof (encode_region_min r) as Hmin.
    rewrite length_app, Nat2Z.inj_add.
    destruct (Z.ltb_spec (Z.of_nat (length a))
                (Z.of_nat (length a)
                 + (Z.of_nat (length (encode_region r))
                    + Z.of_nat (length (flat_map encode_region rs)))));
      [|lia].
    cbn [flat_map] in Hlen.
    rewrite <- app_assoc in *.
    rewrite decodeRegion_encoded by assumption.
    cbn [bind fst snd].
    replace (Z.of_nat (length a) + Z.of_nat (length (encode_region r)))
      with (Z.of_nat (length (a ++ encode_region r)))
      by (rewrite length_app; lia).
    replace (Z.of_nat (length a)
             + (Z.of_nat (length (encode_region r))
                + Z.of_nat (length (flat_map encode_region rs))))
      with (Z.of_nat (length (a ++ encode_region r))
            + Z.of_nat (length (flat_map encode_region rs)))
      by (rewrite length_app; lia).
    rewrite (app_assoc a (encode_region r)).
    rewrite IH.
    + now rewrite <- app_assoc.
    + exact Hrs.
    + rewrite <- app_assoc. exact Hlen.
    + simpl in Hfuel. lia.
Qed.

Lemma slice_0_app (a b : list byte) (n : Z) :
  n <= Z.of_nat (length a) -> slice (a ++ b) 0 n = slice a 0 n.
Proof.
  intros Hn. unfold slice. simpl skipn.
  rewrite firstn_app.
  replace (Z.to_nat n - length a)%nat with 0%nat by lia.
  simpl. apply app_nil_r.
Qed.

Lemma declaredLength_app (a b : list byte) :
  8 <= Z.of_nat (length a) -> declaredLength (a ++ b) = declaredLength a.
Proof. intros H. unfold declaredLength. now rewrite slice_0_app. Qed.

Lemma declaredLength_range (buf : list byte) :
  0 <= declaredLength buf < 2 ^ 64.
Proof.
  unfold declaredLength.
  pose proof (le_to_Z_range (slice buf 0 8)) as H.
  assert (Hl : (length (slice buf 0 8) <= 8)%nat).
  { unfold slice. rewrite length_firstn. simpl Z.to_nat. lia. }
  assert (256 ^ Z.of_nat (length (slice buf 0 8)) <= 256 ^ 8)
    by (apply Z.pow_le_mono_r; lia).
  change (2 ^ 64) with (256 ^ 8). lia.
Qed.

Lemma declaredLength_encode_frame (rs : list MappedRegion) (tl : list byte) :
  Z.of_nat (length (flat_map encode_region rs)) < 2 ^ 64 ->
  declaredLength (encode_frame rs ++ tl)
  = Z.of_nat (length (flat_map encode_region rs)).
Proof.
  intros Hlen. unfold declaredLength, encode_frame. cbv zeta.
  rewrite <- app_assoc.
  change 0 with (Z.of_nat (@length byte [])) at 1.
  change 8 with (Z.of_nat 8).
  rewrite <- (length_encode_uint 8 (Z.of_nat (length (flat_map encode_region rs)))) at 2.
  change (encode_uint 8 (Z.of_nat (length (flat_map encode_region rs))) ++
          flat_map encode_region rs ++ tl)
    with ([] ++ encode_uint 8 (Z.of_nat (length (flat_map encode_region rs))) ++
          flat_map encode_region rs ++ tl).
  rewrite slice_app. apply le_to_Z_encode_uint.
  change (256 ^ Z.of_nat 8) with (2 ^ 64). lia.
Qed.

Lemma length_encode_frame (rs : list MappedRegion) :
  Z.of_nat (length (encode_frame rs))
  = 8 + Z.of_nat (length (flat_map encode_region rs)).
Proof.
  unfold encode_frame. cbv zeta. rewrite length_app, length_encode_uint. lia.
Qed.

(** A frame written by the producer is a frame, and decodes to the regions
    it was written from, whatever follows it in the buffer. *)
Lemma frameAt_encode_frame (rs : list MappedRegion) (tl : list byte) :
  Z.of_nat (length (encode_frame rs ++ tl)) < 2 ^ 63 ->
  frameAt (encode_frame rs ++ tl) = Some (encode_frame rs, tl).
Proof.
  intros Hlen. unfold frameAt. cbv zeta.
  pose proof (length_encode_frame rs) as Hf.
  rewrite length_app in Hlen.
  rewrite declaredLength_encode_frame by lia.
  rewrite length_app.
  destruct (Z.leb_spec 8 (Z.of_nat (length (encode_frame rs) + length tl))); [|lia].
  destruct (Z.leb_spec (Z.of_nat (length (flat_map encode_region rs)) + 8)
              (Z.of_nat (length (encode_frame rs) + length tl))); [|lia].
  cbn [andb].
  replace (Z.to_nat (Z.of_nat (length (flat_map encode_region rs)) + 8))
    with (length (encode_frame rs)) by lia.
  rewrite firstn_app, skipn_app, firstn_all, skipn_all, Nat.sub_diag.
  simpl. now rewrite app_nil_r.
Qed.

Lemma decodeFrame_encode_frame (rs : list MappedRegion) (tl : list byte) :
  Forall wireRegion rs ->
  Z.of_nat (length (encode_frame rs ++ tl)) < 2 ^ 63 ->
  decodeFrame (encode_frame rs ++ tl) = Ok rs.
Proof.
  intros Hw Hlen. unfold decodeFrame.
  pose proof (length_encode_frame rs) as Hf.
  pose proof (length_payload_ge rs) as Hp.
  assert (Hlen' := Hlen). rewrite length_app in Hlen'.
  rewrite declaredLength_encode_frame by lia.
  unfold sizeof_size_t.
  unfold encode_frame in *. cbv zeta in *.
  rewrite <- app_assoc in *.
  set (e := encode_uint 8 (Z.of_nat (length (flat_map encode_region rs)))) in *.
  replace 8 with (Z.of_nat (length e))
    by (subst e; rewrite length_encode_uint; reflexivity).
  rewrite Z.add_comm.
  rewrite decodeRegions_encoded; [reflexivity|exact Hw|exact Hlen|].
  rewrite !length_app. lia.
Qed.

End FrameFacts.

Section FuelFacts.

Import Decoder Wire.

Lemma read_bytes_ok (buf bs : list byte) (pos n : Z) :
  read_bytes buf pos n = Ok bs -> 0 <= n ->
  (n = 0 \/ pos + n <= Z.of_nat (length buf)) /\ Z.of_nat (length bs) <= n.
Proof.
  unfold read_bytes. intros H Hn.
  destruct (Z.eqb_spec n 0) as [H0|Hne].
  - injection H as <-. simpl. lia.
  - destruct (Z.leb_spec (pos + n) (Z.of_nat (length buf))); [|discriminate].
    injection H as <-. unfold slice. rewrite length_firstn. lia.
Qed.

Lemma read_u64_ok (buf : list byte) (pos z : Z) :
  read_u64 buf pos = Ok z -> pos + 8 <= Z.of_nat (length buf) /\ is_u64 z.
Proof.
  unfold read_u64, sizeof_uint64_t. intros H.
  destruct (read_bytes buf pos 8) as [bs|] eqn:Hb; [|discriminate].
  cbn [bind] in H. injection H as <-.
  apply read_bytes_ok in Hb; [|lia]. destruct Hb as [Hb Hl].
  split; [lia|].
  pose proof (le_to_Z_range bs) as Hr.
  assert (256 ^ Z.of_nat (length bs) <= 256 ^ 8) by (apply Z.pow_le_mono_r; lia).
  unfold is_u64. change (2 ^ 64) with (256 ^ 8). lia.
Qed.

Lemma read_u32_ok (buf : list byte) (pos z : Z) :
  read_u32 buf pos = Ok z -> pos + 4 <= Z.of_nat (length buf) /\ is_u32 z.
Proof.
  unfold read_u32, sizeof_uint32_t. intros H.
  destruct (read_bytes buf pos 4) as [bs|] eqn:Hb; [|discriminate].
  cbn [bind] in H. injection H as <-.
  apply read_bytes_ok in Hb; [|lia]. destruct Hb as [Hb Hl].
  split; [lia|].
  pose proof (le_to_Z_range bs) as Hr.
  assert (256 ^ Z.of_nat (length bs) <= 256 ^ 4) by (apply Z.pow_le_mono_r; lia).
  unfold is_u32. change (2 ^ 32) with (256 ^ 4). lia.
Qed.

(** Every decoded region moves the position forward by at least the 20
    bytes of its fixed fields. *)
Lemma decodeRegion_advances (buf : list byte) (pos pos' : Z) (r : MappedRegion) :
  0 <= pos -> Z.of_nat (length buf) < 2 ^ 63 ->
  decodeRegion buf pos = Ok (r, pos') -> pos + 20 <= pos'.
Proof.
  intros Hpos Hlen. unfold decodeRegion, sizeof_uint64_t, sizeof_uint32_t.
  destruct (read_u64 buf pos) as [s|] eqn:H1; [|discriminate].
  apply read_u64_ok in H1. destruct H1 as [Hb1 Hs]. cbn [bind].
  rewrite (wrap64_small (pos + 8)) by lia.
  destruct (read_u64 buf (pos + 8)) as [e|] eqn:H2; [|discriminate].
  apply read_u64_ok in H2. destruct H2 as [Hb2 He]. cbn [bind].
  rewrite (wrap64_small (pos + 8 + 8)) by lia.
  destruct (read_u32 buf (pos + 8 + 8)) as [bfl|] eqn:H3; [|discriminate].
  apply read_u32_ok in H3. destruct H3 as [Hb3 Hbfl]. cbn [bind].
  rewrite (wrap64_small (pos + 8 + 8 + 4)) by lia.
  destruct (read_bytes buf (pos + 8 + 8 + 4) bfl) as [bf|]; [|discriminate].
  cbn [bind].
  pose proof (round_up_4 bfl Hbfl) as Hround.
  unfold sizeof_uint32_t in Hround. rewrite Hround.
  pose proof (Z.mod_pos_bound (4 - bfl mod 4) 4 ltac:(lia)) as Hpad.
  unfold is_u32, is_u64 in *.
  rewrite (wrap64_small (pos + 8 + 8 + 4 + (bfl + (4 - bfl mod 4) mod 4)))
    by lia.
  set (al := wrap64 (e - s) / pageSize).
  assert (Hal : 0 <= al < 2 ^ 52).
  { subst al. unfold wrap64, pageSize.
    pose proof (Z.mod_pos_bound (e - s) (2 ^ 64) ltac:(lia)).
    split; [apply Z.div_pos; lia | apply Z.div_lt_upper_bound; lia]. }
  destruct (read_u32_array buf _ al) as [uc|]; [|discriminate]. cbn [bind].
  destruct (read_u32_array buf _ al) as [fl|]; [|discriminate]. cbn [bind].
  rewrite (wrap64_small (2 * al * 4)) by lia.
  rewrite wrap64_small by lia.
  assert (Harr : 0 <= 2 * al * 4) by lia.
  generalize dependent (2 * al * 4). intros arrays Harr.
  generalize dependent ((4 - bfl mod 4) mod 4). intros pad _ Hpad.
  intros [= _ <-]. lia.
Qed.

Lemma read_bytes_fault (buf : list byte) (pos n : Z) (f : fault) :
  read_bytes buf pos n = Fault f -> f = OutOfBounds.
Proof.
  unfold read_bytes.
  destruct (n =? 0); [discriminate|].
  destruct (pos + n <=? Z.of_nat (length buf)); [discriminate|].
  now intros [= <-].
Qed.

Lemma read_u64_fault (buf : list byte) (pos : Z) (f : fault) :
  read_u64 buf pos = Fault f -> f = OutOfBounds.
Proof.
  unfold read_u64.
  destruct (read_bytes buf pos sizeof_uint64_t) eqn:H; [discriminate|].
  cbn [bind]. intros [= <-]. now apply read_bytes_fault in H.
Qed.

Lemma read_u32_fault (buf : list byte) (pos : Z) (f : fault) :
  read_u32 buf pos = Fault f -> f = OutOfBounds.
Proof.
  unfold read_u32.
  destruct (read_bytes buf pos sizeof_uint32_t) eqn:H; [discriminate|].
  cbn [bind]. intros [= <-]. now apply read_bytes_fault in H.
Qed.

Lemma read_u32_array_fault (buf : list byte) (pos n : Z) (f : fault) :
  read_u32_array buf pos n = Fault f -> f = OutOfBounds.
Proof.
  unfold read_u32_array.
  destruct (read_bytes buf pos (sizeof_uint32_t * n)) eqn:H; [discriminate|].
  cbn [bind]. intros [= <-]. now apply read_bytes_fault in H.
Qed.

(** The only fault of decoding a region is a read outside the buffer. *)
Lemma bind_fault {A B : Type} (c : result A) (k : A -> result B) (f : fault) :
  bind c k = Fault f ->
  c = Fault f \/ exists a, c = Ok a /\ k a = Fault f.
Proof.
  destruct c as [a|f']; cbn [bind]; intros H.
  - right. exists a. auto.
  - left. injection H as ->. reflexivity.
Qed.

Lemma decodeRegion_fault (buf : list byte) (pos : Z) (f : fault) :
  decodeRegion buf pos = Fault f -> f = OutOfBounds.
Proof.
  unfold decodeRegion. intros H.
  apply bind_fault in H. destruct H as [H|(s & _ & H)];
    [exact (read_u64_fault _ _ _ H)|].
  apply bind_fault in H. destruct H as [H|(e & _ & H)];
    [exact (read_u64_fault _ _ _ H)|].
  apply bind_fault in H. destruct H as [H|(bfl & _ & H)];
    [exact (read_u32_fault _ _ _ H)|].
  apply bind_fault in H. destruct H as [H|(bf & _ & H)];
    [exact (read_bytes_fault _ _ _ _ H)|].
  apply bind_fault in H. destruct H as [H|(uc & _ & H)];
    [exact (read_u32_array_fault _ _ _ _ H)|].
  apply bind_fault in H. destruct H as [H|(fl & _ & H)];
    [exact (read_u32_array_fault _ _ _ _ H)|].
  discriminate.
Qed.

(** The fuel of the region loop is never used up: its only fault is a read
    outside the buffer. *)
Lemma decodeRegions_fault (fuel : nat) :
  forall (buf : list byte) (pos endPos : Z) (acc : list MappedRegion)
         (f : fault),
  0 <= pos -> Z.of_nat (length buf) < 2 ^ 63 ->
  endPos <= Z.of_nat fuel + pos ->
  decodeRegions fuel buf pos endPos acc = Fault f -> f = OutOfBounds.
Proof.
  induction fuel as [|fuel IH]; intros buf pos endPos acc f Hpos Hlen Hend.
  - cbn [decodeRegions].
    destruct (Z.ltb_spec pos endPos); [lia | discriminate].
  - cbn [decodeRegions].
    destruct (Z.ltb_spec pos endPos); [|discriminate].
    destruct (decodeRegion buf pos) as [[r pos']|f'] eqn:Hr; cbn [bind fst snd].
    + pose proof (decodeRegion_advances _ _ _ _ Hpos Hlen Hr).
      apply IH; lia.
    + intros H'. injection H' as H'. subst f'. exact (decodeRegion_fault _ _ _ Hr).
Qed.

Lemma decodeFrame_fault (buf : list byte) (f : fault) :
  Z.of_nat (length buf) < 2 ^ 63 ->
  declaredLength buf + 8 <= Z.of_nat (length buf) ->
  decodeFrame buf = Fault f -> f = OutOfBounds.
Proof.
  intros Hlen Hc. unfold decodeFrame, sizeof_size_t.
  apply decodeRegions_fault; lia.
Qed.

End FuelFacts.

Section LoopFacts.

Import Decoder Wire.

Lemma frameAt_app (buf f tl : list byte) :
  frameAt buf = Some (f, tl) ->
  buf = f ++ tl /\ 8 <= Z.of_nat (length f) /\
  Z.of_nat (length f) = declaredLength buf + 8.
Proof.
  unfold frameAt. cbv zeta.
  destruct (Z.leb_spec 8 (Z.of_nat (length buf))) as [H8|H8]; [|discriminate].
  destruct (Z.leb_spec (declaredLength buf + 8) (Z.of_nat (length buf)))
    as [Hd|Hd]; [|discriminate].
  cbn [andb]. intros [= <- <-].
  pose proof (declaredLength_range buf).
  rewrite firstn_skipn, length_firstn. repeat split; lia.
Qed.

Lemma splitFrames_concat (fuel : nat) :
  forall buf fs rest,
  splitFrames fuel buf = (fs, rest) -> concat fs ++ rest = buf.
Proof.
  induction fuel as [|fuel IH]; intros buf fs rest.
  - simpl. now intros [= <- <-].
  - cbn [splitFrames].
    destruct (frameAt buf) as [[f tl]|] eqn:Hf.
    + destruct (splitFrames fuel tl) as [fs' rest'] eqn:Hs.
      intros [= <- <-]. apply IH in Hs. apply frameAt_app in Hf.
      destruct Hf as [-> _]. cbn [concat]. now rewrite <- app_assoc, Hs.
    + now intros [= <- <-].
Qed.

(** More fuel than bytes does not change the split. *)
Lemma splitFrames_fuel (fuel : nat) :
  forall fuel' buf,
  (length buf <= fuel)%nat -> (length buf <= fuel')%nat ->
  splitFrames fuel buf = splitFrames fuel' buf.
Proof.
  induction fuel as [|fuel IH]; intros fuel' buf H1 H2.
  - destruct buf; [|simpl in H1; lia].
    destruct fuel'; reflexivity.
  - destruct fuel' as [|fuel'].
    + destruct buf; [reflexivity | simpl in H2; lia].
    + cbn [splitFrames].
      destruct (frameAt buf) as [[f tl]|] eqn:Hf; [|reflexivity].
      apply frameAt_app in Hf. destruct Hf as (-> & Hf8 & _).
      rewrite length_app in H1, H2.
      rewrite (IH fuel' tl) by lia. reflexivity.
Qed.

(** The [while] loop of [addData] decodes the complete frames at the front
    of the buffer one after the other. *)
Lemma addData_loop_frames (fuel : nat) :
  forall (regions : list MappedRegion) (len0 : Z) (buf : list byte)
         (ret : bool),
  readerInv {| m_mappedRegions := regions; m_length := len0; m_buffer := buf |} ->
  Z.of_nat (length buf) < 2 ^ 63 ->
  (length buf <= fuel)%nat ->
  addData_loop fuel
    {| m_mappedRegions := regions; m_length := len0; m_buffer := buf |} ret
  = let (fs, rest) := frames buf in decodeFrames fs rest regions ret.
Proof.
  induction fuel as [|fuel IH]; intros regions len0 buf ret Hinv Hlen Hfuel.
  - destruct buf; [|simpl in Hfuel; lia].
    destruct Hinv as [Hm|[H8 _]]; [|simpl in H8; lia].
    cbn in Hm. subst len0. reflexivity.
  - unfold frames.
    rewrite (splitFrames_fuel (length buf) (S fuel) buf) by lia.
    cbn [addData_loop splitFrames m_buffer m_length m_mappedRegions].
    unfold frameAt, sizeof_size_t, sizeof_uint64_t. cbv zeta.
    fold (declaredLength buf).
    pose proof (declaredLength_range buf) as Hd.
    unfold readerInv in Hinv. cbn [m_buffer m_length] in Hinv.
    destruct (Z.leb_spec 8 (Z.of_nat (length buf))) as [H8|H8].
    + (* the length prefix is there *)
      assert (Hl1 : (if (len0 <? 0) && true
                     then to_int64 (declaredLength buf) else len0)
                    = to_int64 (declaredLength buf)).
      { destruct Hinv as [->|[_ ->]]; [reflexivity|].
        destruct (to_int64 (declaredLength buf) <? 0); reflexivity. }
      rewrite Hl1. unfold to_int64.
      destruct (Z.ltb_spec (declaredLength buf) (2 ^ 63)) as [Hs|Hs].
      * rewrite (wrap64_small (declaredLength buf + 8)) by lia.
        destruct (Z.leb_spec 0 (declaredLength buf)) as [_|]; [|lia].
        cbn [andb].
        destruct (Z.leb_spec (declaredLength buf + 8) (Z.of_nat (length buf)))
          as [Hc|Hc].
        -- (* a complete frame: decode it and go on *)
           change (decodeRegions (length buf) buf 8 (declaredLength buf + 8) [])
             with (decodeFrame buf).
           pose proof (firstn_skipn (Z.to_nat (declaredLength buf + 8)) buf) as Hsplit.
           set (tl := skipn (Z.to_nat (declaredLength buf + 8)) buf) in *.
           set (f := firstn (Z.to_nat (declaredLength buf + 8)) buf) in *.
           assert (Htl : (length tl <= fuel)%nat).
           { subst tl. rewrite length_skipn. lia. }
           assert (Htl' : (length tl <= length buf)%nat).
           { subst tl. rewrite length_skipn. lia. }
           destruct (splitFrames fuel tl) as [fs rest] eqn:Hs'.
           cbn [decodeFrames].
           pose proof (splitFrames_concat _ _ _ _ Hs') as Hcat.
           rewrite Hcat, Hsplit.
           destruct (decodeFrame buf) as [decoded|e]; [|reflexivity].
           cbn [bind].
           rewrite IH; [| left; reflexivity | lia | exact Htl].
           unfold frames.
           rewrite (splitFrames_fuel (length tl) fuel tl) by lia.
           rewrite Hs'. reflexivity.
        -- (* the payload is not complete yet *)
           cbn [decodeFrames]. unfold waiting, pendingLength, to_int64.
           destruct (Z.leb_spec 8 (Z.of_nat (length buf))); [|lia].
           destruct (Z.ltb_spec (declaredLength buf) (2 ^ 63)); [|lia].
           reflexivity.
      * (* a length that is negative as a qint64: never complete *)
        destruct (Z.leb_spec 0 (declaredLength buf - 2 ^ 64)); [lia|].
        destruct (Z.leb_spec (declaredLength buf + 8) (Z.of_nat (length buf)));
          [lia|].
        cbn [andb decodeFrames]. unfold waiting, pendingLength, to_int64.
        destruct (Z.leb_spec 8 (Z.of_nat (length buf))); [|lia].
        destruct (Z.ltb_spec (declaredLength buf) (2 ^ 63)); [lia|].
        reflexivity.
    + (* fewer than eight bytes *)
      destruct Hinv as [->|[H8' _]]; [|lia].
      cbn [andb decodeFrames Z.ltb Z.leb Z.compare].
      unfold waiting, pendingLength.
      destruct (Z.leb_spec 8 (Z.of_nat (length buf))); [lia|].
      reflexivity.
Qed.

(** [addData] is: append, split the buffer into its complete frames and
    what is left, decode the frames in turn. *)
Lemma addData_frames (r : PageInfoReader) (data : list byte) :
  readerInv r ->
  Z.of_nat (length (m_buffer r ++ data)) < 2 ^ 63 ->
  addData r data =
  let (fs, rest) := frames (m_buffer r ++ data) in
  decodeFrames fs rest (m_mappedRegions r) false.
Proof.
  intros Hinv Hlen. unfold addData. cbv zeta.
  apply addData_loop_frames; [|exact Hlen|apply Nat.le_refl].
  destruct Hinv as [Hm|[H8 Hm]].
  - left. exact Hm.
  - right. cbn [m_buffer m_length]. rewrite length_app. split; [lia|].
    now rewrite declaredLength_app.
Qed.

Lemma waiting_inv (regions : list MappedRegion) (buf : list byte) :
  readerInv (waiting regions buf).
Proof.
  unfold readerInv, waiting, pendingLength. cbn [m_length m_buffer].
  destruct (Z.leb_spec 8 (Z.of_nat (length buf))); [right|left]; auto.
Qed.

Lemma decodeFrames_inv (fs : list (list byte)) :
  forall rest regions ret x,
  decodeFrames fs rest regions ret = Ok x -> readerInv (snd x).
Proof.
  induction fs as [|f fs IH]; intros rest regions ret x.
  - cbn [decodeFrames]. intros [= <-]. apply waiting_inv.
  - cbn [decodeFrames].
    destruct (decodeFrame _) as [decoded|e]; [|discriminate].
    cbn [bind]. apply IH.
Qed.

End LoopFacts.

Section FeedFacts.

Import Decoder Wire.

Lemma decodeFrames_result (fs : list (list byte)) :
  forall rest regions ret x,
  decodeFrames fs rest regions ret = Ok x ->
  fst x = match fs with [] => ret | _ :: _ => true end /\
  m_buffer (snd x) = rest /\
  (fs = [] -> m_mappedRegions (snd x) = regions) /\
  (fs <> [] ->
   decodeFrame (last fs [] ++ rest) = Ok (m_mappedRegions (snd x))).
Proof.
  induction fs as [|f fs IH]; intros rest regions ret x.
  - cbn [decodeFrames]. intros [= <-]. cbn.
    repeat split; auto. intros H; contradiction.
  - cbn [decodeFrames].
    destruct (decodeFrame (f ++ concat fs ++ rest)) as [decoded|e] eqn:Hd;
      [|discriminate].
    cbn [bind]. intros Hx.
    destruct (IH _ _ _ _ Hx) as (Hret & Hbuf & Hnil & Hlast).
    split; [|split; [exact Hbuf|split; [discriminate|]]].
    + rewrite Hret. destruct fs; reflexivity.
    + intros _. destruct fs as [|g fs].
      * cbn [decodeFrames] in Hx. injection Hx as <-.
        cbn [last concat app] in *. exact Hd.
      * apply Hlast. discriminate.
Qed.

Lemma decodeFrames_total (fs : list (list byte)) :
  forall rest regions ret,
  (forall i, (i < length fs)%nat ->
     exists decoded, decodeFrame (concat (skipn i fs) ++ rest) = Ok decoded) ->
  exists x, decodeFrames fs rest regions ret = Ok x.
Proof.
  induction fs as [|f fs IH]; intros rest regions ret Hall.
  - eexists. reflexivity.
  - cbn [decodeFrames].
    destruct (Hall 0%nat) as [decoded Hd]; [simpl; lia|].
    cbn [skipn concat] in Hd. rewrite <- app_assoc in Hd. rewrite Hd.
    cbn [bind]. apply IH. intros i Hi.
    apply (Hall (S i)). simpl. lia.
Qed.

Lemma frames_incomplete (buf : list byte) :
  Z.of_nat (length buf) < declaredLength buf + 8 -> frames buf = ([], buf).
Proof.
  intros H. unfold frames.
  destruct (length buf) eqn:Hl; [reflexivity|].
  cbn [splitFrames]. unfold frameAt. cbv zeta. rewrite Hl.
  destruct (Z.leb_spec (declaredLength buf + 8) (Z.of_nat (S n))); [lia|].
  now rewrite andb_false_r.
Qed.

Lemma frames_short (buf : list byte) :
  Z.of_nat (length buf) < 8 -> frames buf = ([], buf).
Proof.
  intros H. apply frames_incomplete.
  pose proof (declaredLength_range buf). lia.
Qed.

Lemma frames_single (frame : list byte) :
  isFrame frame -> frames frame = ([frame], []).
Proof.
  intros [H8 Hd]. unfold frames.
  destruct (length frame) eqn:Hl; [lia|].
  cbn [splitFrames]. unfold frameAt. cbv zeta. rewrite Hl, Hd.
  destruct (Z.leb_spec 8 (Z.of_nat (S n))); [|lia].
  destruct (Z.leb_spec (Z.of_nat (S n)) (Z.of_nat (S n))); [|lia].
  cbn [andb]. rewrite Nat2Z.id, <- Hl, firstn_all, skipn_all.
  destruct n; reflexivity.
Qed.

(** A proper prefix of a frame holds no complete frame. *)
Lemma frames_prefix (p q : list byte) :
  isFrame (p ++ q) -> q <> [] -> frames p = ([], p).
Proof.
  intros [H8 Hd] Hq.
  assert (Hlt : Z.of_nat (length p) < Z.of_nat (length (p ++ q))).
  { rewrite length_app. destruct q; [contradiction | simpl; lia]. }
  destruct (Z.ltb_spec (Z.of_nat (length p)) 8) as [Hs|Hs].
  - now apply frames_short.
  - apply frames_incomplete.
    rewrite <- (declaredLength_app p q) by lia. lia.
Qed.

Lemma addData_nothing (regions : list MappedRegion) :
  addData (waiting regions []) [] = Ok (false, waiting regions []).
Proof. reflexivity. Qed.

Lemma feedAll_empty_chunks (regions : list MappedRegion)
    (chunks : list (list byte)) :
  concat chunks = [] ->
  feedAll (waiting regions []) chunks = Ok (waiting regions []).
Proof.
  induction chunks as [|c chunks IH]; intros Hc; [reflexivity|].
  cbn [concat] in Hc. apply app_eq_nil in Hc. destruct Hc as [-> Hc].
  cbn [feedAll]. rewrite addData_nothing. cbn [bind snd]. now apply IH.
Qed.

Lemma addData_waiting (regions : list MappedRegion) (p data : list byte) :
  Z.of_nat (length (p ++ data)) < 2 ^ 63 ->
  addData (waiting regions p) data =
  let (fs, rest) := frames (p ++ data) in decodeFrames fs rest regions false.
Proof.
  intros Hlen. rewrite addData_frames; [reflexivity|apply waiting_inv|exact Hlen].
Qed.

(** Feeding the rest of a frame chunk by chunk to a reader that already
    buffers a proper prefix [p] of it. *)
Lemma feedAll_rest_of_frame (chunks : list (list byte)) :
  forall (regions : list MappedRegion) (p : list byte),
  isFrame (p ++ concat chunks) -> concat chunks <> [] ->
  Z.of_nat (length (p ++ concat chunks)) < 2 ^ 63 ->
  feedAll (waiting regions p) chunks =
  (x <- addData (waiting regions []) (p ++ concat chunks) ;; Ok (snd x)).
Proof.
  induction chunks as [|c chunks IH]; intros regions p Hframe Hne Hlen.
  - contradiction.
  - cbn [concat] in *. cbn [feedAll].
    assert (Hlen' : Z.of_nat (length (p ++ c)) < 2 ^ 63).
    { rewrite !length_app in *. lia. }
    rewrite addData_waiting by exact Hlen'.
    destruct (concat chunks) as [|b rest'] eqn:Hrest.
    + (* the chunk completes the frame *)
      rewrite app_nil_r in *.
      rewrite (addData_waiting regions [] (p ++ c)) by exact Hlen.
      cbn [app]. rewrite (frames_single _ Hframe). cbn [decodeFrames].
      destruct (decodeFrame _) as [decoded|e]; [|reflexivity].
      cbn [bind snd]. now apply feedAll_empty_chunks.
    + (* the frame is still incomplete *)
      rewrite app_assoc in Hframe.
      rewrite (frames_prefix (p ++ c) (b :: rest') Hframe) by discriminate.
      cbn [decodeFrames bind snd].
      rewrite <- Hrest in *. rewrite app_assoc.
      apply IH; [exact Hframe | rewrite Hrest; discriminate |].
      rewrite <- app_assoc. exact Hlen.
Qed.


(** Decoding the frames of a buffer never uses up the fuel of a loop; the
    only fault is a read outside the buffer. *)
Lemma splitFrames_fault (fuel : nat) :
  forall buf fs rest regions ret f,
  splitFrames fuel buf = (fs, rest) ->
  Z.of_nat (length buf) < 2 ^ 63 ->
  decodeFrames fs rest regions ret = Fault f -> f = OutOfBounds.
Proof.
  induction fuel as [|fuel IH]; intros buf fs rest regions ret f Hs Hlen.
  - cbn [splitFrames] in Hs. injection Hs as <- <-. discriminate.
  - cbn [splitFrames] in Hs.
    destruct (frameAt buf) as [[fr tl]|] eqn:Hf.
    + destruct (splitFrames fuel tl) as [fs' rest'] eqn:Hs'.
      injection Hs as <- <-.
      pose proof (splitFrames_concat _ _ _ _ Hs') as Hcat.
      apply frameAt_app in Hf. destruct Hf as (Hbuf & H8 & Hd).
      cbn [decodeFrames]. rewrite Hcat, <- Hbuf.
      destruct (decodeFrame buf) as [decoded|f'] eqn:Hdec; cbn [bind].
      * apply (IH tl fs' rest' decoded true f Hs').
        rewrite Hbuf, length_app in Hlen. lia.
      * intros Hx. injection Hx as <-.
        apply (decodeFrame_fault buf f' Hlen); [|exact Hdec].
        rewrite Hbuf at 2. rewrite length_app. lia.
    + injection Hs as <- <-. discriminate.
Qed.

(** What [frames] returns: the buffer is the frames followed by the rest,
    every frame is a length prefix with a payload of that length, and no
    complete frame is left at the front of the rest. *)
Lemma splitFrames_spec (fuel : nat) :
  forall buf fs rest,
  (length buf <= fuel)%nat ->
  splitFrames fuel buf = (fs, rest) ->
  concat fs ++ rest = buf /\ Forall isFrame fs /\ frameAt rest = None.
Proof.
  induction fuel as [|fuel IH]; intros buf fs rest Hfuel Hs.
  - destruct buf; [|simpl in Hfuel; lia].
    cbn [splitFrames] in Hs. injection Hs as <- <-.
    split; [reflexivity|split; [constructor|reflexivity]].
  - cbn [splitFrames] in Hs.
    destruct (frameAt buf) as [[fr tl]|] eqn:Hf.
    + destruct (splitFrames fuel tl) as [fs' rest'] eqn:Hs'.
      injection Hs as <- <-.
      apply frameAt_app in Hf. destruct Hf as (Hbuf & H8 & Hd).
      assert (Htl : (length tl <= fuel)%nat).
      { rewrite Hbuf, length_app in Hfuel. lia. }
      destruct (IH tl fs' rest' Htl Hs') as (Hcat & Hall & Hnone).
      split; [|split; [|exact Hnone]].
      * cbn [concat]. now rewrite <- app_assoc, Hcat.
      * constructor; [|exact Hall].
        split; [exact H8|].
        rewrite Hbuf, declaredLength_app in Hd by exact H8. lia.
    + injection Hs as <- <-.
      split; [reflexivity|split; [constructor|exact Hf]].
Qed.

Lemma last_default {A : Type} (l : list A) :
  forall (y d d' : A), last (y :: l) d = last (y :: l) d'.
Proof.
  induction l as [|z l IH]; intros y d d'; [reflexivity|].
  change (last (y :: z :: l) d) with (last (z :: l) d).
  change (last (y :: z :: l) d') with (last (z :: l) d').
  apply IH.
Qed.

(** Frames written by the producer decode to the snapshots they were
    written from; the last one stays. *)
Lemma decodeFrames_encoded (snapshots : list (list MappedRegion)) :
  forall (rest : list byte) (regions : list MappedRegion) (ret : bool),
  Forall (Forall wireRegion) snapshots ->
  Z.of_nat (length (concat (map encode_frame snapshots) ++ rest)) < 2 ^ 63 ->
  decodeFrames (map encode_frame snapshots) rest regions ret =
  Ok (match snapshots with [] => ret | _ :: _ => true end,
      waiting (last snapshots regions) rest).
Proof.
  induction snapshots as [|s ss IH]; intros rest regions ret Hw Hlen.
  - reflexivity.
  - inversion Hw as [|? ? Hs Hss]; subst.
    cbn [map decodeFrames concat] in *.
    rewrite <- app_assoc in Hlen.
    rewrite decodeFrame_encode_frame by assumption.
    cbn [bind]. rewrite IH.
    + destruct ss as [|s' ss]; [reflexivity|].
      change (last (s :: s' :: ss) regions) with (last (s' :: ss) regions).
      now rewrite (last_default ss s' regions s).
    + exact Hss.
    + rewrite !length_app in *. lia.
Qed.

End FeedFacts.

(** C2: partial-feed equivalence.  For every byte string that is one frame
    (a length prefix followed by a payload of that length) and every way of
    cutting it into consecutive chunks, feeding the chunks to an idle reader
    one [addData] call after the other ends in the same reader (the same
    regions, with the same starts, ends, backing files, use counts and
    flags, and the same buffer) as feeding the frame in one call; for a
    frame that the producer wrote from a snapshot, both ways end with this
    snapshot. *)
Theorem feed_chunks_equals_feed_whole
    (r : Decoder.PageInfoReader) (chunks : list (list byte)) :
  Decoder.m_buffer r = [] -> Decoder.m_length r = -1 ->
  Wire.isFrame (concat chunks) ->
  Z.of_nat (length (concat chunks)) < 2 ^ 31 ->
  Decoder.feedAll r chunks =
  (x <- Decoder.addData r (concat chunks) ;; Ok (snd x)) /\
  (forall regions,
     concat chunks = Wire.encode_frame regions ->
     Forall Wire.wireRegion regions ->
     Decoder.feedAll r chunks = Ok (Wire.waiting regions [])).
Proof.
  intros Hbuf Hm Hframe Hlen.
  destruct r as [regions0 len0 buf]. cbn in Hbuf, Hm. subst.
  change {| Decoder.m_mappedRegions := regions0; Decoder.m_length := -1;
            Decoder.m_buffer := [] |} with (Wire.waiting regions0 []).
  assert (Heq : Decoder.feedAll (Wire.waiting regions0 []) chunks =
                (x <- Decoder.addData (Wire.waiting regions0 []) (concat chunks) ;;
                 Ok (snd x))).
  { apply (feedAll_rest_of_frame chunks regions0 []).
    - exact Hframe.
    - destruct Hframe as [H8 _]. intros Hnil. rewrite Hnil in H8.
      simpl in H8. lia.
    - cbn [app]. lia. }
  split; [exact Heq|].
  intros regions Henc Hw. rewrite Heq.
  rewrite addData_waiting by (cbn [app]; lia).
  cbn [app]. rewrite (frames_single _ Hframe). cbn [Wire.decodeFrames].
  rewrite Henc, !app_nil_r.
  rewrite <- (app_nil_r (Wire.encode_frame regions)).
  rewrite decodeFrame_encode_frame; [reflexivity|exact Hw|].
  rewrite app_nil_r, <- Henc. lia.
Qed.

Lemma feed_chunks_equals_feed_whole_witness :
  let frame := Wire.encode_frame [Scenario.anonRegion] in
  let chunks := [firstn 5 frame; firstn 20 (skipn 5 frame); []; skipn 25 frame] in
  (Decoder.m_buffer Decoder.newPageInfoReader = [] /\
   Decoder.m_length Decoder.newPageInfoReader = -1 /\
   Wire.isFrame (concat chunks) /\
   Z.of_nat (length (concat chunks)) < 2 ^ 31) /\
  Decoder.feedAll Decoder.newPageInfoReader chunks =
  (x <- Decoder.addData Decoder.newPageInfoReader (concat chunks) ;; Ok (snd x)).
Proof.
  assert (H : Wire.isFrame
                (concat [firstn 5 (Wire.encode_frame [Scenario.anonRegion]);
                         firstn 20 (skipn 5 (Wire.encode_frame [Scenario.anonRegion]));
                         [];
                         skipn 25 (Wire.encode_frame [Scenario.anonRegion])])).
  { closed_prop. }
  assert (L : Z.of_nat (length
                (concat [firstn 5 (Wire.encode_frame [Scenario.anonRegion]);
                         firstn 20 (skipn 5 (Wire.encode_frame [Scenario.anonRegion]));
                         [];
                         skipn 25 (Wire.encode_frame [Scenario.anonRegion])]))
              < 2 ^ 31).
  { closed_prop. }
  split.
  - split; [reflexivity | split; [reflexivity | split; [exact H | exact L]]].
  - apply (proj1 (feed_chunks_equals_feed_whole Decoder.newPageInfoReader _
                    eq_refl eq_refl H L)).
Defined.

(** C3: what a call of [addData] returns.  [fs] are the complete frames at
    the front of the extended buffer and [rest] is what follows them: no
    complete frame.
    - The call returns [true] exactly when [fs] is not empty, that is when at
      least one complete frame was decoded in this call; it leaves [rest] in
      the buffer, and the regions it leaves are those of the last frame of
      [fs] (the frames before it are superseded).
    - When the frames decode without a fault, the call returns; for frames
      that the producer wrote from snapshots it returns the last snapshot.
      The only fault there is, is a read outside the buffer.
    - When the declared length of the first frame exceeds the bytes that are
      there, the call returns [false] without an error, keeps the regions and
      the bytes, and waits. *)
Theorem addData_true_iff_frame_decoded
    (r : Decoder.PageInfoReader) (data : list byte)
    (fs : list (list byte)) (rest : list byte) :
  Wire.readerInv r ->
  Z.of_nat (length (Decoder.m_buffer r ++ data)) < 2 ^ 31 ->
  Wire.frames (Decoder.m_buffer r ++ data) = (fs, rest) ->
  (concat fs ++ rest = Decoder.m_buffer r ++ data /\
   Forall Wire.isFrame fs /\ Wire.frameAt rest = None) /\
  (forall ret r', Decoder.addData r data = Ok (ret, r') ->
     (ret = true <-> fs <> []) /\
     Decoder.m_buffer r' = rest /\
     Wire.readerInv r' /\
     (fs <> [] ->
      Wire.decodeFrame (last fs [] ++ rest) = Ok (Decoder.m_mappedRegions r')) /\
     (fs = [] -> Decoder.m_mappedRegions r' = Decoder.m_mappedRegions r)) /\
  ((forall i, (i < length fs)%nat ->
      exists decoded,
        Wire.decodeFrame (concat (skipn i fs) ++ rest) = Ok decoded) ->
   exists ret r', Decoder.addData r data = Ok (ret, r')) /\
  (forall snapshots,
     fs = map Wire.encode_frame snapshots ->
     Forall (Forall Wire.wireRegion) snapshots ->
     Decoder.addData r data =
     Ok (match snapshots with [] => false | _ :: _ => true end,
         Wire.waiting (last snapshots (Decoder.m_mappedRegions r)) rest)) /\
  (forall f, Decoder.addData r data = Fault f -> f = OutOfBounds) /\
  (Z.of_nat (length (Decoder.m_buffer r ++ data))
     < Wire.declaredLength (Decoder.m_buffer r ++ data) + 8 ->
   Decoder.addData r data =
   Ok (false, Wire.waiting (Decoder.m_mappedRegions r)
                           (Decoder.m_buffer r ++ data))).
Proof.
  intros Hinv Hlen Hfs.
  assert (Hlen' : Z.of_nat (length (Decoder.m_buffer r ++ data)) < 2 ^ 63) by lia.
  pose proof (addData_frames r data Hinv Hlen') as Hadd.
  rewrite Hfs in Hadd.
  split; [exact (splitFrames_spec _ _ _ _ (Nat.le_refl _) Hfs)|].
  split; [|split; [|split; [|split]]].
  - intros ret r' Hok. rewrite Hadd in Hok.
    pose proof (decodeFrames_inv _ _ _ _ _ Hok) as Hinv'.
    destruct (decodeFrames_result _ _ _ _ _ Hok) as (Hret & Hbuf & Hnil & Hlast).
    cbn [fst snd] in *.
    repeat split; auto.
    + intros -> Hf. subst fs. discriminate.
    + intros Hne. destruct fs; [contradiction | exact Hret].
  - intros Hall. rewrite Hadd.
    destruct (decodeFrames_total fs rest (Decoder.m_mappedRegions r) false Hall)
      as [[ret r'] Hx].
    exists ret, r'. exact Hx.
  - intros snapshots -> Hw. rewrite Hadd.
    apply decodeFrames_encoded; [exact Hw|].
    pose proof (splitFrames_concat _ _ _ _ Hfs) as Hcat.
    rewrite Hcat. exact Hlen'.
  - intros f Hf. rewrite Hadd in Hf.
    exact (splitFrames_fault _ _ _ _ _ _ _ Hfs Hlen' Hf).
  - intros Hshort. rewrite (frames_incomplete _ Hshort) in Hfs.
    injection Hfs as <- <-. exact Hadd.
Qed.

Lemma addData_true_iff_frame_decoded_witness :
  let data := Wire.encode_frame [Scenario.anonRegion]
              ++ Wire.encode_frame [Scenario.namedRegion]
              ++ firstn 3 (Wire.encode_frame [Scenario.emptyRegion]) in
  let fs := [Wire.encode_frame [Scenario.anonRegion];
             Wire.encode_frame [Scenario.namedRegion]] in
  let rest := firstn 3 (Wire.encode_frame [Scenario.emptyRegion]) in
  (Wire.readerInv Decoder.newPageInfoReader /\
   Z.of_nat (length (Decoder.m_buffer Decoder.newPageInfoReader ++ data)) < 2 ^ 31 /\
   Wire.frames (Decoder.m_buffer Decoder.newPageInfoReader ++ data) = (fs, rest)) /\
  Decoder.addData Decoder.newPageInfoReader data =
  Ok (true, Wire.waiting [Scenario.namedRegion] rest).
Proof.
  assert (I : Wire.readerInv Decoder.newPageInfoReader) by (left; reflexivity).
  assert (L : Z.of_nat (length (Decoder.m_buffer Decoder.newPageInfoReader ++
                Wire.encode_frame [Scenario.anonRegion]
                ++ Wire.encode_frame [Scenario.namedRegion]
                ++ firstn 3 (Wire.encode_frame [Scenario.emptyRegion]))) < 2 ^ 31).
  { closed_prop. }
  assert (F : Wire.frames (Decoder.m_buffer Decoder.newPageInfoReader ++
                Wire.encode_frame [Scenario.anonRegion]
                ++ Wire.encode_frame [Scenario.namedRegion]
                ++ firstn 3 (Wire.encode_frame [Scenario.emptyRegion]))
              = ([Wire.encode_frame [Scenario.anonRegion];
                  Wire.encode_frame [Scenario.namedRegion]],
                 firstn 3 (Wire.encode_frame [Scenario.emptyRegion]))).
  { closed_prop. }
  split; [split; [exact I | split; [exact L | exact F]]|].
  refine (proj1 (proj2 (proj2 (proj2
            (addData_true_iff_frame_decoded Decoder.newPageInfoReader _ _ _ I L F))))
            [[Scenario.anonRegion]; [Scenario.namedRegion]] eq_refl _).
  closed_prop.
Defined.

Section NoValidation.

Import Decoder Wire.

Lemma assertRegionBounds_iff (regions : list MappedRegion) :
  Mosaic.assertRegionBounds regions = Ok tt <->
  Forall (fun r => start r <= end_ r) regions.
Proof.
  induction regions as [|r regions IH]; cbn [Mosaic.assertRegionBounds].
  - split; [constructor | reflexivity].
  - unfold assertion.
    destruct (Z.leb_spec (start r) (end_ r)) as [Hle|Hgt]; cbn [bind].
    + rewrite IH. split.
      * intros H. now constructor.
      * intros H. now inversion H.
    + split; [discriminate|].
      intros H. inversion H. lia.
Qed.

Lemma decodeFrames_true (fs : list (list byte)) :
  forall (rest : list byte) (regions : list MappedRegion),
  decodeFrames fs rest regions true
  = (x <- decodeFrames fs rest regions true ;; Ok (true, snd x)).
Proof.
  induction fs as [|f fs IH]; intros rest regions; [reflexivity|].
  cbn [decodeFrames].
  destruct (decodeFrame _) as [decoded|e]; cbn [bind]; [apply IH|reflexivity].
Qed.

(** The flag that [addData] returns is all that remembers an earlier frame
    of the same call. *)
Lemma decodeFrames_flag (fs : list (list byte)) (rest : list byte)
    (regions : list MappedRegion) :
  decodeFrames fs rest regions true
  = (x <- decodeFrames fs rest regions false ;; Ok (true, snd x)).
Proof.
  destruct fs as [|f fs]; [reflexivity|].
  cbn [decodeFrames].
  destruct (decodeFrame _) as [decoded|e]; cbn [bind];
    [apply decodeFrames_true|reflexivity].
Qed.

End NoValidation.

(** C1 (as the code has it): [addData] does not check the declared lengths
    against the frame.  Take a frame whose payload is declared to be 20
    bytes, so that it ends right behind the fixed fields of its only region,
    and let the buffer go on with the backing-file name and the page vectors
    that the region declares.  The decoder takes the name, the use counts
    and the flags from these bytes behind the frame, replaces the previously
    decoded regions by the region, reports a decoded snapshot by returning
    [true], and goes on with the bytes it has just used as the beginning of
    the next frame, as if they had arrived behind the frame as new data.
    When they do not form a complete frame themselves, they stay in the
    buffer and the decoded region is the snapshot. *)
Theorem addData_trusts_declared_lengths
    (previous : list Decoder.MappedRegion) (r : Decoder.MappedRegion) :
  Wire.wireRegion r ->
  Z.of_nat (length (Wire.encode_region r)) + 8 < 2 ^ 31 ->
  let buffered := Wire.encode_uint 8 20 ++ Wire.encode_region r in
  let behind := skipn 20 (Wire.encode_region r) in
  Wire.frameAt buffered = Some (firstn 28 buffered, behind) /\
  Z.of_nat (length behind) =
    Z.of_nat (length (Decoder.backingFile r))
    + Z.of_nat (Wire.padding (Z.of_nat (length (Decoder.backingFile r))))
    + 8 * Wire.pageCount r /\
  Wire.decodeFrame buffered = Ok [r] /\
  Decoder.addData (Wire.waiting previous []) buffered =
  (x <- Decoder.addData (Wire.waiting [r] []) behind ;; Ok (true, snd x)) /\
  (Wire.frameAt behind = None ->
   Decoder.addData (Wire.waiting previous []) buffered =
   Ok (true, Wire.waiting [r] behind)).
Proof.
  intros Hw Hlen buffered behind.
  pose proof (length_encode_region r) as Hl.
  pose proof (encode_region_min r) as Hmin.
  assert (Hb : Z.of_nat (length buffered) =
               8 + Z.of_nat (length (Wire.encode_region r))).
  { subst buffered. rewrite length_app, length_encode_uint. lia. }
  assert (Hd : Wire.declaredLength buffered = 20).
  { subst buffered. unfold Wire.declaredLength.
    rewrite slice_0_app by (rewrite length_encode_uint; simpl; lia).
    reflexivity. }
  assert (Hbehind : skipn 28 buffered = behind).
  { subst buffered behind. rewrite skipn_app, length_encode_uint.
    rewrite skipn_all2 by (rewrite length_encode_uint; lia).
    reflexivity. }
  assert (Hlb : Z.of_nat (length behind) = Z.of_nat (length buffered) - 28).
  { rewrite <- Hbehind, length_skipn. lia. }
  assert (Hf : Wire.frameAt buffered = Some (firstn 28 buffered, behind)).
  { unfold Wire.frameAt. cbv zeta. rewrite Hd.
    change (Z.to_nat (20 + 8)) with 28%nat.
    destruct (Z.leb_spec 8 (Z.of_nat (length buffered))); [|lia].
    destruct (Z.leb_spec (20 + 8) (Z.of_nat (length buffered))); [|lia].
    cbn [andb]. now rewrite Hbehind. }
  assert (Hdec : Wire.decodeFrame buffered = Ok [r]).
  { unfold Wire.decodeFrame. rewrite Hd.
    destruct (length buffered) as [|fuel] eqn:Hfuel; [lia|].
    change (Decoder.sizeof_size_t) with (Z.of_nat (length (Wire.encode_uint 8 20))).
    cbn [Decoder.decodeRegions].
    change (Z.of_nat (length (Wire.encode_uint 8 20)) <? 20 + Z.of_nat (length (Wire.encode_uint 8 20)))
      with true. cbv iota.
    assert (Hdr : Decoder.decodeRegion buffered
                    (Z.of_nat (length (Wire.encode_uint 8 20)))
                  = Ok (r, Z.of_nat (length (Wire.encode_uint 8 20))
                           + Z.of_nat (length (Wire.encode_region r)))).
    { pose proof (decodeRegion_encoded (Wire.encode_uint 8 20) [] r Hw) as H.
      rewrite app_nil_r in H. apply H. fold buffered. lia. }
    rewrite Hdr. cbn [bind fst snd app].
    assert (Hend : (Z.of_nat (length (Wire.encode_uint 8 20))
                    + Z.of_nat (length (Wire.encode_region r))
                    <? 20 + Z.of_nat (length (Wire.encode_uint 8 20))) = false).
    { apply Z.ltb_ge. rewrite length_encode_uint. lia. }
    destruct fuel; cbn [Decoder.decodeRegions]; rewrite Hend; reflexivity. }
  assert (Hgen : Decoder.addData (Wire.waiting previous []) buffered =
                 (x <- Decoder.addData (Wire.waiting [r] []) behind ;;
                  Ok (true, snd x))).
  { rewrite addData_waiting by (cbn [app]; lia).
    rewrite (addData_waiting [r] [] behind) by (cbn [app]; lia).
    cbn [app]. unfold Wire.frames.
    destruct (length buffered) as [|fuel] eqn:Hfuel; [lia|].
    cbn [Wire.splitFrames]. rewrite Hf.
    rewrite (splitFrames_fuel (length behind) fuel behind) by lia.
    destruct (Wire.splitFrames fuel behind) as [fs rest] eqn:Hs.
    cbn [Wire.decodeFrames].
    pose proof (splitFrames_concat _ _ _ _ Hs) as Hcat.
    replace (firstn 28 buffered ++ concat fs ++ rest) with buffered
      by (rewrite Hcat, <- Hbehind; symmetry; apply firstn_skipn).
    rewrite Hdec. cbn [bind].
    apply decodeFrames_flag. }
  split; [exact Hf|]. split.
  { subst behind. rewrite length_skipn.
    destruct Hw as (_ & _ & _ & Huc & Hfl & _). lia. }
  split; [exact Hdec|]. split; [exact Hgen|].
  intros Hnone. rewrite Hgen.
  rewrite addData_waiting by (cbn [app]; lia).
  cbn [app]. unfold Wire.frames.
  destruct (length behind) as [|fuel]; cbn [Wire.splitFrames];
    [|rewrite Hnone]; reflexivity.
Qed.

Lemma addData_trusts_declared_lengths_witness :
  (Wire.wireRegion Scenario.anonRegion /\
   Z.of_nat (length (Wire.encode_region Scenario.anonRegion)) + 8 < 2 ^ 31) /\
  Wire.frameAt (skipn 20 (Wire.encode_region Scenario.anonRegion)) = None /\
  Decoder.addData (Wire.waiting [Scenario.namedRegion] [])
    (Wire.encode_uint 8 20 ++ Wire.encode_region Scenario.anonRegion) =
  Ok (true, Wire.waiting [Scenario.anonRegion]
              (skipn 20 (Wire.encode_region Scenario.anonRegion))).
Proof.
  assert (W : Wire.wireRegion Scenario.anonRegion) by closed_prop.
  assert (L : Z.of_nat (length (Wire.encode_region Scenario.anonRegion)) + 8
              < 2 ^ 31) by closed_prop.
  assert (N : Wire.frameAt (skipn 20 (Wire.encode_region Scenario.anonRegion))
              = None) by closed_prop.
  split; [split; [exact W | exact L]|]. split; [exact N|].
  exact (proj2 (proj2 (proj2 (proj2
           (addData_trusts_declared_lengths [Scenario.namedRegion]
              Scenario.anonRegion W L)))) N).
Defined.

(** C1, the claim as stated fails.  The buffered frame is 28 bytes long (a
    length prefix of 20); its region announces a backing-file name of four
    bytes, which would lie behind the frame.  The decoder raises no fault: it
    returns [true], the name of the decoded region consists of the four
    bytes behind the frame, and the previously decoded region sequence is
    gone. *)
Lemma addData_reads_behind_the_frame :
  let previous := [Scenario.anonRegion] in
  let frame := Wire.encode_uint 8 20 ++ Wire.encode_uint 8 0x7000
               ++ Wire.encode_uint 8 0x7000 ++ Wire.encode_uint 4 4 in
  let next := ["l"; "i"; "b"; "c"]%byte in
  Wire.isFrame frame /\
  Wire.frameAt (frame ++ next) = Some (frame, next) /\
  Decoder.addData
    {| Decoder.m_mappedRegions := previous; Decoder.m_length := -1;
       Decoder.m_buffer := [] |} (frame ++ next) =
  Ok (true,
      {| Decoder.m_mappedRegions :=
           [ {| Decoder.start := 0x7000; Decoder.end_ := 0x7000;
                Decoder.backingFile := next;
                Decoder.useCounts := []; Decoder.combinedFlags := [] |} ];
         Decoder.m_length := -1;
         Decoder.m_buffer := next |}).
Proof.
  split; [closed_prop|]. split; vm_compute; reflexivity.
Qed.


(** * The layout *)

Section CoalesceFacts.

Import Decoder Mosaic.

Lemma maxAllowedGap_value : maxAllowedGap = 64 * pageSize.
Proof. reflexivity. Qed.

Lemma gap_test (e s : Z) :
  gapFits e ->
  (wrap64 (e + maxAllowedGap) <? s) = (64 * pageSize <? s - e).
Proof.
  intros [H0 H1]. rewrite maxAllowedGap_value.
  rewrite wrap64_small by (unfold pageSize in *; lia).
  destruct (Z.ltb_spec (e + 64 * pageSize) s), (Z.ltb_spec (64 * pageSize) (s - e));
    try reflexivity; lia.
Qed.

Lemma coalesce_loop_spec (rs : list MappedRegion) :
  forall (current : Z * Z) (acc : list (Z * Z)),
  gapFits (snd current) ->
  Forall (fun r => gapFits (end_ r)) rs ->
  coalesce_loop rs current acc = acc ++ coalesce_spec current rs.
Proof.
  induction rs as [|r rs IH]; intros current acc Hc Hrs.
  - reflexivity.
  - inversion Hrs as [|? ? Hr Hrs']; subst.
    cbn [coalesce_loop coalesce_spec].
    rewrite gap_test by exact Hc.
    destruct (64 * pageSize <? start r - snd current).
    + rewrite IH by assumption. now rewrite <- app_assoc.
    + now rewrite IH by assumption.
Qed.

Lemma computeLargeRegions_spec (regions : list MappedRegion) :
  sortedRegions regions ->
  Forall (fun r => gapFits (end_ r)) regions ->
  computeLargeRegions regions = largeRegions_spec regions.
Proof.
  destruct regions as [|front rest]; [reflexivity|].
  intros Hsorted Hfit. inversion Hfit as [|? ? Hf Hrest]; subst.
  destruct Hsorted as (Hse & _ & _).
  unfold computeLargeRegions, largeRegions_spec.
  cbn [coalesce_loop]. rewrite gap_test by exact Hf. cbn [snd fst].
  destruct (Z.ltb_spec (64 * pageSize) (start front - end_ front));
    [unfold pageSize in *; lia|].
  now rewrite coalesce_loop_spec.
Qed.

Lemma length_coalesce_spec (rest : list MappedRegion) :
  forall current,
  length (coalesce_spec current rest) = S (gapsBeyond (snd current) rest).
Proof.
  induction rest as [|r rest IH]; intros current; [reflexivity|].
  cbn [coalesce_spec gapsBeyond].
  destruct (64 * pageSize <? start r - snd current).
  - cbn [length]. now rewrite IH.
  - now rewrite IH.
Qed.

Lemma two_regions_65 (r1 r2 : MappedRegion) :
  0 <= start r1 <= end_ r1 -> is_u64 (start r2) ->
  start r2 = end_ r1 + 65 * pageSize ->
  computeLargeRegions [r1; r2] = [(start r1, end_ r1); (start r2, end_ r2)].
Proof.
  intros H1 H2 Hgap. unfold is_u64, pageSize in *.
  unfold computeLargeRegions. cbn [coalesce_loop fst snd].
  rewrite maxAllowedGap_value. unfold pageSize.
  rewrite wrap64_small by lia.
  destruct (Z.ltb_spec (end_ r1 + 64 * 4096) (start r1)); [lia|].
  destruct (Z.ltb_spec (end_ r1 + 64 * 4096) (start r2)); [|lia].
  reflexivity.
Qed.

Lemma two_regions_64 (r1 r2 : MappedRegion) :
  0 <= start r1 <= end_ r1 -> is_u64 (start r2) ->
  start r2 = end_ r1 + 64 * pageSize ->
  computeLargeRegions [r1; r2] = [(start r1, end_ r2)].
Proof.
  intros H1 H2 Hgap. unfold is_u64, pageSize in *.
  unfold computeLargeRegions. cbn [coalesce_loop fst snd].
  rewrite maxAllowedGap_value. unfold pageSize.
  rewrite wrap64_small by lia.
  destruct (Z.ltb_spec (end_ r1 + 64 * 4096) (start r1)); [lia|].
  destruct (Z.ltb_spec (end_ r1 + 64 * 4096) (start r2)); [lia|].
  reflexivity.
Qed.

End CoalesceFacts.

(** The coalescing below the top of the address space: on a sorted,
    non-overlapping region sequence
    whose end addresses stay at least 64 pages below [2^64], the scan of
    [updatePageInfo] yields exactly the large regions of the spec: it starts
    a new large region at a region exactly when the gap from the previous
    region's end to this region's start exceeds 64 pages, so the number of
    large regions is one more than the number of such gaps.  Two regions
    separated by exactly 65 pages give two large regions, two regions
    separated by exactly 64 pages give one. *)
Theorem coalescing_splits_beyond_64_pages :
  (forall regions,
     Mosaic.sortedRegions regions ->
     Forall (fun r => Mosaic.gapFits (Decoder.end_ r)) regions ->
     Mosaic.computeLargeRegions regions = Mosaic.largeRegions_spec regions /\
     (forall front rest, regions = front :: rest ->
        length (Mosaic.computeLargeRegions regions) =
        S (Mosaic.gapsBeyond (Decoder.end_ front) rest))) /\
  (forall r1 r2,
     0 <= Decoder.start r1 <= Decoder.end_ r1 -> is_u64 (Decoder.start r2) ->
     Decoder.start r2 = Decoder.end_ r1 + 65 * pageSize ->
     Mosaic.computeLargeRegions [r1; r2] =
     [(Decoder.start r1, Decoder.end_ r1); (Decoder.start r2, Decoder.end_ r2)]) /\
  (forall r1 r2,
     0 <= Decoder.start r1 <= Decoder.end_ r1 -> is_u64 (Decoder.start r2) ->
     Decoder.start r2 = Decoder.end_ r1 + 64 * pageSize ->
     Mosaic.computeLargeRegions [r1; r2] =
     [(Decoder.start r1, Decoder.end_ r2)]).
Proof.
  split; [|split; [exact two_regions_65 | exact two_regions_64]].
  intros regions Hsorted Hfit.
  pose proof (computeLargeRegions_spec regions Hsorted Hfit) as Heq.
  split; [exact Heq|].
  intros front rest ->. rewrite Heq. apply length_coalesce_spec.
Qed.

Lemma coalescing_splits_beyond_64_pages_witness :
  let r1 := Scenario.anonRegion in
  let r2 := {| Decoder.start := 0x3000 + 65 * 4096; Decoder.end_ := 0x3000 + 66 * 4096;
               Decoder.backingFile := []; Decoder.useCounts := [1];
               Decoder.combinedFlags := [2 ^ 31] |} in
  let r3 := {| Decoder.start := 0x3000 + 130 * 4096; Decoder.end_ := 0x3000 + 131 * 4096;
               Decoder.backingFile := []; Decoder.useCounts := [1];
               Decoder.combinedFlags := [2 ^ 31] |} in
  (Mosaic.sortedRegions [r1; r2; r3] /\
   Forall (fun r => Mosaic.gapFits (Decoder.end_ r)) [r1; r2; r3]) /\
  Mosaic.computeLargeRegions [r1; r2; r3] =
  [(0x1000, 0x3000); (0x3000 + 65 * 4096, 0x3000 + 131 * 4096)].
Proof.
  intros r1 r2 r3.
  assert (S : Mosaic.sortedRegions [r1; r2; r3]).
  { cbn. lia. }
  assert (F : Forall (fun r => Mosaic.gapFits (Decoder.end_ r)) [r1; r2; r3]).
  { repeat constructor; cbn; lia. }
  split; [split; [exact S | exact F]|].
  exact (proj1 (proj1 coalescing_splits_beyond_64_pages [r1; r2; r3] S F)).
Defined.

(** C5, the code at the failing input: the sequence with the single
    one-page region [(2^64 - 8192, 2^64 - 4096)] is sorted and
    non-overlapping and has no gap at all, so the coalescing of the spec
    gives one large region.  The scan yields two, both with the bounds of
    that region, because [largeRegion.second + maxAllowedGap] wraps around
    in 64 bits; the second one holds no region, and [updatePageInfo] stops
    at its own [assert(iMappedRegion < regions.size())]. *)
Lemma coalescing_wraps_at_top_of_address_space :
  Mosaic.sortedRegions [Scenario.topRegion] /\
  is_u64 (Decoder.start Scenario.topRegion) /\
  is_u64 (Decoder.end_ Scenario.topRegion) /\
  Wire.wireRegion Scenario.topRegion /\
  Mosaic.gapsBeyond (Decoder.end_ Scenario.topRegion) [] = 0%nat /\
  Mosaic.largeRegions_spec [Scenario.topRegion] =
  [(2 ^ 64 - 8192, 2 ^ 64 - 4096)] /\
  Mosaic.computeLargeRegions [Scenario.topRegion] =
  [(2 ^ 64 - 8192, 2 ^ 64 - 4096); (2 ^ 64 - 8192, 2 ^ 64 - 4096)] /\
  Mosaic.updatePageInfo [Scenario.topRegion] = Fault AssertFailed.
Proof.
  split; [cbn; lia|].
  split; [unfold is_u64; cbn; lia|].
  split; [unfold is_u64; cbn; lia|].
  split; [closed_prop|].
  split; [reflexivity|].
  split; [reflexivity|].
  split; [reflexivity|].
  vm_compute. reflexivity.
Qed.


Section RowCountFacts.

Import Decoder Mosaic.

Lemma rowsOfLargeRegion_spec (lr : Z * Z) :
  spanOk lr -> rowsOfLargeRegion lr = ceilDiv (pagesInSpan lr) 512.
Proof.
  intros [[H0 H1] H2]. unfold rowsOfLargeRegion, ceilDiv, pagesInSpan.
  unfold s_columnCount, pageSize.
  rewrite (wrap64_small (snd lr - fst lr)) by lia.
  assert (Hq : 0 <= (snd lr - fst lr) / 4096 < 2 ^ 52).
  { split; [apply Z.div_pos; lia|].
    apply Z.div_lt_upper_bound; lia. }
  rewrite wrap64_small by lia.
  f_equal. lia.
Qed.

Lemma rowsOfLargeRegion_nonneg (lr : Z * Z) :
  spanOk lr -> 0 <= ceilDiv (pagesInSpan lr) 512.
Proof.
  intros [[H0 H1] H2]. unfold ceilDiv, pagesInSpan, pageSize.
  apply Z.div_pos; [|lia].
  assert (0 <= (snd lr - fst lr) / 4096) by (apply Z.div_pos; lia). lia.
Qed.

Lemma rowCount_fold (lrs : list (Z * Z)) :
  forall init,
  Forall spanOk lrs ->
  fold_left (fun rowCount largeRegion =>
               wrap32 (wrap64 (rowCount + rowsOfLargeRegion largeRegion)))
            lrs (wrap32 init)
  = wrap32 (init + sumRows lrs).
Proof.
  induction lrs as [|lr lrs IH]; intros init Hok.
  - cbn. now rewrite Z.add_0_r.
  - inversion Hok as [|? ? Hlr Hlrs]; subst.
    cbn [fold_left]. unfold sumRows. cbn [map fold_right]. fold (sumRows lrs).
    rewrite rowsOfLargeRegion_spec by exact Hlr.
    assert (Hw : wrap32 (wrap64 (wrap32 init + ceilDiv (pagesInSpan lr) 512))
                 = wrap32 (init + ceilDiv (pagesInSpan lr) 512)).
    { unfold wrap32, wrap64.
      rewrite Z.mod_mod_divide by (exists (2 ^ 32); reflexivity).
      now rewrite Z.add_mod_idemp_l by lia. }
    rewrite Hw, IH by exact Hlrs.
    f_equal. lia.
Qed.

Lemma computeRowCount_mod (lrs : list (Z * Z)) :
  Forall spanOk lrs ->
  computeRowCount lrs = wrap32 (rowCount_spec lrs).
Proof.
  intros Hok. unfold computeRowCount, rowCount_spec. fold (sumRows lrs).
  assert (Hinit : wrap32 (wrap64 (wrap64 (Z.of_nat (length lrs) - 1)
                                  * tilesPerSeparator))
                  = wrap32 (2 * (Z.of_nat (length lrs) - 1))).
  { unfold wrap32, wrap64, tilesPerSeparator.
    set (n := Z.of_nat (length lrs) - 1).
    rewrite Z.mod_mod_divide by (exists (2 ^ 32); reflexivity).
    rewrite <- (Z.mul_mod_idemp_l (n mod 2 ^ 64) 2 (2 ^ 32)) by lia.
    rewrite Z.mod_mod_divide by (exists (2 ^ 32); reflexivity).
    rewrite Z.mul_mod_idemp_l by lia.
    f_equal. lia. }
  rewrite Hinit, rowCount_fold by exact Hok.
  f_equal. lia.
Qed.

End RowCountFacts.

(** C6 (as the code has it): for every list of large regions (each with
    [first <= second], 64-bit addresses) the computed row count is the sum
    over the large regions of [ceil(pagesInSpan / 512)] plus 2 separator
    rows between consecutive large regions and none behind the last one,
    reduced modulo [2^32] because [rowCount] is a 32-bit unsigned integer;
    for a non-empty list it is that sum itself whenever the sum is below
    [2^32].  A single large region of exactly 512 pages gives exactly 1
    row and no separator row; a single mapped region of exactly 512 pages
    that ends at least 64 pages below [2^64] is coalesced into one such
    large region. *)
Theorem rowCount_is_sum_of_ceilings :
  (forall largeRegions,
     Forall Mosaic.spanOk largeRegions ->
     Mosaic.computeRowCount largeRegions
       = (Mosaic.rowCount_spec largeRegions) mod 2 ^ 32 /\
     (largeRegions <> [] -> Mosaic.rowCount_spec largeRegions < 2 ^ 32 ->
      Mosaic.computeRowCount largeRegions = Mosaic.rowCount_spec largeRegions)) /\
  (forall first,
     0 <= first -> first + 512 * pageSize < 2 ^ 64 ->
     Mosaic.pagesInSpan (first, first + 512 * pageSize) = 512 /\
     Mosaic.computeRowCount [(first, first + 512 * pageSize)] = 1 /\
     Mosaic.sumRows [(first, first + 512 * pageSize)] = 1 /\
     Mosaic.rowCount_spec [(first, first + 512 * pageSize)]
     - Mosaic.sumRows [(first, first + 512 * pageSize)] = 0) /\
  (forall r,
     0 <= Decoder.start r ->
     Decoder.end_ r = Decoder.start r + 512 * pageSize ->
     Mosaic.gapFits (Decoder.end_ r) ->
     Mosaic.computeLargeRegions [r] = [(Decoder.start r, Decoder.end_ r)] /\
     Mosaic.computeRowCount (Mosaic.computeLargeRegions [r]) = 1 /\
     2 * (Z.of_nat (length (Mosaic.computeLargeRegions [r])) - 1) = 0).
Proof.
  assert (Hgen : forall largeRegions,
     Forall Mosaic.spanOk largeRegions ->
     Mosaic.computeRowCount largeRegions
       = (Mosaic.rowCount_spec largeRegions) mod 2 ^ 32 /\
     (largeRegions <> [] -> Mosaic.rowCount_spec largeRegions < 2 ^ 32 ->
      Mosaic.computeRowCount largeRegions = Mosaic.rowCount_spec largeRegions)).
  { intros largeRegions Hok.
    pose proof (computeRowCount_mod largeRegions Hok) as Hmod.
    unfold wrap32 in Hmod.
    split; [exact Hmod|].
    intros Hne Hlt. rewrite Hmod. apply Z.mod_small. split; [|exact Hlt].
    unfold Mosaic.rowCount_spec.
    assert (Hs : 0 <= Mosaic.sumRows largeRegions).
    { clear Hmod Hne Hlt. unfold Mosaic.sumRows.
      induction Hok as [|lr lrs Hlr _ IH]; [cbn; lia|].
      cbn [map fold_right].
      pose proof (rowsOfLargeRegion_nonneg lr Hlr). lia. }
    destruct largeRegions; [contradiction|]. cbn [length]. lia. }
  split; [exact Hgen|].
  assert (Hone : forall first,
     0 <= first -> first + 512 * pageSize < 2 ^ 64 ->
     Mosaic.pagesInSpan (first, first + 512 * pageSize) = 512 /\
     Mosaic.computeRowCount [(first, first + 512 * pageSize)] = 1 /\
     Mosaic.sumRows [(first, first + 512 * pageSize)] = 1 /\
     Mosaic.rowCount_spec [(first, first + 512 * pageSize)]
     - Mosaic.sumRows [(first, first + 512 * pageSize)] = 0).
  { intros first H0 Htop.
    assert (Hok : Forall Mosaic.spanOk [(first, first + 512 * pageSize)]).
    { constructor; [|constructor].
      unfold Mosaic.spanOk, pageSize in *. cbn [fst snd]. lia. }
    assert (Hpages : Mosaic.pagesInSpan (first, first + 512 * pageSize) = 512).
    { unfold Mosaic.pagesInSpan. cbn [fst snd].
      replace (first + 512 * pageSize - first) with (512 * pageSize) by lia.
      reflexivity. }
    assert (Hsum : Mosaic.sumRows [(first, first + 512 * pageSize)] = 1).
    { unfold Mosaic.sumRows. cbn [map fold_right]. rewrite Hpages.
      reflexivity. }
    split; [exact Hpages|].
    split; [|split; [exact Hsum|]].
    - destruct (Hgen _ Hok) as [Hmod _]. rewrite Hmod.
      unfold Mosaic.rowCount_spec. rewrite Hsum. reflexivity.
    - unfold Mosaic.rowCount_spec. cbn [length]. lia. }
  split; [exact Hone|].
  intros r H0 Hend Hfit.
  assert (Hlr : Mosaic.computeLargeRegions [r]
                = [(Decoder.start r, Decoder.end_ r)]).
  { rewrite computeLargeRegions_spec; [reflexivity| |now constructor].
    cbn. unfold pageSize in *. lia. }
  rewrite Hlr. split; [reflexivity|]. split; [|reflexivity].
  assert (Hok : Forall Mosaic.spanOk [(Decoder.start r, Decoder.end_ r)]).
  { constructor; [|constructor].
    destruct Hfit as [Hf0 Hf1]. unfold Mosaic.spanOk, pageSize in *.
    cbn [fst snd]. lia. }
  destruct (Hgen _ Hok) as [Hmod _]. rewrite Hmod.
  unfold Mosaic.rowCount_spec, Mosaic.sumRows, Mosaic.ceilDiv, Mosaic.pagesInSpan.
  cbn [map fold_right length fst snd]. rewrite Hend.
  replace (Decoder.start r + 512 * pageSize - Decoder.start r)
    with (512 * pageSize) by lia.
  reflexivity.
Qed.

Lemma rowCount_is_sum_of_ceilings_witness :
  Forall Mosaic.spanOk [(0x1000, 0x1000 + 512 * pageSize); (0x400000, 0x403000)] /\
  Mosaic.computeRowCount [(0x1000, 0x1000 + 512 * pageSize); (0x400000, 0x403000)]
  = 1 + 1 + 2.
Proof.
  assert (H : Forall Mosaic.spanOk
                [(0x1000, 0x1000 + 512 * pageSize); (0x400000, 0x403000)])
    by closed_prop.
  split; [exact H|].
  refine (proj2 (proj1 rowCount_is_sum_of_ceilings _ H) _ _).
  - discriminate.
  - reflexivity.
Defined.

(** C6, the claim as stated fails: for the single large region
    [(0, 2^53)], which spans [2^41] pages, the sum of the spec is [2^32]
    rows, while the computed 32-bit row count is 0. *)
Lemma rowCount_wraps_at_32_bits :
  Mosaic.spanOk (0, 2 ^ 53) /\
  Mosaic.rowCount_spec [(0, 2 ^ 53)] = 2 ^ 32 /\
  Mosaic.computeRowCount [(0, 2 ^ 53)] = 0.
Proof.
  split; [unfold Mosaic.spanOk; cbn; lia|]. split; reflexivity.
Qed.

Section SearchFacts.

Import Decoder Mosaic.

Context {A : Type} (comp : Z -> A -> bool) (v : list A) (val : Z) (k : nat).

(** [k] is the partition point of [v] for [comp val]. *)
Hypothesis below : forall i x, (i < k)%nat -> nth_error v i = Some x ->
                               comp val x = false.
Hypothesis above : forall i x, (k <= i)%nat -> nth_error v i = Some x ->
                               comp val x = true.

Lemma upper_bound_loop_partition (fuel : nat) :
  forall first len,
  (first <= k)%nat -> (k <= first + len)%nat -> (first + len <= length v)%nat ->
  (len <= fuel)%nat ->
  upper_bound_loop fuel comp v val first len = k.
Proof.
  induction fuel as [|fuel IH]; intros first len H1 H2 H3 H4.
  - simpl. lia.
  - cbn [upper_bound_loop].
    destruct (Nat.eqb_spec len 0) as [->|Hne]; [lia|].
    assert (Hhalf : (Nat.div2 len < len)%nat) by (apply Nat.lt_div2; lia).
    generalize dependent (Nat.div2 len). intros half Hhalf.
    destruct (nth_error v (first + half)) as [x|] eqn:Hx.
    + destruct (comp val x) eqn:Hc.
      * assert (Hk : (k <= first + half)%nat).
        { destruct (Nat.le_gt_cases k (first + half)) as [Hle|Hgt];
            [exact Hle|].
          rewrite (below _ _ Hgt Hx) in Hc. discriminate. }
        apply IH; lia.
      * assert (Hk : (first + half < k)%nat).
        { destruct (Nat.le_gt_cases k (first + half)) as [Hle|Hgt];
            [|exact Hgt].
          rewrite (above _ _ Hle Hx) in Hc. discriminate. }
        apply IH; lia.
    + apply nth_error_None in Hx. lia.
Qed.

Lemma upper_bound_partition :
  (k <= length v)%nat -> upper_bound comp v val = k.
Proof.
  intros Hk. unfold upper_bound.
  apply upper_bound_loop_partition; lia.
Qed.

End SearchFacts.

Section LookupFacts.

Import Decoder Mosaic.

Lemma upper_bound_all_above {A : Type} (comp : Z -> A -> bool) (v : list A)
    (val : Z) :
  Forall (fun x => comp val x = true) v -> upper_bound comp v val = 0%nat.
Proof.
  intros Hall. apply upper_bound_partition; [lia| |lia].
  intros i x _ Hx. apply nth_error_In in Hx.
  rewrite Forall_forall in Hall. now apply Hall.
Qed.

(** The search finds the entry with the greatest first row that is not
    greater than [row]. *)
Lemma upper_bound_rows (before after : list (Z * Z)) (entry : Z * Z) (row : Z) :
  Forall (fun e => fst e <= row) before -> fst entry <= row ->
  Forall (fun e => row < fst e) after ->
  upper_bound (fun lhs rhs => lhs <? fst rhs) (before ++ entry :: after) row
  = S (length before).
Proof.
  intros Hb He Ha.
  apply upper_bound_partition.
  - intros i x Hi Hx. apply Z.ltb_ge.
    destruct (Nat.eq_dec i (length before)) as [->|Hne].
    + rewrite nth_error_app2, Nat.sub_diag in Hx by lia.
      injection Hx as <-. exact He.
    + rewrite nth_error_app1 in Hx by lia.
      apply nth_error_In in Hx. rewrite Forall_forall in Hb. now apply Hb.
  - intros i x Hi Hx. apply Z.ltb_lt.
    rewrite nth_error_app2 in Hx by lia.
    destruct (i - length before)%nat as [|j] eqn:Hj; [lia|].
    cbn [nth_error] in Hx. apply nth_error_In in Hx.
    rewrite Forall_forall in Ha. now apply Ha.
  - rewrite length_app. simpl. lia.
Qed.

Lemma sorted_before (before after : list (Z * Z)) (entry : Z * Z) :
  rowsAscending (before ++ entry :: after) ->
  Forall (fun e => fst e <= fst entry) before.
Proof.
  unfold rowsAscending. induction before as [|b before IH]; intros Hs.
  - constructor.
  - cbn [app] in Hs. inversion Hs as [|? ? Hrest Hall]; subst.
    constructor.
    + rewrite Forall_forall in Hall. apply Hall.
      apply in_or_app. right. left. reflexivity.
    + now apply IH.
Qed.

Lemma addressAtCell_miss (m_largeRegions : list (Z * Z)) (row column : Z) :
  Forall (fun e => row < fst e) m_largeRegions ->
  addressAtCell m_largeRegions row column = 0.
Proof.
  intros Hall. unfold addressAtCell.
  rewrite upper_bound_all_above; [reflexivity|].
  rewrite Forall_forall in *. intros e He. apply Z.ltb_lt. now apply Hall.
Qed.

Lemma addressAtCell_hit (before after : list (Z * Z)) (firstRow baseAddress : Z)
    (row column : Z) :
  rowsAscending (before ++ (firstRow, baseAddress) :: after) ->
  firstRow <= row ->
  Forall (fun e => row < fst e) after ->
  addressAtCell (before ++ (firstRow, baseAddress) :: after) row column =
  wrap64 (baseAddress
          + wrap32 (wrap32 (wrap32 (wrap32 (row - firstRow) * s_columnCount)
                            + column) * pageSize)).
Proof.
  intros Hs Hf Ha. unfold addressAtCell.
  rewrite upper_bound_rows; [| |exact Hf|exact Ha].
  - cbn [Nat.eqb]. rewrite Nat.sub_1_r. cbn [Nat.pred].
    rewrite nth_error_app2, Nat.sub_diag by lia. reflexivity.
  - apply sorted_before in Hs. cbn [fst] in Hs.
    rewrite Forall_forall in *. intros e He. specialize (Hs e He). lia.
Qed.

End LookupFacts.

(** C7 (as the code has it): [addressAtCell] binary-searches the row index,
    which is ascending in its first rows, for the entry with the greatest
    first row that is not greater than [row].  When every recorded first row
    is greater than [row] it returns 0, "no address".  Otherwise, provided
    the offset [((row - firstRow) * 512 + column) * pageSize] fits the 32-bit
    unsigned arithmetic in which it is formed and the sum stays below
    [2^64], it returns [baseAddress + ((row - firstRow) * 512 + column) *
    pageSize].  For the snapshot with the single region [(0x1000, 0x3000)]
    the row index is [(0, 0x1000)], and the cells (0,0) and (0,1) have the
    addresses [0x1000] and [0x2000]. *)
Theorem addressAtCell_greatest_first_row :
  (forall m_largeRegions row column,
     Forall (fun e => row < fst e) m_largeRegions ->
     Mosaic.addressAtCell m_largeRegions row column = 0) /\
  (forall before after firstRow baseAddress row column,
     Mosaic.rowsAscending (before ++ (firstRow, baseAddress) :: after) ->
     firstRow <= row ->
     Forall (fun e => row < fst e) after ->
     0 <= column -> 0 <= baseAddress ->
     ((row - firstRow) * 512 + column) * pageSize < 2 ^ 32 ->
     baseAddress + ((row - firstRow) * 512 + column) * pageSize < 2 ^ 64 ->
     Mosaic.addressAtCell (before ++ (firstRow, baseAddress) :: after) row column
     = baseAddress + ((row - firstRow) * 512 + column) * pageSize) /\
  (exists w,
     Mosaic.updatePageInfo [Scenario.anonRegion] = Ok w /\
     Mosaic.m_largeRegions w = [(0, 0x1000)] /\
     Mosaic.addressAtCell (Mosaic.m_largeRegions w) 0 0 = 0x1000 /\
     Mosaic.addressAtCell (Mosaic.m_largeRegions w) 0 1 = 0x2000 /\
     Mosaic.addressAtPos (Mosaic.m_largeRegions w) (0, 0) = 0x1000 /\
     Mosaic.addressAtPos (Mosaic.m_largeRegions w) (4, 0) = 0x2000).
Proof.
  split; [exact addressAtCell_miss|split].
  - intros before after firstRow baseAddress row column Hs Hf Ha Hc Hb Ho Hsum.
    rewrite addressAtCell_hit by assumption.
    unfold Mosaic.s_columnCount, pageSize in *.
    assert (H1 : 0 <= row - firstRow) by lia.
    assert (H2 : 0 <= (row - firstRow) * 512 + column) by lia.
    rewrite (wrap32_small (row - firstRow)) by lia.
    rewrite (wrap32_small ((row - firstRow) * 512)) by lia.
    rewrite (wrap32_small ((row - firstRow) * 512 + column)) by lia.
    rewrite wrap32_small by lia.
    apply wrap64_small. lia.
  - eexists. split; [vm_compute; reflexivity|]. closed_prop.
Qed.

Lemma addressAtCell_greatest_first_row_witness :
  (Mosaic.rowsAscending ([(0, 0x1000)] ++ (5, 0x800000) :: [(9, 0xA00000)]) /\
   5 <= 6 /\ Forall (fun e => 6 < fst e) [(9, 0xA00000)] /\
   0 <= 3 /\ 0 <= 0x800000 /\
   ((6 - 5) * 512 + 3) * pageSize < 2 ^ 32 /\
   0x800000 + ((6 - 5) * 512 + 3) * pageSize < 2 ^ 64) /\
  Mosaic.addressAtCell ([(0, 0x1000)] ++ (5, 0x800000) :: [(9, 0xA00000)]) 6 3
  = 0x800000 + ((6 - 5) * 512 + 3) * pageSize.
Proof.
  assert (S : Mosaic.rowsAscending ([(0, 0x1000)] ++ (5, 0x800000) :: [(9, 0xA00000)])).
  { unfold Mosaic.rowsAscending. repeat constructor; cbn; lia. }
  assert (F : Forall (fun e : Z * Z => 6 < fst e) [(9, 0xA00000)]).
  { repeat constructor. }
  assert (H1 : 5 <= 6) by lia.
  assert (H2 : 0 <= 3) by lia.
  assert (H3 : 0 <= 0x800000) by lia.
  assert (H4 : ((6 - 5) * 512 + 3) * pageSize < 2 ^ 32) by (unfold pageSize; lia).
  assert (H5 : 0x800000 + ((6 - 5) * 512 + 3) * pageSize < 2 ^ 64)
    by (unfold pageSize; lia).
  split; [split; [exact S | split; [exact H1 | split; [exact F | split;
    [exact H2 | split; [exact H3 | split; [exact H4 | exact H5]]]]]]|].
  exact (proj1 (proj2 addressAtCell_greatest_first_row)
           [(0, 0x1000)] [(9, 0xA00000)] 5 0x800000 6 3 S H1 F H2 H3 H4 H5).
Defined.

(** C7, the claim as stated fails: with the row index [(0, 0x1000)] the cell
    in row [2^23], column 0, has the greatest first row 0 below it, so the
    claimed address is [0x1000 + 2^23 * 512 * pageSize]; the function returns
    [0x1000], because [(row - firstRow) * 512] wraps around in 32 bits. *)
Lemma addressAtCell_wraps_at_32_bits :
  Mosaic.rowsAscending [(0, 0x1000)] /\
  is_u32 (2 ^ 23) /\
  Mosaic.addressAtCell [(0, 0x1000)] (2 ^ 23) 0 = 0x1000 /\
  0x1000 + ((2 ^ 23 - 0) * 512 + 0) * pageSize = 0x1000 + 2 ^ 44 /\
  Mosaic.addressAtCell [(0, 0x1000)] (2 ^ 23) 0
  <> 0x1000 + ((2 ^ 23 - 0) * 512 + 0) * pageSize.
Proof.
  split; [unfold Mosaic.rowsAscending; repeat constructor|].
  split; [unfold is_u32; lia|].
  split; [vm_compute; reflexivity|].
  split; [reflexivity|].
  vm_compute. discriminate.
Qed.

(** C10: the integer 0 is the "no address" result of the reverse lookup, and
    the flag-reporting entry point does nothing for the address 0.
    - [addressAtCell] returns 0 when [row] precedes every recorded first row.
    - [printPageFlagsAtAddr] emits no signal for the address 0, whatever the
      regions are.
    - Hence a position whose computed address is 0 never produces flag or
      use-count output, be the 0 a miss or the genuine address of a cell.
    - With the region [(0, 0x2000)] the cell (0,0) is a painted page whose
      genuine address is 0: clicking it emits nothing, exactly as a click
      into a widget without any region, while the cell next to it reports
      its flags and use count. *)
Theorem address_zero_is_no_address :
  (forall m_largeRegions row column,
     Forall (fun e => row < fst e) m_largeRegions ->
     Mosaic.addressAtCell m_largeRegions row column = 0) /\
  (forall m_regions, Mosaic.printPageFlagsAtAddr m_regions 0 = Ok []) /\
  (forall w widgetPos,
     Mosaic.addressAtPos (Mosaic.m_largeRegions w) widgetPos = 0 ->
     Mosaic.printPageFlagsAtPos w widgetPos = Ok []) /\
  (exists w w0,
     Mosaic.updatePageInfo [Scenario.zeroRegion] = Ok w /\
     Mosaic.updatePageInfo [] = Ok w0 /\
     nth_error (Mosaic.imageTiles w) 0 = Some (0, 0, Classify.colorMagenta) /\
     Mosaic.addressAtPos (Mosaic.m_largeRegions w) (0, 0) = 0 /\
     Mosaic.addressAtPos (Mosaic.m_largeRegions w0) (0, 0) = 0 /\
     Mosaic.printPageFlagsAtPos w (0, 0) = Ok [] /\
     Mosaic.printPageFlagsAtPos w0 (0, 0) = Ok [] /\
     Mosaic.printPageFlagsAtPos w (4, 0) =
     Ok [Mosaic.showFlags (2 ^ 31); Mosaic.showPageInfo 0x1000 1 []]).
Proof.
  split; [exact addressAtCell_miss|].
  split; [reflexivity|].
  split.
  - intros w widgetPos H0. unfold Mosaic.printPageFlagsAtPos. rewrite H0.
    reflexivity.
  - eexists. eexists.
    split; [vm_compute; reflexivity|].
    split; [vm_compute; reflexivity|].
    closed_prop.
Qed.

Lemma address_zero_is_no_address_witness :
  Forall (fun e => 3 < fst e) [(5, 0x800000); (9, 0xA00000)] /\
  Mosaic.addressAtCell [(5, 0x800000); (9, 0xA00000)] 3 7 = 0.
Proof.
  assert (F : Forall (fun e : Z * Z => 3 < fst e) [(5, 0x800000); (9, 0xA00000)]).
  { repeat constructor. }
  split; [exact F|].
  exact (proj1 address_zero_is_no_address [(5, 0x800000); (9, 0xA00000)] 3 7 F).
Defined.

(** * Painting the pages of a region *)

Section PaintFacts.

Import Decoder Classify Mosaic.

Lemma nth_error_combine {A B : Type} (l1 : list A) (l2 : list B) :
  forall i a b,
  nth_error l1 i = Some a -> nth_error l2 i = Some b ->
  nth_error (combine l1 l2) i = Some (a, b).
Proof.
  revert l2. induction l1 as [|x l1 IH]; intros l2 i a b H1 H2.
  - destruct i; discriminate.
  - destruct l2 as [|y l2]; [destruct i; discriminate|].
    destruct i as [|i]; cbn in *.
    + congruence.
    + now apply IH.
Qed.

Lemma skipn_nth_error {A : Type} (l : list A) :
  forall i a, nth_error l i = Some a -> skipn i l = a :: skipn (S i) l.
Proof.
  induction l as [|x l IH]; intros i a H.
  - destruct i; discriminate.
  - destruct i as [|i]; cbn in *.
    + congruence.
    + now apply IH.
Qed.

Variable region : MappedRegion.
Hypothesis sameLength :
  length (combinedFlags region) = length (useCounts region).
Hypothesis sizeFits : Z.of_nat (length (useCounts region)) < 2 ^ 63.

Lemma pageColors_nth (i : nat) :
  (i < length (useCounts region))%nat ->
  exists flags useCount,
    nth_error (combinedFlags region) i = Some flags /\
    nth_error (useCounts region) i = Some useCount /\
    nth_error (pageColors region) i = Some (pageColor flags useCount).
Proof.
  intros Hi.
  destruct (nth_error (combinedFlags region) i) as [f|] eqn:Hf;
    [|apply nth_error_None in Hf; lia].
  destruct (nth_error (useCounts region) i) as [u|] eqn:Hu;
    [|apply nth_error_None in Hu; lia].
  exists f, u. repeat split.
  unfold pageColors.
  rewrite nth_error_map, (nth_error_combine _ _ i f u Hf Hu). reflexivity.
Qed.

(** The inner loop paints [n] pages in a row. *)
Lemma paintPageTiles_run (row : Z) (n : nat) :
  forall (fuel column iPage : nat) (tiles : list tile),
  (n <= fuel)%nat -> (iPage + n <= length (useCounts region))%nat ->
  (column + n <= 512)%nat ->
  exists new,
    paintPageTiles fuel region row (Z.of_nat (column + n)) (Z.of_nat column)
                   (Z.of_nat iPage) tiles
    = Ok (Z.of_nat (column + n), Z.of_nat (iPage + n), tiles ++ new) /\
    map snd new = firstn n (skipn iPage (pageColors region)).
Proof.
  induction n as [|n IH]; intros fuel column iPage tiles Hfuel Hpages Hcol.
  - exists []. rewrite !Nat.add_0_r, app_nil_r.
    destruct fuel; cbn [paintPageTiles]; rewrite Z.ltb_irrefl; auto.
  - destruct fuel as [|fuel]; [lia|].
    cbn [paintPageTiles].
    destruct (Z.ltb_spec (Z.of_nat column) (Z.of_nat (column + S n))); [|lia].
    destruct (pageColors_nth iPage) as (f & u & Hf & Hu & Hc); [lia|].
    rewrite Nat2Z.id, Hf, Hu. cbn [of_option bind].
    rewrite wrap32_small by lia. rewrite wrap64_small by lia.
    replace (Z.of_nat column + 1) with (Z.of_nat (S column)) by lia.
    replace (Z.of_nat iPage + 1) with (Z.of_nat (S iPage)) by lia.
    replace (column + S n)%nat with (S column + n)%nat by lia.
    replace (iPage + S n)%nat with (S iPage + n)%nat by lia.
    destruct (IH fuel (S column) (S iPage)
                (tiles ++ [(Z.of_nat column, row, pageColor f u)]))
      as (new & Hrun & Hmap); try lia.
    exists ((Z.of_nat column, row, pageColor f u) :: new).
    rewrite Hrun, <- app_assoc. split; [reflexivity|].
    cbn [map snd]. rewrite Hmap, (skipn_nth_error _ _ _ Hc). reflexivity.
Qed.

(** The outer loop paints all pages from [iPage] on, in page order, each in
    the colour of its flag word and use count. *)
Lemma paintPages_run (m : nat) :
  forall (fuel : nat) (row : Z) (column iPage : nat) (tiles : list tile),
  (length (useCounts region) - iPage <= m)%nat ->
  (m < fuel)%nat -> (iPage <= length (useCounts region))%nat ->
  (column < 512)%nat ->
  exists row' column' new,
    paintPages fuel region row (Z.of_nat column) (Z.of_nat iPage) tiles
    = Ok (row', column', Z.of_nat (length (useCounts region)), tiles ++ new) /\
    map snd new = skipn iPage (pageColors region).
Proof.
  induction m as [|m IH]; intros fuel row column iPage tiles Hm Hfuel Hi Hcol.
  - (* no page left *)
    assert (iPage = length (useCounts region)) by lia. subst iPage.
    exists row, (Z.of_nat column), [].
    destruct fuel as [|fuel]; [lia|].
    cbn [paintPages]. rewrite Z.ltb_irrefl, app_nil_r. split; [reflexivity|].
    rewrite skipn_all2; [reflexivity|].
    unfold pageColors. rewrite length_map, length_combine. lia.
  - destruct fuel as [|fuel]; [lia|].
    cbn [paintPages].
    destruct (Z.ltb_spec (Z.of_nat iPage) (Z.of_nat (length (useCounts region))))
      as [Hlt|Hge].
    + set (size := length (useCounts region)) in *.
      set (n := Nat.min (size - iPage) (512 - column)).
      assert (Hn : (0 < n)%nat) by (subst n; lia).
      assert (Hend : Z.min (wrap64 (wrap64 (Z.of_nat column + Z.of_nat size)
                                    - Z.of_nat iPage)) s_columnCount
                     = Z.of_nat (column + n)).
      { unfold s_columnCount.
        rewrite (wrap64_small (Z.of_nat column + Z.of_nat size)) by lia.
        rewrite wrap64_small by lia. subst n. lia. }
      rewrite Hend.
      destruct (paintPageTiles_run row n (Z.to_nat s_columnCount) column iPage tiles)
        as (new1 & Hrun & Hmap1).
      { unfold s_columnCount. subst n. lia. }
      { subst n. fold size. lia. }
      { subst n. lia. }
      rewrite Hrun. cbn [bind].
      assert (Hrest : exists row' column' new2,
                 (if Z.of_nat (column + n) =? s_columnCount
                  then paintPages fuel region (wrap32 (row + 1)) 0
                                  (Z.of_nat (iPage + n)) (tiles ++ new1)
                  else paintPages fuel region row (Z.of_nat (column + n))
                                  (Z.of_nat (iPage + n)) (tiles ++ new1))
                 = Ok (row', column', Z.of_nat size, (tiles ++ new1) ++ new2) /\
                 map snd new2 = skipn (iPage + n) (pageColors region)).
      { destruct (Z.eqb_spec (Z.of_nat (column + n)) s_columnCount) as [He|He].
        - change 0 with (Z.of_nat 0).
          apply IH; try (subst n; fold size; lia).
        - apply IH; try (subst n; fold size; lia).
          unfold s_columnCount in He. subst n. lia. }
      destruct Hrest as (row' & column' & new2 & Hrun2 & Hmap2).
      exists row', column', (new1 ++ new2).
      rewrite Hrun2, <- app_assoc. split; [reflexivity|].
      rewrite map_app.
      etransitivity; [exact (f_equal2 (@app QColor) Hmap1 Hmap2)|].
      rewrite <- (Nat.add_comm n iPage), <- skipn_skipn.
      apply firstn_skipn.
    + assert (iPage = length (useCounts region)) by lia. subst iPage.
      exists row, (Z.of_nat column), [].
      rewrite app_nil_r. split; [reflexivity|].
      rewrite skipn_all2; [reflexivity|].
      unfold pageColors. rewrite length_map, length_combine. lia.
Qed.

End PaintFacts.

Lemma pageColor_class (flags useCount : Z) :
  Classify.classOfColor (Classify.pageColor flags useCount) =
  Some (Classify.firstMatch (Classify.rules flags useCount)).
Proof.
  unfold Classify.pageColor, Classify.rules, Classify.present,
    Classify.mmapBackedNonAnon, Classify.transparentHugePage, Classify.noPage,
    Classify.KPF_MMAP, Classify.KPF_ANON, Classify.KPF_THP, Classify.KPF_NOPAGE.
  rewrite !flagBit_testbit by lia.
  destruct (Z.testbit flags 31), (Z.testbit flags 11), (Z.testbit flags 12),
    (Z.testbit flags 22), (Z.testbit flags 20);
    destruct (Z.eqb_spec useCount 1), (Z.ltb_spec 1 useCount),
      (Z.leb_spec useCount 1); simpl; try reflexivity; lia.
Qed.

(** C8: the colour that [updatePageInfo] picks for a page is the first match
    of the precedence list of the spec, evaluated on the page's flag word
    and use count: not present (bit 31 clear) gives gray; mmap-backed and
    not anonymous gives the darker green for a use count <= 1 and the
    lighter green for a use count > 1; a transparent huge page gives light
    magenta whatever the use count; use count 1 gives magenta; use count > 1
    gives yellow; the no-page flag gives dark red; anything else white.  The
    loop that paints a mapped region paints one tile for every page of the
    region, in page order, and each of them in this colour. *)
Theorem pageColor_first_match :
  (forall flags useCount,
     Classify.classOfColor (Classify.pageColor flags useCount) =
     Some (Classify.firstMatch (Classify.rules flags useCount))) /\
  (forall region row column tiles,
     length (Decoder.combinedFlags region) = length (Decoder.useCounts region) ->
     Z.of_nat (length (Decoder.useCounts region)) < 2 ^ 63 ->
     0 <= column < 512 ->
     exists row' column' new,
       Mosaic.paintPages (S (length (Decoder.useCounts region))) region
                         row column 0 tiles
       = Ok (row', column', Z.of_nat (length (Decoder.useCounts region)),
             tiles ++ new) /\
       map (fun t => Classify.classOfColor (snd t)) new =
       map (fun p => Some (Classify.firstMatch (Classify.rules (fst p) (snd p))))
           (combine (Decoder.combinedFlags region) (Decoder.useCounts region))).
Proof.
  split; [exact pageColor_class|].
  intros region row column tiles Hsame Hsize Hcol.
  destruct (paintPages_run region Hsame Hsize (length (Decoder.useCounts region))
              (S (length (Decoder.useCounts region))) row (Z.to_nat column)
              0%nat tiles) as (row' & column' & new & Hrun & Hmap); try lia.
  rewrite Z2Nat.id in Hrun by lia. change (Z.of_nat 0) with 0 in Hrun.
  exists row', column', new. split; [exact Hrun|].
  rewrite <- (map_map snd Classify.classOfColor), Hmap.
  unfold Mosaic.pageColors. cbn [skipn]. rewrite map_map.
  apply map_ext. intros [f u]. apply pageColor_class.
Qed.

Lemma pageColor_first_match_witness :
  (length (Decoder.combinedFlags Scenario.anonRegion) =
   length (Decoder.useCounts Scenario.anonRegion) /\
   Z.of_nat (length (Decoder.useCounts Scenario.anonRegion)) < 2 ^ 63 /\
   0 <= 510 < 512) /\
  exists row' column' new,
    Mosaic.paintPages 3 Scenario.anonRegion 0 510 0 [] =
    Ok (row', column', 2, [] ++ new) /\
    map (fun t => Classify.classOfColor (snd t)) new =
    [Some Classify.PrivateMagenta; Some Classify.PrivateMagenta].
Proof.
  assert (L : length (Decoder.combinedFlags Scenario.anonRegion) =
              length (Decoder.useCounts Scenario.anonRegion)) by reflexivity.
  assert (S : Z.of_nat (length (Decoder.useCounts Scenario.anonRegion)) < 2 ^ 63)
    by closed_prop.
  assert (C : 0 <= 510 < 512) by closed_prop.
  split; [split; [exact L | split; [exact S | exact C]]|].
  exact (proj2 pageColor_first_match Scenario.anonRegion 0 510 [] L S C).
Defined.

Section UncheckedRegions.

Import Decoder Wire Mosaic.


End UncheckedRegions.




(** * The layout pass, loop by loop *)

Section CellFacts.

Import Decoder Classify Mosaic Layout.

Lemma cell_at (row column : Z) :
  0 <= column < 512 -> cell (512 * row + column) = (column, row).
Proof.
  intros H. unfold cell, s_columnCount. f_equal.
  - rewrite Z.add_comm, Z.mul_comm, Z.mod_add by lia. apply Z.mod_small; lia.
  - rewrite Z.add_comm, Z.mul_comm, Z.div_add by lia.
    rewrite Z.div_small by lia. lia.
Qed.

Lemma cell_split (k : Z) :
  0 <= k -> 512 * (k / 512) + k mod 512 = k /\ 0 <= k mod 512 < 512 /\ 0 <= k / 512.
Proof.
  intros H. pose proof (Z.div_mod k 512). pose proof (Z.mod_pos_bound k 512).
  pose proof (Z.div_pos k 512). lia.
Qed.

Lemma div_mod_at (row column : Z) :
  0 <= column < 512 ->
  (512 * row + column) / 512 = row /\ (512 * row + column) mod 512 = column.
Proof.
  intros H. pose proof (cell_at row column H) as Hc. unfold cell, s_columnCount in Hc.
  injection Hc as Hm Hd. auto.
Qed.

Lemma placeTiles_app (l1 l2 : list QColor) :
  forall k,
  placeTiles k (l1 ++ l2) =
  placeTiles k l1 ++ placeTiles (k + Z.of_nat (length l1)) l2.
Proof.
  induction l1 as [|c l1 IH]; intros k.
  - cbn [app placeTiles length]. now rewrite Z.add_0_r.
  - cbn [app placeTiles length]. rewrite IH.
    replace (k + Z.of_nat (S (length l1))) with (k + 1 + Z.of_nat (length l1))
      by lia.
    reflexivity.
Qed.

Lemma length_placeTiles (l : list QColor) :
  forall k, length (placeTiles k l) = length l.
Proof.
  induction l as [|c l IH]; intros k; [reflexivity|].
  cbn [placeTiles length]. now rewrite IH.
Qed.

Lemma map_snd_placeTiles (l : list QColor) :
  forall k, map snd (placeTiles k l) = l.
Proof.
  induction l as [|c l IH]; intros k; [reflexivity|].
  cbn [placeTiles map snd]. now rewrite IH.
Qed.

Lemma map_fst_placeTiles (l : list QColor) :
  forall k : nat,
  map fst (placeTiles (Z.of_nat k) l) =
  map (fun i => cell (Z.of_nat i)) (seq k (length l)).
Proof.
  induction l as [|c l IH]; intros k; [reflexivity|].
  cbn [placeTiles map fst length seq]. f_equal.
  replace (Z.of_nat k + 1) with (Z.of_nat (S k)) by lia. apply IH.
Qed.

Lemma nth_error_placeTiles (l : list QColor) :
  forall k i c,
  nth_error l i = Some c ->
  nth_error (placeTiles k l) i = Some (cell (k + Z.of_nat i), c).
Proof.
  induction l as [|x l IH]; intros k i c H.
  - destruct i; discriminate.
  - destruct i as [|i]; cbn [nth_error placeTiles] in *.
    + injection H as ->. now rewrite Z.add_0_r.
    + rewrite (IH (k + 1) i c H). do 3 f_equal. lia.
Qed.

Lemma In_placeTiles (l : list QColor) :
  forall k t,
  In t (placeTiles k l) ->
  exists i, nth_error l i = Some (snd t) /\ fst t = cell (k + Z.of_nat i).
Proof.
  induction l as [|x l IH]; intros k t H.
  - destruct H.
  - cbn [placeTiles] in H. destruct H as [<-|H].
    + exists 0%nat. cbn. now rewrite Z.add_0_r.
    + destruct (IH _ _ H) as (i & Hi & Hc).
      exists (S i). cbn [nth_error]. split; [exact Hi|].
      rewrite Hc. f_equal. lia.
Qed.

End CellFacts.

Section PaintCells.

Import Decoder Classify Mosaic Layout.

Variable region : MappedRegion.
Hypothesis sameLength :
  length (combinedFlags region) = length (useCounts region).
Hypothesis sizeFits : Z.of_nat (length (useCounts region)) < 2 ^ 63.

Lemma length_pageColors :
  length (pageColors region) = length (useCounts region).
Proof.
  unfold pageColors. rewrite length_map, length_combine. lia.
Qed.

(** The inner loop paints [n] pages on the cells of one row. *)
Lemma paintPageTiles_cells (row : Z) (n : nat) :
  forall (fuel column iPage : nat) (tiles : list tile),
  (n <= fuel)%nat -> (iPage + n <= length (useCounts region))%nat ->
  (column + n <= 512)%nat ->
  paintPageTiles fuel region row (Z.of_nat (column + n)) (Z.of_nat column)
                 (Z.of_nat iPage) tiles
  = Ok (Z.of_nat (column + n), Z.of_nat (iPage + n),
        tiles ++ placeTiles (512 * row + Z.of_nat column)
                            (firstn n (skipn iPage (pageColors region)))).
Proof.
  induction n as [|n IH]; intros fuel column iPage tiles Hfuel Hpages Hcol.
  - rewrite !Nat.add_0_r. cbn [firstn placeTiles]. rewrite app_nil_r.
    destruct fuel; cbn [paintPageTiles]; rewrite Z.ltb_irrefl; auto.
  - destruct fuel as [|fuel]; [lia|].
    cbn [paintPageTiles].
    destruct (Z.ltb_spec (Z.of_nat column) (Z.of_nat (column + S n))); [|lia].
    destruct (pageColors_nth region sameLength iPage) as (f & u & Hf & Hu & Hc);
      [lia|].
    rewrite Nat2Z.id, Hf, Hu. cbn [of_option bind].
    rewrite wrap32_small by lia. rewrite wrap64_small by lia.
    replace (Z.of_nat column + 1) with (Z.of_nat (S column)) by lia.
    replace (Z.of_nat iPage + 1) with (Z.of_nat (S iPage)) by lia.
    replace (column + S n)%nat with (S column + n)%nat by lia.
    replace (iPage + S n)%nat with (S iPage + n)%nat by lia.
    rewrite IH by lia.
    rewrite <- app_assoc. do 3 f_equal.
    rewrite (skipn_nth_error _ _ _ Hc). cbn [firstn placeTiles app].
    rewrite cell_at by lia. do 2 f_equal. lia.
Qed.

(** The outer loop paints all pages from [iPage] on, on consecutive cells. *)
Lemma paintPages_cells (m : nat) :
  forall (fuel : nat) (row : Z) (column iPage : nat) (tiles : list tile),
  (length (useCounts region) - iPage <= m)%nat ->
  (m < fuel)%nat -> (iPage <= length (useCounts region))%nat ->
  (column < 512)%nat -> 0 <= row ->
  (512 * row + Z.of_nat column
   + Z.of_nat (length (useCounts region) - iPage)) / 512 < 2 ^ 32 ->
  paintPages fuel region row (Z.of_nat column) (Z.of_nat iPage) tiles
  = Ok ((512 * row + Z.of_nat column
         + Z.of_nat (length (useCounts region) - iPage)) / 512,
        (512 * row + Z.of_nat column
         + Z.of_nat (length (useCounts region) - iPage)) mod 512,
        Z.of_nat (length (useCounts region)),
        tiles ++ placeTiles (512 * row + Z.of_nat column)
                            (skipn iPage (pageColors region))).
Proof.
  induction m as [|m IH];
    intros fuel row column iPage tiles Hm Hfuel Hi Hcol Hrow Hfit.
  - assert (iPage = length (useCounts region)) by lia. subst iPage.
    destruct fuel as [|fuel]; [lia|].
    cbn [paintPages]. rewrite Z.ltb_irrefl.
    rewrite Nat.sub_diag, Z.add_0_r.
    destruct (div_mod_at row (Z.of_nat column)) as [-> ->]; [lia|].
    rewrite skipn_all2 by (rewrite length_pageColors; lia).
    cbn [placeTiles]. now rewrite app_nil_r.
  - destruct fuel as [|fuel]; [lia|].
    cbn [paintPages].
    destruct (Z.ltb_spec (Z.of_nat iPage) (Z.of_nat (length (useCounts region))))
      as [Hlt|Hge].
    + set (size := length (useCounts region)) in *.
      set (n := Nat.min (size - iPage) (512 - column)).
      assert (Hn : (0 < n)%nat) by (subst n; lia).
      assert (Hend : Z.min (wrap64 (wrap64 (Z.of_nat column + Z.of_nat size)
                                    - Z.of_nat iPage)) s_columnCount
                     = Z.of_nat (column + n)).
      { unfold s_columnCount.
        rewrite (wrap64_small (Z.of_nat column + Z.of_nat size)) by lia.
        rewrite wrap64_small by lia. subst n. lia. }
      rewrite Hend.
      rewrite (paintPageTiles_cells row n (Z.to_nat s_columnCount) column iPage tiles)
        by (unfold s_columnCount; subst n; fold size; lia).
      cbn [bind].
      assert (Hsplit : skipn iPage (pageColors region) =
                       firstn n (skipn iPage (pageColors region))
                       ++ skipn (iPage + n) (pageColors region)).
      { rewrite <- (Nat.add_comm n iPage), <- skipn_skipn.
        symmetry. apply firstn_skipn. }
      assert (Hlen : length (firstn n (skipn iPage (pageColors region))) = n).
      { rewrite length_firstn, length_skipn, length_pageColors.
        fold size. subst n. lia. }
      set (pre := firstn n (skipn iPage (pageColors region))) in *.
      rewrite Hsplit, placeTiles_app, Hlen, app_assoc.
      assert (Hk : (size - iPage = n + (size - (iPage + n)))%nat)
        by (subst n; lia).
      assert (Hrow1 : Z.of_nat (column + n) = 512 -> row + 1 < 2 ^ 32).
      { intros He.
        assert (512 * (row + 1) <= 512 * row + Z.of_nat column
                                   + Z.of_nat (size - iPage)) by lia.
        pose proof (Z.div_le_mono _ _ 512 ltac:(lia) H) as Hd.
        rewrite (Z.mul_comm 512 (row + 1)), Z.div_mul in Hd by lia. lia. }
      destruct (Z.eqb_spec (Z.of_nat (column + n)) s_columnCount) as [He|He].
      * unfold s_columnCount in He.
        rewrite wrap32_small by (specialize (Hrow1 He); lia).
        change 0 with (Z.of_nat 0).
        replace (512 * row + Z.of_nat column + Z.of_nat (size - iPage))
          with (512 * (row + 1) + Z.of_nat 0 + Z.of_nat (size - (iPage + n)))
          in * by lia.
        rewrite IH; try (subst n; fold size; lia); try exact Hfit.
        do 4 f_equal. lia.
      * unfold s_columnCount in He.
        replace (512 * row + Z.of_nat column + Z.of_nat (size - iPage))
          with (512 * row + Z.of_nat (column + n) + Z.of_nat (size - (iPage + n)))
          in * by lia.
        rewrite IH; try (subst n; fold size; lia); try exact Hfit.
        do 4 f_equal. lia.
    + assert (iPage = length (useCounts region)) by lia. subst iPage.
      rewrite Nat.sub_diag, Z.add_0_r.
      destruct (div_mod_at row (Z.of_nat column)) as [-> ->]; [lia|].
      rewrite skipn_all2 by (rewrite length_pageColors; lia).
      cbn [placeTiles]. now rewrite app_nil_r.
Qed.

End PaintCells.

Section GapCells.

Import Decoder Classify Mosaic Layout.

Lemma paintGapTiles_cells (row : Z) (n : nat) :
  forall (fuel column : nat) (tiles : list tile),
  (n <= fuel)%nat -> (column + n <= 512)%nat ->
  paintGapTiles fuel row (Z.of_nat (column + n)) (Z.of_nat column) tiles
  = Ok (Z.of_nat (column + n),
        tiles ++ placeTiles (512 * row + Z.of_nat column) (repeat colorCyan n)).
Proof.
  induction n as [|n IH]; intros fuel column tiles Hfuel Hcol.
  - rewrite Nat.add_0_r. cbn [repeat placeTiles]. rewrite app_nil_r.
    destruct fuel; cbn [paintGapTiles]; rewrite Z.ltb_irrefl; auto.
  - destruct fuel as [|fuel]; [lia|].
    cbn [paintGapTiles].
    destruct (Z.ltb_spec (Z.of_nat column) (Z.of_nat (column + S n))); [|lia].
    rewrite wrap32_small by lia.
    replace (Z.of_nat column + 1) with (Z.of_nat (S column)) by lia.
    replace (column + S n)%nat with (S column + n)%nat by lia.
    rewrite IH by lia.
    rewrite <- app_assoc. do 3 f_equal.
    cbn [repeat placeTiles app].
    rewrite cell_at by lia. do 2 f_equal. lia.
Qed.

(** The gap loop paints [g] gap tiles on consecutive cells. *)
Lemma paintGap_cells (m : nat) :
  forall (fuel g : nat) (row : Z) (column : nat) (tiles : list tile),
  (g <= m)%nat -> (m < fuel)%nat -> (column < 512)%nat -> 0 <= row ->
  Z.of_nat g < 2 ^ 63 ->
  (512 * row + Z.of_nat column + Z.of_nat g) / 512 < 2 ^ 32 ->
  paintGap fuel (Z.of_nat g) row (Z.of_nat column) tiles
  = Ok ((512 * row + Z.of_nat column + Z.of_nat g) / 512,
        (512 * row + Z.of_nat column + Z.of_nat g) mod 512,
        tiles ++ placeTiles (512 * row + Z.of_nat column) (repeat colorCyan g)).
Proof.
  induction m as [|m IH];
    intros fuel g row column tiles Hm Hfuel Hcol Hrow Hg Hfit.
  - assert (g = 0%nat) by lia. subst g.
    destruct fuel as [|fuel]; [lia|].
    cbn [paintGap]. change (Z.of_nat 0) with 0. cbn [Z.eqb negb].
    rewrite Z.add_0_r.
    destruct (div_mod_at row (Z.of_nat column)) as [-> ->]; [lia|].
    cbn [repeat placeTiles]. now rewrite app_nil_r.
  - destruct fuel as [|fuel]; [lia|].
    cbn [paintGap].
    destruct (Z.eqb_spec (Z.of_nat g) 0) as [H0|H0]; cbn [negb].
    + assert (g = 0%nat) by lia. subst g.
      change (Z.of_nat 0) with 0. rewrite Z.add_0_r.
      destruct (div_mod_at row (Z.of_nat column)) as [-> ->]; [lia|].
      cbn [repeat placeTiles]. now rewrite app_nil_r.
    + set (n := Nat.min g (512 - column)).
      assert (Hn : (0 < n)%nat) by (subst n; lia).
      assert (Hend : Z.min s_columnCount (wrap64 (Z.of_nat column + Z.of_nat g))
                     = Z.of_nat (column + n)).
      { unfold s_columnCount. rewrite wrap64_small by lia. subst n. lia. }
      rewrite Hend.
      assert (Hg1 : wrap64 (Z.of_nat g - wrap64 (Z.of_nat (column + n) - Z.of_nat column))
                    = Z.of_nat (g - n)).
      { rewrite (wrap64_small (Z.of_nat (column + n) - Z.of_nat column))
          by (subst n; lia).
        rewrite wrap64_small by (subst n; lia). subst n. lia. }
      rewrite Hg1.
      rewrite (paintGapTiles_cells row n (Z.to_nat s_columnCount) column tiles)
        by (unfold s_columnCount; subst n; lia).
      cbn [bind].
      replace (repeat colorCyan g)
        with (repeat colorCyan n ++ repeat colorCyan (g - n))
        by (rewrite <- repeat_app; f_equal; subst n; lia).
      rewrite placeTiles_app, repeat_length, app_assoc.
      assert (Hrow1 : Z.of_nat (column + n) = 512 -> row + 1 < 2 ^ 32).
      { intros He.
        assert (512 * (row + 1) <= 512 * row + Z.of_nat column + Z.of_nat g) by lia.
        pose proof (Z.div_le_mono _ _ 512 ltac:(lia) H) as Hd.
        rewrite (Z.mul_comm 512 (row + 1)), Z.div_mul in Hd by lia. lia. }
      destruct (Z.eqb_spec (Z.of_nat (column + n)) s_columnCount) as [He|He].
      * unfold s_columnCount in He.
        rewrite wrap32_small by (specialize (Hrow1 He); lia).
        change 0 with (Z.of_nat 0) at 1.
        replace (512 * row + Z.of_nat column + Z.of_nat g)
          with (512 * (row + 1) + Z.of_nat 0 + Z.of_nat (g - n)) in * by lia.
        rewrite IH; try (subst n; lia); try exact Hfit.
        do 3 f_equal. f_equal. lia.
      * unfold s_columnCount in He.
        replace (512 * row + Z.of_nat column + Z.of_nat g)
          with (512 * row + Z.of_nat (column + n) + Z.of_nat (g - n)) in * by lia.
        rewrite IH; try (subst n; lia); try exact Hfit.
        do 3 f_equal. f_equal. lia.
Qed.

End GapCells.

Section RegionCells.

Import Decoder Classify Mosaic Layout.

Lemma filler_range (n : Z) : 0 <= filler n < 512.
Proof. unfold filler, s_columnCount. apply Z.mod_pos_bound. lia. Qed.

Lemma filler_column (k : Z) :
  (if k mod 512 =? 0 then 0 else wrap32 (s_columnCount - k mod 512)) = filler k.
Proof.
  unfold filler, s_columnCount.
  pose proof (Z.mod_pos_bound k 512 ltac:(lia)) as Hk.
  destruct (Z.eqb_spec (k mod 512) 0) as [H0|H0].
  - rewrite H0. reflexivity.
  - rewrite wrap32_small by lia. symmetry. apply Z.mod_small. lia.
Qed.

Lemma filler_fills (k : Z) : (k + filler k) mod 512 = 0.
Proof.
  unfold filler, s_columnCount.
  rewrite Z.add_mod_idemp_r by lia.
  replace (k + (512 - k mod 512)) with (512 + (k - k mod 512)) by lia.
  rewrite Z.add_mod, Z.mod_same by lia.
  rewrite Zminus_mod_idemp_r, Z.sub_diag. reflexivity.
Qed.

Lemma div_le_bound (a b : Z) : a <= b -> b / 512 < 2 ^ 32 -> a / 512 < 2 ^ 32.
Proof.
  intros Hab Hb. pose proof (Z.div_le_mono a b 512 ltac:(lia) Hab). lia.
Qed.

(** The body of the loop over the mapped regions: the pages of the region
    and [g] gap tiles behind them, where [g] is what the source computes
    for [gapPages]. *)
Lemma paintMappedRegion_step (regions : list MappedRegion) (lr : Z * Z)
    (region : MappedRegion) (R : Z) (c i : nat) (ts : list tile)
    (ri : list (Z * Z)) (g : nat) :
  (i < length regions)%nat -> Z.of_nat (length regions) < 2 ^ 64 ->
  pagedRegion region -> end_ region < 2 ^ 64 ->
  0 <= R -> (c < 512)%nat -> end_ region <= snd lr -> (g < 512)%nat ->
  (512 * R + Z.of_nat c + Z.of_nat (length (useCounts region)) + Z.of_nat g) / 512
    < 2 ^ 32 ->
  (if Z.of_nat (S i) <? Z.of_nat (length regions) then
     next <- of_option (nth_error regions (S i)) ;;
     if start next <? snd lr then
       _ <- assertion (end_ region <=? start next) ;;
       Ok (wrap64 (start next - end_ region) / pageSize)
     else Ok (filler (512 * R + Z.of_nat c + Z.of_nat (length (useCounts region))))
   else Ok (filler (512 * R + Z.of_nat c + Z.of_nat (length (useCounts region)))))
  = Ok (Z.of_nat g) ->
  paintMappedRegion regions lr region
    {| row := R; column := Z.of_nat c; iMappedRegion := Z.of_nat i;
       tiles := ts; rowIndex := ri |}
  = Ok {| row := (512 * R + Z.of_nat c + Z.of_nat (length (useCounts region))
                  + Z.of_nat g) / 512;
          column := (512 * R + Z.of_nat c + Z.of_nat (length (useCounts region))
                     + Z.of_nat g) mod 512;
          iMappedRegion := Z.of_nat (S i);
          tiles := ts ++ placeTiles (512 * R + Z.of_nat c) (pageColors region)
                      ++ placeTiles (512 * R + Z.of_nat c
                                     + Z.of_nat (length (useCounts region)))
                                    (repeat colorCyan g);
          rowIndex := ri |}.
Proof.
  intros Hi Hsize (Hs0 & Halign & Hpos & Hsame & Hend) Hend64 HR Hc Hlr Hg Hfit Hgap.
  set (n := length (useCounts region)) in *.
  set (K1 := 512 * R + Z.of_nat c + Z.of_nat n) in *.
  assert (HK1 : 0 <= K1) by (subst K1; lia).
  assert (Hn63 : Z.of_nat n < 2 ^ 63) by (unfold pageSize in *; lia).
  assert (Hfit1 : K1 / 512 < 2 ^ 32) by (apply (div_le_bound K1 (K1 + Z.of_nat g)); lia).
  unfold paintMappedRegion.
  cbn [row column iMappedRegion tiles rowIndex].
  destruct (Z.ltb_spec (Z.of_nat i) (Z.of_nat (length regions))); [|lia].
  cbn [assertion bind].
  destruct (Z.leb_spec (start region) (end_ region));
    [|unfold pageSize in *; lia].
  cbn [assertion bind].
  change 0 with (Z.of_nat 0) at 1. fold n.
  rewrite (paintPages_cells region Hsame Hn63 n (S n) R c 0 ts);
    try (fold n; lia).
  2:{ fold n. rewrite Nat.sub_0_r. exact Hfit1. }
  fold n. rewrite Nat.sub_0_r. fold K1.
  cbn [bind skipn].
  assert (Hassert1 : wrap64 (start region + wrap64 (Z.of_nat n * pageSize))
                     = end_ region).
  { rewrite (wrap64_small (Z.of_nat n * pageSize)) by (unfold pageSize in *; lia).
    rewrite wrap64_small by (unfold pageSize in *; lia). lia. }
  rewrite Hassert1, Z.eqb_refl. cbn [assertion bind].
  destruct (cell_split K1 HK1) as (Hsplit & Hcol1 & Hrow1).
  destruct (Z.leb_spec (K1 mod 512) s_columnCount);
    [|unfold s_columnCount in *; lia].
  cbn [assertion bind].
  rewrite wrap64_small by lia.
  replace (Z.of_nat i + 1) with (Z.of_nat (S i)) by lia.
  rewrite Nat2Z.id, filler_column, Hgap.
  cbn [bind].
  destruct (Z.ltb_spec (Z.of_nat g) s_columnCount);
    [|unfold s_columnCount in *; lia].
  cbn [assertion bind].
  rewrite Nat2Z.id.
  rewrite <- (Z2Nat.id (K1 mod 512)) at 1 by lia.
  rewrite (paintGap_cells g (S g) g (K1 / 512) (Z.to_nat (K1 mod 512)));
    try lia.
  2:{ rewrite Z2Nat.id by lia. rewrite Hsplit. exact Hfit. }
  rewrite Z2Nat.id by lia. rewrite Hsplit.
  cbn [bind].
  destruct (Z.leb_spec (end_ region) (snd lr)); [|lia].
  cbn [assertion bind].
  now rewrite <- app_assoc.
Qed.

End RegionCells.

Section GroupCells.

Import Decoder Classify Mosaic Layout.

Lemma painterAt_cell (R : Z) (c i : nat) (ts : list tile) (ri : list (Z * Z)) :
  (c < 512)%nat ->
  {| row := R; column := Z.of_nat c; iMappedRegion := Z.of_nat i;
     tiles := ts; rowIndex := ri |}
  = painterAt (512 * R + Z.of_nat c) i ts ri.
Proof.
  intros Hc. unfold painterAt, s_columnCount.
  destruct (div_mod_at R (Z.of_nat c)) as [-> ->]; [lia|]. reflexivity.
Qed.

(** [paintMappedRegion_step] for a painter in front of cell [k]. *)
Lemma paintMappedRegion_at (regions : list MappedRegion) (lr : Z * Z)
    (region : MappedRegion) (k : Z) (i : nat) (ts : list tile)
    (ri : list (Z * Z)) (g : nat) :
  (i < length regions)%nat -> Z.of_nat (length regions) < 2 ^ 64 ->
  pagedRegion region -> end_ region < 2 ^ 64 ->
  0 <= k -> end_ region <= snd lr -> (g < 512)%nat ->
  (k + Z.of_nat (length (useCounts region)) + Z.of_nat g) / 512 < 2 ^ 32 ->
  (if Z.of_nat (S i) <? Z.of_nat (length regions) then
     next <- of_option (nth_error regions (S i)) ;;
     if start next <? snd lr then
       _ <- assertion (end_ region <=? start next) ;;
       Ok (wrap64 (start next - end_ region) / pageSize)
     else Ok (filler (k + Z.of_nat (length (useCounts region))))
   else Ok (filler (k + Z.of_nat (length (useCounts region)))))
  = Ok (Z.of_nat g) ->
  paintMappedRegion regions lr region (painterAt k i ts ri)
  = Ok (painterAt (k + Z.of_nat (length (useCounts region)) + Z.of_nat g) (S i)
          (ts ++ placeTiles k (pageColors region ++ repeat colorCyan g)) ri).
Proof.
  intros Hi Hsize Hpaged Hend64 Hk Hlr Hg Hfit Hgap.
  destruct (cell_split k Hk) as (Hsplit & Hcol & Hrow).
  unfold painterAt at 1. unfold s_columnCount.
  rewrite <- (Z2Nat.id (k mod 512)) by lia.
  rewrite (paintMappedRegion_step regions lr region (k / 512)
             (Z.to_nat (k mod 512)) i ts ri g); try assumption; try lia;
    rewrite ?Z2Nat.id by lia; rewrite ?Hsplit; try assumption.
  unfold painterAt, s_columnCount.
  rewrite placeTiles_app.
  destruct Hpaged as (_ & _ & _ & Hsame & _).
  rewrite (length_pageColors region Hsame). reflexivity.
Qed.

Lemma last_any_default {A : Type} (rest : list A) :
  forall x d d' : A, last (x :: rest) d = last (x :: rest) d'.
Proof.
  induction rest as [|y rest IH]; intros x d d'; [reflexivity|].
  change (last (x :: y :: rest) d) with (last (y :: rest) d).
  change (last (x :: y :: rest) d') with (last (y :: rest) d').
  apply IH.
Qed.

Lemma last_cons_default {A : Type} (rest : list A) (x r : A) :
  last (x :: rest) r = last rest x.
Proof.
  destruct rest as [|y rest]; [reflexivity|].
  change (last (x :: y :: rest) r) with (last (y :: rest) r).
  apply last_any_default.
Qed.

Lemma chained_last (rest : list MappedRegion) :
  forall r, chained r rest -> Forall pagedRegion (r :: rest) ->
  end_ r <= end_ (last rest r).
Proof.
  induction rest as [|next rest IH]; intros r Hch Hp.
  - cbn. lia.
  - destruct Hch as [Hgap Hch].
    inversion Hp as [|? ? Hr Hp']; subst.
    specialize (IH next Hch Hp').
    inversion Hp' as [|? ? (Hn0 & _ & Hnpos & _ & Hnend) _]; subst.
    rewrite last_cons_default. unfold pageSize in *. lia.
Qed.

Lemma nth_error_middle {A : Type} (before after : list A) (x : A) :
  nth_error (before ++ x :: after) (length before) = Some x.
Proof.
  rewrite nth_error_app2, Nat.sub_diag by lia. reflexivity.
Qed.

Lemma nth_error_after {A : Type} (before after : list A) (x : A) :
  nth_error (before ++ x :: after) (S (length before)) = nth_error after 0.
Proof.
  rewrite nth_error_app2 by lia.
  replace (S (length before) - length before)%nat with 1%nat by lia.
  reflexivity.
Qed.

Lemma length_groupColors (rest : list MappedRegion) :
  forall r, chained r rest -> Forall pagedRegion (r :: rest) ->
  pageSize * Z.of_nat (length (groupColors r rest))
  = end_ (last rest r) - start r.
Proof.
  induction rest as [|next rest IH]; intros r Hch Hp.
  - inversion Hp as [|? ? (H0 & Ha & Hpos & Hsame & Hend) _]; subst.
    cbn [groupColors last]. rewrite app_nil_r.
    unfold pageColors. rewrite length_map, length_combine, Hsame, Nat.min_id.
    lia.
  - destruct Hch as [Hgap Hch].
    inversion Hp as [|? ? (H0 & Ha & Hpos & Hsame & Hend) Hp']; subst.
    specialize (IH next Hch Hp').
    inversion Hp' as [|? ? (Hn0 & Hna & _) _]; subst.
    cbn [groupColors]. rewrite last_cons_default.
    rewrite !length_app, repeat_length.
    unfold pageColors at 1. rewrite length_map, length_combine, Hsame, Nat.min_id.
    rewrite !Nat2Z.inj_add, !Z.mul_add_distr_l, IH.
    unfold gapPagesBetween.
    assert (Hdiv : (start next - end_ r) mod pageSize = 0).
    { rewrite Hend. unfold pageSize in *.
      rewrite Zminus_mod, Z.add_mod, Ha, Hna, Z.mul_comm, Z.mod_mul by lia.
      reflexivity. }
    rewrite Z2Nat.id by (apply Z.div_pos; unfold pageSize; lia).
    pose proof (Z.div_mod (start next - end_ r) pageSize ltac:(unfold pageSize; lia)).
    lia.
Qed.

(** The loop over the mapped regions of a large region paints the run: the
    pages of its regions with the gaps between them, and the cells that fill
    up the last row. *)
Lemma paintMappedRegions_run (regions : list MappedRegion) (first : Z)
    (rest : list MappedRegion) :
  forall (r : MappedRegion) (before after : list MappedRegion) (fuel : nat)
         (k : Z) (ts : list tile) (ri : list (Z * Z)) (second : Z),
  regions = before ++ r :: rest ++ after ->
  Z.of_nat (length regions) < 2 ^ 64 ->
  Forall pagedRegion (r :: rest) ->
  Forall (fun x => end_ x < 2 ^ 64) (r :: rest) ->
  chained r rest ->
  second = end_ (last rest r) ->
  match after with
  | [] => True
  | a :: _ => second < start a /\ start a <= end_ a
  end ->
  (length rest < fuel)%nat ->
  0 <= k ->
  (k + Z.of_nat (length (groupColors r rest))
   + filler (k + Z.of_nat (length (groupColors r rest)))) / 512 < 2 ^ 32 ->
  paintMappedRegions fuel regions (first, second)
                     (painterAt k (length before) ts ri)
  = Ok (painterAt (k + Z.of_nat (length (groupColors r rest))
                   + filler (k + Z.of_nat (length (groupColors r rest))))
                  (length before + S (length rest))
                  (ts ++ placeTiles k
                     (groupColors r rest
                      ++ repeat colorCyan
                           (Z.to_nat (filler (k + Z.of_nat (length (groupColors r rest)))))))
                  ri).
Proof.
  induction rest as [|next rest IH];
    intros r before after fuel k ts ri second Hreg Hsize Hp H64 Hch Hsecond
           Hafter Hfuel Hk Hfit.
  - (* the last region of the run *)
    cbn [last] in Hsecond. subst second.
    cbn [groupColors] in *. rewrite app_nil_r in *.
    inversion Hp as [|? ? Hpr _]; subst.
    inversion H64 as [|? ? H64r _]; subst.
    pose proof Hpr as (H0 & Ha & Hpos & Hsame & Hend).
    rewrite (length_pageColors r Hsame) in *.
    set (n := length (useCounts r)) in *.
    pose proof (filler_range (k + Z.of_nat n)) as Hfill.
    destruct fuel as [|fuel]; [lia|].
    cbn [paintMappedRegions].
    unfold painterAt at 1. cbn [iMappedRegion]. rewrite Nat2Z.id.
    cbn [app]. rewrite nth_error_middle. cbn [of_option bind snd].
    rewrite Z.leb_refl.
    fold (painterAt k (length before) ts ri).
    rewrite (paintMappedRegion_at _ _ _ _ _ _ _ (Z.to_nat (filler (k + Z.of_nat n))));
      try assumption; try lia.
    + cbn [bind]. fold n.
      rewrite Z2Nat.id by lia.
      replace (length before + S (length (@nil MappedRegion)))%nat
        with (S (length before)) by (cbn [length]; lia).
      set (p1 := painterAt (k + Z.of_nat n + filler (k + Z.of_nat n))
                   (S (length before))
                   (ts ++ placeTiles k
                      (pageColors r ++ repeat colorCyan
                         (Z.to_nat (filler (k + Z.of_nat n))))) ri).
      assert (Hi1 : iMappedRegion p1 = Z.of_nat (S (length before)))
        by reflexivity.
      rewrite Hi1, length_app. cbn [length].
      destruct after as [|a after'].
      * cbn [length].
        destruct (Z.leb_spec (Z.of_nat (length before + 1))
                             (Z.of_nat (S (length before)))); [|lia].
        reflexivity.
      * cbn [length].
        destruct (Z.leb_spec (Z.of_nat (length before + S (S (length after'))))
                             (Z.of_nat (S (length before)))); [lia|].
        destruct Hafter as [Ha1 Ha2].
        destruct fuel; cbn [paintMappedRegions];
          rewrite Hi1, Nat2Z.id, nth_error_after;
          cbn [nth_error of_option bind snd];
          (destruct (Z.leb_spec (end_ a) (end_ r)); [lia|]); reflexivity.
    + rewrite length_app. cbn [length]. lia.
    + cbn [snd]. lia.
    + fold n. rewrite Z2Nat.id by lia. exact Hfit.
    + fold n. rewrite Z2Nat.id by lia.
      rewrite length_app. cbn [length].
      destruct after as [|a after'].
      * cbn [length].
        destruct (Z.ltb_spec (Z.of_nat (S (length before)))
                             (Z.of_nat (length before + 1))); [lia|].
        reflexivity.
      * cbn [length].
        destruct (Z.ltb_spec (Z.of_nat (S (length before)))
                             (Z.of_nat (length before + S (S (length after')))));
          [|lia].
        rewrite nth_error_after. cbn [nth_error of_option bind snd].
        destruct Hafter as [Ha1 Ha2].
        destruct (Z.ltb_spec (start a) (end_ r)); [lia|]. reflexivity.
  - (* a region with a successor in the run *)
    destruct Hch as [Hgap Hch].
    inversion Hp as [|? ? Hpr Hp']; subst.
    inversion H64 as [|? ? H64r H64']; subst.
    inversion Hp' as [|? ? Hpn _]; subst.
    pose proof Hpr as (H0 & Ha & Hpos & Hsame & Hend).
    pose proof Hpn as (Hn0 & Hna & Hnpos & Hnsame & Hnend).
    pose proof (chained_last rest next Hch Hp') as Hlast.
    rewrite last_cons_default in *.
    cbn [groupColors] in *.
    rewrite !length_app, repeat_length in *.
    rewrite (length_pageColors r Hsame) in *.
    set (n := length (useCounts r)) in *.
    set (gap := gapPagesBetween r next) in *.
    assert (Hgap0 : 0 <= gap <= 64).
    { subst gap. unfold gapPagesBetween. split.
      - apply Z.div_pos; unfold pageSize; lia.
      - apply Z.div_le_upper_bound; unfold pageSize in *; lia. }
    set (len' := length (groupColors next rest)) in *.
    assert (Hk2 : k + Z.of_nat (n + (Z.to_nat gap + len'))
                  = k + Z.of_nat n + gap + Z.of_nat len') by lia.
    rewrite Hk2 in *.
    pose proof (filler_range (k + Z.of_nat n + gap + Z.of_nat len')) as Hfill.
    destruct fuel as [|fuel]; [cbn in Hfuel; lia|].
    cbn [paintMappedRegions].
    unfold painterAt at 1. cbn [iMappedRegion]. rewrite Nat2Z.id.
    rewrite nth_error_middle. cbn [of_option bind snd].
    destruct (Z.leb_spec (end_ r) (end_ (last rest next)));
      [|unfold pageSize in *; lia].
    fold (painterAt k (length before) ts ri).
    rewrite (paintMappedRegion_at _ _ _ _ _ _ _ (Z.to_nat gap));
      try assumption; try lia.
    + cbn [bind]. fold n. rewrite Z2Nat.id by lia.
      unfold painterAt at 1. cbn [iMappedRegion].
      rewrite length_app. cbn [length app]. rewrite length_app.
      destruct (Z.leb_spec (Z.of_nat (length before + S (S (length rest + length after))))
                           (Z.of_nat (S (length before)))); [lia|].
      fold (painterAt (k + Z.of_nat n + gap) (S (length before))
              (ts ++ placeTiles k (pageColors r ++ repeat colorCyan (Z.to_nat gap))) ri).
      replace (S (length before)) with (length (before ++ [r]))
        by (rewrite length_app; cbn; lia).
      rewrite (IH next (before ++ [r]) after fuel (k + Z.of_nat n + gap));
        try assumption; try lia.
      * rewrite length_app. cbn [length]. fold len'.
        replace (length before + 1 + S (length rest))%nat
          with (length before + S (S (length rest)))%nat by lia.
        do 2 f_equal.
        rewrite <- !app_assoc. f_equal.
        replace (pageColors r ++ repeat colorCyan (Z.to_nat gap)
                 ++ groupColors next rest
                 ++ repeat colorCyan
                      (Z.to_nat (filler (k + Z.of_nat n + gap + Z.of_nat len'))))
          with ((pageColors r ++ repeat colorCyan (Z.to_nat gap))
                ++ (groupColors next rest
                    ++ repeat colorCyan
                         (Z.to_nat (filler (k + Z.of_nat n + gap + Z.of_nat len')))))
          by (rewrite <- !app_assoc; reflexivity).
        rewrite (placeTiles_app (pageColors r ++ repeat colorCyan (Z.to_nat gap))
                   (groupColors next rest ++ _)).
        rewrite length_app, repeat_length, (length_pageColors r Hsame).
        fold n.
        replace (k + Z.of_nat (n + Z.to_nat gap)) with (k + Z.of_nat n + gap)
          by lia.
        reflexivity.
      * rewrite <- app_assoc. reflexivity.
      * cbn [length] in Hfuel. lia.
    + rewrite length_app. cbn [length]. lia.
    + revert Hsize. rewrite !length_app. cbn [length app].
      rewrite ?length_app. lia.
    + fold n. rewrite Z2Nat.id by lia.
      apply (div_le_bound _ (k + Z.of_nat n + gap + Z.of_nat len'
                             + filler (k + Z.of_nat n + gap + Z.of_nat len')));
        [lia|exact Hfit].
    + fold n. rewrite Z2Nat.id by lia.
      rewrite length_app. cbn [length app]. rewrite length_app.
      destruct (Z.ltb_spec (Z.of_nat (S (length before)))
                  (Z.of_nat (length before + S (S (length rest + length after)))));
        [|lia].
      rewrite nth_error_after. cbn [nth_error of_option bind snd].
      destruct (Z.ltb_spec (start next) (end_ (last rest next)));
        [|unfold pageSize in *; lia].
      destruct (Z.leb_spec (end_ r) (start next)); [|lia].
      cbn [assertion bind].
      rewrite wrap64_small by (unfold pageSize in *; lia).
      reflexivity.
Qed.

End GroupCells.

Section LargeRegionCells.

Import Decoder Classify Mosaic Layout.

Lemma blackRow_cells (y : Z) (n : nat) :
  forall c : nat,
  (c + n <= 512)%nat ->
  map (fun x => (Z.of_nat x, y, colorBlack)) (seq c n)
  = placeTiles (512 * y + Z.of_nat c) (repeat colorBlack n).
Proof.
  induction n as [|n IH]; intros c Hc; [reflexivity|].
  cbn [seq map repeat placeTiles].
  rewrite cell_at by lia. f_equal.
  rewrite IH by lia. f_equal. lia.
Qed.

Lemma paintSeparator_between (row0 rowCount : Z) (ts : list tile) :
  0 <= row0 -> row0 + 2 <= rowCount -> rowCount < 2 ^ 32 ->
  paintSeparator (Z.to_nat tilesPerSeparator) row0 rowCount row0 ts
  = ts ++ placeTiles (512 * row0)
            (repeat colorBlack (Z.to_nat (tilesPerSeparator * s_columnCount))).
Proof.
  intros H0 H2 Hc.
  change (Z.to_nat tilesPerSeparator) with 2%nat.
  change (Z.to_nat (tilesPerSeparator * s_columnCount)) with (512 + 512)%nat.
  cbn [paintSeparator]. unfold tilesPerSeparator.
  rewrite (wrap32_small (row0 + 2)) by lia.
  rewrite (wrap32_small (row0 + 1)) by lia.
  destruct (Z.ltb_spec row0 (row0 + 2)); [|lia].
  destruct (Z.ltb_spec row0 rowCount); [|lia].
  destruct (Z.ltb_spec (row0 + 1) (row0 + 2)); [|lia].
  destruct (Z.ltb_spec (row0 + 1) rowCount); [|lia].
  cbn [andb].
  change (Z.to_nat s_columnCount) with 512%nat.
  rewrite !(blackRow_cells _ 512 0) by lia.
  rewrite repeat_app, placeTiles_app, repeat_length, <- app_assoc.
  change (Z.of_nat 0) with 0. rewrite !Z.add_0_r.
  do 3 f_equal. lia.
Qed.

Lemma paintSeparator_last (row0 rowCount : Z) (ts : list tile) :
  rowCount <= row0 ->
  paintSeparator (Z.to_nat tilesPerSeparator) row0 rowCount row0 ts = ts.
Proof.
  intros H.
  change (Z.to_nat tilesPerSeparator) with 2%nat.
  cbn [paintSeparator].
  destruct (Z.ltb_spec row0 rowCount); [lia|].
  now rewrite andb_false_r.
Qed.

Lemma filler_shift (R n : Z) : filler (512 * R + n) = filler n.
Proof.
  unfold filler, s_columnCount.
  rewrite Z.add_comm, Z.mul_comm, Z.mod_add by lia. reflexivity.
Qed.

Lemma length_padded (colors : list QColor) :
  Z.of_nat (length (padded colors))
  = Z.of_nat (length colors) + filler (Z.of_nat (length colors)).
Proof.
  unfold padded. rewrite length_app, repeat_length, Nat2Z.inj_add.
  pose proof (filler_range (Z.of_nat (length colors))).
  rewrite Z2Nat.id by lia. reflexivity.
Qed.

Lemma padded_rows (colors : list QColor) :
  Z.of_nat (length (padded colors))
  = 512 * (Z.of_nat (length (padded colors)) / 512).
Proof.
  pose proof (filler_fills (Z.of_nat (length colors))) as Hf.
  rewrite <- length_padded in Hf.
  pose proof (Z.div_mod (Z.of_nat (length (padded colors))) 512 ltac:(lia)).
  lia.
Qed.

Lemma groupRows_nonneg (g : list MappedRegion) : 0 <= groupRows g.
Proof.
  unfold groupRows, s_columnCount. apply Z.div_pos; lia.
Qed.

Lemma rowsOfGroups_nonneg (gs : list (list MappedRegion)) : 0 <= rowsOfGroups gs.
Proof.
  induction gs as [|g gs IH]; [cbn; lia|].
  cbn [rowsOfGroups]. pose proof (groupRows_nonneg g).
  unfold tilesPerSeparator. destruct gs; lia.
Qed.

(** One pass of the loop over the large regions: the run is painted from the
    first cell of row [R] on, its first row is recorded in the row index, and
    the separator follows. *)
Lemma paintLargeRegion_run (regions : list MappedRegion) (rowCount : Z)
    (r : MappedRegion) (rest before after : list MappedRegion)
    (R c0 : Z) (ts : list tile) (ri : list (Z * Z)) :
  regions = before ++ r :: rest ++ after ->
  Z.of_nat (length regions) < 2 ^ 64 ->
  Forall pagedRegion (r :: rest) ->
  Forall (fun x => end_ x < 2 ^ 64) (r :: rest) ->
  chained r rest ->
  match after with
  | [] => True
  | a :: _ => end_ (last rest r) < start a /\ start a <= end_ a
  end ->
  0 <= R ->
  R + groupRows (r :: rest) < 2 ^ 32 ->
  paintLargeRegion regions rowCount (span (r :: rest))
    {| row := R; column := c0; iMappedRegion := Z.of_nat (length before);
       tiles := ts; rowIndex := ri |}
  = Ok {| row := wrap32 (R + groupRows (r :: rest) + tilesPerSeparator);
          column := 0;
          iMappedRegion := Z.of_nat (length before + S (length rest));
          tiles := paintSeparator (Z.to_nat tilesPerSeparator)
                     (R + groupRows (r :: rest)) rowCount
                     (R + groupRows (r :: rest))
                     (ts ++ placeTiles (512 * R) (groupCells (r :: rest)));
          rowIndex := ri ++ [(R, start r)] |}.
Proof.
  intros Hreg Hsize Hp H64 Hch Hafter HR Hfit.
  unfold paintLargeRegion. cbn [row column iMappedRegion tiles rowIndex].
  assert (Hlen : length regions = (length before + S (length rest + length after))%nat).
  { rewrite Hreg, length_app. cbn [length]. rewrite length_app. reflexivity. }
  destruct (Z.ltb_spec (Z.of_nat (length before)) (Z.of_nat (length regions)));
    [|lia].
  cbn [assertion bind].
  rewrite Nat2Z.id.
  assert (Hnth : nth_error regions (length before) = Some r).
  { rewrite Hreg. apply nth_error_middle. }
  rewrite Hnth. cbn [of_option bind].
  change 0 with (Z.of_nat 0) at 1.
  rewrite (painterAt_cell R 0 (length before) ts (ri ++ [(R, start r)]))
    by lia.
  change (Z.of_nat 0) with 0. rewrite Z.add_0_r.
  set (len := length (groupColors r rest)) in *.
  assert (Hrows : 512 * R + Z.of_nat len + filler (512 * R + Z.of_nat len)
                  = 512 * (R + groupRows (r :: rest))).
  { rewrite filler_shift. unfold groupRows, groupCells, s_columnCount.
    pose proof (padded_rows (groupColors r rest)) as Hpr.
    pose proof (length_padded (groupColors r rest)) as Hlp.
    fold len in Hlp. lia. }
  unfold span, groupStart, groupEnd.
  rewrite (paintMappedRegions_run regions (start r) rest r before after
             (S (length regions)) (512 * R) ts (ri ++ [(R, start r)])
             (end_ (last rest r)));
    try assumption; try reflexivity; try lia.
  2:{ fold len. rewrite Hrows.
      rewrite Z.mul_comm, Z.div_mul by lia. exact Hfit. }
  fold len. rewrite Hrows. cbn [bind].
  unfold painterAt. cbn [column row iMappedRegion tiles rowIndex].
  unfold s_columnCount.
  rewrite (Z.mul_comm 512 (R + groupRows (r :: rest))).
  rewrite Z.mod_mul, Z.div_mul by lia.
  cbn [Z.eqb assertion bind].
  unfold groupCells, padded. fold len.
  rewrite filler_shift. reflexivity.
Qed.

Lemma separated_tail (g : list MappedRegion) (gs : list (list MappedRegion)) :
  separated (g :: gs) -> separated gs.
Proof. intros (_ & _ & H). exact H. Qed.

(** The loop over the large regions paints the runs one below the other. *)
Lemma paintLargeRegions_groups (regions : list MappedRegion) (rowCount : Z)
    (gs : list (list MappedRegion)) :
  forall (before : list MappedRegion) (R c0 : Z) (ts : list tile)
         (ri : list (Z * Z)),
  regions = before ++ concat gs ->
  Z.of_nat (length regions) < 2 ^ 64 ->
  Forall pagedRegion (concat gs) ->
  Forall (fun x => end_ x < 2 ^ 64) (concat gs) ->
  separated gs ->
  0 <= R ->
  R + rowsOfGroups gs = rowCount ->
  rowCount < 2 ^ 32 ->
  exists p',
    paintLargeRegions regions rowCount (map span gs)
      {| row := R; column := c0; iMappedRegion := Z.of_nat (length before);
         tiles := ts; rowIndex := ri |} = Ok p' /\
    tiles p' = ts ++ layoutGroups R gs /\
    rowIndex p' = ri ++ rowIndexGroups R gs.
Proof.
  induction gs as [|g gs IH];
    intros before R c0 ts ri Hreg Hsize Hp H64 Hsep HR Hrows Hcount.
  - eexists. split; [reflexivity|].
    cbn [tiles rowIndex layoutGroups rowIndexGroups]. now rewrite !app_nil_r.
  - destruct Hsep as (Hrun & Hnext & Hsep).
    destruct g as [|r rest]; [destruct Hrun|]. cbn [runOk] in Hrun.
    cbn [concat] in Hreg, Hp, H64.
    apply Forall_app in Hp. destruct Hp as [Hpg Hp'].
    apply Forall_app in H64. destruct H64 as [H64g H64'].
    pose proof (groupRows_nonneg (r :: rest)) as Hg0.
    pose proof (rowsOfGroups_nonneg gs) as Hgs0.
    cbn [map paintLargeRegions].
    assert (Hafter : match concat gs with
                     | [] => True
                     | a :: _ => end_ (last rest r) < start a /\ start a <= end_ a
                     end).
    { destruct gs as [|g' gs']; [exact I|].
      destruct Hsep as (Hrun' & _ & _).
      destruct g' as [|a rest']; [destruct Hrun'|].
      cbn [concat app]. cbn [groupEnd groupStart] in Hnext.
      inversion Hp' as [|? ? (Ha0 & _ & _ & _ & Haend) _]; subst.
      unfold pageSize in *. lia. }
    assert (Hfit : R + groupRows (r :: rest) < 2 ^ 32).
    { cbn [rowsOfGroups] in Hrows. unfold tilesPerSeparator in Hrows.
      destruct gs; lia. }
    rewrite (paintLargeRegion_run regions rowCount r rest before (concat gs));
      try assumption; try (rewrite Hreg; reflexivity).
    cbn [bind].
    destruct gs as [|g' gs'].
    + cbn [map paintLargeRegions].
      eexists. split; [reflexivity|].
      cbn [tiles rowIndex layoutGroups rowIndexGroups].
      cbn [rowsOfGroups] in Hrows.
      rewrite paintSeparator_last by lia.
      unfold s_columnCount. now rewrite app_nil_r.
    + change (rowsOfGroups ((r :: rest) :: g' :: gs'))
        with (groupRows (r :: rest) + (2 + rowsOfGroups (g' :: gs'))) in Hrows.
      rewrite paintSeparator_between by lia.
      unfold tilesPerSeparator at 1.
      rewrite wrap32_small by lia.
      replace (length before + S (length rest))%nat
        with (length (before ++ r :: rest))
        by (rewrite length_app; reflexivity).
      destruct (IH (before ++ r :: rest) (R + groupRows (r :: rest) + 2) 0
                  ((ts ++ placeTiles (512 * R) (groupCells (r :: rest)))
                   ++ placeTiles (512 * (R + groupRows (r :: rest)))
                        (repeat colorBlack (Z.to_nat (tilesPerSeparator * s_columnCount))))
                  (ri ++ [(R, start r)]))
        as (p' & Hrun' & Htiles & Hindex); try assumption; try lia.
      { rewrite Hreg, <- app_assoc. reflexivity. }
      exists p'. split; [exact Hrun'|].
      rewrite Htiles, Hindex.
      cbn [layoutGroups rowIndexGroups groupStart].
      unfold s_columnCount, tilesPerSeparator.
      rewrite <- !app_assoc. split; reflexivity.
Qed.

End LargeRegionCells.

Section GroupFacts.

Import Decoder Classify Mosaic Layout.

Lemma groups_head (rest : list MappedRegion) :
  forall r, exists g0 gs0, groups r rest = (r :: g0) :: gs0.
Proof.
  induction rest as [|next rest IH]; intros r.
  - exists [], []. reflexivity.
  - cbn [groups].
    destruct (64 * pageSize <? start next - end_ r).
    + exists [], (groups next rest). reflexivity.
    + destruct (IH next) as (g1 & gs1 & ->).
      exists (next :: g1), gs1. reflexivity.
Qed.

Lemma concat_groups (rest : list MappedRegion) :
  forall r, concat (groups r rest) = r :: rest.
Proof.
  induction rest as [|next rest IH]; intros r; [reflexivity|].
  cbn [groups]. specialize (IH next).
  destruct (64 * pageSize <? start next - end_ r).
  - cbn [concat app]. now rewrite IH.
  - destruct (groups_head rest next) as (g1 & gs1 & Hg).
    rewrite Hg in *. cbn [concat app] in *. now rewrite IH.
Qed.

Lemma concat_groupsOf (regions : list MappedRegion) :
  concat (groupsOf regions) = regions.
Proof.
  destruct regions as [|r rest]; [reflexivity|]. apply concat_groups.
Qed.

(** The runs are the large regions of the coalescing. *)
Lemma coalesce_groups (rest : list MappedRegion) :
  forall r first,
  exists g0 gs0,
    groups r rest = (r :: g0) :: gs0 /\
    coalesce_spec (first, end_ r) rest
    = (first, end_ (last g0 r)) :: map span gs0.
Proof.
  induction rest as [|next rest IH]; intros r first.
  - exists [], []. split; reflexivity.
  - cbn [groups coalesce_spec fst snd].
    destruct (64 * pageSize <? start next - end_ r).
    + destruct (IH next (start next)) as (g1 & gs1 & Hg & Hc).
      exists [], (groups next rest). split; [reflexivity|].
      cbn [last]. rewrite Hc, Hg. reflexivity.
    + destruct (IH next first) as (g1 & gs1 & Hg & Hc).
      exists (next :: g1), gs1. rewrite Hg. split; [reflexivity|].
      rewrite Hc, last_cons_default. reflexivity.
Qed.

Lemma largeRegions_groups (regions : list MappedRegion) :
  largeRegions_spec regions = map span (groupsOf regions).
Proof.
  destruct regions as [|r rest]; [reflexivity|].
  cbn [largeRegions_spec groupsOf].
  destruct (coalesce_groups rest r (start r)) as (g0 & gs0 & Hg & Hc).
  rewrite Hc, Hg. reflexivity.
Qed.

Lemma separated_groups (rest : list MappedRegion) :
  forall r,
  sortedRegions (r :: rest) ->
  separated (groups r rest).
Proof.
  induction rest as [|next rest IH]; intros r Hs.
  - cbn. auto.
  - destruct Hs as (Hr & Hnext & Hs).
    specialize (IH next Hs).
    cbn [groups].
    destruct (Z.ltb_spec (64 * pageSize) (start next - end_ r)) as [Hgap|Hgap].
    + destruct (groups_head rest next) as (g1 & gs1 & Hg).
      rewrite Hg in *.
      change (separated ([r] :: (next :: g1) :: gs1))
        with (runOk [r] /\
              groupEnd [r] + 64 * pageSize < groupStart (next :: g1) /\
              separated ((next :: g1) :: gs1)).
      split; [exact I|]. split; [cbn [groupEnd groupStart last]; lia|].
      exact IH.
    + destruct (groups_head rest next) as (g1 & gs1 & Hg).
      rewrite Hg in *.
      destruct IH as (Hrun & Hsep & IH).
      change (separated ((r :: next :: g1) :: gs1))
        with (runOk (r :: next :: g1) /\
              match gs1 with
              | [] => True
              | g' :: _ => groupEnd (r :: next :: g1) + 64 * pageSize < groupStart g'
              end /\
              separated gs1).
      split; [|split; [|exact IH]].
      * cbn [runOk chained] in *. split; [lia|exact Hrun].
      * cbn [groupEnd] in *. rewrite last_cons_default. exact Hsep.
Qed.

Lemma separated_groupsOf (regions : list MappedRegion) :
  sortedRegions regions -> separated (groupsOf regions).
Proof.
  destruct regions as [|r rest]; [intros _; exact I|].
  apply separated_groups.
Qed.

Lemma ceil_filler (n : Z) :
  0 <= n -> (n + filler n) / 512 = ceilDiv n 512.
Proof.
  intros Hn. unfold filler, ceilDiv, s_columnCount.
  pose proof (Z.div_mod n 512 ltac:(lia)) as Hdm.
  pose proof (Z.mod_pos_bound n 512 ltac:(lia)) as Hm.
  destruct (Z.eq_dec (n mod 512) 0) as [H0|H0].
  - rewrite H0. change ((512 - 0) mod 512) with 0.
    transitivity (n / 512).
    + symmetry. apply (Z.div_unique _ _ (n / 512) 0); lia.
    + apply (Z.div_unique _ _ (n / 512) 511); lia.
  - rewrite (Z.mod_small (512 - n mod 512)) by lia.
    transitivity (n / 512 + 1).
    + symmetry. apply (Z.div_unique _ _ (n / 512 + 1) 0); lia.
    + apply (Z.div_unique _ _ (n / 512 + 1) (n mod 512 - 1)); lia.
Qed.

Lemma groupRows_spec (r : MappedRegion) (rest : list MappedRegion) :
  chained r rest -> Forall pagedRegion (r :: rest) ->
  groupRows (r :: rest) = ceilDiv (pagesInSpan (span (r :: rest))) s_columnCount.
Proof.
  intros Hch Hp.
  pose proof (length_groupColors rest r Hch Hp) as Hlen.
  unfold groupRows, groupCells, span, pagesInSpan, groupStart, groupEnd.
  cbn [fst snd]. rewrite <- Hlen.
  rewrite Z.mul_comm, Z.div_mul by (unfold pageSize; lia).
  rewrite length_padded. unfold s_columnCount. apply ceil_filler. lia.
Qed.

Lemma span_ok (r : MappedRegion) (rest : list MappedRegion) :
  chained r rest -> Forall pagedRegion (r :: rest) ->
  Forall (fun x => end_ x < 2 ^ 64) (r :: rest) ->
  spanOk (span (r :: rest)).
Proof.
  intros Hch Hp H64.
  pose proof (chained_last rest r Hch Hp) as Hlast.
  inversion Hp as [|? ? (H0 & _ & _ & _ & Hend) _]; subst.
  unfold spanOk, span, groupStart, groupEnd. cbn [fst snd].
  assert (Hin : In (last rest r) (r :: rest)).
  { clear. revert r. induction rest as [|x rest IH]; intros r.
    - left. reflexivity.
    - right. rewrite last_cons_default. apply IH. }
  rewrite Forall_forall in H64. specialize (H64 _ Hin).
  unfold pageSize in *. lia.
Qed.

(** A list of runs: every run is a chain of paged regions below [2^64]. *)
Lemma runs_of_concat (gs : list (list MappedRegion)) :
  separated gs ->
  Forall pagedRegion (concat gs) ->
  Forall (fun x => end_ x < 2 ^ 64) (concat gs) ->
  Forall (fun g => exists r rest, g = r :: rest /\ chained r rest /\
                   Forall pagedRegion g /\
                   Forall (fun x => end_ x < 2 ^ 64) g) gs.
Proof.
  induction gs as [|g gs IH]; intros Hsep Hp H64; [constructor|].
  destruct Hsep as (Hrun & _ & Hsep).
  cbn [concat] in Hp, H64.
  apply Forall_app in Hp. destruct Hp as [Hpg Hp'].
  apply Forall_app in H64. destruct H64 as [H64g H64'].
  constructor; [|now apply IH].
  destruct g as [|r rest]; [destruct Hrun|].
  exists r, rest. auto.
Qed.

Lemma rowsOfGroups_spec (gs : list (list MappedRegion)) :
  Forall (fun g => exists r rest, g = r :: rest /\ chained r rest /\
                   Forall pagedRegion g /\
                   Forall (fun x => end_ x < 2 ^ 64) g) gs ->
  gs <> [] ->
  rowsOfGroups gs = rowCount_spec (map span gs) /\
  Forall spanOk (map span gs).
Proof.
  induction gs as [|g gs IH]; intros Hall Hne; [contradiction|].
  inversion Hall as [|? ? (r & rest & -> & Hch & Hp & H64) Hall']; subst.
  pose proof (groupRows_spec r rest Hch Hp) as Hrows.
  pose proof (span_ok r rest Hch Hp H64) as Hok.
  destruct gs as [|g' gs'].
  - split; [|constructor; [exact Hok|constructor]].
    cbn [rowsOfGroups map]. unfold rowCount_spec, sumRows.
    cbn [map fold_right length]. rewrite Hrows. unfold s_columnCount. lia.
  - destruct (IH Hall' ltac:(discriminate)) as [IHr IHok].
    split; [|constructor; assumption].
    change (rowsOfGroups ((r :: rest) :: g' :: gs'))
      with (groupRows (r :: rest) + (tilesPerSeparator + rowsOfGroups (g' :: gs'))).
    rewrite IHr, Hrows.
    unfold rowCount_spec, sumRows, tilesPerSeparator, s_columnCount.
    cbn [map fold_right length]. lia.
Qed.

Lemma assertRegionOrder_sorted (regions : list MappedRegion) :
  sortedRegions regions -> assertRegionOrder regions = Ok tt.
Proof.
  induction regions as [|r rest IH]; intros Hs; [reflexivity|].
  destruct Hs as (_ & Hnext & Hs).
  destruct rest as [|r' rest']; [reflexivity|].
  cbn [assertRegionOrder].
  destruct (Z.leb_spec (end_ r) (start r')); [|lia].
  cbn [assertion bind]. now apply IH.
Qed.

Lemma sorted_bounds (regions : list MappedRegion) :
  sortedRegions regions -> Forall (fun r => start r <= end_ r) regions.
Proof.
  induction regions as [|r rest IH]; intros Hs; [constructor|].
  destruct Hs as (Hr & _ & Hs). constructor; auto.
Qed.

(** The layout pass in closed form. *)
Lemma updatePageInfo_layout (regions : list MappedRegion) :
  wellFormed regions ->
  Z.of_nat (length regions) < 2 ^ 64 ->
  rowCount_spec (largeRegions_spec regions) < 2 ^ 32 ->
  updatePageInfo regions
  = Ok {| m_regions := regions;
          m_largeRegions := rowIndexGroups 0 (groupsOf regions);
          imageRows := rowsOfGroups (groupsOf regions);
          imageTiles := layoutGroups 0 (groupsOf regions) |}.
Proof.
  intros (Hs & Hp & Hfit) Hsize Hrows.
  destruct regions as [|r0 rest0] eqn:Hregions; [reflexivity|].
  rewrite <- Hregions in *.
  assert (Hup : updatePageInfo regions =
                (_ <- assertRegionBounds regions ;;
                 _ <- assertRegionOrder regions ;;
                 let largeRegions := computeLargeRegions regions in
                 let rowCount := computeRowCount largeRegions in
                 p <- paintLargeRegions regions rowCount largeRegions
                        {| row := 0; column := 0; iMappedRegion := 0;
                           tiles := []; rowIndex := [] |} ;;
                 Ok {| m_regions := regions; m_largeRegions := rowIndex p;
                       imageRows := rowCount; imageTiles := tiles p |})).
  { rewrite Hregions. reflexivity. }
  rewrite Hup. clear Hup.
  rewrite (proj2 (assertRegionBounds_iff regions) (sorted_bounds regions Hs)).
  rewrite (assertRegionOrder_sorted regions Hs).
  cbn [bind]. cbv zeta.
  rewrite (computeLargeRegions_spec regions Hs Hfit).
  rewrite largeRegions_groups in *.
  pose proof (separated_groupsOf regions Hs) as Hsep.
  pose proof (concat_groupsOf regions) as Hcat.
  assert (H64 : Forall (fun x => end_ x < 2 ^ 64) regions).
  { rewrite Forall_forall in *. intros x Hx.
    destruct (Hfit x Hx). unfold pageSize in *. lia. }
  assert (Hne : groupsOf regions <> []).
  { rewrite Hregions. cbn [groupsOf].
    destruct (groups_head rest0 r0) as (g0 & gs0 & ->). discriminate. }
  assert (Hruns := runs_of_concat (groupsOf regions) Hsep
                     ltac:(rewrite Hcat; exact Hp) ltac:(rewrite Hcat; exact H64)).
  destruct (rowsOfGroups_spec (groupsOf regions) Hruns Hne) as [Hrg Hok].
  pose proof (rowsOfGroups_nonneg (groupsOf regions)) as Hnn.
  assert (Hcount : computeRowCount (map span (groupsOf regions))
                   = rowsOfGroups (groupsOf regions)).
  { rewrite (computeRowCount_mod _ Hok), <- Hrg. apply wrap32_small. lia. }
  rewrite Hcount.
  destruct (paintLargeRegions_groups regions (rowsOfGroups (groupsOf regions))
              (groupsOf regions) [] 0 0 [] [])
    as (p' & Hrun & Htiles & Hindex); try (rewrite Hcat; assumption);
    try assumption; try lia.
  { rewrite Hcat. reflexivity. }
  change (Z.of_nat (length (@nil MappedRegion))) with 0 in Hrun.
  rewrite Hrun. cbn [bind]. rewrite Htiles, Hindex. reflexivity.
Qed.

End GroupFacts.

Section LayoutFacts.

Import Decoder Classify Mosaic Layout.

Lemma last_in {A : Type} (l : list A) :
  forall x d, In (last (x :: l) d) (x :: l).
Proof.
  induction l as [|y l IH]; intros x d.
  - left. reflexivity.
  - right. change (last (x :: y :: l) d) with (last (y :: l) d). apply IH.
Qed.

(** Sorted regions with pages: the [n]-th of them ends at least [n] pages
    above the start of the first one. *)
Lemma sorted_pages_span (regions : list MappedRegion) :
  forall (r : MappedRegion) (lo : Z),
  sortedRegions (r :: regions) -> Forall pagedRegion (r :: regions) ->
  lo <= start r ->
  lo + pageSize * Z.of_nat (length (r :: regions))
  <= end_ (last (r :: regions) r).
Proof.
  induction regions as [|r' rest IH]; intros r lo Hs Hp Hlo.
  - inversion Hp as [|? ? (_ & _ & Hpos & _ & Hend) _]; subst.
    cbn [length last]. unfold pageSize in *. lia.
  - destruct Hs as (_ & Hnext & Hs).
    inversion Hp as [|? ? (_ & _ & Hpos & _ & Hend) Hp']; subst.
    specialize (IH r' (end_ r) Hs Hp' Hnext).
    change (last (r :: r' :: rest) r) with (last (r' :: rest) r).
    rewrite (last_any_default rest r' r r').
    cbn [length] in *. unfold pageSize in *. lia.
Qed.

Lemma length_regions_bound (regions : list MappedRegion) :
  wellFormed regions -> Z.of_nat (length regions) < 2 ^ 64.
Proof.
  intros (Hs & Hp & Hfit).
  destruct regions as [|r rest]; [cbn; lia|].
  pose proof (sorted_pages_span rest r 0 Hs Hp) as Hspan.
  inversion Hp as [|? ? (H0 & _) _]; subst.
  specialize (Hspan H0).
  pose proof (last_in rest r r) as Hin.
  rewrite Forall_forall in Hfit. destruct (Hfit _ Hin) as [_ Hlast].
  unfold pageSize in *. lia.
Qed.

Lemma length_groupCells (g : list MappedRegion) :
  length (groupCells g) = (512 * Z.to_nat (groupRows g))%nat.
Proof.
  unfold groupRows, s_columnCount.
  destruct g as [|r rest]; [reflexivity|].
  cbn [groupCells].
  pose proof (padded_rows (groupColors r rest)) as Hp.
  set (n := length (padded (groupColors r rest))) in *.
  assert (H0 : 0 <= Z.of_nat n / 512) by (apply Z.div_pos; lia).
  lia.
Qed.

Lemma rowsOfGroups_cons (g : list MappedRegion) (gs : list (list MappedRegion)) :
  rowsOfGroups (g :: gs)
  = groupRows g + match gs with
                  | [] => 0
                  | _ :: _ => tilesPerSeparator + rowsOfGroups gs
                  end.
Proof. reflexivity. Qed.

(** The tiles of the runs lie on consecutive cells. *)
Lemma map_fst_layoutGroups (gs : list (list MappedRegion)) :
  forall R : nat,
  map fst (layoutGroups (Z.of_nat R) gs)
  = map (fun k => cell (Z.of_nat k))
        (seq (512 * R) (512 * Z.to_nat (rowsOfGroups gs))).
Proof.
  induction gs as [|g gs IH]; intros R.
  - reflexivity.
  - pose proof (groupRows_nonneg g) as Hg0.
    pose proof (rowsOfGroups_nonneg gs) as Hgs0.
    rewrite rowsOfGroups_cons.
    cbn [layoutGroups]. rewrite map_app.
    unfold s_columnCount.
    replace (512 * Z.of_nat R) with (Z.of_nat (512 * R)) by lia.
    rewrite map_fst_placeTiles, length_groupCells.
    destruct gs as [|g' gs'].
    + cbn [map]. rewrite app_nil_r, Z.add_0_r. reflexivity.
    + rewrite map_app.
      replace (512 * (Z.of_nat R + groupRows g))
        with (Z.of_nat (512 * R + 512 * Z.to_nat (groupRows g))) by lia.
      rewrite map_fst_placeTiles, repeat_length.
      replace (Z.of_nat R + groupRows g + tilesPerSeparator)
        with (Z.of_nat (R + Z.to_nat (groupRows g) + 2))
        by (unfold tilesPerSeparator; lia).
      rewrite IH.
      rewrite <- !map_app. f_equal.
      change (Z.to_nat (tilesPerSeparator * 512)) with 1024%nat.
      replace (512 * Z.to_nat (groupRows g + (tilesPerSeparator + rowsOfGroups (g' :: gs'))))%nat
        with (512 * Z.to_nat (groupRows g)
              + (1024 + 512 * Z.to_nat (rowsOfGroups (g' :: gs'))))%nat
        by (unfold tilesPerSeparator; lia).
      rewrite !seq_app. do 3 f_equal. lia.
Qed.

Lemma rowIndexGroups_spec (gs : list (list MappedRegion)) :
  forall R,
  Forall (fun g => exists r rest, g = r :: rest /\ chained r rest /\
                   Forall pagedRegion g /\
                   Forall (fun x => end_ x < 2 ^ 64) g) gs ->
  rowIndexGroups R gs = rowIndex_spec R (map span gs).
Proof.
  induction gs as [|g gs IH]; intros R Hall; [reflexivity|].
  inversion Hall as [|? ? (r & rest & -> & Hch & Hp & H64) Hall']; subst.
  cbn [rowIndexGroups map rowIndex_spec].
  rewrite (groupRows_spec r rest Hch Hp), IH by exact Hall'.
  reflexivity.
Qed.

Lemma rowIndexGroups_above (gs : list (list MappedRegion)) :
  forall R, Forall (fun e => R <= fst e) (rowIndexGroups R gs).
Proof.
  induction gs as [|g gs IH]; intros R; [constructor|].
  cbn [rowIndexGroups]. constructor; [cbn; lia|].
  pose proof (groupRows_nonneg g) as Hg0.
  specialize (IH (R + groupRows g + tilesPerSeparator)).
  rewrite Forall_forall in *. intros e He. specialize (IH e He).
  unfold tilesPerSeparator in *. lia.
Qed.

Lemma rowIndexGroups_ascending (gs : list (list MappedRegion)) :
  forall R, rowsAscending (rowIndexGroups R gs).
Proof.
  unfold rowsAscending.
  induction gs as [|g gs IH]; intros R; [constructor|].
  cbn [rowIndexGroups]. constructor; [apply IH|].
  pose proof (groupRows_nonneg g) as Hg0.
  pose proof (rowIndexGroups_above gs (R + groupRows g + tilesPerSeparator)) as Ha.
  rewrite Forall_forall in *. intros e He. specialize (Ha e He).
  unfold tilesPerSeparator in *. cbn [fst]. lia.
Qed.

Lemma NoDup_map_injective {A B : Type} (f : A -> B) (l : list A) :
  (forall x y, f x = f y -> x = y) -> NoDup l -> NoDup (map f l).
Proof.
  intros Hinj Hnd. induction Hnd as [|a l Hnot Hnd IH]; [constructor|].
  cbn [map]. constructor; [|exact IH].
  intros Hin. apply in_map_iff in Hin. destruct Hin as (x & Hx & Hxl).
  apply Hinj in Hx. subst x. contradiction.
Qed.

Lemma NoDup_rowMajor (rows : Z) : NoDup (rowMajor rows).
Proof.
  unfold rowMajor. apply NoDup_map_injective; [|apply seq_NoDup].
  intros x y Hxy. unfold cell, s_columnCount in Hxy.
  injection Hxy as Hm Hd.
  pose proof (Z.div_mod (Z.of_nat x) 512 ltac:(lia)).
  pose proof (Z.div_mod (Z.of_nat y) 512 ltac:(lia)).
  lia.
Qed.

(** What the closed form needs of the input, derived once. *)
Lemma wellFormed_runs (regions : list MappedRegion) :
  wellFormed regions ->
  computeLargeRegions regions = map span (groupsOf regions) /\
  concat (groupsOf regions) = regions /\
  separated (groupsOf regions) /\
  Forall (fun g => exists r rest, g = r :: rest /\ chained r rest /\
                   Forall pagedRegion g /\
                   Forall (fun x => end_ x < 2 ^ 64) g) (groupsOf regions).
Proof.
  intros (Hs & Hp & Hfit).
  pose proof (concat_groupsOf regions) as Hcat.
  pose proof (separated_groupsOf regions Hs) as Hsep.
  assert (H64 : Forall (fun x => end_ x < 2 ^ 64) regions).
  { rewrite Forall_forall in *. intros x Hx.
    destruct (Hfit x Hx). unfold pageSize in *. lia. }
  split; [|split; [exact Hcat|split; [exact Hsep|]]].
  - rewrite (computeLargeRegions_spec regions Hs Hfit). apply largeRegions_groups.
  - apply runs_of_concat; try exact Hsep; rewrite Hcat; assumption.
Qed.

Lemma updatePageInfo_closed (regions : list MappedRegion) :
  wellFormed regions ->
  rowCount_spec (computeLargeRegions regions) < 2 ^ 32 ->
  updatePageInfo regions
  = Ok {| m_regions := regions;
          m_largeRegions := rowIndexGroups 0 (groupsOf regions);
          imageRows := rowsOfGroups (groupsOf regions);
          imageTiles := layoutGroups 0 (groupsOf regions) |}.
Proof.
  intros Hwf Hrows.
  apply updatePageInfo_layout; [exact Hwf|now apply length_regions_bound|].
  destruct Hwf as (Hs & _ & Hfit).
  now rewrite <- (computeLargeRegions_spec regions Hs Hfit).
Qed.

End LayoutFacts.

(** The layout of well-formed input: it keeps the regions, the image has
    the number of rows of the row-count formula, and the number of tiles is
    512 times the number of rows. *)
Lemma updatePageInfo_layout_size (regions : list Decoder.MappedRegion) :
  Layout.wellFormed regions -> regions <> [] ->
  Layout.rowsOfGroups (Layout.groupsOf regions)
  = Mosaic.rowCount_spec (Mosaic.computeLargeRegions regions) /\
  Z.of_nat (length (Layout.layoutGroups 0 (Layout.groupsOf regions)))
  = 512 * Layout.rowsOfGroups (Layout.groupsOf regions) /\
  0 <= Layout.rowsOfGroups (Layout.groupsOf regions).
Proof.
  intros Hwf Hne.
  destruct (wellFormed_runs regions Hwf) as (Hlr & Hcat & Hsep & Hruns).
  assert (Hgne : Layout.groupsOf regions <> []).
  { intros H0. rewrite H0 in Hcat. cbn in Hcat. congruence. }
  destruct (rowsOfGroups_spec _ Hruns Hgne) as [Hrg _].
  pose proof (rowsOfGroups_nonneg (Layout.groupsOf regions)) as Hnn.
  split; [now rewrite Hlr|]. split; [|exact Hnn].
  pose proof (map_fst_layoutGroups (Layout.groupsOf regions) 0) as Hm.
  apply (f_equal (@length _)) in Hm.
  rewrite !length_map, length_seq in Hm.
  change (Z.of_nat 0) with 0 in Hm.
  assert (Hlen : length (Layout.layoutGroups 0 (Layout.groupsOf regions))
                 = (512 * Z.to_nat (Layout.rowsOfGroups (Layout.groupsOf regions)))%nat)
    by exact Hm.
  rewrite Hlen. lia.
Qed.

(** The row index of well-formed regions (sorted, non-overlapping,
    page-aligned, not empty, one use count and one flag word per page, ends
    at least 64 pages below [2^64]; fewer than [2^32] rows).  What
    [updatePageInfo] leaves in [m_largeRegions] for them has one
    entry for every large region, with the first address of the large region
    and its first row: row 0 for the first one, and for every further one
    the rows of the large region before it ([ceil(pagesInSpan / 512)]) and
    the two separator rows below the first row of that one.  The first rows
    ascend, which is what the binary search of [addressAtPos] relies on. *)
Theorem updatePageInfo_row_index (regions : list Decoder.MappedRegion) :
  Layout.wellFormed regions ->
  Mosaic.rowCount_spec (Mosaic.computeLargeRegions regions) < 2 ^ 32 ->
  exists w,
    Mosaic.updatePageInfo regions = Ok w /\
    Mosaic.m_largeRegions w
    = Layout.rowIndex_spec 0 (Mosaic.computeLargeRegions regions) /\
    Mosaic.rowsAscending (Mosaic.m_largeRegions w).
Proof.
  intros Hwf Hrows.
  eexists. split; [exact (updatePageInfo_closed regions Hwf Hrows)|].
  cbn [Mosaic.m_largeRegions].
  destruct (wellFormed_runs regions Hwf) as (Hlr & Hcat & Hsep & Hruns).
  split.
  - rewrite Hlr. now apply rowIndexGroups_spec.
  - apply rowIndexGroups_ascending.
Qed.

Lemma updatePageInfo_row_index_witness :
  let r2 := {| Decoder.start := 0x3000 + 65 * 4096;
               Decoder.end_ := 0x3000 + 66 * 4096;
               Decoder.backingFile := []; Decoder.useCounts := [1];
               Decoder.combinedFlags := [2 ^ 31] |} in
  (Layout.wellFormed [Scenario.anonRegion; r2] /\
   Mosaic.rowCount_spec (Mosaic.computeLargeRegions [Scenario.anonRegion; r2])
     < 2 ^ 32) /\
  exists w,
    Mosaic.updatePageInfo [Scenario.anonRegion; r2] = Ok w /\
    Mosaic.m_largeRegions w = [(0, 0x1000); (3, 0x3000 + 65 * 4096)] /\
    Mosaic.rowsAscending (Mosaic.m_largeRegions w).
Proof.
  intros r2.
  assert (W : Layout.wellFormed [Scenario.anonRegion; r2]).
  { unfold Layout.wellFormed. split; [cbn; lia|].
    split; repeat constructor; closed_prop. }
  assert (R : Mosaic.rowCount_spec
                (Mosaic.computeLargeRegions [Scenario.anonRegion; r2]) < 2 ^ 32)
    by closed_prop.
  split; [split; [exact W|exact R]|].
  exact (updatePageInfo_row_index [Scenario.anonRegion; r2] W R).
Defined.



(** * The forward lookup on sorted regions *)

Section ForwardLookup.

Import Decoder Classify Mosaic Layout.

Lemma sorted_after (l : list MappedRegion) :
  forall r, sortedRegions (r :: l) ->
  Forall (fun x => end_ r <= start x /\ end_ r <= end_ x) l.
Proof.
  induction l as [|x l IH]; intros r Hs; [constructor|].
  destruct Hs as (Hr & Hnext & Hs).
  pose proof Hs as (Hx & _ & _).
  constructor; [lia|].
  specialize (IH x Hs). rewrite Forall_forall in *.
  intros y Hy. specialize (IH y Hy). lia.
Qed.

Lemma sorted_tail (l : list MappedRegion) (r : MappedRegion) :
  sortedRegions (r :: l) -> sortedRegions l.
Proof. intros (_ & _ & H). exact H. Qed.

Lemma sorted_middle (before after : list MappedRegion) (r : MappedRegion) :
  sortedRegions (before ++ r :: after) ->
  Forall (fun x => end_ x <= start r) before /\
  start r <= end_ r /\
  Forall (fun x => end_ r <= start x /\ end_ r <= end_ x) after.
Proof.
  induction before as [|b before IH]; intros Hs.
  - cbn [app] in Hs. split; [constructor|]. split; [apply Hs|].
    now apply sorted_after.
  - cbn [app] in Hs.
    pose proof (sorted_after _ _ Hs) as Hb.
    destruct (IH (sorted_tail _ _ Hs)) as (H1 & H2 & H3).
    split; [|split; assumption].
    constructor; [|exact H1].
    rewrite Forall_forall in Hb.
    apply (Hb r). apply in_or_app. right. left. reflexivity.
Qed.

(** The search of [printPageFlagsAtAddr] finds the first region that ends
    above the address. *)
Lemma upper_bound_regions (before after : list MappedRegion) (addr : Z) :
  Forall (fun x => end_ x <= addr) before ->
  Forall (fun x => addr < end_ x) after ->
  upper_bound (fun lhs rhs => lhs <? end_ rhs) (before ++ after) addr
  = length before.
Proof.
  intros Hb Ha. apply upper_bound_partition.
  - intros i x Hi Hx. rewrite nth_error_app1 in Hx by lia.
    apply nth_error_In in Hx. rewrite Forall_forall in Hb.
    apply Z.ltb_ge. now apply Hb.
  - intros i x Hi Hx. rewrite nth_error_app2 in Hx by lia.
    apply nth_error_In in Hx. rewrite Forall_forall in Ha.
    apply Z.ltb_lt. now apply Ha.
  - rewrite length_app. lia.
Qed.

(** Every address has its place among sorted regions. *)
Lemma sorted_partition (regions : list MappedRegion) (addr : Z) :
  sortedRegions regions ->
  exists before after,
    regions = before ++ after /\
    Forall (fun x => end_ x <= addr) before /\
    Forall (fun x => addr < end_ x) after.
Proof.
  induction regions as [|r rest IH]; intros Hs.
  - exists [], []. repeat split; constructor.
  - destruct (Z.lt_ge_cases addr (end_ r)) as [Hlt|Hge].
    + exists [], (r :: rest). split; [reflexivity|]. split; [constructor|].
      constructor; [exact Hlt|].
      pose proof (sorted_after _ _ Hs) as Ha.
      rewrite Forall_forall in *. intros x Hx. specialize (Ha x Hx). lia.
    + destruct (IH (sorted_tail _ _ Hs)) as (before & after & -> & Hb & Ha).
      exists (r :: before), after. split; [reflexivity|].
      split; [constructor; assumption|exact Ha].
Qed.

Lemma printPageFlagsAtAddrIn_hit (qtDebug : bool)
    (before after : list MappedRegion)
    (r : MappedRegion) (addr flags useCount : Z) :
  sortedRegions (before ++ r :: after) ->
  start r <= addr < end_ r -> addr <> 0 -> addr - start r < 2 ^ 64 ->
  nth_error (combinedFlags r) (Z.to_nat ((addr - start r) / pageSize))
    = Some flags ->
  nth_error (useCounts r) (Z.to_nat ((addr - start r) / pageSize))
    = Some useCount ->
  printPageFlagsAtAddrIn qtDebug (before ++ r :: after) addr
  = Ok [showFlags flags; showPageInfo addr useCount (backingFile r)].
Proof.
  intros Hs Hin H0 H64 Hf Hu.
  destruct (sorted_middle _ _ _ Hs) as (Hb & Hr & Ha).
  unfold printPageFlagsAtAddrIn.
  destruct (Z.eqb_spec addr 0); [contradiction|].
  rewrite upper_bound_regions.
  - rewrite nth_error_middle.
    destruct (Z.ltb_spec addr (start r)); [lia|].
    rewrite wrap64_small by lia.
    rewrite Hf, Hu. reflexivity.
  - rewrite Forall_forall in *. intros x Hx. specialize (Hb x Hx). lia.
  - constructor; [lia|].
    rewrite Forall_forall in *. intros x Hx. specialize (Ha x Hx). lia.
Qed.

Lemma printPageFlagsAtAddr_hit (before after : list MappedRegion)
    (r : MappedRegion) (addr flags useCount : Z) :
  sortedRegions (before ++ r :: after) ->
  start r <= addr < end_ r -> addr <> 0 -> addr - start r < 2 ^ 64 ->
  nth_error (combinedFlags r) (Z.to_nat ((addr - start r) / pageSize))
    = Some flags ->
  nth_error (useCounts r) (Z.to_nat ((addr - start r) / pageSize))
    = Some useCount ->
  printPageFlagsAtAddr (before ++ r :: after) addr
  = Ok [showFlags flags; showPageInfo addr useCount (backingFile r)].
Proof. apply printPageFlagsAtAddrIn_hit. Qed.

End ForwardLookup.

(** [printPageFlagsAtAddr] on sorted, non-overlapping regions, in a build
    with [Q_ASSERT] compiled in ([qtDebug = true]) and in one without.
    - The address 0 makes it return at once, whatever the regions are.
    - An address other than 0 inside a region (byte-exact, not only
      page-aligned) for whose page the region holds a flag word and a use
      count makes it emit that flag word and that use count, with the
      backing file of the region.
    - An address other than 0 in the gap between two regions, or at or
      above the end of the last region, makes it emit nothing.
    - An address other than 0 below the first region trips
      [Q_ASSERT(rIt != m_regions.begin())] where the check is compiled in;
      where it is not, the function returns without a signal.
    All but the last are the same in both builds. *)
Theorem printPageFlagsAtAddr_reports_the_page (qtDebug : bool) :
  (forall regions, Mosaic.printPageFlagsAtAddrIn qtDebug regions 0 = Ok []) /\
  (forall before after r addr flags useCount,
     Mosaic.sortedRegions (before ++ r :: after) ->
     Decoder.start r <= addr < Decoder.end_ r -> addr <> 0 ->
     addr - Decoder.start r < 2 ^ 64 ->
     nth_error (Decoder.combinedFlags r)
               (Z.to_nat ((addr - Decoder.start r) / pageSize)) = Some flags ->
     nth_error (Decoder.useCounts r)
               (Z.to_nat ((addr - Decoder.start r) / pageSize)) = Some useCount ->
     Mosaic.printPageFlagsAtAddrIn qtDebug (before ++ r :: after) addr
     = Ok [Mosaic.showFlags flags;
           Mosaic.showPageInfo addr useCount (Decoder.backingFile r)]) /\
  (forall before after previous r addr,
     Mosaic.sortedRegions ((before ++ [previous]) ++ r :: after) ->
     Decoder.end_ previous <= addr < Decoder.start r -> addr <> 0 ->
     Mosaic.printPageFlagsAtAddrIn qtDebug
       ((before ++ [previous]) ++ r :: after) addr
     = Ok []) /\
  (forall regions addr,
     Forall (fun x => Decoder.end_ x <= addr) regions ->
     Mosaic.printPageFlagsAtAddrIn qtDebug regions addr = Ok []) /\
  (forall r after addr,
     Mosaic.sortedRegions (r :: after) ->
     addr < Decoder.start r -> addr <> 0 ->
     Mosaic.printPageFlagsAtAddrIn qtDebug (r :: after) addr
     = if qtDebug then Fault AssertFailed else Ok []) /\
  (forall regions addr,
     Mosaic.printPageFlagsAtAddr regions addr
     = Mosaic.printPageFlagsAtAddrIn true regions addr).
Proof.
  split; [reflexivity|].
  split; [exact (printPageFlagsAtAddrIn_hit qtDebug)|].
  split; [|split; [|split; [|reflexivity]]].
  - intros before after previous r addr Hs Hin H0.
    destruct (sorted_middle _ _ _ Hs) as (Hb & Hr & Ha).
    unfold Mosaic.printPageFlagsAtAddrIn.
    destruct (Z.eqb_spec addr 0); [contradiction|].
    rewrite upper_bound_regions.
    + rewrite nth_error_middle.
      destruct (Z.ltb_spec addr (Decoder.start r)); [|lia].
      rewrite length_app. cbn [length].
      replace (length before + 1)%nat with (S (length before)) by lia.
      destruct qtDebug; reflexivity.
    + rewrite <- app_assoc in Hs. cbn [app] in Hs.
      destruct (sorted_middle _ _ _ Hs) as (Hb' & Hp & _).
      apply Forall_app. split.
      * rewrite Forall_forall in *. intros x Hx. specialize (Hb' x Hx). lia.
      * constructor; [lia|constructor].
    + constructor; [lia|].
      rewrite Forall_forall in *. intros x Hx. specialize (Ha x Hx). lia.
  - intros regions addr Hall.
    unfold Mosaic.printPageFlagsAtAddrIn.
    destruct (Z.eqb_spec addr 0); [reflexivity|].
    pose proof (upper_bound_regions regions [] addr Hall (Forall_nil _)) as Hub.
    rewrite app_nil_r in Hub. rewrite Hub.
    assert (Hnone : nth_error regions (length regions) = None)
      by (apply nth_error_None; lia).
    rewrite Hnone. reflexivity.
  - intros r after addr Hs Hlt H0.
    pose proof (sorted_after _ _ Hs) as Ha.
    destruct Hs as (Hr & _ & _).
    unfold Mosaic.printPageFlagsAtAddrIn.
    destruct (Z.eqb_spec addr 0); [contradiction|].
    assert (Hub : Mosaic.upper_bound
                    (fun lhs rhs => lhs <? Decoder.end_ rhs) (r :: after) addr
                  = 0%nat).
    { apply (upper_bound_regions [] (r :: after) addr); [constructor|].
      constructor; [lia|].
      rewrite Forall_forall in *. intros x Hx. specialize (Ha x Hx). lia. }
    rewrite Hub. cbn [nth_error].
    destruct (Z.ltb_spec addr (Decoder.start r)); [|lia].
    destruct qtDebug; reflexivity.
Qed.

Lemma printPageFlagsAtAddr_reports_the_page_witness :
  (Mosaic.sortedRegions ([] ++ Scenario.anonRegion :: []) /\
   Decoder.start Scenario.anonRegion <= 0x2abc < Decoder.end_ Scenario.anonRegion /\
   0x2abc <> 0 /\ 0x2abc - Decoder.start Scenario.anonRegion < 2 ^ 64) /\
  Mosaic.printPageFlagsAtAddrIn false ([] ++ Scenario.anonRegion :: []) 0x2abc
  = Ok [Mosaic.showFlags (2 ^ 31); Mosaic.showPageInfo 0x2abc 1 []].
Proof.
  assert (S : Mosaic.sortedRegions ([] ++ Scenario.anonRegion :: []))
    by (cbn; lia).
  assert (I : Decoder.start Scenario.anonRegion <= 0x2abc
              < Decoder.end_ Scenario.anonRegion) by (cbn; lia).
  assert (N : 0x2abc <> 0) by discriminate.
  assert (B : 0x2abc - Decoder.start Scenario.anonRegion < 2 ^ 64) by (cbn; lia).
  split; [split; [exact S|split; [exact I|split; [exact N|exact B]]]|].
  exact (proj1 (proj2 (printPageFlagsAtAddr_reports_the_page false))
           [] [] Scenario.anonRegion 0x2abc (2 ^ 31) 1 S I N B eq_refl eq_refl).
Defined.

(** * Pages and their cells *)

Section PageCells.

Import Decoder Classify Mosaic Layout.

Lemma gap_pages_exact (r next : MappedRegion) :
  pagedRegion r -> pagedRegion next -> end_ r <= start next ->
  pageSize * Z.of_nat (Z.to_nat (gapPagesBetween r next))
  = start next - end_ r.
Proof.
  intros (H0 & Ha & Hpos & Hsame & Hend) (Hn0 & Hna & _) Hle.
  unfold gapPagesBetween.
  assert (Hdiv : (start next - end_ r) mod pageSize = 0).
  { rewrite Hend. unfold pageSize in *.
    rewrite Zminus_mod, Z.add_mod, Ha, Hna, Z.mul_comm, Z.mod_mul by lia.
    reflexivity. }
  rewrite Z2Nat.id by (apply Z.div_pos; unfold pageSize; lia).
  pose proof (Z.div_mod (start next - end_ r) pageSize ltac:(unfold pageSize; lia)).
  lia.
Qed.

(** The page [p] of a region of a run has its place among the cells of the
    run: as many cells behind the first one as there are pages between the
    start of the run and the page. *)
Lemma groupColors_page (rest : list MappedRegion) :
  forall (r0 r : MappedRegion) (p : nat),
  chained r0 rest -> Forall pagedRegion (r0 :: rest) ->
  In r (r0 :: rest) -> (p < length (useCounts r))%nat ->
  exists off : nat,
    (off < length (groupColors r0 rest))%nat /\
    nth_error (groupColors r0 rest) off = nth_error (pageColors r) p /\
    start r0 + pageSize * Z.of_nat off = pageAddress r p.
Proof.
  induction rest as [|next rest IH]; intros r0 r p Hch Hp Hin Hlt.
  - destruct Hin as [<-|[]].
    inversion Hp as [|? ? (_ & _ & _ & Hsame & _) _]; subst.
    exists p. cbn [groupColors]. rewrite app_nil_r.
    rewrite (length_pageColors r0 Hsame).
    split; [lia|]. split; reflexivity.
  - inversion Hp as [|? ? Hp0 Hp']; subst.
    pose proof Hp0 as (H0 & Ha & Hpos & Hsame & Hend).
    destruct Hch as [Hgap Hch].
    destruct Hin as [<-|Hin].
    + exists p. cbn [groupColors].
      rewrite length_app, (length_pageColors r0 Hsame).
      split; [lia|]. split; [|reflexivity].
      apply nth_error_app1. rewrite (length_pageColors r0 Hsame). exact Hlt.
    + inversion Hp' as [|? ? Hpn _]; subst.
      destruct (IH next r p Hch Hp' Hin Hlt) as (off & Hoff & Hnth & Haddr).
      pose proof (gap_pages_exact r0 next Hp0 Hpn ltac:(lia)) as Hg.
      set (gap := Z.to_nat (gapPagesBetween r0 next)) in *.
      exists (length (useCounts r0) + (gap + off))%nat.
      cbn [groupColors]. fold gap.
      rewrite !length_app, repeat_length, (length_pageColors r0 Hsame).
      split; [lia|]. split.
      * rewrite nth_error_app2 by (rewrite (length_pageColors r0 Hsame); lia).
        rewrite (length_pageColors r0 Hsame).
        rewrite nth_error_app2 by (rewrite repeat_length; lia).
        rewrite repeat_length.
        replace (length (useCounts r0) + (gap + off) - length (useCounts r0) - gap)%nat
          with off by lia.
        exact Hnth.
      * rewrite <- Haddr. lia.
Qed.

(** Conversely, a cell of a run is a gap tile or the tile of a page. *)
Lemma groupColors_inv (rest : list MappedRegion) :
  forall (r0 : MappedRegion) (j : nat) (c : QColor),
  chained r0 rest -> Forall pagedRegion (r0 :: rest) ->
  nth_error (groupColors r0 rest) j = Some c ->
  c = colorCyan \/
  exists r p,
    In r (r0 :: rest) /\ nth_error (pageColors r) p = Some c /\
    start r0 + pageSize * Z.of_nat j = pageAddress r p.
Proof.
  induction rest as [|next rest IH]; intros r0 j c Hch Hp Hnth.
  - cbn [groupColors] in Hnth. rewrite app_nil_r in Hnth.
    right. exists r0, j. split; [left; reflexivity|]. split; [exact Hnth|].
    reflexivity.
  - inversion Hp as [|? ? Hp0 Hp']; subst.
    pose proof Hp0 as (H0 & Ha & Hpos & Hsame & Hend).
    inversion Hp' as [|? ? Hpn _]; subst.
    destruct Hch as [Hgap Hch].
    pose proof (gap_pages_exact r0 next Hp0 Hpn ltac:(lia)) as Hg.
    cbn [groupColors] in Hnth.
    set (gap := Z.to_nat (gapPagesBetween r0 next)) in *.
    destruct (Nat.lt_ge_cases j (length (useCounts r0))) as [H1|H1].
    + rewrite nth_error_app1 in Hnth
        by (rewrite (length_pageColors r0 Hsame); exact H1).
      right. exists r0, j. split; [left; reflexivity|]. split; [exact Hnth|].
      reflexivity.
    + rewrite nth_error_app2 in Hnth
        by (rewrite (length_pageColors r0 Hsame); exact H1).
      rewrite (length_pageColors r0 Hsame) in Hnth.
      destruct (Nat.lt_ge_cases (j - length (useCounts r0)) gap) as [H2|H2].
      * rewrite nth_error_app1 in Hnth by (rewrite repeat_length; exact H2).
        left. apply nth_error_In in Hnth. now apply repeat_spec in Hnth.
      * rewrite nth_error_app2 in Hnth by (rewrite repeat_length; exact H2).
        rewrite repeat_length in Hnth.
        destruct (IH next _ c Hch Hp' Hnth) as [Hc|(r & p & Hin & Hpc & Haddr)].
        -- left. exact Hc.
        -- right. exists r, p. split; [right; exact Hin|]. split; [exact Hpc|].
           rewrite <- Haddr. unfold pageSize in *. lia.
Qed.

Lemma nth_error_padded (colors : list QColor) (j : nat) (c : QColor) :
  nth_error (padded colors) j = Some c ->
  c = colorCyan \/ nth_error colors j = Some c.
Proof.
  unfold padded. intros H.
  destruct (Nat.lt_ge_cases j (length colors)) as [H1|H1].
  - rewrite nth_error_app1 in H by exact H1. right. exact H.
  - rewrite nth_error_app2 in H by exact H1.
    left. apply nth_error_In in H. now apply repeat_spec in H.
Qed.

Lemma chained_in_end (rest : list MappedRegion) :
  forall r0 r, chained r0 rest -> Forall pagedRegion (r0 :: rest) ->
  In r (r0 :: rest) ->
  start r0 <= start r /\ end_ r <= end_ (last rest r0).
Proof.
  induction rest as [|next rest IH]; intros r0 r Hch Hp Hin.
  - destruct Hin as [<-|[]]. cbn. lia.
  - pose proof (chained_last _ _ Hch Hp) as Hlast.
    inversion Hp as [|? ? (H0 & _ & Hpos & _ & Hend) Hp']; subst.
    destruct Hch as [Hgap Hch].
    destruct Hin as [<-|Hin].
    + lia.
    + destruct (IH next r Hch Hp' Hin) as [H1 H2].
      rewrite last_cons_default. unfold pageSize in *. lia.
Qed.

Lemma firstRowAfter_above (gs : list (list MappedRegion)) :
  forall R, R <= firstRowAfter R gs.
Proof.
  induction gs as [|g gs IH]; intros R; [cbn; lia|].
  cbn [firstRowAfter]. pose proof (groupRows_nonneg g).
  specialize (IH (R + groupRows g + tilesPerSeparator)).
  unfold tilesPerSeparator in *. lia.
Qed.

Lemma layoutGroups_in (gsB : list (list MappedRegion)) :
  forall (g : list MappedRegion) (gsA : list (list MappedRegion)) (R : Z)
         (t : tile),
  In t (placeTiles (512 * firstRowAfter R gsB) (groupCells g)) ->
  In t (layoutGroups R (gsB ++ g :: gsA)).
Proof.
  induction gsB as [|b gsB IH]; intros g gsA R t Hin.
  - cbn [app layoutGroups firstRowAfter] in *. apply in_or_app. left. exact Hin.
  - cbn [app layoutGroups firstRowAfter] in *.
    apply in_or_app. right.
    destruct (gsB ++ g :: gsA) as [|x l] eqn:E; [destruct gsB; discriminate|].
    apply in_or_app. right. rewrite <- E. now apply IH.
Qed.

Lemma layoutGroups_inv (gs : list (list MappedRegion)) :
  forall (R : Z) (t : tile),
  In t (layoutGroups R gs) ->
  snd t = colorBlack \/
  exists gsB g gsA,
    gs = gsB ++ g :: gsA /\
    In t (placeTiles (512 * firstRowAfter R gsB) (groupCells g)).
Proof.
  induction gs as [|g gs IH]; intros R t Hin; [destruct Hin|].
  cbn [layoutGroups] in Hin. apply in_app_or in Hin.
  destruct Hin as [Hin|Hin].
  - right. exists [], g, gs. split; [reflexivity|exact Hin].
  - destruct gs as [|g' gs']; [destruct Hin|].
    apply in_app_or in Hin. destruct Hin as [Hin|Hin].
    + left. apply In_placeTiles in Hin. destruct Hin as (i & Hi & _).
      apply nth_error_In in Hi. now apply repeat_spec in Hi.
    + destruct (IH _ _ Hin) as [Hb|(gsB & g0 & gsA & Hgs & Hin0)].
      * left. exact Hb.
      * right. exists (g :: gsB), g0, gsA. split.
        -- cbn [app]. now rewrite Hgs.
        -- exact Hin0.
Qed.

Lemma rowIndexGroups_app (gsB : list (list MappedRegion)) :
  forall (g : list MappedRegion) (gsA : list (list MappedRegion)) (R : Z),
  rowIndexGroups R (gsB ++ g :: gsA)
  = rowIndexGroups R gsB
    ++ (firstRowAfter R gsB, groupStart g)
    :: rowIndexGroups (firstRowAfter R gsB + groupRows g + tilesPerSeparator) gsA.
Proof.
  induction gsB as [|b gsB IH]; intros g gsA R; [reflexivity|].
  cbn [app rowIndexGroups firstRowAfter]. now rewrite IH.
Qed.

(** The reverse lookup on a cell of a run gives the address that lies as
    many pages above the start of the run as the cell lies behind the first
    cell of the run. *)
Lemma addressAtCell_in_group (gsB gsA : list (list MappedRegion))
    (g : list MappedRegion) (R j : Z) :
  0 <= j < 512 * groupRows g ->
  j * pageSize < 2 ^ 32 ->
  0 <= groupStart g -> groupStart g + j * pageSize < 2 ^ 64 ->
  addressAtCell (rowIndexGroups R (gsB ++ g :: gsA))
                (snd (cell (512 * firstRowAfter R gsB + j)))
                (fst (cell (512 * firstRowAfter R gsB + j)))
  = groupStart g + j * pageSize.
Proof.
  intros Hj H32 Hs0 H64.
  set (Rg := firstRowAfter R gsB).
  pose proof (cell_split j ltac:(lia)) as (Hsplit & Hcol & Hrow).
  assert (Hcell : cell (512 * Rg + j) = (j mod 512, Rg + j / 512)).
  { replace (512 * Rg + j) with (512 * (Rg + j / 512) + j mod 512) by lia.
    apply cell_at. lia. }
  rewrite Hcell. cbn [fst snd].
  pose proof (rowIndexGroups_ascending (gsB ++ g :: gsA) R) as Hasc.
  rewrite rowIndexGroups_app in *. fold Rg in Hasc |- *.
  assert (Hlt : j / 512 < groupRows g).
  { apply Z.div_lt_upper_bound; lia. }
  rewrite addressAtCell_hit; [|exact Hasc|lia|].
  - unfold s_columnCount, pageSize in *.
    replace (Rg + j / 512 - Rg) with (j / 512) by lia.
    rewrite (wrap32_small (j / 512)) by lia.
    rewrite (wrap32_small (j / 512 * 512)) by lia.
    rewrite (wrap32_small (j / 512 * 512 + j mod 512)) by lia.
    rewrite wrap32_small by lia.
    rewrite wrap64_small by lia. lia.
  - pose proof (rowIndexGroups_above gsA (Rg + groupRows g + tilesPerSeparator)) as Ha.
    rewrite Forall_forall in *. intros e He. specialize (Ha e He).
    unfold tilesPerSeparator in *. lia.
Qed.

Lemma in_groups_split (gs : list (list MappedRegion)) (r : MappedRegion) :
  In r (concat gs) ->
  exists gsB g gsA, gs = gsB ++ g :: gsA /\ In r g.
Proof.
  intros Hin. apply in_concat in Hin. destruct Hin as (g & Hg & Hr).
  apply in_split in Hg. destruct Hg as (gsB & gsA & ->).
  exists gsB, g, gsA. auto.
Qed.

End PageCells.

Section ClickFacts.

Import Decoder Classify Mosaic Layout.

(** The reverse lookup on the cell of a page gives the address of the
    page. *)
Lemma addressAtCell_page (gsB gsA : list (list MappedRegion))
    (r0 r : MappedRegion) (rest : list MappedRegion) (p off : nat) :
  chained r0 rest -> Forall pagedRegion (r0 :: rest) ->
  Forall (fun x => end_ x < 2 ^ 64) (r0 :: rest) ->
  snd (span (r0 :: rest)) - fst (span (r0 :: rest)) <= 2 ^ 32 ->
  In r (r0 :: rest) -> (p < length (useCounts r))%nat ->
  (off < length (groupColors r0 rest))%nat ->
  start r0 + pageSize * Z.of_nat off = pageAddress r p ->
  addressAtCell (rowIndexGroups 0 (gsB ++ (r0 :: rest) :: gsA))
                (snd (cell (512 * firstRowAfter 0 gsB + Z.of_nat off)))
                (fst (cell (512 * firstRowAfter 0 gsB + Z.of_nat off)))
  = pageAddress r p.
Proof.
  intros Hch Hp H64 H32 Hin Hlt Hoff Haddr.
  destruct (chained_in_end rest r0 r Hch Hp Hin) as [Hs He].
  assert (Hpr : pagedRegion r) by (rewrite Forall_forall in Hp; now apply Hp).
  destruct Hpr as (H0 & _ & _ & _ & Hend).
  assert (H64r : end_ r < 2 ^ 64) by (rewrite Forall_forall in H64; now apply H64).
  inversion Hp as [|? ? (H00 & _) _]; subst.
  cbn [span fst snd groupStart groupEnd] in H32.
  unfold pageAddress in *.
  rewrite addressAtCell_in_group.
  - cbn [groupStart]. unfold pageSize in *. lia.
  - split; [lia|].
    pose proof (length_groupCells (r0 :: rest)) as Hlen.
    cbn [groupCells] in Hlen. unfold padded in Hlen.
    rewrite length_app in Hlen.
    pose proof (groupRows_nonneg (r0 :: rest)). lia.
  - unfold pageSize in *. lia.
  - exact H00.
  - cbn [groupStart]. unfold pageSize in *. lia.
Qed.

Lemma addressAtPos_cell (m_largeRegions : list (Z * Z)) (x y : Z) :
  0 <= x -> 0 <= y < 2 ^ 31 -> x / 4 < 512 ->
  addressAtPos m_largeRegions (x, y) = addressAtCell m_largeRegions (y / 4) (x / 4).
Proof.
  intros Hx Hy Hc. unfold addressAtPos, qBound, s_pixelsPerTile, s_columnCount.
  cbn [fst snd].
  rewrite Z.max_r by lia. rewrite wrap32_small by lia.
  rewrite Z.quot_div_nonneg by lia.
  pose proof (Z.div_pos x 4 Hx ltac:(lia)).
  rewrite Z.min_r by lia. rewrite Z.max_r by lia. reflexivity.
Qed.

End ClickFacts.

(** A click on the tile of a page reports that page.  After
    [updatePageInfo] on well-formed regions, page [p] of a region [r] has a
    tile in the colour of its flag word and use count; the reverse lookup of
    [addressAtPos] on the cell of this tile gives the address of the page,
    provided the large region spans at most [2^32] bytes (the offset is
    formed in 32 bits); and a click anywhere on the tile makes
    [printPageFlagsAtPos] emit the flag word and the use count of this page
    with the backing file of its region (unless the address of the page is
    0, which is taken for "no address"). *)
Theorem click_on_page_reports_the_page
    (regions : list Decoder.MappedRegion) (r : Decoder.MappedRegion) (p : nat) :
  Layout.wellFormed regions ->
  Mosaic.rowCount_spec (Mosaic.computeLargeRegions regions) < 2 ^ 32 ->
  Forall (fun lr => snd lr - fst lr <= 2 ^ 32) (Mosaic.computeLargeRegions regions) ->
  In r regions -> (p < length (Decoder.useCounts r))%nat ->
  exists w column row flags useCount,
    Mosaic.updatePageInfo regions = Ok w /\
    nth_error (Decoder.combinedFlags r) p = Some flags /\
    nth_error (Decoder.useCounts r) p = Some useCount /\
    In (column, row, Classify.pageColor flags useCount) (Mosaic.imageTiles w) /\
    Mosaic.addressAtCell (Mosaic.m_largeRegions w) row column
    = Layout.pageAddress r p /\
    (Layout.pageAddress r p <> 0 ->
     forall x y, 0 <= x -> 0 <= y < 2 ^ 31 -> x / 4 = column -> y / 4 = row ->
     Mosaic.printPageFlagsAtPos w (x, y)
     = Ok [Mosaic.showFlags flags;
           Mosaic.showPageInfo (Layout.pageAddress r p) useCount
                               (Decoder.backingFile r)]).
Proof.
  intros Hwf Hrows H32 Hin Hp.
  destruct (wellFormed_runs regions Hwf) as (Hlr & Hcat & Hsep & Hruns).
  pose proof Hin as Hin'. rewrite <- Hcat in Hin'.
  destruct (in_groups_split _ _ Hin') as (gsB & g & gsA & Hgs & Hrg).
  assert (Hg : In g (Layout.groupsOf regions)).
  { rewrite Hgs. apply in_or_app. right. left. reflexivity. }
  pose proof Hruns as Hruns'. rewrite Forall_forall in Hruns'.
  destruct (Hruns' g Hg) as (r0 & rest & -> & Hch & Hpg & H64).
  assert (Hpr : Layout.pagedRegion r)
    by (rewrite Forall_forall in Hpg; now apply Hpg).
  pose proof Hpr as (H0 & Ha & Hpos & Hsame & Hend).
  destruct (pageColors_nth r Hsame p Hp) as (f & u & Hf & Hu & Hc).
  destruct (groupColors_page rest r0 r p Hch Hpg Hrg Hp)
    as (off & Hoff & Hnth & Haddr).
  assert (Hspan : snd (Layout.span (r0 :: rest)) - fst (Layout.span (r0 :: rest))
                  <= 2 ^ 32).
  { rewrite Forall_forall in H32. apply H32. rewrite Hlr.
    apply in_map. exact Hg. }
  pose proof (addressAtCell_page gsB gsA r0 r rest p off Hch Hpg H64 Hspan Hrg
                Hp Hoff Haddr) as Hcell.
  rewrite <- Hgs in Hcell.
  set (k := 512 * Layout.firstRowAfter 0 gsB + Z.of_nat off) in *.
  exists {| Mosaic.m_regions := regions;
            Mosaic.m_largeRegions := Layout.rowIndexGroups 0 (Layout.groupsOf regions);
            Mosaic.imageRows := Layout.rowsOfGroups (Layout.groupsOf regions);
            Mosaic.imageTiles := Layout.layoutGroups 0 (Layout.groupsOf regions) |},
         (fst (Layout.cell k)), (snd (Layout.cell k)), f, u.
  cbn [Mosaic.m_regions Mosaic.m_largeRegions Mosaic.imageTiles].
  split; [exact (updatePageInfo_closed regions Hwf Hrows)|].
  split; [exact Hf|]. split; [exact Hu|].
  split; [|split; [exact Hcell|]].
  - rewrite <- surjective_pairing, Hgs.
    apply layoutGroups_in.
    apply (nth_error_In _ off).
    replace k with (512 * Layout.firstRowAfter 0 gsB + Z.of_nat off) by reflexivity.
    apply nth_error_placeTiles.
    cbn [Layout.groupCells]. unfold Layout.padded.
    rewrite nth_error_app1 by exact Hoff.
    rewrite Hnth. exact Hc.
  - intros Hne x y Hx Hy Hcol Hrow.
    unfold Mosaic.printPageFlagsAtPos. cbn [Mosaic.m_regions Mosaic.m_largeRegions].
    assert (Hk : 0 <= k).
    { subst k. pose proof (firstRowAfter_above gsB 0). lia. }
    rewrite addressAtPos_cell; try assumption.
    2:{ rewrite Hcol. unfold Layout.cell, Mosaic.s_columnCount. cbn [fst].
        apply Z.mod_pos_bound. lia. }
    rewrite Hcol, Hrow, Hcell.
    destruct Hwf as (Hs & _ & Hfit).
    destruct (in_split _ _ Hin) as (before & after & Hreg).
    rewrite Hreg in *.
    assert (H64r : Decoder.end_ r < 2 ^ 64)
      by (rewrite Forall_forall in H64; now apply H64).
    assert (Hidx : (Layout.pageAddress r p - Decoder.start r) / pageSize
                   = Z.of_nat p).
    { unfold Layout.pageAddress.
      replace (Decoder.start r + pageSize * Z.of_nat p - Decoder.start r)
        with (Z.of_nat p * pageSize) by lia.
      apply Z.div_mul. unfold pageSize. lia. }
    apply printPageFlagsAtAddr_hit; try assumption.
    + unfold Layout.pageAddress, pageSize in *. lia.
    + unfold Layout.pageAddress, pageSize in *. lia.
    + rewrite Hidx, Nat2Z.id. exact Hf.
    + rewrite Hidx, Nat2Z.id. exact Hu.
Qed.

Lemma click_on_page_reports_the_page_witness :
  let r2 := {| Decoder.start := 0x3000 + 65 * 4096;
               Decoder.end_ := 0x3000 + 67 * 4096;
               Decoder.backingFile := ["l"; "i"; "b"; "c"]%byte;
               Decoder.useCounts := [3; 1];
               Decoder.combinedFlags := [2 ^ 31 + 2 ^ 11; 2 ^ 31] |} in
  (Layout.wellFormed [Scenario.anonRegion; r2] /\
   Mosaic.rowCount_spec (Mosaic.computeLargeRegions [Scenario.anonRegion; r2])
     < 2 ^ 32 /\
   Forall (fun lr => snd lr - fst lr <= 2 ^ 32)
          (Mosaic.computeLargeRegions [Scenario.anonRegion; r2]) /\
   In r2 [Scenario.anonRegion; r2] /\
   (0 < length (Decoder.useCounts r2))%nat) /\
  exists w column row flags useCount,
    Mosaic.updatePageInfo [Scenario.anonRegion; r2] = Ok w /\
    nth_error (Decoder.combinedFlags r2) 0 = Some flags /\
    nth_error (Decoder.useCounts r2) 0 = Some useCount /\
    In (column, row, Classify.pageColor flags useCount) (Mosaic.imageTiles w) /\
    Mosaic.addressAtCell (Mosaic.m_largeRegions w) row column
    = Layout.pageAddress r2 0 /\
    (Layout.pageAddress r2 0 <> 0 ->
     forall x y, 0 <= x -> 0 <= y < 2 ^ 31 -> x / 4 = column -> y / 4 = row ->
     Mosaic.printPageFlagsAtPos w (x, y)
     = Ok [Mosaic.showFlags flags;
           Mosaic.showPageInfo (Layout.pageAddress r2 0) useCount
                               (Decoder.backingFile r2)]).
Proof.
  intros r2.
  assert (W : Layout.wellFormed [Scenario.anonRegion; r2]).
  { unfold Layout.wellFormed. split; [cbn; lia|].
    split; repeat constructor; closed_prop. }
  assert (R : Mosaic.rowCount_spec
                (Mosaic.computeLargeRegions [Scenario.anonRegion; r2]) < 2 ^ 32)
    by closed_prop.
  assert (F : Forall (fun lr => snd lr - fst lr <= 2 ^ 32)
                (Mosaic.computeLargeRegions [Scenario.anonRegion; r2]))
    by closed_prop.
  assert (I : In r2 [Scenario.anonRegion; r2]) by (right; left; reflexivity).
  assert (P : (0 < length (Decoder.useCounts r2))%nat) by (cbn; lia).
  split; [split; [exact W|split; [exact R|split; [exact F|split; [exact I|exact P]]]]|].
  exact (click_on_page_reports_the_page [Scenario.anonRegion; r2] r2 0 W R F I P).
Defined.

Section TileFacts.

Import Decoder Classify Mosaic Layout.

Lemma pageColor_not_gap_or_separator (flags useCount : Z) :
  pageColor flags useCount <> colorCyan /\
  pageColor flags useCount <> colorBlack.
Proof.
  unfold pageColor.
  destruct (negb (flagBit flags 31)); [split; discriminate|].
  destruct (flagBit flags KPF_MMAP && negb (flagBit flags KPF_ANON)).
  - destruct (1 <? useCount); split; discriminate.
  - destruct (flagBit flags KPF_THP); [split; discriminate|].
    destruct (useCount =? 1); [split; discriminate|].
    destruct (1 <? useCount); [split; discriminate|].
    destruct (flagBit flags KPF_NOPAGE); split; discriminate.
Qed.

Lemma addressAtCell_cases (m_largeRegions : list (Z * Z)) (row column : Z) :
  addressAtCell m_largeRegions row column = 0 \/
  exists e off,
    In e m_largeRegions /\ 0 <= off < 2 ^ 32 /\
    addressAtCell m_largeRegions row column = wrap64 (snd e + off).
Proof.
  unfold addressAtCell.
  destruct (_ =? 0)%nat; [left; reflexivity|].
  destruct (nth_error m_largeRegions _) as [[firstRow base]|] eqn:Hn;
    [|left; reflexivity].
  right. eexists (firstRow, base), _. split; [|split; [|reflexivity]].
  - eapply nth_error_In. exact Hn.
  - unfold wrap32. apply Z.mod_pos_bound. lia.
Qed.

Lemma rowIndexGroups_in (gs : list (list MappedRegion)) :
  forall R e, In e (rowIndexGroups R gs) ->
  exists g, In g gs /\ snd e = groupStart g.
Proof.
  induction gs as [|g gs IH]; intros R e Hin; [destruct Hin|].
  cbn [rowIndexGroups] in Hin. destruct Hin as [<-|Hin].
  - exists g. split; [left; reflexivity|reflexivity].
  - destruct (IH _ _ Hin) as (g' & Hg' & He).
    exists g'. split; [right; exact Hg'|exact He].
Qed.

Lemma sorted_first_least (l : list MappedRegion) (r1 x : MappedRegion) :
  sortedRegions (r1 :: l) -> In x (r1 :: l) -> start r1 <= start x.
Proof.
  intros Hs [<-|Hin]; [lia|].
  pose proof (sorted_after _ _ Hs) as Ha. destruct Hs as (Hr & _ & _).
  rewrite Forall_forall in Ha. specialize (Ha x Hin). lia.
Qed.

(** [printPageFlagsAtAddr] on sorted regions with pages, for an address that
    is 0 or not below the first region: it returns, and what it reports is
    the page that holds the address. *)
Lemma printPageFlagsAtAddr_total (regions : list MappedRegion) (addr : Z) :
  sortedRegions regions -> Forall pagedRegion regions ->
  Forall (fun x => end_ x < 2 ^ 64) regions ->
  (addr = 0 \/ exists x, In x regions /\ start x <= addr) ->
  exists signals,
    printPageFlagsAtAddr regions addr = Ok signals /\
    (signals = [] \/
     exists r p flags useCount,
       In r regions /\
       nth_error (combinedFlags r) p = Some flags /\
       nth_error (useCounts r) p = Some useCount /\
       pageAddress r p <= addr < pageAddress r p + pageSize /\
       signals = [showFlags flags; showPageInfo addr useCount (backingFile r)]).
Proof.
  intros Hs Hp H64 Haddr.
  unfold printPageFlagsAtAddr, printPageFlagsAtAddrIn.
  destruct (Z.eqb_spec addr 0) as [H0|H0].
  { exists []. split; [reflexivity|left; reflexivity]. }
  destruct Haddr as [Hz|(x0 & Hx0 & Hge)]; [contradiction|].
  destruct (sorted_partition regions addr Hs) as (before & after & Hreg & Hb & Ha).
  rewrite Hreg in *. rewrite upper_bound_regions by assumption.
  destruct after as [|r after'].
  - rewrite app_nil_r.
    assert (Hnone : nth_error before (length before) = None)
      by (apply nth_error_None; lia).
    rewrite Hnone. exists []. split; [reflexivity|left; reflexivity].
  - rewrite nth_error_middle.
    inversion Ha as [|? ? Hlt _]; subst.
    destruct (Z.ltb_spec addr (start r)) as [Hbelow|Hinside].
    + destruct before as [|b before'].
      * exfalso. cbn [app] in *.
        pose proof (sorted_first_least _ _ _ Hs Hx0). lia.
      * cbn [length Nat.eqb negb assertion bind].
        exists []. split; [reflexivity|left; reflexivity].
    + assert (Hin : In r (before ++ r :: after'))
        by (apply in_or_app; right; left; reflexivity).
      assert (Hpr : pagedRegion r) by (rewrite Forall_forall in Hp; now apply Hp).
      destruct Hpr as (Hs0 & _ & _ & Hsame & Hend).
      assert (H64r : end_ r < 2 ^ 64)
        by (rewrite Forall_forall in H64; now apply H64).
      rewrite wrap64_small by lia.
      set (q := (addr - start r) / pageSize).
      assert (Hq : 0 <= q /\ pageSize * q <= addr - start r < pageSize * q + pageSize).
      { subst q. unfold pageSize in *.
        pose proof (Z.div_mod (addr - start r) 4096 ltac:(lia)).
        pose proof (Z.mod_pos_bound (addr - start r) 4096 ltac:(lia)).
        split; [apply Z.div_pos; lia|lia]. }
      assert (Hqn : (Z.to_nat q < length (useCounts r))%nat)
        by (unfold pageSize in *; lia).
      destruct (pageColors_nth r Hsame (Z.to_nat q) Hqn) as (f & u & Hf & Hu & _).
      rewrite Hf, Hu. cbn [of_option bind].
      eexists. split; [reflexivity|]. right.
      exists r, (Z.to_nat q), f, u.
      split; [exact Hin|]. split; [exact Hf|]. split; [exact Hu|].
      split; [|reflexivity].
      unfold pageAddress. rewrite Z2Nat.id by lia. lia.
Qed.

End TileFacts.

(** What the tiles show.  After [updatePageInfo] on well-formed regions
    whose large regions span at most [2^32] bytes each, every painted tile
    is a separator tile (black), a gap tile (the gap colour) or the tile of
    a page: it has the colour of the flag word and use count of a page of
    some region, and the reverse lookup on its cell gives the address of
    that page.  A page is never painted in the colour of the gaps or of the
    separators, so the three kinds of tiles cannot be mistaken for each
    other. *)
Theorem tiles_are_pages_gaps_or_separators
    (regions : list Decoder.MappedRegion) :
  Layout.wellFormed regions ->
  Mosaic.rowCount_spec (Mosaic.computeLargeRegions regions) < 2 ^ 32 ->
  Forall (fun lr => snd lr - fst lr <= 2 ^ 32) (Mosaic.computeLargeRegions regions) ->
  exists w,
    Mosaic.updatePageInfo regions = Ok w /\
    (forall column row color,
       In (column, row, color) (Mosaic.imageTiles w) ->
       color = Classify.colorBlack \/ color = Classify.colorCyan \/
       exists r p flags useCount,
         In r regions /\
         nth_error (Decoder.combinedFlags r) p = Some flags /\
         nth_error (Decoder.useCounts r) p = Some useCount /\
         color = Classify.pageColor flags useCount /\
         Mosaic.addressAtCell (Mosaic.m_largeRegions w) row column
         = Layout.pageAddress r p) /\
    (forall flags useCount,
       Classify.pageColor flags useCount <> Classify.colorCyan /\
       Classify.pageColor flags useCount <> Classify.colorBlack).
Proof.
  intros Hwf Hrows H32.
  destruct (wellFormed_runs regions Hwf) as (Hlr & Hcat & Hsep & Hruns).
  eexists. split; [exact (updatePageInfo_closed regions Hwf Hrows)|].
  cbn [Mosaic.imageTiles Mosaic.m_largeRegions].
  split; [|exact pageColor_not_gap_or_separator].
  intros column row color Hin.
  destruct (layoutGroups_inv _ _ _ Hin) as [Hb|(gsB & g & gsA & Hgs & Hin0)].
  { left. exact Hb. }
  right.
  assert (Hg : In g (Layout.groupsOf regions)).
  { rewrite Hgs. apply in_or_app. right. left. reflexivity. }
  pose proof Hruns as Hruns'. rewrite Forall_forall in Hruns'.
  destruct (Hruns' g Hg) as (r0 & rest & -> & Hch & Hpg & H64).
  apply In_placeTiles in Hin0. cbn [fst snd] in Hin0.
  destruct Hin0 as (i & Hi & Hcell).
  cbn [Layout.groupCells] in Hi.
  destruct (nth_error_padded _ _ _ Hi) as [Hc|Hi']; [left; exact Hc|].
  destruct (groupColors_inv rest r0 i color Hch Hpg Hi')
    as [Hc|(r & p & Hrg & Hpc & Haddr)]; [left; exact Hc|].
  right.
  assert (Hpr : Layout.pagedRegion r)
    by (rewrite Forall_forall in Hpg; now apply Hpg).
  pose proof Hpr as (H0 & Ha & Hpos & Hsame & Hend).
  assert (Hp : (p < length (Decoder.useCounts r))%nat).
  { rewrite <- (length_pageColors r Hsame). apply nth_error_Some. congruence. }
  destruct (pageColors_nth r Hsame p Hp) as (f & u & Hf & Hu & Hc).
  exists r, p, f, u.
  split.
  { rewrite <- Hcat. apply in_concat. exists (r0 :: rest). auto. }
  split; [exact Hf|]. split; [exact Hu|].
  split; [congruence|].
  assert (Hspan : snd (Layout.span (r0 :: rest)) - fst (Layout.span (r0 :: rest))
                  <= 2 ^ 32).
  { rewrite Forall_forall in H32. apply H32. rewrite Hlr.
    apply in_map. exact Hg. }
  assert (Hoff : (i < length (Layout.groupColors r0 rest))%nat).
  { apply nth_error_Some. congruence. }
  pose proof (addressAtCell_page gsB gsA r0 r rest p i Hch Hpg H64 Hspan Hrg
                Hp Hoff Haddr) as Hat.
  rewrite <- Hgs, <- Hcell in Hat. exact Hat.
Qed.

Lemma tiles_are_pages_gaps_or_separators_witness :
  (Layout.wellFormed [Scenario.anonRegion] /\
   Mosaic.rowCount_spec (Mosaic.computeLargeRegions [Scenario.anonRegion])
     < 2 ^ 32 /\
   Forall (fun lr => snd lr - fst lr <= 2 ^ 32)
          (Mosaic.computeLargeRegions [Scenario.anonRegion])) /\
  exists w,
    Mosaic.updatePageInfo [Scenario.anonRegion] = Ok w /\
    (forall column row color,
       In (column, row, color) (Mosaic.imageTiles w) ->
       color = Classify.colorBlack \/ color = Classify.colorCyan \/
       exists r p flags useCount,
         In r [Scenario.anonRegion] /\
         nth_error (Decoder.combinedFlags r) p = Some flags /\
         nth_error (Decoder.useCounts r) p = Some useCount /\
         color = Classify.pageColor flags useCount /\
         Mosaic.addressAtCell (Mosaic.m_largeRegions w) row column
         = Layout.pageAddress r p) /\
    (forall flags useCount,
       Classify.pageColor flags useCount <> Classify.colorCyan /\
       Classify.pageColor flags useCount <> Classify.colorBlack).
Proof.
  assert (W : Layout.wellFormed [Scenario.anonRegion]).
  { unfold Layout.wellFormed. split; [cbn; lia|].
    split; constructor; try constructor; closed_prop. }
  assert (R : Mosaic.rowCount_spec (Mosaic.computeLargeRegions [Scenario.anonRegion])
              < 2 ^ 32) by closed_prop.
  assert (F : Forall (fun lr => snd lr - fst lr <= 2 ^ 32)
                (Mosaic.computeLargeRegions [Scenario.anonRegion]))
    by closed_prop.
  split; [split; [exact W|split; [exact R|exact F]]|].
  exact (tiles_are_pages_gaps_or_separators [Scenario.anonRegion] W R F).
Defined.

(** No click can make the viewer fail.  After [updatePageInfo] on
    well-formed regions that end at least [2^32] bytes below [2^64],
    [printPageFlagsAtPos] returns for every widget position, inside or
    outside the picture: no assertion fails and no vector is read out of
    range.  It emits nothing, or the flag word and the use count of the
    page that holds the address it computed. *)
Theorem printPageFlagsAtPos_never_fails
    (regions : list Decoder.MappedRegion) :
  Layout.wellFormed regions ->
  Mosaic.rowCount_spec (Mosaic.computeLargeRegions regions) < 2 ^ 32 ->
  Forall (fun r => Decoder.end_ r + 2 ^ 32 <= 2 ^ 64) regions ->
  exists w,
    Mosaic.updatePageInfo regions = Ok w /\
    forall widgetPos,
    exists signals,
      Mosaic.printPageFlagsAtPos w widgetPos = Ok signals /\
      (signals = [] \/
       exists r p flags useCount,
         In r regions /\
         nth_error (Decoder.combinedFlags r) p = Some flags /\
         nth_error (Decoder.useCounts r) p = Some useCount /\
         Layout.pageAddress r p
           <= Mosaic.addressAtPos (Mosaic.m_largeRegions w) widgetPos
           < Layout.pageAddress r p + pageSize /\
         signals = [Mosaic.showFlags flags;
                    Mosaic.showPageInfo
                      (Mosaic.addressAtPos (Mosaic.m_largeRegions w) widgetPos)
                      useCount (Decoder.backingFile r)]).
Proof.
  intros Hwf Hrows Htop.
  destruct (wellFormed_runs regions Hwf) as (Hlr & Hcat & Hsep & Hruns).
  eexists. split; [exact (updatePageInfo_closed regions Hwf Hrows)|].
  intros widgetPos.
  unfold Mosaic.printPageFlagsAtPos.
  cbn [Mosaic.m_regions Mosaic.m_largeRegions].
  destruct Hwf as (Hs & Hp & Hfit).
  assert (H64 : Forall (fun x => Decoder.end_ x < 2 ^ 64) regions).
  { rewrite Forall_forall in *. intros x Hx. specialize (Htop x Hx). lia. }
  apply printPageFlagsAtAddr_total; try assumption.
  unfold Mosaic.addressAtPos.
  destruct (addressAtCell_cases
              (Layout.rowIndexGroups 0 (Layout.groupsOf regions))
              (wrap32 (Z.max 0 (snd widgetPos)) / Mosaic.s_pixelsPerTile)
              (Mosaic.qBound 0 (Z.quot (fst widgetPos) Mosaic.s_pixelsPerTile)
                             Mosaic.s_columnCount))
    as [H0|(e & off & He & Hoff & Heq)]; [left; exact H0|].
  right. rewrite Heq.
  destruct (rowIndexGroups_in _ _ _ He) as (g & Hg & Hstart).
  pose proof Hruns as Hruns'. rewrite Forall_forall in Hruns'.
  destruct (Hruns' g Hg) as (r0 & rest & -> & Hch & Hpg & _).
  assert (Hr0 : In r0 regions).
  { rewrite <- Hcat. apply in_concat. exists (r0 :: rest).
    split; [exact Hg|left; reflexivity]. }
  exists r0. split; [exact Hr0|].
  cbn [Layout.groupStart] in Hstart. rewrite Hstart.
  inversion Hpg as [|? ? (H00 & _ & Hpos & _ & Hend) _]; subst.
  rewrite Forall_forall in Htop. specialize (Htop r0 Hr0).
  rewrite wrap64_small by (unfold pageSize in *; lia). lia.
Qed.

Lemma printPageFlagsAtPos_never_fails_witness :
  (Layout.wellFormed [Scenario.anonRegion] /\
   Mosaic.rowCount_spec (Mosaic.computeLargeRegions [Scenario.anonRegion])
     < 2 ^ 32 /\
   Forall (fun r => Decoder.end_ r + 2 ^ 32 <= 2 ^ 64) [Scenario.anonRegion]) /\
  exists w,
    Mosaic.updatePageInfo [Scenario.anonRegion] = Ok w /\
    exists signals,
      Mosaic.printPageFlagsAtPos w (-7, 123456) = Ok signals.
Proof.
  assert (W : Layout.wellFormed [Scenario.anonRegion]).
  { unfold Layout.wellFormed. split; [cbn; lia|].
    split; constructor; try constructor; closed_prop. }
  assert (R : Mosaic.rowCount_spec (Mosaic.computeLargeRegions [Scenario.anonRegion])
              < 2 ^ 32) by closed_prop.
  assert (F : Forall (fun r => Decoder.end_ r + 2 ^ 32 <= 2 ^ 64)
                [Scenario.anonRegion]) by closed_prop.
  split; [split; [exact W|split; [exact R|exact F]]|].
  destruct (printPageFlagsAtPos_never_fails [Scenario.anonRegion] W R F)
    as (w & Hw & Hall).
  exists w. split; [exact Hw|].
  destruct (Hall (-7, 123456)) as (signals & Hsig & _).
  exists signals. exact Hsig.
Defined.

(** * The pixels *)

Section PixelFacts.

Import Pixels.

Lemma length_store (l : list Z) :
  forall i v, length (store l i v) = length l.
Proof.
  induction l as [|a l IH]; intros i v; [reflexivity|].
  destruct i; cbn [store length]; [reflexivity|]. now rewrite IH.
Qed.

Lemma nth_error_store_eq (l : list Z) :
  forall i v, (i < length l)%nat -> nth_error (store l i v) i = Some v.
Proof.
  induction l as [|a l IH]; intros i v Hi; [cbn in Hi; lia|].
  destruct i; cbn [store nth_error]; [reflexivity|].
  apply IH. cbn [length] in Hi. lia.
Qed.

Lemma nth_error_store_neq (l : list Z) :
  forall i j v, i <> j -> nth_error (store l i v) j = nth_error l j.
Proof.
  induction l as [|a l IH]; intros i j v Hne; [reflexivity|].
  destruct i, j; cbn [store nth_error]; try reflexivity; try lia.
  apply IH. lia.
Qed.

Lemma opaque_value : opaque = 0xff000000.
Proof. reflexivity. Qed.

Lemma imageOk_bounds (img : Rgb32PixelAccess) (x y : Z) :
  imageOk img -> 0 <= x < m_width img -> 0 <= y < m_height img ->
  0 <= y * m_width img /\
  y * m_width img + x < m_width img * m_height img /\
  x < 2 ^ 31 /\ y < 2 ^ 31.
Proof.
  intros (Hw & Hh & Hlen & Hint) Hx Hy.
  assert (H1 : y * m_width img <= (m_height img - 1) * m_width img)
    by (apply Z.mul_le_mono_nonneg_r; lia).
  assert (H2 : 0 <= y * m_width img) by (apply Z.mul_nonneg_nonneg; lia).
  assert (H3 : m_width img <= m_width img * m_height img).
  { rewrite <- (Z.mul_1_r (m_width img)) at 1.
    apply Z.mul_le_mono_nonneg_l; lia. }
  assert (H4 : m_height img <= m_width img * m_height img).
  { rewrite <- (Z.mul_1_l (m_height img)) at 1.
    apply Z.mul_le_mono_nonneg_r; lia. }
  lia.
Qed.

Lemma pixelIndex_in (img : Rgb32PixelAccess) (x y : Z) :
  imageOk img -> 0 <= x < m_width img -> 0 <= y < m_height img ->
  pixelIndex img x y = Ok (Z.to_nat (y * m_width img + x)).
Proof.
  intros Hok Hx Hy.
  destruct (imageOk_bounds img x y Hok Hx Hy) as (H1 & H2 & H3 & H4).
  destruct Hok as (Hw & Hh & Hlen & Hint).
  unfold pixelIndex, is_int. cbv zeta. rewrite Hlen.
  destruct (Z.leb_spec (- 2 ^ 31) (y * m_width img)); [|lia].
  destruct (Z.ltb_spec (y * m_width img) (2 ^ 31)); [|lia].
  destruct (Z.leb_spec (- 2 ^ 31) (y * m_width img + x)); [|lia].
  destruct (Z.ltb_spec (y * m_width img + x) (2 ^ 31)); [|lia].
  destruct (Z.leb_spec 0 (y * m_width img + x)); [|lia].
  destruct (Z.ltb_spec (y * m_width img + x) (m_width img * m_height img));
    [|lia].
  reflexivity.
Qed.

Lemma index_injective (w x y x' y' : Z) :
  0 <= x < w -> 0 <= x' < w -> y * w + x = y' * w + x' -> x = x' /\ y = y'.
Proof.
  intros Hx Hx' Heq.
  assert (Hy : y = y').
  { destruct (Z.lt_trichotomy y y') as [Hlt|[He|Hgt]]; [|exact He|].
    - assert (y * w + w <= y' * w) by nia. lia.
    - assert (y' * w + w <= y * w) by nia. lia. }
  subst y'. lia.
Qed.

(** [setPixel] writes one pixel and leaves the others as they are. *)
Lemma setPixel_spec (img : Rgb32PixelAccess) (x y v : Z) :
  imageOk img -> 0 <= x < m_width img -> 0 <= y < m_height img ->
  exists img',
    setPixel img x y v = Ok img' /\
    m_width img' = m_width img /\ m_height img' = m_height img /\
    imageOk img' /\
    forall px py,
      0 <= px < m_width img -> 0 <= py < m_height img ->
      pixel img' px py
      = if (px =? x) && (py =? y) then Ok (Z.lor v opaque) else pixel img px py.
Proof.
  intros Hok Hx Hy.
  destruct (imageOk_bounds img x y Hok Hx Hy) as (H1 & H2 & H3 & H4).
  unfold setPixel. rewrite (pixelIndex_in img x y Hok Hx Hy). cbn [bind].
  eexists. split; [reflexivity|].
  cbn [m_width m_height m_buffer].
  split; [reflexivity|]. split; [reflexivity|].
  assert (Hok' : imageOk {| m_width := m_width img; m_height := m_height img;
                            m_buffer := store (m_buffer img)
                                          (Z.to_nat (y * m_width img + x))
                                          (Z.lor v opaque) |}).
  { destruct Hok as (Hw & Hh & Hlen & Hint).
    unfold imageOk. cbn [m_width m_height m_buffer].
    rewrite length_store. auto. }
  split; [exact Hok'|].
  intros px py Hpx Hpy.
  destruct (imageOk_bounds img px py Hok Hpx Hpy) as (P1 & P2 & P3 & P4).
  unfold pixel.
  rewrite (pixelIndex_in _ px py Hok') by assumption.
  rewrite (pixelIndex_in img px py Hok) by assumption.
  cbn [bind m_width m_buffer].
  destruct Hok as (Hw & Hh & Hlen & Hint).
  destruct (Z.eqb_spec px x) as [->|Hne]; cbn [andb].
  - destruct (Z.eqb_spec py y) as [->|Hne].
    + rewrite nth_error_store_eq by lia. reflexivity.
    + rewrite nth_error_store_neq; [reflexivity|].
      intros Heq. apply Z2Nat.inj in Heq; try lia.
      destruct (index_injective (m_width img) x y x py Hx Hx Heq). lia.
  - rewrite nth_error_store_neq; [reflexivity|].
    intros Heq. apply Z2Nat.inj in Heq; try lia.
    destruct (index_injective (m_width img) x y px py Hx Hpx Heq). lia.
Qed.

End PixelFacts.

(** [setPixel] and [pixel] of [Rgb32PixelAccess].  On an image buffer of
    [m_width * m_height] pixels (less than [2^31], so that the [int] index
    [y * m_width + x] does not overflow), [setPixel] at a position inside
    the image stores the value with the alpha byte forced to [0xff]:
    [pixel] at the same position reads it back, every other pixel and the
    size of the image are unchanged, and the stored word is opaque whatever
    the value was. *)
Theorem setPixel_then_pixel (img : Pixels.Rgb32PixelAccess) (x y v : Z) :
  Pixels.imageOk img ->
  0 <= x < Pixels.m_width img -> 0 <= y < Pixels.m_height img ->
  exists img',
    Pixels.setPixel img x y v = Ok img' /\
    Pixels.m_width img' = Pixels.m_width img /\
    Pixels.m_height img' = Pixels.m_height img /\
    length (Pixels.m_buffer img') = length (Pixels.m_buffer img) /\
    Pixels.pixel img' x y = Ok (Z.lor v 0xff000000) /\
    Z.land (Z.lor v 0xff000000) 0xff000000 = 0xff000000 /\
    forall px py,
      0 <= px < Pixels.m_width img -> 0 <= py < Pixels.m_height img ->
      (px, py) <> (x, y) ->
      Pixels.pixel img' px py = Pixels.pixel img px py.
Proof.
  intros Hok Hx Hy.
  destruct (setPixel_spec img x y v Hok Hx Hy)
    as (img' & Hset & Hw & Hh & Hok' & Hpix).
  exists img'. split; [exact Hset|]. split; [exact Hw|]. split; [exact Hh|].
  split.
  { destruct Hok as (_ & _ & Hlen & _). destruct Hok' as (_ & _ & Hlen' & _).
    rewrite Hw, Hh in Hlen'. lia. }
  split.
  { rewrite (Hpix x y Hx Hy), !Z.eqb_refl. reflexivity. }
  split.
  { apply Z.bits_inj'. intros n Hn.
    rewrite Z.land_spec, Z.lor_spec.
    destruct (Z.testbit v n), (Z.testbit 0xff000000 n); reflexivity. }
  intros px py Hpx Hpy Hne.
  rewrite (Hpix px py Hpx Hpy).
  destruct (Z.eqb_spec px x) as [->|]; [|reflexivity].
  destruct (Z.eqb_spec py y) as [->|]; [|reflexivity].
  contradiction.
Qed.

Section TileFill.

Import Pixels.

Variable cache : list Z.
Variable v : Z.
Hypothesis firstEntry : nth_error cache 0 = Some v.

Lemma to_int32_small (z : Z) : 0 <= z < 2 ^ 31 -> to_int32 z = z.
Proof.
  intros H. unfold to_int32. destruct (Z.ltb_spec z (2 ^ 31)); [reflexivity|lia].
Qed.

(** The inner loop fills a column of the tile. *)
Lemma paintTile_column_spec (x : Z) (n : nat) :
  forall (fuel : nat) (img : Rgb32PixelAccess) (y : Z),
  imageOk img -> 0 <= x < m_width img -> 0 <= y ->
  y + Z.of_nat n <= m_height img -> (n <= fuel)%nat ->
  exists img',
    paintTile_column fuel img x y (y + Z.of_nat n) cache 0 = Ok img' /\
    m_width img' = m_width img /\ m_height img' = m_height img /\
    imageOk img' /\
    forall px py,
      0 <= px < m_width img -> 0 <= py < m_height img ->
      pixel img' px py
      = if (px =? x) && (y <=? py) && (py <? y + Z.of_nat n)
        then Ok (Z.lor v opaque) else pixel img px py.
Proof.
  induction n as [|n IH]; intros fuel img y Hok Hx Hy Hend Hfuel.
  - exists img. rewrite Z.add_0_r.
    split.
    { destruct fuel; cbn [paintTile_column]; now rewrite Z.ltb_irrefl. }
    split; [reflexivity|]. split; [reflexivity|]. split; [exact Hok|].
    intros px py _ _.
    destruct (Z.leb_spec y py), (Z.ltb_spec py y); try lia;
      now rewrite ?andb_false_r.
  - destruct fuel as [|fuel]; [lia|].
    cbn [paintTile_column].
    destruct (Z.ltb_spec y (y + Z.of_nat (S n))); [|lia].
    change (Z.to_nat 0) with 0%nat. rewrite firstEntry. cbn [of_option bind].
    assert (Hyin : 0 <= y < m_height img) by lia.
    destruct (imageOk_bounds img x y Hok Hx Hyin) as (_ & _ & Hx31 & Hy31).
    rewrite !to_int32_small by lia.
    destruct (setPixel_spec img x y v Hok Hx Hyin)
      as (img1 & Hset & Hw1 & Hh1 & Hok1 & Hpix1).
    rewrite Hset. cbn [bind].
    rewrite wrap32_small by lia.
    replace (y + Z.of_nat (S n)) with (y + 1 + Z.of_nat n) by lia.
    destruct (IH fuel img1 (y + 1)) as (img' & Hrun & Hw & Hh & Hok' & Hpix);
      try assumption; try lia.
    exists img'. split; [exact Hrun|].
    split; [congruence|]. split; [congruence|]. split; [exact Hok'|].
    intros px py Hpx Hpy.
    rewrite Hpix by lia. rewrite Hpix1 by lia.
    destruct (Z.eqb_spec px x); cbn [andb]; [|reflexivity].
    destruct (Z.eqb_spec py y), (Z.leb_spec (y + 1) py), (Z.leb_spec y py),
      (Z.ltb_spec py (y + 1 + Z.of_nat n)); cbn [andb]; try reflexivity; lia.
Qed.

(** The outer loop fills the columns of the tile one after the other. *)
Lemma paintTile_columns_spec (yStart : Z) (m n : nat) :
  forall (fuel : nat) (img : Rgb32PixelAccess) (x : Z),
  imageOk img -> 0 <= x -> x + Z.of_nat n <= m_width img ->
  m_width img < 2 ^ 32 ->
  0 <= yStart -> yStart + Z.of_nat m <= m_height img -> (n <= fuel)%nat ->
  exists img',
    paintTile_columns fuel img x (x + Z.of_nat n) yStart
                      (yStart + Z.of_nat m) cache 0 = Ok img' /\
    m_width img' = m_width img /\ m_height img' = m_height img /\
    imageOk img' /\
    forall px py,
      0 <= px < m_width img -> 0 <= py < m_height img ->
      pixel img' px py
      = if (x <=? px) && (px <? x + Z.of_nat n)
           && (yStart <=? py) && (py <? yStart + Z.of_nat m)
        then Ok (Z.lor v opaque) else pixel img px py.
Proof.
  induction n as [|n IH]; intros fuel img x Hok Hx Hend Hw32 Hy Hyend Hfuel.
  - exists img. rewrite Z.add_0_r.
    split.
    { destruct fuel; cbn [paintTile_columns]; now rewrite Z.ltb_irrefl. }
    split; [reflexivity|]. split; [reflexivity|]. split; [exact Hok|].
    intros px py _ _.
    destruct (Z.leb_spec x px), (Z.ltb_spec px x); try lia; reflexivity.
  - destruct fuel as [|fuel]; [lia|].
    cbn [paintTile_columns].
    destruct (Z.ltb_spec x (x + Z.of_nat (S n))); [|lia].
    destruct (paintTile_column_spec x m (Z.to_nat (yStart + Z.of_nat m)) img yStart)
      as (img1 & Hcol & Hw1 & Hh1 & Hok1 & Hpix1); try assumption; try lia.
    rewrite Hcol. cbn [bind].
    rewrite wrap32_small by lia.
    replace (x + Z.of_nat (S n)) with (x + 1 + Z.of_nat n) by lia.
    destruct (IH fuel img1 (x + 1)) as (img' & Hrun & Hw' & Hh' & Hok' & Hpix);
      try assumption; try lia.
    exists img'. split; [exact Hrun|].
    split; [congruence|]. split; [congruence|]. split; [exact Hok'|].
    intros px py Hpx Hpy.
    rewrite Hpix by lia. rewrite Hpix1 by lia.
    destruct (Z.eqb_spec px x), (Z.leb_spec (x + 1) px), (Z.leb_spec x px),
      (Z.ltb_spec px (x + 1 + Z.of_nat n)); cbn [andb]; try reflexivity;
      try lia.
    all: destruct (Z.leb_spec yStart py), (Z.ltb_spec py (yStart + Z.of_nat m));
      cbn [andb]; reflexivity.
Qed.

End TileFill.

Section CacheFacts.

Import Pixels.

Variable QColor : Type.
Variable rgb : QColor -> Z.
Variable darker : QColor -> Z -> QColor.

Lemma updateColors_loop_keeps (n : nat) :
  forall (i : nat) (c : QColor) (cache : list Z) (j : nat),
  (j < i)%nat ->
  nth_error (updateColors_loop QColor rgb darker n i c cache) j
  = nth_error cache j.
Proof.
  induction n as [|n IH]; intros i c cache j Hj; [reflexivity|].
  cbn [updateColors_loop]. rewrite IH by lia.
  apply nth_error_store_neq. lia.
Qed.

Lemma updateColors_loop_first (n : nat) (c : QColor) (cache : list Z) :
  (0 < length cache)%nat ->
  nth_error (updateColors_loop QColor rgb darker (S n) 0 c cache) 0
  = Some (rgb c).
Proof.
  intros Hlen. cbn [updateColors_loop].
  rewrite updateColors_loop_keeps by lia.
  now apply nth_error_store_eq.
Qed.

(** The memo: after [maybeUpdateColors] the first entry of the cache is the
    [rgb()] of the colour asked for, whether the cache was refilled or
    not. *)
Lemma maybeUpdateColors_ok (cc : ColorCache) (color : QColor) :
  cacheOk cc ->
  cacheOk (maybeUpdateColors QColor rgb darker cc color) /\
  m_cachedColor (maybeUpdateColors QColor rgb darker cc color) = rgb color.
Proof.
  intros Hok. unfold maybeUpdateColors.
  destruct (Z.eqb_spec (rgb color) (m_cachedColor cc)) as [He|Hne].
  - split; [exact Hok|]. now rewrite He.
  - unfold cacheOk. cbn [m_colorCache m_cachedColor]. split; [|reflexivity].
    change (Z.to_nat (Mosaic.s_pixelsPerTile * Mosaic.s_pixelsPerTile))
      with 16%nat.
    apply updateColors_loop_first.
    unfold cacheOk in Hok. destruct (m_colorCache cc); [discriminate|].
    cbn [length]. lia.
Qed.

Lemma paintTile_spec (cc : ColorCache) (img : Rgb32PixelAccess)
    (x y tileSize : Z) (color : QColor) :
  cacheOk cc -> imageOk img ->
  0 <= x -> 0 <= y -> 0 < tileSize ->
  (x + 1) * tileSize <= m_width img -> (y + 1) * tileSize <= m_height img ->
  exists cc' img',
    paintTile QColor rgb darker cc img x y tileSize color = Ok (cc', img') /\
    cacheOk cc' /\ m_cachedColor cc' = rgb color /\
    m_width img' = m_width img /\ m_height img' = m_height img /\
    imageOk img' /\
    forall px py,
      0 <= px < m_width img -> 0 <= py < m_height img ->
      pixel img' px py
      = if (x * tileSize <=? px) && (px <? (x + 1) * tileSize)
           && (y * tileSize <=? py) && (py <? (y + 1) * tileSize)
        then Ok (Z.lor (rgb color) opaque) else pixel img px py.
Proof.
  intros Hcc Hok Hx Hy Ht Hxe Hye.
  destruct (maybeUpdateColors_ok cc color Hcc) as [Hcc1 Hrgb].
  unfold cacheOk in Hcc1. rewrite Hrgb in Hcc1.
  pose proof Hok as (Hw & Hh & Hlen & Hint).
  assert (Hh1 : 1 <= m_height img) by nia.
  assert (Hw31 : m_width img < 2 ^ 31).
  { assert (m_width img <= m_width img * m_height img) by nia. lia. }
  assert (Hh31 : m_height img < 2 ^ 31).
  { assert (m_height img <= m_width img * m_height img) by nia. lia. }
  assert (Hx0 : 0 <= x * tileSize) by nia.
  assert (Hy0 : 0 <= y * tileSize) by nia.
  assert (Hx1 : x + 1 <= (x + 1) * tileSize) by nia.
  assert (Hy1 : y + 1 <= (y + 1) * tileSize) by nia.
  unfold paintTile. cbv zeta.
  rewrite (wrap32_small (x + 1)) by lia.
  rewrite (wrap32_small (y + 1)) by lia.
  rewrite (wrap32_small (x * tileSize)) by nia.
  rewrite (wrap32_small (y * tileSize)) by nia.
  rewrite (wrap32_small ((x + 1) * tileSize)) by lia.
  rewrite (wrap32_small ((y + 1) * tileSize)) by lia.
  replace ((x + 1) * tileSize) with (x * tileSize + Z.of_nat (Z.to_nat tileSize))
    by lia.
  replace ((y + 1) * tileSize) with (y * tileSize + Z.of_nat (Z.to_nat tileSize))
    by lia.
  destruct (paintTile_columns_spec _ _ Hcc1 (y * tileSize) (Z.to_nat tileSize)
              (Z.to_nat tileSize)
              (Z.to_nat (x * tileSize + Z.of_nat (Z.to_nat tileSize)))
              img (x * tileSize))
    as (img' & Hrun & Hw' & Hh' & Hok' & Hpix); try assumption; try lia.
  rewrite Hrun. cbn [bind].
  eexists _, img'. split; [reflexivity|].
  split; [unfold cacheOk; now rewrite Hrgb|].
  split; [exact Hrgb|]. split; [exact Hw'|]. split; [exact Hh'|].
  split; [exact Hok'|]. exact Hpix.
Qed.

End CacheFacts.

(** [ColorCache::paintTile] fills the tile and nothing else.  For a cache
    as the constructor or an earlier call left it, and a tile that lies
    inside the image, the call returns; the pixels of the square of
    [tileSize x tileSize] pixels at tile position [(x, y)] read back as the
    [rgb()] of the colour with the alpha byte [0xff], every pixel outside
    the square keeps its value, and the size of the image is unchanged.  The
    darker shades that [maybeUpdateColors] computes never reach the image,
    because [colorIndex] stays 0; and a memo hit paints the same as a
    refill.  This holds whatever [QColor::rgb] and [QColor::darker]
    compute. *)
Theorem paintTile_fills_the_tile (QColor : Type) (rgb : QColor -> Z)
    (darker : QColor -> Z -> QColor)
    (cc : Pixels.ColorCache) (img : Pixels.Rgb32PixelAccess)
    (x y tileSize : Z) (color : QColor) :
  Pixels.cacheOk cc -> Pixels.imageOk img ->
  0 <= x -> 0 <= y -> 0 < tileSize ->
  (x + 1) * tileSize <= Pixels.m_width img ->
  (y + 1) * tileSize <= Pixels.m_height img ->
  Pixels.cacheOk Pixels.newColorCache /\
  exists cc' img',
    Pixels.paintTile QColor rgb darker cc img x y tileSize color = Ok (cc', img') /\
    Pixels.cacheOk cc' /\
    Pixels.m_width img' = Pixels.m_width img /\
    Pixels.m_height img' = Pixels.m_height img /\
    length (Pixels.m_buffer img') = length (Pixels.m_buffer img) /\
    forall px py,
      0 <= px < Pixels.m_width img -> 0 <= py < Pixels.m_height img ->
      Pixels.pixel img' px py
      = if (x * tileSize <=? px) && (px <? (x + 1) * tileSize)
           && (y * tileSize <=? py) && (py <? (y + 1) * tileSize)
        then Ok (Z.lor (rgb color) 0xff000000) else Pixels.pixel img px py.
Proof.
  intros Hcc Hok Hx Hy Ht Hxe Hye.
  split; [reflexivity|].
  destruct (paintTile_spec QColor rgb darker cc img x y tileSize color
              Hcc Hok Hx Hy Ht Hxe Hye)
    as (cc' & img' & Hrun & Hcc' & _ & Hw & Hh & Hok' & Hpix).
  exists cc', img'. split; [exact Hrun|]. split; [exact Hcc'|].
  split; [exact Hw|]. split; [exact Hh|]. split; [|exact Hpix].
  destruct Hok as (_ & _ & Hlen & _). destruct Hok' as (_ & _ & Hlen' & _).
  rewrite Hw, Hh in Hlen'. lia.
Qed.

Section RenderFacts.

Import Pixels.

Variable QColor : Type.
Variable rgb : QColor -> Z.
Variable darker : QColor -> Z -> QColor.
Variable colorOf : Classify.QColor -> QColor.

Lemma tile_of_pixel (c p : Z) : 4 * c <= p < 4 * c + 4 <-> p / 4 = c.
Proof.
  pose proof (Z.div_mod p 4 ltac:(lia)). pose proof (Z.mod_pos_bound p 4 ltac:(lia)).
  split; intros Hc; lia.
Qed.

(** Painting a list of tiles that lie inside the image, no two on the same
    cell: a pixel shows the colour of the tile of its cell, and keeps its
    value when there is no tile for its cell. *)
Lemma paintTiles_spec (rows : Z) (tiles : list Mosaic.tile) :
  forall (cc : ColorCache) (img : Rgb32PixelAccess),
  cacheOk cc -> imageOk img ->
  m_width img = 2048 -> m_height img = 4 * rows ->
  (forall t, In t tiles -> 0 <= fst (fst t) < 512 /\ 0 <= snd (fst t) < rows) ->
  NoDup (map fst tiles) ->
  exists cc' img',
    paintTiles QColor rgb darker colorOf cc img tiles = Ok (cc', img') /\
    cacheOk cc' /\ m_width img' = 2048 /\ m_height img' = 4 * rows /\
    imageOk img' /\
    forall px py,
      0 <= px < 2048 -> 0 <= py < 4 * rows ->
      (forall color, In (px / 4, py / 4, color) tiles ->
         pixel img' px py = Ok (Z.lor (rgb (colorOf color)) opaque)) /\
      ((forall color, ~ In (px / 4, py / 4, color) tiles) ->
         pixel img' px py = pixel img px py).
Proof.
  induction tiles as [|[[c r] col] tiles IH];
    intros cc img Hcc Hok Hw Hh Hin Hnd.
  - exists cc, img. split; [reflexivity|].
    repeat (split; [assumption|]).
    intros px py _ _. split; [intros color []|reflexivity].
  - cbn [paintTiles].
    destruct (Hin (c, r, col) (or_introl eq_refl)) as [Hc Hr]. cbn [fst snd] in Hc, Hr.
    destruct (paintTile_spec QColor rgb darker cc img c r Mosaic.s_pixelsPerTile
                (colorOf col) Hcc Hok)
      as (cc1 & img1 & Hrun & Hcc1 & _ & Hw1 & Hh1 & Hok1 & Hpix1);
      try (unfold Mosaic.s_pixelsPerTile; lia).
    rewrite Hrun. cbn [bind fst snd].
    inversion Hnd as [|? ? Hnot Hnd']; subst.
    destruct (IH cc1 img1) as (cc' & img' & Hrun' & Hcc' & Hw' & Hh' & Hok' & Hpix);
      try assumption; try congruence.
    { intros t Ht. apply Hin. right. exact Ht. }
    exists cc', img'. split; [exact Hrun'|].
    repeat (split; [assumption|]).
    intros px py Hpx Hpy.
    destruct (Hpix px py Hpx Hpy) as [Hone Hnone].
    assert (Hhead : px / 4 = c -> py / 4 = r ->
                    pixel img' px py = Ok (Z.lor (rgb (colorOf col)) opaque)).
    { intros Hpc Hpr.
      rewrite Hnone.
      - rewrite Hpix1 by lia. unfold Mosaic.s_pixelsPerTile.
        apply tile_of_pixel in Hpc. apply tile_of_pixel in Hpr.
        destruct (Z.leb_spec (c * 4) px), (Z.ltb_spec px ((c + 1) * 4)),
          (Z.leb_spec (r * 4) py), (Z.ltb_spec py ((r + 1) * 4));
          try lia. reflexivity.
      - intros color Hcol. apply Hnot.
        apply (in_map fst) in Hcol. cbn [fst] in Hcol. now rewrite Hpc, Hpr in Hcol. }
    split.
    + intros color [Heq|Hcol].
      * injection Heq as Hpc Hpr <-. now apply Hhead.
      * now apply Hone.
    + intros Hno.
      rewrite Hnone by (intros color Hcol; apply (Hno color); right; exact Hcol).
      rewrite Hpix1 by lia. unfold Mosaic.s_pixelsPerTile.
      destruct (Z.leb_spec (c * 4) px), (Z.ltb_spec px ((c + 1) * 4)),
        (Z.leb_spec (r * 4) py), (Z.ltb_spec py ((r + 1) * 4));
        cbn [andb]; try reflexivity.
      exfalso. apply (Hno col). left.
      assert (Hpc : px / 4 = c) by (apply tile_of_pixel; lia).
      assert (Hpr : py / 4 = r) by (apply tile_of_pixel; lia).
      now rewrite Hpc, Hpr.
Qed.

(** Painting the tiles of a layout into an image of its size: no write
    leaves the buffer, and every pixel ends with the colour of the tile of
    its cell. *)
Lemma paintTiles_layout (gs : list (list Decoder.MappedRegion))
    (cc : ColorCache) (buffer : list Z) :
  cacheOk cc ->
  Z.of_nat (length buffer) = 2048 * (4 * Layout.rowsOfGroups gs) ->
  Z.of_nat (length buffer) < 2 ^ 31 ->
  exists cc' img',
    paintTiles QColor rgb darker colorOf cc
      {| m_width := 2048; m_height := 4 * Layout.rowsOfGroups gs;
         m_buffer := buffer |}
      (Layout.layoutGroups 0 gs) = Ok (cc', img') /\
    m_width img' = 2048 /\
    m_height img' = 4 * Layout.rowsOfGroups gs /\
    length (m_buffer img') = length buffer /\
    forall px py,
      0 <= px < 2048 -> 0 <= py < 4 * Layout.rowsOfGroups gs ->
      exists color,
        In (px / 4, py / 4, color) (Layout.layoutGroups 0 gs) /\
        pixel img' px py = Ok (Z.lor (rgb (colorOf color)) 0xff000000).
Proof.
  intros Hcc Hlen Hint.
  pose proof (map_fst_layoutGroups gs 0) as Hm.
  change (Z.of_nat 0) with 0 in Hm.
  pose proof (rowsOfGroups_nonneg gs) as Hnn.
  assert (Hcells : map fst (Layout.layoutGroups 0 gs)
                   = Layout.rowMajor (Layout.rowsOfGroups gs)).
  { rewrite Hm. unfold Layout.rowMajor, Mosaic.s_columnCount.
    do 2 f_equal. lia. }
  assert (Hok : imageOk
                  {| m_width := 2048;
                     m_height := 4 * Layout.rowsOfGroups gs;
                     m_buffer := buffer |}).
  { unfold imageOk. cbn [m_width m_height m_buffer]. lia. }
  destruct (paintTiles_spec (Layout.rowsOfGroups gs)
              (Layout.layoutGroups 0 gs) cc _ Hcc Hok eq_refl eq_refl)
    as (cc' & img' & Hrun & _ & Hw' & Hh' & Hok' & Hpix).
  { intros t Ht. apply (in_map fst) in Ht. rewrite Hcells in Ht.
    unfold Layout.rowMajor in Ht. apply in_map_iff in Ht.
    destruct Ht as (k & Hk & Hin). apply in_seq in Hin.
    rewrite <- Hk. unfold Layout.cell, Mosaic.s_columnCount in *. cbn [fst snd].
    split; [apply Z.mod_pos_bound; lia|].
    split; [apply Z.div_pos; lia|].
    apply Z.div_lt_upper_bound; lia. }
  { rewrite Hcells. apply NoDup_rowMajor. }
  exists cc', img'. split; [exact Hrun|]. split; [exact Hw'|]. split; [exact Hh'|].
  split.
  { destruct Hok' as (_ & _ & Hlen' & _). rewrite Hw', Hh' in Hlen'. lia. }
  intros px py Hpx Hpy.
  assert (Hcell : In (px / 4, py / 4) (map fst (Layout.layoutGroups 0 gs))).
  { rewrite Hcells. unfold Layout.rowMajor. apply in_map_iff.
    assert (Hc : 0 <= px / 4 < 512).
    { split; [apply Z.div_pos; lia|apply Z.div_lt_upper_bound; lia]. }
    assert (Hr : 0 <= py / 4 < Layout.rowsOfGroups gs).
    { split; [apply Z.div_pos; lia|apply Z.div_lt_upper_bound; lia]. }
    exists (Z.to_nat (512 * (py / 4) + px / 4)). split.
    - rewrite Z2Nat.id by lia. apply cell_at. exact Hc.
    - apply in_seq. unfold Mosaic.s_columnCount. lia. }
  apply in_map_iff in Hcell. destruct Hcell as ([cellpos color] & Hfst & Hin).
  cbn [fst] in Hfst. subst cellpos.
  exists color. split; [exact Hin|].
  destruct (Hpix px py Hpx Hpy) as [Hone _].
  now apply Hone.
Qed.

End RenderFacts.

(** Painting stays inside the image and leaves no pixel out.  Let
    [updatePageInfo] lay out well-formed regions, and let its tiles be
    painted by [ColorCache::paintTile], tile by tile, into an image buffer
    of [2048 x 4 * imageRows] pixels (less than [2^31]) with arbitrary
    contents, as a fresh [QImage] has them.  Then no write leaves the
    buffer, and afterwards every pixel of the image holds the [rgb()] of
    the colour of the tile of its cell, with the alpha byte [0xff]: nothing
    of the arbitrary contents is left. *)
Theorem painting_fills_the_image (QColor : Type) (rgb : QColor -> Z)
    (darker : QColor -> Z -> QColor) (colorOf : Classify.QColor -> QColor)
    (regions : list Decoder.MappedRegion) :
  Layout.wellFormed regions ->
  Mosaic.rowCount_spec (Mosaic.computeLargeRegions regions) < 2 ^ 32 ->
  exists w,
    Mosaic.updatePageInfo regions = Ok w /\
    forall (cc : Pixels.ColorCache) (buffer : list Z),
      Pixels.cacheOk cc ->
      Z.of_nat (length buffer) = 2048 * (4 * Mosaic.imageRows w) ->
      Z.of_nat (length buffer) < 2 ^ 31 ->
      exists cc' img',
        Pixels.paintTiles QColor rgb darker colorOf cc
          {| Pixels.m_width := 2048; Pixels.m_height := 4 * Mosaic.imageRows w;
             Pixels.m_buffer := buffer |}
          (Mosaic.imageTiles w) = Ok (cc', img') /\
        Pixels.m_width img' = 2048 /\
        Pixels.m_height img' = 4 * Mosaic.imageRows w /\
        length (Pixels.m_buffer img') = length buffer /\
        forall px py,
          0 <= px < 2048 -> 0 <= py < 4 * Mosaic.imageRows w ->
          exists color,
            In (px / 4, py / 4, color) (Mosaic.imageTiles w) /\
            Pixels.pixel img' px py = Ok (Z.lor (rgb (colorOf color)) 0xff000000).
Proof.
  intros Hwf Hrows.
  pose proof (updatePageInfo_closed regions Hwf Hrows) as Hup.
  eexists. split; [exact Hup|].
  cbn [Mosaic.imageRows Mosaic.imageTiles].
  intros cc buffer Hcc Hlen Hint.
  exact (paintTiles_layout QColor rgb darker colorOf (Layout.groupsOf regions)
           cc buffer Hcc Hlen Hint).
Qed.

Lemma setPixel_then_pixel_witness :
  let img := {| Pixels.m_width := 4; Pixels.m_height := 2;
                Pixels.m_buffer := [1; 2; 3; 4; 5; 6; 7; 8] |} in
  (Pixels.imageOk img /\ 0 <= 2 < Pixels.m_width img /\
   0 <= 1 < Pixels.m_height img) /\
  exists img',
    Pixels.setPixel img 2 1 0x123456 = Ok img' /\
    Pixels.pixel img' 2 1 = Ok 0xff123456.
Proof.
  intros img.
  assert (I : Pixels.imageOk img) by closed_prop.
  assert (X : 0 <= 2 < Pixels.m_width img) by closed_prop.
  assert (Y : 0 <= 1 < Pixels.m_height img) by closed_prop.
  split; [split; [exact I|split; [exact X|exact Y]]|].
  destruct (setPixel_then_pixel img 2 1 0x123456 I X Y)
    as (img' & Hset & _ & _ & _ & Hpix & _).
  exists img'. split; [exact Hset|exact Hpix].
Defined.

Lemma paintTile_fills_the_tile_witness :
  let img := {| Pixels.m_width := 8; Pixels.m_height := 8;
                Pixels.m_buffer := repeat 7 64 |} in
  (Pixels.cacheOk Pixels.newColorCache /\ Pixels.imageOk img /\
   0 <= 1 /\ 0 <= 0 /\ 0 < 4 /\
   (1 + 1) * 4 <= Pixels.m_width img /\ (0 + 1) * 4 <= Pixels.m_height img) /\
  exists cc' img',
    Pixels.paintTile Z (fun c => c) (fun c factor => c * 100 / factor)
                     Pixels.newColorCache img 1 0 4 0x00ff00 = Ok (cc', img') /\
    Pixels.pixel img' 5 2 = Ok 0xff00ff00 /\
    Pixels.pixel img' 3 2 = Ok 7.
Proof.
  intros img.
  assert (C : Pixels.cacheOk Pixels.newColorCache) by reflexivity.
  assert (I : Pixels.imageOk img) by closed_prop.
  assert (X : 0 <= 1) by lia.
  assert (Y : 0 <= 0) by lia.
  assert (T : 0 < 4) by lia.
  assert (W : (1 + 1) * 4 <= Pixels.m_width img) by closed_prop.
  assert (H : (0 + 1) * 4 <= Pixels.m_height img) by closed_prop.
  split; [split; [exact C|split; [exact I|split; [exact X|split; [exact Y|
    split; [exact T|split; [exact W|exact H]]]]]]|].
  destruct (proj2 (paintTile_fills_the_tile Z (fun c => c)
                     (fun c factor => c * 100 / factor)
                     Pixels.newColorCache img 1 0 4 0x00ff00 C I X Y T W H))
    as (cc' & img' & Hrun & _ & _ & _ & _ & Hpix).
  exists cc', img'. split; [exact Hrun|]. split.
  - exact (Hpix 5 2 ltac:(cbn; lia) ltac:(cbn; lia)).
  - exact (Hpix 3 2 ltac:(cbn; lia) ltac:(cbn; lia)).
Defined.

Lemma painting_fills_the_image_witness :
  (Layout.wellFormed [Scenario.anonRegion] /\
   Mosaic.rowCount_spec (Mosaic.computeLargeRegions [Scenario.anonRegion])
     < 2 ^ 32) /\
  exists w,
    Mosaic.updatePageInfo [Scenario.anonRegion] = Ok w /\
    forall (cc : Pixels.ColorCache) (buffer : list Z),
      Pixels.cacheOk cc ->
      Z.of_nat (length buffer) = 2048 * (4 * Mosaic.imageRows w) ->
      Z.of_nat (length buffer) < 2 ^ 31 ->
      exists cc' img',
        Pixels.paintTiles Z (fun c => c) (fun c factor => c * 100 / factor)
          (fun c => match c with
                    | Classify.colorMagenta => 0xff00ff
                    | Classify.colorCyan => 0x0000ff
                    | _ => 0
                    end)
          cc
          {| Pixels.m_width := 2048; Pixels.m_height := 4 * Mosaic.imageRows w;
             Pixels.m_buffer := buffer |}
          (Mosaic.imageTiles w) = Ok (cc', img') /\
        Pixels.m_width img' = 2048 /\
        Pixels.m_height img' = 4 * Mosaic.imageRows w /\
        length (Pixels.m_buffer img') = length buffer /\
        forall px py,
          0 <= px < 2048 -> 0 <= py < 4 * Mosaic.imageRows w ->
          exists color,
            In (px / 4, py / 4, color) (Mosaic.imageTiles w) /\
            Pixels.pixel img' px py
            = Ok (Z.lor (match color with
                         | Classify.colorMagenta => 0xff00ff
                         | Classify.colorCyan => 0x0000ff
                         | _ => 0
                         end) 0xff000000).
Proof.
  assert (W : Layout.wellFormed [Scenario.anonRegion]).
  { unfold Layout.wellFormed. split; [cbn; lia|].
    split; constructor; try constructor; closed_prop. }
  assert (R : Mosaic.rowCount_spec (Mosaic.computeLargeRegions [Scenario.anonRegion])
              < 2 ^ 32) by closed_prop.
  split; [split; [exact W|exact R]|].
  exact (painting_fills_the_image Z (fun c => c) (fun c factor => c * 100 / factor)
           (fun c => match c with
                     | Classify.colorMagenta => 0xff00ff
                     | Classify.colorCyan => 0x0000ff
                     | _ => 0
                     end)
           [Scenario.anonRegion] W R).
Defined.

(** * What the decoder hands out *)

Section DecodedRegions.

Import Decoder Wire.

Lemma read_bytes_length (buf bs : list byte) (pos n : Z) :
  0 <= pos -> 0 <= n ->
  read_bytes buf pos n = Ok bs -> Z.of_nat (length bs) = n.
Proof.
  unfold read_bytes. intros Hpos Hn H.
  destruct (Z.eqb_spec n 0) as [H0|Hne].
  - injection H as <-. cbn. lia.
  - destruct (Z.leb_spec (pos + n) (Z.of_nat (length buf))); [|discriminate].
    injection H as <-. unfold slice. rewrite length_firstn, length_skipn. lia.
Qed.

Lemma u32s_of_bytes_spec (k : nat) :
  forall bs : list byte,
  length bs = (4 * k)%nat ->
  length (u32s_of_bytes bs) = k /\ Forall is_u32 (u32s_of_bytes bs).
Proof.
  induction k as [|k IH]; intros bs Hlen.
  - destruct bs; [|cbn in Hlen; lia]. split; [reflexivity|constructor].
  - destruct bs as [|b0 [|b1 [|b2 [|b3 rest]]]]; try (cbn in Hlen; lia).
    destruct (IH rest) as [Hl Hr]; [cbn [length] in Hlen; lia|].
    cbn [u32s_of_bytes length]. split; [now rewrite Hl|].
    constructor; [|exact Hr].
    pose proof (le_to_Z_range [b0; b1; b2; b3]) as Hrange.
    unfold is_u32. change (2 ^ 32) with (256 ^ Z.of_nat (length [b0; b1; b2; b3])).
    exact Hrange.
Qed.

Lemma read_u32_array_spec (buf : list byte) (pos n : Z) (l : list Z) :
  0 <= pos -> 0 <= n ->
  read_u32_array buf pos n = Ok l ->
  Z.of_nat (length l) = n /\ Forall is_u32 l.
Proof.
  unfold read_u32_array, sizeof_uint32_t. intros Hpos Hn H.
  destruct (read_bytes buf pos (4 * n)) as [bs|] eqn:Hb; [|discriminate].
  cbn [bind] in H. injection H as <-.
  apply read_bytes_length in Hb; try lia.
  destruct (u32s_of_bytes_spec (Z.to_nat n) bs) as [Hl Hr]; [lia|].
  split; [lia|exact Hr].
Qed.

(** Whatever the bytes are, a region that [decodeRegion] returns has 64-bit
    addresses, a backing file of less than [2^32] bytes, and as many use
    counts and flag words, each of 32 bits, as its addresses span pages. *)
Lemma decodeRegion_wire (buf : list byte) (pos pos' : Z) (r : MappedRegion) :
  0 <= pos -> Z.of_nat (length buf) < 2 ^ 63 ->
  decodeRegion buf pos = Ok (r, pos') -> wireRegion r.
Proof.
  intros Hpos Hlen. unfold decodeRegion, sizeof_uint64_t, sizeof_uint32_t.
  destruct (read_u64 buf pos) as [s|] eqn:H1; [|discriminate].
  apply read_u64_ok in H1. destruct H1 as [Hb1 Hs]. cbn [bind].
  destruct (read_u64 buf _) as [e|] eqn:H2; [|discriminate].
  apply read_u64_ok in H2. destruct H2 as [Hb2 He]. cbn [bind].
  destruct (read_u32 buf _) as [bfl|] eqn:H3; [|discriminate].
  apply read_u32_ok in H3. destruct H3 as [Hb3 Hbfl]. cbn [bind].
  destruct (read_bytes buf _ bfl) as [bf|] eqn:H4; [|discriminate].
  apply read_bytes_ok in H4; [|unfold is_u32 in Hbfl; lia].
  destruct H4 as [_ Hbf]. cbn [bind].
  set (al := wrap64 (e - s) / pageSize).
  assert (Hal : 0 <= al).
  { subst al. unfold wrap64, pageSize.
    pose proof (Z.mod_pos_bound (e - s) (2 ^ 64) ltac:(lia)).
    apply Z.div_pos; lia. }
  set (p4 := wrap64 _).
  assert (Hp4 : 0 <= p4).
  { subst p4. unfold wrap64. apply Z.mod_pos_bound. lia. }
  destruct (read_u32_array buf p4 al) as [uc|] eqn:H5; [|discriminate].
  apply read_u32_array_spec in H5; try lia. destruct H5 as [Huc Hucr].
  cbn [bind].
  destruct (read_u32_array buf (p4 + 4 * al) al) as [fl|] eqn:H6; [|discriminate].
  apply read_u32_array_spec in H6; try lia. destruct H6 as [Hfl Hflr].
  cbn [bind].
  intros [= <- _].
  unfold wireRegion, pageCount.
  cbn [start end_ backingFile useCounts combinedFlags].
  fold al. unfold is_u32 in Hbfl. repeat split; try assumption; try lia;
    try apply Hs; try apply He.
Qed.

Lemma decodeRegions_wire (fuel : nat) :
  forall (buf : list byte) (pos endPos : Z) (acc regions : list MappedRegion),
  0 <= pos -> Z.of_nat (length buf) < 2 ^ 63 ->
  Forall wireRegion acc ->
  decodeRegions fuel buf pos endPos acc = Ok regions ->
  Forall wireRegion regions.
Proof.
  induction fuel as [|fuel IH]; intros buf pos endPos acc regions Hpos Hlen Hacc.
  - cbn [decodeRegions]. destruct (pos <? endPos); [discriminate|].
    now intros [= <-].
  - cbn [decodeRegions]. destruct (pos <? endPos); [|now intros [= <-]].
    destruct (decodeRegion buf pos) as [[r pos']|f] eqn:Hr; [|discriminate].
    cbn [bind fst snd].
    pose proof (decodeRegion_advances _ _ _ _ Hpos Hlen Hr).
    pose proof (decodeRegion_wire _ _ _ _ Hpos Hlen Hr).
    apply IH; try assumption; try lia.
    apply Forall_app. split; [exact Hacc|]. now constructor.
Qed.

Lemma decodeFrames_wire (fs : list (list byte)) :
  forall (rest : list byte) (regions : list MappedRegion) (ret : bool)
         (x : bool * PageInfoReader),
  Z.of_nat (length (concat fs ++ rest)) < 2 ^ 63 ->
  Forall wireRegion regions ->
  decodeFrames fs rest regions ret = Ok x ->
  Forall wireRegion (m_mappedRegions (snd x)).
Proof.
  induction fs as [|f fs IH]; intros rest regions ret x Hlen Hw.
  - cbn [decodeFrames]. now intros [= <-].
  - cbn [decodeFrames concat] in *.
    destruct (decodeFrame _) as [decoded|e] eqn:Hd; [|discriminate].
    cbn [bind].
    apply IH.
    + rewrite <- app_assoc in Hlen. rewrite !length_app in *. lia.
    + unfold decodeFrame in Hd.
      eapply decodeRegions_wire; [| | |exact Hd].
      * unfold sizeof_size_t. lia.
      * rewrite <- app_assoc in Hlen. exact Hlen.
      * constructor.
Qed.

End DecodedRegions.

(** The decoder never hands out a region whose vectors disagree with its
    addresses.  Whatever bytes arrive, every region of the snapshot that
    [addData] leaves in [m_mappedRegions] has two 64-bit addresses, a
    backing file of less than [2^32] bytes, and exactly
    [floor(((end - start) mod 2^64) / pageSize)] use counts and as many flag
    words, each of 32 bits; the two vectors have the same length, so the
    layout never finds a page with a use count and no flag word. *)
Theorem addData_regions_are_consistent
    (r : Decoder.PageInfoReader) (data : list byte)
    (ret : bool) (r' : Decoder.PageInfoReader) :
  Wire.readerInv r ->
  Z.of_nat (length (Decoder.m_buffer r ++ data)) < 2 ^ 31 ->
  Forall Wire.wireRegion (Decoder.m_mappedRegions r) ->
  Decoder.addData r data = Ok (ret, r') ->
  Forall Wire.wireRegion (Decoder.m_mappedRegions r') /\
  Forall (fun x => length (Decoder.useCounts x) = length (Decoder.combinedFlags x))
         (Decoder.m_mappedRegions r').
Proof.
  intros Hinv Hlen Hw Hadd.
  assert (Hlen' : Z.of_nat (length (Decoder.m_buffer r ++ data)) < 2 ^ 63) by lia.
  rewrite (addData_frames r data Hinv Hlen') in Hadd.
  destruct (Wire.frames (Decoder.m_buffer r ++ data)) as [fs rest] eqn:Hfs.
  pose proof (splitFrames_concat _ _ _ _ Hfs) as Hcat.
  assert (Hall : Forall Wire.wireRegion (Decoder.m_mappedRegions r')).
  { apply (decodeFrames_wire fs rest (Decoder.m_mappedRegions r) false (ret, r'));
      [rewrite Hcat; exact Hlen'|exact Hw|exact Hadd]. }
  split; [exact Hall|].
  rewrite Forall_forall in *. intros x Hx.
  destruct (Hall x Hx) as (_ & _ & _ & Hu & Hf & _). lia.
Qed.

Lemma addData_regions_are_consistent_witness :
  let data := Wire.encode_frame [Scenario.anonRegion] in
  (Wire.readerInv Decoder.newPageInfoReader /\
   Z.of_nat (length (Decoder.m_buffer Decoder.newPageInfoReader ++ data)) < 2 ^ 31 /\
   Forall Wire.wireRegion (Decoder.m_mappedRegions Decoder.newPageInfoReader) /\
   Decoder.addData Decoder.newPageInfoReader data
   = Ok (true, Wire.waiting [Scenario.anonRegion] [])) /\
  Forall Wire.wireRegion [Scenario.anonRegion].
Proof.
  intros data.
  assert (I : Wire.readerInv Decoder.newPageInfoReader) by (left; reflexivity).
  assert (L : Z.of_nat (length (Decoder.m_buffer Decoder.newPageInfoReader ++ data))
              < 2 ^ 31) by closed_prop.
  assert (W : Forall Wire.wireRegion
                (Decoder.m_mappedRegions Decoder.newPageInfoReader))
    by constructor.
  assert (A : Decoder.addData Decoder.newPageInfoReader data
              = Ok (true, Wire.waiting [Scenario.anonRegion] []))
    by (vm_compute; reflexivity).
  split; [split; [exact I|split; [exact L|split; [exact W|exact A]]]|].
  exact (proj1 (addData_regions_are_consistent Decoder.newPageInfoReader data
                  true (Wire.waiting [Scenario.anonRegion] []) I L W A)).
Defined.

(** * Streams of frames *)

Section StreamFacts.

Import Decoder Wire Widget.

Lemma isFrame_encode_frame (rs : list MappedRegion) :
  Z.of_nat (length (encode_frame rs)) < 2 ^ 63 -> isFrame (encode_frame rs).
Proof.
  intros Hlen. pose proof (length_encode_frame rs) as Hl.
  split; [lia|].
  rewrite <- (app_nil_r (encode_frame rs)) at 1.
  rewrite declaredLength_encode_frame by lia. lia.
Qed.

Lemma encode_stream_cons (s : list MappedRegion)
    (snapshots : list (list MappedRegion)) :
  encode_stream (s :: snapshots) = encode_frame s ++ encode_stream snapshots.
Proof. reflexivity. Qed.

Lemma encode_stream_app (a b : list (list MappedRegion)) :
  encode_stream (a ++ b) = encode_stream a ++ encode_stream b.
Proof. unfold encode_stream. now rewrite map_app, concat_app. Qed.

(** The complete frames of a stream that breaks off inside a frame. *)
Lemma frames_encoded (done : list (list MappedRegion)) :
  forall q : list byte,
  Z.of_nat (length (encode_stream done ++ q)) < 2 ^ 63 ->
  frames q = ([], q) ->
  frames (encode_stream done ++ q) = (map encode_frame done, q).
Proof.
  induction done as [|s done IH]; intros q Hlen Hq; [exact Hq|].
  rewrite encode_stream_cons, <- app_assoc in *.
  pose proof (length_encode_frame s) as Hls.
  assert (Hlen0 := Hlen).
  unfold frames.
  destruct (length (encode_frame s ++ encode_stream done ++ q)) as [|n] eqn:Hn.
  { rewrite length_app in Hn. lia. }
  cbn [splitFrames].
  rewrite frameAt_encode_frame by (rewrite Hn; exact Hlen0).
  rewrite (splitFrames_fuel n (length (encode_stream done ++ q)));
    [|rewrite length_app in Hn; lia|lia].
  fold (frames (encode_stream done ++ q)).
  rewrite IH; [reflexivity| |exact Hq].
  rewrite length_app in Hn. lia.
Qed.

(** A prefix of a stream: some frames, and the beginning of the next one. *)
Lemma stream_prefix (snapshots : list (list MappedRegion)) :
  forall buf future : list byte,
  buf ++ future = encode_stream snapshots ->
  exists done rest q,
    snapshots = done ++ rest /\
    buf = encode_stream done ++ q /\
    q ++ future = encode_stream rest /\
    (q = [] \/
     exists s rest' tl,
       rest = s :: rest' /\ encode_frame s = q ++ tl /\ tl <> []).
Proof.
  induction snapshots as [|s ss IH]; intros buf future Heq.
  - apply app_eq_nil in Heq. destruct Heq as [-> ->].
    exists [], [], []. repeat split; auto.
  - rewrite encode_stream_cons in Heq.
    apply app_eq_app in Heq. destruct Heq as (l & [[Hb Hs]|[Hf Hfut]]).
    + (* the first frame is complete *)
      destruct (IH l future (eq_sym Hs)) as (done & rest & q & H1 & H2 & H3 & H4).
      exists (s :: done), rest, q. rewrite encode_stream_cons.
      split; [cbn [app]; now rewrite H1|].
      split; [rewrite Hb, H2; now rewrite app_assoc|].
      split; [exact H3|exact H4].
    + destruct l as [|b l].
      * (* exactly the first frame *)
        rewrite app_nil_r in Hf. cbn [app] in Hfut. subst buf future.
        exists [s], ss, []. rewrite encode_stream_cons.
        split; [reflexivity|].
        split; [cbn [encode_stream map concat]; now rewrite !app_nil_r|].
        split; [reflexivity|left; reflexivity].
      * (* inside the first frame *)
        exists [], (s :: ss), buf. rewrite encode_stream_cons.
        split; [reflexivity|]. split; [reflexivity|].
        split; [rewrite Hfut, Hf; now rewrite <- app_assoc|].
        right. exists s, ss, (b :: l). split; [reflexivity|].
        split; [exact Hf|discriminate].
Qed.

(** One call of [addData] in the middle of a stream. *)
Lemma stream_step (snapshots : list (list MappedRegion))
    (regions : list MappedRegion) (q c future : list byte) :
  Forall (Forall wireRegion) snapshots ->
  q ++ c ++ future = encode_stream snapshots ->
  Z.of_nat (length (encode_stream snapshots)) < 2 ^ 63 ->
  exists done rest q',
    snapshots = done ++ rest /\
    q' ++ future = encode_stream rest /\
    frames q' = ([], q') /\
    addData (waiting regions q) c
    = Ok (match done with [] => false | _ :: _ => true end,
          waiting (last done regions) q').
Proof.
  intros Hw Heq Hlen.
  rewrite app_assoc in Heq.
  destruct (stream_prefix snapshots (q ++ c) future Heq)
    as (done & rest & q' & H1 & H2 & H3 & H4).
  exists done, rest, q'. split; [exact H1|]. split; [exact H3|].
  assert (Hlen2 : Z.of_nat (length (encode_stream done ++ q')) < 2 ^ 63).
  { rewrite <- H2. rewrite <- Heq, length_app in Hlen. lia. }
  assert (Hq' : frames q' = ([], q')).
  { destruct H4 as [->|(s & rest' & tl & Hr & Hs & Htl)].
    - apply frames_short. cbn. lia.
    - apply (frames_prefix q' tl); [|exact Htl].
      rewrite <- Hs. apply isFrame_encode_frame.
      rewrite H1, Hr, encode_stream_app, encode_stream_cons, !length_app in Hlen.
      lia. }
  split; [exact Hq'|].
  rewrite addData_waiting by (rewrite H2; exact Hlen2).
  rewrite H2, (frames_encoded done q' Hlen2 Hq').
  apply decodeFrames_encoded; [|exact Hlen2].
  rewrite H1 in Hw. apply Forall_app in Hw. apply Hw.
Qed.

Lemma last_app_default {A : Type} (a b : list A) (d : A) :
  last (a ++ b) d = last b (last a d).
Proof.
  induction a as [|x a IH]; [reflexivity|].
  destruct a as [|y a].
  - cbn [app]. destruct b as [|z b]; [reflexivity|].
    change (last (x :: z :: b) d) with (last (z :: b) d).
    cbn [last]. destruct b; [reflexivity|].
    apply last_any_default.
  - change (last ((x :: y :: a) ++ b) d) with (last ((y :: a) ++ b) d).
    rewrite IH. reflexivity.
Qed.

(** No frame of a stream is left when the buffer holds no complete frame. *)
Lemma stream_without_frame (snapshots : list (list MappedRegion)) (q : list byte) :
  q = encode_stream snapshots -> frames q = ([], q) ->
  Z.of_nat (length q) < 2 ^ 63 ->
  snapshots = [] /\ q = [].
Proof.
  intros -> Hq Hlen.
  destruct snapshots as [|s ss]; [split; reflexivity|].
  exfalso.
  rewrite <- (app_nil_r (encode_stream (s :: ss))) in Hq at 1.
  rewrite frames_encoded in Hq.
  - discriminate.
  - rewrite app_nil_r. exact Hlen.
  - apply frames_short. cbn. lia.
Qed.

Lemma feedAll_stream (chunks : list (list byte)) :
  forall (snapshots : list (list MappedRegion)) (regions : list MappedRegion)
         (q : list byte),
  Forall (Forall wireRegion) snapshots ->
  q ++ concat chunks = encode_stream snapshots ->
  frames q = ([], q) ->
  Z.of_nat (length (encode_stream snapshots)) < 2 ^ 63 ->
  feedAll (waiting regions q) chunks
  = Ok (waiting (last snapshots regions) []).
Proof.
  induction chunks as [|c chunks IH]; intros snapshots regions q Hw Heq Hq Hlen.
  - cbn [concat] in Heq. rewrite app_nil_r in Heq.
    destruct (stream_without_frame snapshots q Heq Hq) as [-> ->];
      [rewrite Heq; exact Hlen|].
    reflexivity.
  - cbn [concat feedAll] in *.
    destruct (stream_step snapshots regions q c (concat chunks) Hw Heq Hlen)
      as (done & rest & q' & H1 & H2 & H3 & Hadd).
    rewrite Hadd. cbn [bind snd].
    rewrite (IH rest (last done regions) q').
    + rewrite H1, last_app_default. reflexivity.
    + rewrite H1 in Hw. apply Forall_app in Hw. apply Hw.
    + exact H2.
    + exact H3.
    + rewrite H1, encode_stream_app, length_app in Hlen. lia.
Qed.

End StreamFacts.

(** The reader does not depend on how the stream is cut into calls.  For a
    stream of frames that the producer wrote from snapshots, and every way
    of cutting it into chunks (a frame spread over many calls, many frames
    in one call, empty chunks), feeding the chunks to an idle reader call
    by call ends with the last snapshot and an empty buffer, exactly as
    feeding the whole stream in one call does. *)
Theorem stream_chunking_does_not_matter
    (snapshots : list (list Decoder.MappedRegion))
    (chunks : list (list byte)) (regions : list Decoder.MappedRegion) :
  Forall (Forall Wire.wireRegion) snapshots ->
  concat chunks = Widget.encode_stream snapshots ->
  Z.of_nat (length (Widget.encode_stream snapshots)) < 2 ^ 31 ->
  Decoder.feedAll (Wire.waiting regions []) chunks
  = Ok (Wire.waiting (last snapshots regions) []) /\
  Decoder.addData (Wire.waiting regions []) (Widget.encode_stream snapshots)
  = Ok (match snapshots with [] => false | _ :: _ => true end,
        Wire.waiting (last snapshots regions) []).
Proof.
  intros Hw Heq Hlen.
  assert (Hlen' : Z.of_nat (length (Widget.encode_stream snapshots)) < 2 ^ 63)
    by lia.
  split.
  - apply feedAll_stream; try assumption.
    apply frames_short. cbn. lia.
  - destruct (stream_step snapshots regions [] (Widget.encode_stream snapshots) []
                Hw ltac:(cbn [app]; now rewrite app_nil_r) Hlen')
      as (done & rest & q' & H1 & H2 & H3 & Hadd).
    rewrite app_nil_r in H2.
    assert (Hl : Z.of_nat (length q') < 2 ^ 63).
    { rewrite H2. rewrite H1, encode_stream_app, length_app in Hlen'. lia. }
    destruct (stream_without_frame rest q' H2 H3 Hl) as [-> ->].
    rewrite app_nil_r in H1. subst done. exact Hadd.
Qed.

Lemma stream_chunking_does_not_matter_witness :
  let snapshots := [[Scenario.anonRegion]; []; [Scenario.namedRegion]] in
  let stream := Widget.encode_stream snapshots in
  let chunks := [firstn 5 stream; []; firstn 60 (skipn 5 stream);
                 skipn 65 stream] in
  (Forall (Forall Wire.wireRegion) snapshots /\
   concat chunks = Widget.encode_stream snapshots /\
   Z.of_nat (length (Widget.encode_stream snapshots)) < 2 ^ 31) /\
  Decoder.feedAll (Wire.waiting [] []) chunks
  = Ok (Wire.waiting [Scenario.namedRegion] []).
Proof.
  intros snapshots stream chunks.
  assert (W : Forall (Forall Wire.wireRegion) snapshots).
  { repeat constructor; closed_prop. }
  assert (C : concat chunks = Widget.encode_stream snapshots)
    by (vm_compute; reflexivity).
  assert (L : Z.of_nat (length (Widget.encode_stream snapshots)) < 2 ^ 31)
    by closed_prop.
  split; [split; [exact W|split; [exact C|exact L]]|].
  exact (proj1 (stream_chunking_does_not_matter snapshots chunks [] W C L)).
Defined.

(** * The slots of the widget *)

Section WidgetFacts.

Import Decoder Wire Mosaic Widget.

Lemma last_in_or_default {A : Type} (l : list A) (d : A) :
  l <> [] -> In (last l d) l.
Proof.
  induction l as [|x l IH]; intros Hne; [contradiction|].
  destruct l as [|y l]; [left; reflexivity|].
  right. apply IH. discriminate.
Qed.

Lemma addData_one_frame (regions regions0 : list MappedRegion) :
  Forall wireRegion regions ->
  Z.of_nat (length (encode_frame regions)) < 2 ^ 63 ->
  addData (waiting regions0 []) (encode_frame regions)
  = Ok (true, waiting regions []).
Proof.
  intros Hw Hlen.
  rewrite addData_waiting by (cbn [app]; exact Hlen).
  cbn [app].
  rewrite (frames_single (encode_frame regions))
    by (apply isFrame_encode_frame; exact Hlen).
  cbn [decodeFrames concat app].
  rewrite decodeFrame_encode_frame;
    [reflexivity|exact Hw|rewrite app_nil_r; exact Hlen].
Qed.

End WidgetFacts.

(** * Large regions and the assertions of the layout pass *)

Section CoalesceFacts.

Import Decoder Mosaic Layout.

Lemma coalesce_spec_cover (rest : list MappedRegion) :
  forall first e : Z,
  first <= e ->
  sortedRegions rest ->
  match rest with [] => True | r :: _ => e <= start r end ->
  exists e' tail,
    coalesce_spec (first, e) rest = (first, e') :: tail /\
    e <= e' /\
    farApart ((first, e') :: tail) /\
    Forall (fun r => Exists (within r) ((first, e') :: tail)) rest /\
    Forall (fun lr => In (fst lr) (first :: map start rest) /\
                      In (snd lr) (e :: map end_ rest))
           ((first, e') :: tail).
Proof.
  induction rest as [|r rest IH]; intros first e Hfe Hs Hnext.
  - exists e, []. cbn [coalesce_spec]. split; [reflexivity|].
    split; [lia|]. split; [cbn; auto|]. split; [constructor|].
    constructor; [|constructor]. cbn. auto.
  - destruct Hs as (Hr & Hn & Hs).
    cbn [coalesce_spec snd fst].
    destruct (Z.ltb_spec (64 * pageSize) (start r - e)) as [Hgap|Hgap].
    + destruct (IH (start r) (end_ r) Hr Hs Hn)
        as (e' & tail & Heq & He & Hfar & Hcov & Hends).
      exists e, ((start r, e') :: tail). rewrite Heq.
      split; [reflexivity|]. split; [lia|].
      split.
      { split; [exact Hfe|]. split; [cbn [fst snd]; lia|exact Hfar]. }
      split.
      { constructor.
        - apply Exists_cons_tl. apply Exists_cons_hd.
          unfold within. cbn [fst snd]. lia.
        - eapply Forall_impl; [|exact Hcov].
          intros a Ha. now apply Exists_cons_tl. }
      constructor.
      { cbn [fst snd]. split; left; reflexivity. }
      eapply Forall_impl; [|exact Hends].
      intros lr [H1 H2]. cbn [map]. split; right; assumption.
    + destruct (IH first (end_ r) ltac:(lia) Hs Hn)
        as (e' & tail & Heq & He & Hfar & Hcov & Hends).
      exists e', tail. rewrite Heq.
      split; [reflexivity|]. split; [lia|].
      split; [exact Hfar|].
      split.
      { constructor; [|exact Hcov].
        apply Exists_cons_hd. unfold within. cbn [fst snd]. lia. }
      eapply Forall_impl; [|exact Hends].
      intros lr [H1 H2]. cbn [map]. split.
      * destruct H1 as [H1|H1]; [left; exact H1|right; right; exact H1].
      * right. exact H2.
Qed.

Lemma farApart_above (l : list (Z * Z)) :
  forall a, farApart (a :: l) -> Forall (fun b => snd a < fst b) l.
Proof.
  induction l as [|b l IH]; intros a Hf; [constructor|].
  destruct Hf as (Ha & Hab & Hf).
  pose proof (IH b Hf) as Hb. destruct Hf as (Hb' & _).
  unfold pageSize in Hab.
  constructor; [lia|].
  eapply Forall_impl; [|exact Hb]. intros c Hc. cbn beta in Hc. lia.
Qed.

Lemma within_unique (l : list (Z * Z)) (r : MappedRegion) :
  farApart l -> start r <= end_ r ->
  forall a b, In a l -> In b l -> within r a -> within r b -> a = b.
Proof.
  induction l as [|x l IH]; intros Hf Hr a b Ha Hb Hwa Hwb; [contradiction|].
  pose proof (farApart_above l x Hf) as Habove.
  rewrite Forall_forall in Habove.
  destruct Hf as (Hx & _ & Hf).
  unfold within in *.
  destruct Ha as [<-|Ha], Hb as [<-|Hb].
  - reflexivity.
  - specialize (Habove b Hb). lia.
  - specialize (Habove a Ha). lia.
  - now apply IH.
Qed.

Lemma assertRegionBounds_result (regions : list MappedRegion) :
  assertRegionBounds regions = Ok tt \/
  assertRegionBounds regions = Fault AssertFailed.
Proof.
  induction regions as [|r regions IH]; [left; reflexivity|].
  cbn [assertRegionBounds]. unfold assertion.
  destruct (start r <=? end_ r); cbn [bind]; [exact IH|right; reflexivity].
Qed.

Lemma assertRegionOrder_result (regions : list MappedRegion) :
  assertRegionOrder regions = Ok tt \/
  assertRegionOrder regions = Fault AssertFailed.
Proof.
  induction regions as [|r regions IH]; [left; reflexivity|].
  destruct regions as [|r' regions]; [left; reflexivity|].
  cbn [assertRegionOrder]. unfold assertion.
  destruct (end_ r <=? start r'); cbn [bind]; [exact IH|right; reflexivity].
Qed.

Lemma assertions_sorted (regions : list MappedRegion) :
  assertRegionBounds regions = Ok tt ->
  assertRegionOrder regions = Ok tt ->
  sortedRegions regions.
Proof.
  induction regions as [|r regions IH]; intros Hb Ho; [exact I|].
  cbn [assertRegionBounds] in Hb. unfold assertion in Hb.
  destruct (Z.leb_spec (start r) (end_ r)) as [Hr|Hr]; [|discriminate].
  cbn [bind] in Hb.
  destruct regions as [|r' regions].
  - cbn. auto.
  - cbn [assertRegionOrder] in Ho. unfold assertion in Ho.
    destruct (Z.leb_spec (end_ r) (start r')) as [Hn|Hn]; [|discriminate].
    cbn [bind] in Ho.
    split; [exact Hr|]. split; [exact Hn|]. now apply IH.
Qed.

Lemma updatePageInfo_sorted_or_fails (regions : list MappedRegion) :
  sortedRegions regions \/
  (regions <> [] /\ updatePageInfo regions = Fault AssertFailed).
Proof.
  destruct regions as [|r rs]; [left; exact I|].
  unfold updatePageInfo.
  destruct (assertRegionBounds_result (r :: rs)) as [Hb|Hb]; rewrite Hb;
    cbn [bind]; [|right; split; [discriminate|reflexivity]].
  destruct (assertRegionOrder_result (r :: rs)) as [Ho|Ho]; rewrite Ho;
    cbn [bind]; [|right; split; [discriminate|reflexivity]].
  left. now apply assertions_sorted.
Qed.

Lemma addressAtCell_next_row (before after : list (Z * Z))
    (firstRow baseAddress row : Z) :
  rowsAscending (before ++ (firstRow, baseAddress) :: after) ->
  firstRow <= row ->
  Forall (fun e => row + 1 < fst e) after ->
  addressAtCell (before ++ (firstRow, baseAddress) :: after) row s_columnCount
  = addressAtCell (before ++ (firstRow, baseAddress) :: after) (row + 1) 0.
Proof.
  intros Hasc Hrow Hafter.
  rewrite (addressAtCell_hit before after firstRow baseAddress row);
    [|exact Hasc|exact Hrow|].
  2:{ eapply Forall_impl; [|exact Hafter]. intros e He. cbn beta in *. lia. }
  rewrite (addressAtCell_hit before after firstRow baseAddress (row + 1));
    [|exact Hasc|lia|exact Hafter].
  do 3 f_equal.
  unfold wrap32, s_columnCount.
  rewrite Z.add_0_r, Z.mod_mod by lia.
  rewrite Z.add_mod_idemp_l by lia.
  rewrite (Z.mul_mod_idemp_l (row + 1 - firstRow)) by lia.
  f_equal.
  replace ((row + 1 - firstRow) * 512) with ((row - firstRow) * 512 + 512)
    by lia.
  rewrite <- (Z.add_mod_idemp_l ((row - firstRow) * 512)) by lia.
  rewrite <- (Z.mul_mod_idemp_l (row - firstRow)) by lia.
  rewrite Z.add_mod_idemp_l by lia. reflexivity.
Qed.

End CoalesceFacts.

(** The large regions partition the regions.  For regions in ascending
    order that do not overlap (and do not reach the last 64 pages of the
    address space), the coalescing of [updatePageInfo] yields large regions
    that are in ascending order and more than 64 pages apart, every region
    lies inside a large region and inside only one, and every large region
    begins at the start of a region and ends at the end of one. *)
Theorem large_regions_partition_the_regions
    (regions : list Decoder.MappedRegion) :
  Mosaic.sortedRegions regions ->
  Forall (fun r => Mosaic.gapFits (Decoder.end_ r)) regions ->
  Layout.farApart (Mosaic.computeLargeRegions regions) /\
  Forall (fun r =>
            exists lr,
              In lr (Mosaic.computeLargeRegions regions) /\
              Layout.within r lr /\
              forall lr', In lr' (Mosaic.computeLargeRegions regions) ->
                          Layout.within r lr' -> lr' = lr)
         regions /\
  Forall (fun lr =>
            In (fst lr) (map Decoder.start regions) /\
            In (snd lr) (map Decoder.end_ regions))
         (Mosaic.computeLargeRegions regions).
Proof.
  intros Hs Hfit.
  rewrite (computeLargeRegions_spec regions Hs Hfit).
  destruct regions as [|front rest]; [cbn; repeat split; constructor|].
  pose proof (sorted_bounds _ Hs) as Hbounds.
  destruct Hs as (Hf & Hn & Hs).
  destruct (coalesce_spec_cover rest (Decoder.start front) (Decoder.end_ front)
              Hf Hs Hn) as (e' & tail & Heq & He & Hfar & Hcov & Hends).
  unfold Mosaic.largeRegions_spec. rewrite Heq.
  split; [exact Hfar|].
  assert (Hall : Forall (fun r => Exists (Layout.within r)
                                    ((Decoder.start front, e') :: tail))
                        (front :: rest)).
  { constructor; [|exact Hcov].
    apply Exists_cons_hd. unfold Layout.within. cbn [fst snd]. lia. }
  split.
  - rewrite Forall_forall in Hall, Hbounds |- *.
    intros r Hr. specialize (Hall r Hr).
    apply Exists_exists in Hall. destruct Hall as (lr & Hin & Hw).
    exists lr. split; [exact Hin|]. split; [exact Hw|].
    intros lr' Hin' Hw'.
    exact (within_unique _ r Hfar (Hbounds r Hr) lr' lr Hin' Hin Hw' Hw).
  - exact Hends.
Qed.

Lemma large_regions_partition_the_regions_witness :
  let far := {| Decoder.start := 0x3000 + 65 * 4096;
                Decoder.end_ := 0x3000 + 67 * 4096;
                Decoder.backingFile := [];
                Decoder.useCounts := [1; 1];
                Decoder.combinedFlags := [2 ^ 31; 2 ^ 31] |} in
  (Mosaic.sortedRegions [Scenario.anonRegion; far] /\
   Forall (fun r => Mosaic.gapFits (Decoder.end_ r)) [Scenario.anonRegion; far]) /\
  Layout.farApart (Mosaic.computeLargeRegions [Scenario.anonRegion; far]).
Proof.
  intros far.
  assert (S : Mosaic.sortedRegions [Scenario.anonRegion; far])
    by (cbn; lia).
  assert (F : Forall (fun r => Mosaic.gapFits (Decoder.end_ r))
                     [Scenario.anonRegion; far])
    by (repeat apply Forall_cons; try apply Forall_nil; closed_prop).
  split; [split; [exact S|exact F]|].
  exact (proj1 (large_regions_partition_the_regions [Scenario.anonRegion; far] S F)).
Defined.

(** The layout pass paints sorted input only.  On a non-empty list of
    regions that is not in ascending order, has two overlapping regions or
    a region with [end < start], one of the two assertions at the head of
    [updatePageInfo] fails, before anything is computed.  So whenever
    [updatePageInfo] returns, its input was sorted, and [m_regions], which
    the forward lookup searches by bisection, is the sorted input. *)
Theorem updatePageInfo_asserts_sorted_regions
    (regions : list Decoder.MappedRegion) :
  (regions <> [] -> ~ Mosaic.sortedRegions regions ->
   Mosaic.updatePageInfo regions = Fault AssertFailed) /\
  (forall w,
     Mosaic.updatePageInfo regions = Ok w ->
     Mosaic.sortedRegions regions /\ Mosaic.m_regions w = regions).
Proof.
  split.
  - intros _ Hns.
    destruct (updatePageInfo_sorted_or_fails regions) as [Hs|[_ Hf]];
      [contradiction|exact Hf].
  - intros w Hw. split.
    + destruct (updatePageInfo_sorted_or_fails regions) as [Hs|[_ Hf]];
        [exact Hs|].
      rewrite Hf in Hw. discriminate.
    + destruct regions as [|r rs].
      * cbn in Hw. inversion Hw. reflexivity.
      * unfold Mosaic.updatePageInfo in Hw.
        destruct (Mosaic.assertRegionBounds (r :: rs)); [|discriminate].
        cbn [bind] in Hw.
        destruct (Mosaic.assertRegionOrder (r :: rs)); [|discriminate].
        cbn [bind] in Hw. cbv zeta in Hw.
        destruct (Mosaic.paintLargeRegions _ _ _ _); [|discriminate].
        cbn [bind] in Hw. inversion Hw. reflexivity.
Qed.

Lemma updatePageInfo_asserts_sorted_regions_witness :
  ([Scenario.zeroRegion; Scenario.anonRegion] <> [] /\
   ~ Mosaic.sortedRegions [Scenario.zeroRegion; Scenario.anonRegion]) /\
  Mosaic.updatePageInfo [Scenario.zeroRegion; Scenario.anonRegion]
  = Fault AssertFailed.
Proof.
  assert (N : [Scenario.zeroRegion; Scenario.anonRegion] <> []) by discriminate.
  assert (U : ~ Mosaic.sortedRegions [Scenario.zeroRegion; Scenario.anonRegion]).
  { intros (_ & H & _). cbn in H. lia. }
  split; [split; [exact N|exact U]|].
  exact (proj1 (updatePageInfo_asserts_sorted_regions
                  [Scenario.zeroRegion; Scenario.anonRegion]) N U).
Defined.

(** A position right of the picture.  [addressAtPos] bounds the column by
    [s_columnCount], not by the last column: for a position at or beyond
    the right edge of the picture (the mouse dragged out of the widget) it
    computes column 512 and returns the address that belongs to the first
    column of the row below, as long as no large region starts in that
    row.  Negative coordinates count as 0. *)
Theorem position_right_of_the_picture
    (before after : list (Z * Z)) (firstRow baseAddress x y : Z) :
  Mosaic.rowsAscending (before ++ (firstRow, baseAddress) :: after) ->
  512 * 4 <= x < 2 ^ 31 ->
  0 <= y -> y + 4 < 2 ^ 31 ->
  firstRow <= y / 4 ->
  Forall (fun e => y / 4 + 1 < fst e) after ->
  Mosaic.addressAtPos (before ++ (firstRow, baseAddress) :: after) (x, y)
  = Mosaic.addressAtPos (before ++ (firstRow, baseAddress) :: after) (0, y + 4) /\
  (forall x' y', x' < 0 -> y' < 0 ->
     Mosaic.addressAtPos (before ++ (firstRow, baseAddress) :: after) (x', y')
     = Mosaic.addressAtPos (before ++ (firstRow, baseAddress) :: after) (0, 0)).
Proof.
  intros Hasc Hx Hy0 Hy1 Hrow Hafter.
  split.
  - unfold Mosaic.addressAtPos. cbn [fst snd]. cbv zeta.
    unfold Mosaic.qBound, Mosaic.s_pixelsPerTile.
    rewrite (Z.max_r 0 y), (Z.max_r 0 (y + 4)) by lia.
    rewrite (wrap32_small y), (wrap32_small (y + 4)) by lia.
    assert (Hq : 512 <= Z.quot x 4).
    { rewrite Z.quot_div_nonneg by lia.
      apply Z.div_le_lower_bound; lia. }
    change (Z.quot 0 4) with 0.
    unfold Mosaic.s_columnCount at 1 2.
    rewrite (Z.min_l 512) by exact Hq.
    rewrite (Z.min_r 512 0) by lia.
    rewrite Z.max_r by lia. rewrite (Z.max_l 0 0) by lia.
    replace ((y + 4) / 4) with (y / 4 + 1)
      by (rewrite <- (Z.div_add y 1 4) by lia; f_equal; lia).
    exact (addressAtCell_next_row before after firstRow baseAddress (y / 4)
             Hasc Hrow Hafter).
  - intros x' y' Hx' Hy'.
    unfold Mosaic.addressAtPos. cbn [fst snd]. cbv zeta.
    unfold Mosaic.qBound, Mosaic.s_pixelsPerTile.
    rewrite (Z.max_l 0 y') by lia. rewrite (Z.max_l 0 0) by lia.
    assert (Hq : Z.quot x' 4 <= 0).
    { rewrite <- (Z.opp_involutive x'). rewrite Z.quot_opp_l by lia.
      pose proof (Z.quot_pos (- x') 4 ltac:(lia) ltac:(lia)). lia. }
    change (Z.quot 0 4) with 0.
    unfold Mosaic.s_columnCount.
    rewrite (Z.min_r 512 (Z.quot x' 4)) by lia.
    rewrite (Z.max_l 0 (Z.quot x' 4)) by lia.
    rewrite (Z.min_r 512 0) by lia. rewrite (Z.max_l 0 0) by lia.
    reflexivity.
Qed.

Lemma position_right_of_the_picture_witness :
  (Mosaic.rowsAscending ([(0, 0x1000)] ++ (5, 0x800000) :: [(9, 0xA00000)]) /\
   512 * 4 <= 3000 < 2 ^ 31 /\ 0 <= 24 /\ 24 + 4 < 2 ^ 31 /\
   5 <= 24 / 4 /\
   Forall (fun e => 24 / 4 + 1 < fst e) [(9, 0xA00000)]) /\
  Mosaic.addressAtPos ([(0, 0x1000)] ++ (5, 0x800000) :: [(9, 0xA00000)]) (3000, 24)
  = Mosaic.addressAtPos ([(0, 0x1000)] ++ (5, 0x800000) :: [(9, 0xA00000)]) (0, 28).
Proof.
  assert (A : Mosaic.rowsAscending
                ([(0, 0x1000)] ++ (5, 0x800000) :: [(9, 0xA00000)])).
  { unfold Mosaic.rowsAscending. cbn [app].
    repeat (constructor; cbn [fst]; try lia). }
  assert (X : 512 * 4 <= 3000 < 2 ^ 31) by lia.
  assert (Y0 : 0 <= 24) by lia.
  assert (Y1 : 24 + 4 < 2 ^ 31) by lia.
  assert (R : 5 <= 24 / 4) by closed_prop.
  assert (F : Forall (fun e => 24 / 4 + 1 < fst e) [(9, 0xA00000)])
    by (apply Forall_cons; [closed_prop|apply Forall_nil]).
  split; [split; [exact A|split; [exact X|split; [exact Y0|split;
            [exact Y1|split; [exact R|exact F]]]]]|].
  exact (proj1 (position_right_of_the_picture [(0, 0x1000)] [(9, 0xA00000)]
                  5 0x800000 3000 24 A X Y0 Y1 R F)).
Defined.

(** The reader hands over what it decoded, sorted or not.  A frame whose
    regions are not in ascending order (or overlap, or have [end < start])
    is decoded like any other; [networkDataAvailable] passes the regions
    to [updatePageInfo], whose assertion fails: the remote display stops
    on such a frame instead of skipping it. *)
Theorem unsorted_frame_fails_the_assertion
    (regions regions0 : list Decoder.MappedRegion) (s : Widget.state) :
  Forall Wire.wireRegion regions ->
  regions <> [] ->
  ~ Mosaic.sortedRegions regions ->
  Z.of_nat (length (Wire.encode_frame regions)) < 2 ^ 31 ->
  Widget.m_pageInfoReader s = Wire.waiting regions0 [] ->
  Decoder.addData (Widget.m_pageInfoReader s) (Wire.encode_frame regions)
  = Ok (true, Wire.waiting regions []) /\
  Widget.networkDataAvailable s (Wire.encode_frame regions)
  = Fault AssertFailed.
Proof.
  intros Hw Hne Hns Hlen Hs.
  assert (Hadd : Decoder.addData (Wire.waiting regions0 []) (Wire.encode_frame regions)
                 = Ok (true, Wire.waiting regions []))
    by (apply addData_one_frame; [exact Hw|lia]).
  split; [rewrite Hs; exact Hadd|].
  unfold Widget.networkDataAvailable. rewrite Hs, Hadd.
  cbn [bind fst snd Decoder.m_mappedRegions Wire.waiting].
  destruct (updatePageInfo_sorted_or_fails regions) as [Hsorted|[_ Hf]];
    [contradiction|].
  rewrite Hf. reflexivity.
Qed.

Lemma unsorted_frame_fails_the_assertion_witness :
  let regions := [Scenario.zeroRegion; Scenario.anonRegion] in
  let s := {| Widget.m_pageInfoReader := Wire.waiting [] [];
              Widget.shown := {| Mosaic.m_regions := [];
                                 Mosaic.m_largeRegions := [];
                                 Mosaic.imageRows := 0;
                                 Mosaic.imageTiles := [] |} |} in
  (Forall Wire.wireRegion regions /\
   regions <> [] /\
   ~ Mosaic.sortedRegions regions /\
   Z.of_nat (length (Wire.encode_frame regions)) < 2 ^ 31 /\
   Widget.m_pageInfoReader s = Wire.waiting [] []) /\
  Widget.networkDataAvailable s (Wire.encode_frame regions)
  = Fault AssertFailed.
Proof.
  intros regions s.
  assert (W : Forall Wire.wireRegion regions).
  { apply Forall_cons; [closed_prop|apply Forall_cons; [closed_prop|apply Forall_nil]]. }
  assert (N : regions <> []) by discriminate.
  assert (U : ~ Mosaic.sortedRegions regions).
  { intros (_ & H & _). cbn in H. lia. }
  assert (L : Z.of_nat (length (Wire.encode_frame regions)) < 2 ^ 31)
    by closed_prop.
  assert (S0 : Widget.m_pageInfoReader s = Wire.waiting [] []) by reflexivity.
  split; [split; [exact W|split; [exact N|split; [exact U|split; [exact L|exact S0]]]]|].
  exact (proj2 (unsorted_frame_fails_the_assertion regions [] s W N U L S0)).
Defined.

(** * The picture *)

Section Simulation.

Import Decoder Classify Mosaic.

Variable QColor : Type.
Variable rgb : QColor -> Z.
Variable darker : QColor -> Z -> QColor.
Variable bits : Z -> Z -> list Z.
Variable colorOf : Classify.QColor -> QColor.

Abbreviation replay := (Picture.replay QColor rgb darker colorOf).
Abbreviation paint := (Picture.paint QColor rgb darker colorOf).

Lemma Ok_injective {A : Type} (a b : A) : Ok a = Ok b -> a = b.
Proof. now intros [= ->]. Qed.

Lemma replay_paintTiles (tiles : list tile) :
  forall c : Picture.canvas,
  replay c tiles
  = Pixels.paintTiles QColor rgb darker colorOf (fst c) (snd c) tiles.
Proof.
  induction tiles as [|[[col r] color] tiles IH]; intros [cc img];
    [reflexivity|].
  cbn [Picture.replay Pixels.paintTiles fst snd]. unfold Picture.paint.
  cbn [fst snd].
  destruct (Pixels.paintTile _ _ _ _ _ _ _ _ _) as [x|e]; cbn [bind];
    [|reflexivity].
  rewrite IH. destruct x; reflexivity.
Qed.

Lemma replay_app (tiles more : list tile) :
  forall c : Picture.canvas,
  replay c (tiles ++ more) = (c1 <- replay c tiles ;; replay c1 more).
Proof.
  induction tiles as [|[[col r] color] tiles IH]; intros c; [reflexivity|].
  cbn [app Picture.replay].
  destruct (paint c col r color) as [c1|e]; cbn [bind]; [apply IH|reflexivity].
Qed.

Lemma replay_app_ok (tiles more : list tile) (c c' : Picture.canvas) :
  replay c (tiles ++ more) = Ok c' ->
  exists c1, replay c tiles = Ok c1 /\ replay c1 more = Ok c'.
Proof.
  rewrite replay_app.
  destruct (replay c tiles) as [c1|e]; cbn [bind]; [|discriminate].
  intros H. exists c1. split; [reflexivity|exact H].
Qed.

(** Every loop of the layout appends the tiles it paints, and the same
    loop on the image makes the same calls of [cc.paintTile]. *)
Lemma paintPageTiles_sim (fuel : nat) (region : MappedRegion) (row endColumn : Z) :
  forall (column iPage : Z) (tiles0 : list tile) column' iPage' tiles1,
  Mosaic.paintPageTiles fuel region row endColumn column iPage tiles0
  = Ok (column', iPage', tiles1) ->
  exists new,
    tiles1 = tiles0 ++ new /\
    forall c c', replay c new = Ok c' ->
      Picture.paintPageTiles QColor rgb darker colorOf fuel region row
        endColumn column iPage c = Ok (column', iPage', c').
Proof.
  induction fuel as [|fuel IH]; intros column iPage tiles0 column' iPage' tiles1 H;
    cbn [Mosaic.paintPageTiles] in H; cbn [Picture.paintPageTiles];
    destruct (column <? endColumn); try discriminate.
  - injection H as <- <- <-. exists []. split; [now rewrite app_nil_r|].
    intros c c' [= <-]. reflexivity.
  - destruct (of_option (nth_error (combinedFlags region) (Z.to_nat iPage)))
      as [flags|e]; cbn [bind] in *; [|discriminate].
    destruct (of_option (nth_error (useCounts region) (Z.to_nat iPage)))
      as [useCount|e]; cbn [bind] in *; [|discriminate].
    apply IH in H. destruct H as (new & -> & Hsim).
    exists ((column, row, pageColor flags useCount) :: new).
    split; [rewrite <- app_assoc; reflexivity|].
    intros c c' Hr. cbn [Picture.replay] in Hr.
    destruct (paint c column row (pageColor flags useCount)) as [c1|e];
      cbn [bind] in *; [|discriminate].
    now apply Hsim.
  - injection H as <- <- <-. exists []. split; [now rewrite app_nil_r|].
    intros c c' [= <-]. reflexivity.
Qed.

Lemma paintPages_sim (fuel : nat) (region : MappedRegion) :
  forall (row column iPage : Z) (tiles0 : list tile) row' column' iPage' tiles1,
  Mosaic.paintPages fuel region row column iPage tiles0
  = Ok (row', column', iPage', tiles1) ->
  exists new,
    tiles1 = tiles0 ++ new /\
    forall c c', replay c new = Ok c' ->
      Picture.paintPages QColor rgb darker colorOf fuel region row column
        iPage c = Ok (row', column', iPage', c').
Proof.
  induction fuel as [|fuel IH];
    intros row column iPage tiles0 row' column' iPage' tiles1 H;
    cbn [Mosaic.paintPages] in H; cbn [Picture.paintPages]; cbv zeta in *;
    destruct (iPage <? Z.of_nat (length (useCounts region))); try discriminate.
  - injection H as <- <- <- <-. exists []. split; [now rewrite app_nil_r|].
    intros c c' [= <-]. reflexivity.
  - destruct (Mosaic.paintPageTiles _ _ _ _ _ _ _) as [[[column1 iPage1] tiles2]|e]
      eqn:Hinner; cbn [bind] in H; [|discriminate].
    apply paintPageTiles_sim in Hinner. destruct Hinner as (new1 & -> & Hsim1).
    assert (Hrest : exists new2,
               tiles1 = (tiles0 ++ new1) ++ new2 /\
               forall c c', replay c new2 = Ok c' ->
                 (if column1 =? s_columnCount
                  then Picture.paintPages QColor rgb darker colorOf fuel region
                         (wrap32 (row + 1)) 0 iPage1 c
                  else Picture.paintPages QColor rgb darker colorOf fuel region
                         row column1 iPage1 c)
                 = Ok (row', column', iPage', c')).
    { destruct (column1 =? s_columnCount); apply IH in H; exact H. }
    destruct Hrest as (new2 & -> & Hsim2).
    exists (new1 ++ new2). split; [now rewrite app_assoc|].
    intros c c' Hr. apply replay_app_ok in Hr. destruct Hr as (c1 & Hr1 & Hr2).
    rewrite (Hsim1 c c1 Hr1). cbn [bind]. now apply Hsim2.
  - injection H as <- <- <- <-. exists []. split; [now rewrite app_nil_r|].
    intros c c' [= <-]. reflexivity.
Qed.

Lemma paintGapTiles_sim (fuel : nat) (row endColumn : Z) :
  forall (column : Z) (tiles0 : list tile) column' tiles1,
  Mosaic.paintGapTiles fuel row endColumn column tiles0 = Ok (column', tiles1) ->
  exists new,
    tiles1 = tiles0 ++ new /\
    forall c c', replay c new = Ok c' ->
      Picture.paintGapTiles QColor rgb darker colorOf fuel row endColumn
        column c = Ok (column', c').
Proof.
  induction fuel as [|fuel IH]; intros column tiles0 column' tiles1 H;
    cbn [Mosaic.paintGapTiles] in H; cbn [Picture.paintGapTiles];
    destruct (column <? endColumn); try discriminate.
  - injection H as <- <-. exists []. split; [now rewrite app_nil_r|].
    intros c c' [= <-]. reflexivity.
  - apply IH in H. destruct H as (new & -> & Hsim).
    exists ((column, row, colorCyan) :: new).
    split; [rewrite <- app_assoc; reflexivity|].
    intros c c' Hr. cbn [Picture.replay] in Hr.
    destruct (paint c column row colorCyan) as [c1|e];
      cbn [bind] in *; [|discriminate].
    now apply Hsim.
  - injection H as <- <-. exists []. split; [now rewrite app_nil_r|].
    intros c c' [= <-]. reflexivity.
Qed.

Lemma paintGap_sim (fuel : nat) :
  forall (gapPages row column : Z) (tiles0 : list tile) row' column' tiles1,
  Mosaic.paintGap fuel gapPages row column tiles0 = Ok (row', column', tiles1) ->
  exists new,
    tiles1 = tiles0 ++ new /\
    forall c c', replay c new = Ok c' ->
      Picture.paintGap QColor rgb darker colorOf fuel gapPages row column c
      = Ok (row', column', c').
Proof.
  induction fuel as [|fuel IH];
    intros gapPages row column tiles0 row' column' tiles1 H;
    cbn [Mosaic.paintGap] in H; cbn [Picture.paintGap]; cbv zeta in *;
    destruct (negb (gapPages =? 0)); try discriminate.
  - injection H as <- <- <-. exists []. split; [now rewrite app_nil_r|].
    intros c c' [= <-]. reflexivity.
  - destruct (Mosaic.paintGapTiles _ _ _ _ _) as [[column1 tiles2]|e]
      eqn:Hinner; cbn [bind] in H; [|discriminate].
    apply paintGapTiles_sim in Hinner. destruct Hinner as (new1 & -> & Hsim1).
    assert (Hrest : exists new2,
               tiles1 = (tiles0 ++ new1) ++ new2 /\
               forall c c', replay c new2 = Ok c' ->
                 (if column1 =? s_columnCount
                  then Picture.paintGap QColor rgb darker colorOf fuel
                         (wrap64 (gapPages
                                  - wrap64 (Z.min s_columnCount
                                              (wrap64 (column + gapPages))
                                            - column)))
                         (wrap32 (row + 1)) 0 c
                  else Picture.paintGap QColor rgb darker colorOf fuel
                         (wrap64 (gapPages
                                  - wrap64 (Z.min s_columnCount
                                              (wrap64 (column + gapPages))
                                            - column)))
                         row column1 c)
                 = Ok (row', column', c')).
    { destruct (column1 =? s_columnCount); apply IH in H; exact H. }
    destruct Hrest as (new2 & -> & Hsim2).
    exists (new1 ++ new2). split; [now rewrite app_assoc|].
    intros c c' Hr. apply replay_app_ok in Hr. destruct Hr as (c1 & Hr1 & Hr2).
    rewrite (Hsim1 c c1 Hr1). cbn [bind]. now apply Hsim2.
  - injection H as <- <- <-. exists []. split; [now rewrite app_nil_r|].
    intros c c' [= <-]. reflexivity.
Qed.

(** The painter of the layout with the canvas in the place of its tiles. *)
Lemma paintMappedRegion_sim (regions : list MappedRegion) (largeRegion : Z * Z)
    (region : MappedRegion) (p p1 : Mosaic.painter) :
  Mosaic.paintMappedRegion regions largeRegion region p = Ok p1 ->
  exists new,
    Mosaic.tiles p1 = Mosaic.tiles p ++ new /\
    forall c c', replay c new = Ok c' ->
      Picture.paintMappedRegion QColor rgb darker colorOf regions largeRegion
        region
        {| Picture.row := Mosaic.row p; Picture.column := Mosaic.column p;
           Picture.iMappedRegion := Mosaic.iMappedRegion p;
           Picture.drawn := c; Picture.rowIndex := Mosaic.rowIndex p |}
      = Ok {| Picture.row := Mosaic.row p1; Picture.column := Mosaic.column p1;
              Picture.iMappedRegion := Mosaic.iMappedRegion p1;
              Picture.drawn := c'; Picture.rowIndex := Mosaic.rowIndex p1 |}.
Proof.
  unfold Mosaic.paintMappedRegion, Picture.paintMappedRegion. cbv zeta.
  cbn [Picture.row Picture.column Picture.iMappedRegion Picture.drawn
       Picture.rowIndex].
  intros H.
  destruct (assertion (Mosaic.iMappedRegion p <? Z.of_nat (length regions)))
    as [[]|e]; cbn [bind] in *; [|discriminate].
  destruct (assertion (start region <=? end_ region))
    as [[]|e]; cbn [bind] in *; [|discriminate].
  destruct (Mosaic.paintPages _ _ _ _ _ _) as [[[[row1 column1] iPage] tiles1]|e]
    eqn:Hpages; cbn [bind] in H; [|discriminate].
  apply paintPages_sim in Hpages. destruct Hpages as (new1 & -> & Hsim1).
  destruct (assertion (wrap64 (start region + wrap64 (iPage * pageSize))
                       =? end_ region)) as [[]|e] eqn:Ha1;
    cbn [bind] in H; [|discriminate].
  destruct (assertion (column1 <=? s_columnCount)) as [[]|e] eqn:Ha2;
    cbn [bind] in H; [|discriminate].
  match type of H with
  | (gapPages <- ?G ;; _) = _ => destruct G as [gapPages|e] eqn:Hg
  end; cbn [bind] in H; [|discriminate].
  destruct (assertion (gapPages <? s_columnCount)) as [[]|e] eqn:Ha3;
    cbn [bind] in H; [|discriminate].
  destruct (Mosaic.paintGap _ _ _ _ _) as [[[row2 column2] tiles2]|e]
    eqn:Hgap; cbn [bind] in H; [|discriminate].
  apply paintGap_sim in Hgap. destruct Hgap as (new2 & -> & Hsim2).
  destruct (assertion (end_ region <=? snd largeRegion)) as [[]|e] eqn:Ha4;
    cbn [bind] in H; [|discriminate].
  injection H as <-. cbn [Mosaic.tiles Mosaic.row Mosaic.column
                          Mosaic.iMappedRegion Mosaic.rowIndex].
  exists (new1 ++ new2). split; [now rewrite app_assoc|].
  intros c c' Hr. apply replay_app_ok in Hr. destruct Hr as (c1 & Hr1 & Hr2).
  rewrite (Hsim1 c c1 Hr1). cbn [bind].
  rewrite Ha1. cbn [bind]. rewrite Ha2. cbn [bind].
  rewrite Hg. cbn [bind]. rewrite Ha3. cbn [bind].
  rewrite (Hsim2 c1 c' Hr2). cbn [bind]. reflexivity.
Qed.

Lemma paintMappedRegions_sim (fuel : nat) (regions : list MappedRegion)
    (largeRegion : Z * Z) :
  forall p p1 : Mosaic.painter,
  Mosaic.paintMappedRegions fuel regions largeRegion p = Ok p1 ->
  exists new,
    Mosaic.tiles p1 = Mosaic.tiles p ++ new /\
    forall c c', replay c new = Ok c' ->
      Picture.paintMappedRegions QColor rgb darker colorOf fuel regions
        largeRegion
        {| Picture.row := Mosaic.row p; Picture.column := Mosaic.column p;
           Picture.iMappedRegion := Mosaic.iMappedRegion p;
           Picture.drawn := c; Picture.rowIndex := Mosaic.rowIndex p |}
      = Ok {| Picture.row := Mosaic.row p1; Picture.column := Mosaic.column p1;
              Picture.iMappedRegion := Mosaic.iMappedRegion p1;
              Picture.drawn := c'; Picture.rowIndex := Mosaic.rowIndex p1 |}.
Proof.
  induction fuel as [|fuel IH]; intros p p1 H;
    cbn [Mosaic.paintMappedRegions] in H; cbn [Picture.paintMappedRegions];
    cbn [Picture.iMappedRegion];
    destruct (of_option (nth_error regions (Z.to_nat (Mosaic.iMappedRegion p))))
      as [region|e]; cbn [bind] in *; try discriminate;
    destruct (end_ region <=? snd largeRegion); try discriminate.
  - injection H as <-. exists []. split; [now rewrite app_nil_r|].
    intros c c' [= <-]. reflexivity.
  - destruct (Mosaic.paintMappedRegion regions largeRegion region p)
      as [p2|e] eqn:Hone; cbn [bind] in H; [|discriminate].
    apply paintMappedRegion_sim in Hone. destruct Hone as (new1 & Ht1 & Hsim1).
    destruct (Z.of_nat (length regions) <=? Mosaic.iMappedRegion p2) eqn:Hend.
    + injection H as <-. exists new1. split; [exact Ht1|].
      intros c c' Hr. rewrite (Hsim1 c c' Hr). cbn [bind Picture.iMappedRegion].
      rewrite Hend. reflexivity.
    + apply IH in H. destruct H as (new2 & Ht2 & Hsim2).
      exists (new1 ++ new2). split; [rewrite Ht2, Ht1; now rewrite app_assoc|].
      intros c c' Hr. apply replay_app_ok in Hr. destruct Hr as (c1 & Hr1 & Hr2).
      rewrite (Hsim1 c c1 Hr1). cbn [bind Picture.iMappedRegion].
      rewrite Hend. now apply Hsim2.
  - injection H as <-. exists []. split; [now rewrite app_nil_r|].
    intros c c' [= <-]. reflexivity.
Qed.

Lemma paintLine_replay (xs : list nat) (y : Z) :
  forall c : Picture.canvas,
  Picture.paintLine QColor rgb darker colorOf xs y c
  = replay c (map (fun x => (Z.of_nat x, y, colorBlack)) xs).
Proof.
  induction xs as [|x xs IH]; intros c; [reflexivity|].
  cbn [Picture.paintLine map Picture.replay].
  destruct (paint c (Z.of_nat x) y colorBlack) as [c1|e]; cbn [bind];
    [apply IH|reflexivity].
Qed.

Lemma paintSeparator_sim (fuel : nat) (row0 rowCount : Z) :
  forall (y : Z) (tiles0 : list tile),
  exists new,
    Mosaic.paintSeparator fuel row0 rowCount y tiles0 = tiles0 ++ new /\
    forall c c', replay c new = Ok c' ->
      Picture.paintSeparator QColor rgb darker colorOf fuel row0 rowCount y c
      = Ok c'.
Proof.
  induction fuel as [|fuel IH]; intros y tiles0;
    cbn [Mosaic.paintSeparator Picture.paintSeparator].
  - exists []. split; [now rewrite app_nil_r|]. intros c c' [= <-]. reflexivity.
  - destruct ((y <? wrap32 (row0 + tilesPerSeparator)) && (y <? rowCount)).
    + destruct (IH (wrap32 (y + 1))
                  (tiles0 ++ map (fun x => (Z.of_nat x, y, colorBlack))
                                 (seq 0 (Z.to_nat s_columnCount))))
        as (new & Heq & Hsim).
      exists (map (fun x => (Z.of_nat x, y, colorBlack))
                  (seq 0 (Z.to_nat s_columnCount)) ++ new).
      split; [rewrite Heq; now rewrite app_assoc|].
      intros c c' Hr. apply replay_app_ok in Hr. destruct Hr as (c1 & Hr1 & Hr2).
      rewrite paintLine_replay, Hr1. cbn [bind]. now apply Hsim.
    + exists []. split; [now rewrite app_nil_r|].
      intros c c' [= <-]. reflexivity.
Qed.

Lemma paintLargeRegion_sim (regions : list MappedRegion) (rowCount : Z)
    (largeRegion : Z * Z) (p p1 : Mosaic.painter) :
  Mosaic.paintLargeRegion regions rowCount largeRegion p = Ok p1 ->
  exists new,
    Mosaic.tiles p1 = Mosaic.tiles p ++ new /\
    forall c c', replay c new = Ok c' ->
      Picture.paintLargeRegion QColor rgb darker colorOf regions rowCount
        largeRegion
        {| Picture.row := Mosaic.row p; Picture.column := Mosaic.column p;
           Picture.iMappedRegion := Mosaic.iMappedRegion p;
           Picture.drawn := c; Picture.rowIndex := Mosaic.rowIndex p |}
      = Ok {| Picture.row := Mosaic.row p1; Picture.column := Mosaic.column p1;
              Picture.iMappedRegion := Mosaic.iMappedRegion p1;
              Picture.drawn := c'; Picture.rowIndex := Mosaic.rowIndex p1 |}.
Proof.
  unfold Mosaic.paintLargeRegion, Picture.paintLargeRegion. cbv zeta.
  cbn [Picture.row Picture.column Picture.iMappedRegion Picture.drawn
       Picture.rowIndex].
  intros H.
  destruct (assertion (Mosaic.iMappedRegion p <? Z.of_nat (length regions)))
    as [[]|e]; cbn [bind] in *; [|discriminate].
  destruct (of_option (nth_error regions (Z.to_nat (Mosaic.iMappedRegion p))))
    as [region|e]; cbn [bind] in *; [|discriminate].
  destruct (Mosaic.paintMappedRegions _ _ _ _) as [p2|e] eqn:Hregions;
    cbn [bind] in H; [|discriminate].
  apply paintMappedRegions_sim in Hregions.
  destruct Hregions as (new1 & Ht1 & Hsim1).
  cbn [Mosaic.tiles Mosaic.row Mosaic.column Mosaic.iMappedRegion
       Mosaic.rowIndex] in Ht1, Hsim1.
  destruct (assertion (Mosaic.column p2 =? 0)) as [[]|e] eqn:Ha;
    cbn [bind] in H; [|discriminate].
  apply Ok_injective in H. subst p1.
  cbn [Mosaic.tiles Mosaic.row Mosaic.column Mosaic.iMappedRegion
       Mosaic.rowIndex].
  destruct (paintSeparator_sim (Z.to_nat tilesPerSeparator) (Mosaic.row p2)
              rowCount (Mosaic.row p2) (Mosaic.tiles p2))
    as (new2 & Heq & Hsim2).
  exists (new1 ++ new2). split; [rewrite Heq, Ht1; now rewrite app_assoc|].
  intros c c' Hr. apply replay_app_ok in Hr. destruct Hr as (c1 & Hr1 & Hr2).
  rewrite (Hsim1 c c1 Hr1).
  cbn [bind Picture.row Picture.column Picture.iMappedRegion Picture.drawn
       Picture.rowIndex].
  rewrite Ha. cbn [bind].
  rewrite (Hsim2 c1 c' Hr2). cbn [bind]. reflexivity.
Qed.

Lemma paintLargeRegions_sim (regions : list MappedRegion) (rowCount : Z)
    (largeRegions : list (Z * Z)) :
  forall p p1 : Mosaic.painter,
  Mosaic.paintLargeRegions regions rowCount largeRegions p = Ok p1 ->
  exists new,
    Mosaic.tiles p1 = Mosaic.tiles p ++ new /\
    forall c c', replay c new = Ok c' ->
      Picture.paintLargeRegions QColor rgb darker colorOf regions rowCount
        largeRegions
        {| Picture.row := Mosaic.row p; Picture.column := Mosaic.column p;
           Picture.iMappedRegion := Mosaic.iMappedRegion p;
           Picture.drawn := c; Picture.rowIndex := Mosaic.rowIndex p |}
      = Ok {| Picture.row := Mosaic.row p1; Picture.column := Mosaic.column p1;
              Picture.iMappedRegion := Mosaic.iMappedRegion p1;
              Picture.drawn := c'; Picture.rowIndex := Mosaic.rowIndex p1 |}.
Proof.
  induction largeRegions as [|largeRegion rest IH]; intros p p1 H;
    cbn [Mosaic.paintLargeRegions] in H; cbn [Picture.paintLargeRegions].
  - injection H as <-. exists []. split; [now rewrite app_nil_r|].
    intros c c' [= <-]. reflexivity.
  - destruct (Mosaic.paintLargeRegion regions rowCount largeRegion p)
      as [p2|e] eqn:Hone; cbn [bind] in H; [|discriminate].
    apply paintLargeRegion_sim in Hone. destruct Hone as (new1 & Ht1 & Hsim1).
    apply IH in H. destruct H as (new2 & Ht2 & Hsim2).
    exists (new1 ++ new2). split; [rewrite Ht2, Ht1; now rewrite app_assoc|].
    intros c c' Hr. apply replay_app_ok in Hr. destruct Hr as (c1 & Hr1 & Hr2).
    rewrite (Hsim1 c c1 Hr1). cbn [bind]. now apply Hsim2.
Qed.

(** [updatePageInfo] with the image makes the calls of [cc.paintTile] that
    the layout records: where the layout returns and the calls stay inside
    the image, it returns what the layout returns, with the image that the
    calls leave. *)
Lemma updatePageInfo_sim (regions : list MappedRegion) (w : MosaicWidget)
    (cc' : Pixels.ColorCache) (img' : Pixels.Rgb32PixelAccess) :
  regions <> [] ->
  Mosaic.updatePageInfo regions = Ok w ->
  Pixels.paintTiles QColor rgb darker colorOf Pixels.newColorCache
    {| Pixels.m_width :=
         Pixels.to_int32 (wrap32 (s_columnCount * s_pixelsPerTile));
       Pixels.m_height :=
         Pixels.to_int32 (wrap32 (imageRows w * s_pixelsPerTile));
       Pixels.m_buffer :=
         bits (Pixels.to_int32 (wrap32 (s_columnCount * s_pixelsPerTile)))
              (Pixels.to_int32 (wrap32 (imageRows w * s_pixelsPerTile))) |}
    (imageTiles w) = Ok (cc', img') ->
  Picture.updatePageInfo QColor rgb darker bits colorOf regions
  = Ok {| Picture.m_regions := Mosaic.m_regions w;
          Picture.m_largeRegions := Mosaic.m_largeRegions w;
          Picture.m_img := img' |}.
Proof.
  intros Hne Hw Hpaint.
  destruct regions as [|r0 rest]; [contradiction|].
  unfold Mosaic.updatePageInfo in Hw. unfold Picture.updatePageInfo.
  destruct (assertRegionBounds (r0 :: rest)) as [[]|e]; cbn [bind] in *;
    [|discriminate].
  destruct (assertRegionOrder (r0 :: rest)) as [[]|e]; cbn [bind] in *;
    [|discriminate].
  cbv zeta in *.
  destruct (Mosaic.paintLargeRegions _ _ _ _) as [p|e] eqn:Hp;
    cbn [bind] in Hw; [|discriminate].
  injection Hw as <-.
  cbn [Mosaic.imageRows Mosaic.imageTiles Mosaic.m_regions
       Mosaic.m_largeRegions] in *.
  apply paintLargeRegions_sim in Hp. destruct Hp as (new & Ht & Hsim).
  cbn [Mosaic.tiles Mosaic.row Mosaic.column Mosaic.iMappedRegion
       Mosaic.rowIndex app] in Ht, Hsim.
  rewrite Ht in Hpaint.
  rewrite (Hsim _ (cc', img')).
  - reflexivity.
  - rewrite replay_paintTiles. exact Hpaint.
Qed.

End Simulation.

Section DisplayFacts.

Import Decoder Wire Mosaic Display.

Variable QColor : Type.
Variable rgb : QColor -> Z.
Variable darker : QColor -> Z -> QColor.
Variable bits : Z -> Z -> list Z.
Variable colorOf : Classify.QColor -> QColor.

(** [updatePageInfo] with the image on well-formed input whose image Qt
    has allocated: it returns what the layout returns, and an image in
    which every pixel has the colour of the tile of its cell. *)
Lemma updatePageInfo_image (regions : list MappedRegion) :
  Layout.wellFormed regions -> regions <> [] ->
  rowCount_spec (computeLargeRegions regions) < 2 ^ 18 ->
  Z.of_nat (length (bits 2048 (4 * rowCount_spec (computeLargeRegions regions))))
  = 2048 * (4 * rowCount_spec (computeLargeRegions regions)) ->
  exists w img,
    Mosaic.updatePageInfo regions = Ok w /\
    Picture.updatePageInfo QColor rgb darker bits colorOf regions
    = Ok {| Picture.m_regions := regions;
            Picture.m_largeRegions := m_largeRegions w;
            Picture.m_img := img |} /\
    imageRows w = rowCount_spec (computeLargeRegions regions) /\
    Z.of_nat (length (imageTiles w)) = 512 * imageRows w /\
    Pixels.m_width img = 2048 /\
    Pixels.m_height img = 4 * imageRows w /\
    Z.of_nat (length (Pixels.m_buffer img)) = 2048 * (4 * imageRows w) /\
    forall px py,
      0 <= px < 2048 -> 0 <= py < 4 * imageRows w ->
      exists color,
        In (px / 4, py / 4, color) (imageTiles w) /\
        Pixels.pixel img px py = Ok (Z.lor (rgb (colorOf color)) 0xff000000).
Proof.
  intros Hwf Hne Hrows Hbits.
  assert (Hrows32 : rowCount_spec (computeLargeRegions regions) < 2 ^ 32) by lia.
  pose proof (updatePageInfo_closed regions Hwf Hrows32) as Hup.
  destruct (updatePageInfo_layout_size regions Hwf Hne) as (Hrg & Hcount & Hnn).
  set (gs := Layout.groupsOf regions) in *.
  set (R := rowCount_spec (computeLargeRegions regions)) in *.
  assert (Hwidth : Pixels.to_int32 (wrap32 (s_columnCount * s_pixelsPerTile))
                   = 2048) by reflexivity.
  assert (Hheight : Pixels.to_int32 (wrap32 (Layout.rowsOfGroups gs * s_pixelsPerTile))
                    = 4 * R).
  { rewrite Hrg. unfold s_pixelsPerTile.
    rewrite wrap32_small by lia. rewrite to_int32_small by lia. lia. }
  destruct (paintTiles_layout QColor rgb darker colorOf gs Pixels.newColorCache
              (bits 2048 (4 * R)))
    as (cc' & img' & Hrun & Hw' & Hh' & Hlen' & Hpix).
  { reflexivity. }
  { rewrite Hrg. exact Hbits. }
  { rewrite Hbits. lia. }
  eexists. exists img'.
  split; [exact Hup|].
  split.
  { rewrite (updatePageInfo_sim QColor rgb darker bits colorOf regions _ cc' img'
               Hne Hup); [reflexivity|].
    cbn [imageRows imageTiles]. fold gs.
    rewrite Hwidth, Hheight. rewrite Hrg in Hrun. exact Hrun. }
  cbn [m_largeRegions imageRows imageTiles]. fold gs.
  split; [exact Hrg|]. split; [exact Hcount|].
  split; [exact Hw'|]. split; [exact Hh'|].
  split; [rewrite Hlen', Hbits, Hrg; reflexivity|].
  exact Hpix.
Qed.

Lemma paintable_updatePageInfo (regions : list MappedRegion) :
  paintable bits regions ->
  exists p, Picture.updatePageInfo QColor rgb darker bits colorOf regions = Ok p.
Proof.
  intros (_ & Hwf & Himg).
  destruct regions as [|r rest]; [eexists; reflexivity|].
  destruct (Himg ltac:(discriminate)) as [Hrows Hbits].
  destruct (updatePageInfo_image (r :: rest) Hwf ltac:(discriminate) Hrows Hbits)
    as (w & img & _ & Hrun & _).
  eexists. exact Hrun.
Qed.

Lemma receiveAll_stream (chunks : list (list byte)) :
  forall (snapshots : list (list MappedRegion)) (regions : list MappedRegion)
         (q : list byte) (p0 : Picture.picture),
  Forall (paintable bits) snapshots ->
  q ++ concat chunks = Widget.encode_stream snapshots ->
  frames q = ([], q) ->
  Z.of_nat (length (Widget.encode_stream snapshots)) < 2 ^ 63 ->
  exists p,
    receiveAll QColor rgb darker bits colorOf
      {| m_pageInfoReader := waiting regions q; shown := p0 |} chunks
    = Ok {| m_pageInfoReader := waiting (last snapshots regions) [];
            shown := p |} /\
    (snapshots = [] -> p = p0) /\
    (snapshots <> [] ->
     Picture.updatePageInfo QColor rgb darker bits colorOf
       (last snapshots regions) = Ok p).
Proof.
  induction chunks as [|c chunks IH];
    intros snapshots regions q p0 Hp Heq Hq Hlen.
  - cbn [concat] in Heq. rewrite app_nil_r in Heq.
    destruct (stream_without_frame snapshots q Heq Hq) as [-> ->];
      [rewrite Heq; exact Hlen|].
    exists p0. split; [reflexivity|]. split; [reflexivity|congruence].
  - cbn [concat receiveAll] in *.
    assert (Hw : Forall (Forall wireRegion) snapshots).
    { eapply Forall_impl; [|exact Hp]. intros a Ha. apply Ha. }
    destruct (stream_step snapshots regions q c (concat chunks) Hw Heq Hlen)
      as (done & rest & q' & H1 & H2 & H3 & Hadd).
    assert (Hprest : Forall (paintable bits) rest).
    { rewrite H1 in Hp. apply Forall_app in Hp. apply Hp. }
    assert (Hlrest : Z.of_nat (length (Widget.encode_stream rest)) < 2 ^ 63).
    { rewrite H1, encode_stream_app, length_app in Hlen. lia. }
    unfold networkDataAvailable. cbn [m_pageInfoReader shown].
    rewrite Hadd. cbn [bind fst snd m_mappedRegions waiting].
    destruct done as [|d done].
    + cbn [app last] in *. subst rest.
      destruct (IH snapshots regions q' p0 Hp H2 H3 Hlen) as (p & Hr & Hnil & Hne).
      exists p. split; [exact Hr|]. split; assumption.
    + assert (Hpd : paintable bits (last (d :: done) regions)).
      { rewrite H1 in Hp. apply Forall_app in Hp. destruct Hp as [Hp _].
        rewrite Forall_forall in Hp. apply Hp.
        apply last_in_or_default. discriminate. }
      destruct (paintable_updatePageInfo _ Hpd) as (p1 & Hp1).
      rewrite Hp1. cbn [bind].
      destruct (IH rest (last (d :: done) regions) q' p1 Hprest H2 H3 Hlrest)
        as (p & Hr & Hnil & Hne).
      exists p. rewrite H1, last_app_default.
      split; [exact Hr|]. split; [discriminate|]. intros _.
      destruct rest as [|r rest].
      * rewrite (Hnil eq_refl). exact Hp1.
      * apply Hne. discriminate.
Qed.

End DisplayFacts.

(** [updatePageInfo] paints well-formed input.  For regions that are
    sorted, do not overlap, are page-aligned and not empty, carry one use
    count and one flag word per page and end at least 64 pages below [2^64],
    for a picture of fewer than [2^18] rows (so that the [int] index of a
    pixel does not overflow) and an image of [2048 x 4 * rows] pixels that
    Qt has allocated, [updatePageInfo] returns: no assertion of the source
    fails, no vector is read out of range, no pixel is written outside the
    image and every loop ends.  It keeps the regions and leaves the row
    index of the layout; the picture has the number of rows of the
    row-count formula, 512 tiles are painted per row, the image has
    [2048 x 4 * rows] pixels, and every pixel holds the colour of the tile
    of its cell, with the alpha byte [0xff]: nothing of what the memory of
    the image held before is left. *)
Theorem updatePageInfo_paints_well_formed_input
    (QColor : Type) (rgb : QColor -> Z) (darker : QColor -> Z -> QColor)
    (bits : Z -> Z -> list Z) (colorOf : Classify.QColor -> QColor)
    (regions : list Decoder.MappedRegion) :
  Layout.wellFormed regions -> regions <> [] ->
  Mosaic.rowCount_spec (Mosaic.computeLargeRegions regions) < 2 ^ 18 ->
  Z.of_nat (length (bits 2048 (4 * Mosaic.rowCount_spec
                                      (Mosaic.computeLargeRegions regions))))
  = 2048 * (4 * Mosaic.rowCount_spec (Mosaic.computeLargeRegions regions)) ->
  exists w p,
    Picture.updatePageInfo QColor rgb darker bits colorOf regions = Ok p /\
    Mosaic.updatePageInfo regions = Ok w /\
    Picture.m_regions p = regions /\
    Picture.m_largeRegions p = Mosaic.m_largeRegions w /\
    Mosaic.imageRows w = Mosaic.rowCount_spec (Mosaic.computeLargeRegions regions) /\
    Z.of_nat (length (Mosaic.imageTiles w)) = 512 * Mosaic.imageRows w /\
    Pixels.m_width (Picture.m_img p) = 2048 /\
    Pixels.m_height (Picture.m_img p) = 4 * Mosaic.imageRows w /\
    Z.of_nat (length (Pixels.m_buffer (Picture.m_img p)))
    = 2048 * (4 * Mosaic.imageRows w) /\
    forall px py,
      0 <= px < 2048 -> 0 <= py < 4 * Mosaic.imageRows w ->
      exists color,
        In (px / 4, py / 4, color) (Mosaic.imageTiles w) /\
        Pixels.pixel (Picture.m_img p) px py
        = Ok (Z.lor (rgb (colorOf color)) 0xff000000).
Proof.
  intros Hwf Hne Hrows Hbits.
  destruct (updatePageInfo_image QColor rgb darker bits colorOf regions
              Hwf Hne Hrows Hbits)
    as (w & img & Hlayout & Hrun & Hr & Hcount & Hw & Hh & Hlen & Hpix).
  exists w. eexists. split; [exact Hrun|].
  cbn [Picture.m_regions Picture.m_largeRegions Picture.m_img].
  split; [exact Hlayout|]. split; [reflexivity|]. split; [reflexivity|].
  repeat (split; [assumption|]). exact Hpix.
Qed.

Lemma updatePageInfo_paints_well_formed_input_witness :
  let bits := fun width height : Z => repeat 0 (Z.to_nat (width * height)) in
  (Layout.wellFormed [Scenario.anonRegion] /\
   [Scenario.anonRegion] <> [] /\
   Mosaic.rowCount_spec (Mosaic.computeLargeRegions [Scenario.anonRegion])
     < 2 ^ 18 /\
   Z.of_nat (length (bits 2048 (4 * Mosaic.rowCount_spec
                                       (Mosaic.computeLargeRegions
                                          [Scenario.anonRegion]))))
   = 2048 * (4 * Mosaic.rowCount_spec
                   (Mosaic.computeLargeRegions [Scenario.anonRegion]))) /\
  exists p,
    Picture.updatePageInfo Z (fun c => c) (fun c factor => c * 100 / factor)
      bits (fun _ => 0x00ff00) [Scenario.anonRegion] = Ok p /\
    Picture.m_regions p = [Scenario.anonRegion] /\
    Pixels.m_width (Picture.m_img p) = 2048 /\
    Pixels.m_height (Picture.m_img p) = 4 /\
    Z.of_nat (length (Pixels.m_buffer (Picture.m_img p))) = 2048 * 4.
Proof.
  intros bits.
  assert (W : Layout.wellFormed [Scenario.anonRegion]).
  { unfold Layout.wellFormed. split; [cbn; lia|].
    split; constructor; try constructor; closed_prop. }
  assert (N : [Scenario.anonRegion] <> []) by discriminate.
  assert (R : Mosaic.rowCount_spec (Mosaic.computeLargeRegions [Scenario.anonRegion])
              < 2 ^ 18) by closed_prop.
  assert (B : Z.of_nat (length (bits 2048 (4 * Mosaic.rowCount_spec
                                                (Mosaic.computeLargeRegions
                                                   [Scenario.anonRegion]))))
              = 2048 * (4 * Mosaic.rowCount_spec
                              (Mosaic.computeLargeRegions [Scenario.anonRegion])))
    by (vm_compute; reflexivity).
  split; [split; [exact W|split; [exact N|split; [exact R|exact B]]]|].
  destruct (updatePageInfo_paints_well_formed_input Z (fun c => c)
              (fun c factor => c * 100 / factor) bits (fun _ => 0x00ff00)
              [Scenario.anonRegion] W N R B)
    as (w & p & Hrun & _ & Hreg & _ & Hrows & _ & Hw & Hh & Hlen & _).
  exists p. split; [exact Hrun|]. split; [exact Hreg|]. split; [exact Hw|].
  change (Mosaic.rowCount_spec (Mosaic.computeLargeRegions [Scenario.anonRegion]))
    with 1 in Hrows.
  rewrite Hrows in Hh, Hlen. split; [exact Hh|exact Hlen].
Defined.

(** The remote display follows the stream.  When the server sends the
    frames of one or more snapshots, each of them well formed, of fewer than
    [2^18] rows and with an image that Qt has allocated, then however the
    socket delivers the bytes (one [readyRead] per byte, per frame, or for
    several frames at once), the calls of [networkDataAvailable] all return
    and leave the widget with what [updatePageInfo] leaves for the last
    snapshot sent, image included, the reader holding that snapshot and an
    empty buffer. *)
Theorem network_display_is_the_last_snapshot
    (QColor : Type) (rgb : QColor -> Z) (darker : QColor -> Z -> QColor)
    (bits : Z -> Z -> list Z) (colorOf : Classify.QColor -> QColor)
    (snapshots : list (list Decoder.MappedRegion))
    (chunks : list (list byte)) (s0 : Display.state)
    (regions0 : list Decoder.MappedRegion) :
  Forall (Display.paintable bits) snapshots ->
  snapshots <> [] ->
  concat chunks = Widget.encode_stream snapshots ->
  Z.of_nat (length (Widget.encode_stream snapshots)) < 2 ^ 31 ->
  Display.m_pageInfoReader s0 = Wire.waiting regions0 [] ->
  exists p,
    Picture.updatePageInfo QColor rgb darker bits colorOf (last snapshots [])
    = Ok p /\
    Display.receiveAll QColor rgb darker bits colorOf s0 chunks
    = Ok {| Display.m_pageInfoReader := Wire.waiting (last snapshots []) [];
            Display.shown := p |}.
Proof.
  intros Hp Hne Heq Hlen Hs0.
  destruct s0 as [r p0]. cbn [Display.m_pageInfoReader] in Hs0. subst r.
  destruct (receiveAll_stream QColor rgb darker bits colorOf chunks snapshots
              regions0 [] p0 Hp Heq)
    as (p & Hr & _ & Hw).
  - apply frames_short. cbn. lia.
  - lia.
  - exists p.
    assert (Hl : last snapshots regions0 = last snapshots []).
    { destruct snapshots; [contradiction|apply last_any_default]. }
    rewrite <- Hl. split; [exact (Hw Hne)|exact Hr].
Qed.

Lemma network_display_is_the_last_snapshot_witness :
  let bits := fun width height : Z => repeat 0 (Z.to_nat (width * height)) in
  let snapshots := [[Scenario.anonRegion]; []; [Scenario.zeroRegion]] in
  let stream := Widget.encode_stream snapshots in
  let chunks := [firstn 3 stream; firstn 70 (skipn 3 stream);
                 skipn 73 stream] in
  let s0 := {| Display.m_pageInfoReader := Wire.waiting [] [];
               Display.shown :=
                 {| Picture.m_regions := []; Picture.m_largeRegions := [];
                    Picture.m_img := {| Pixels.m_width := 0;
                                        Pixels.m_height := 0;
                                        Pixels.m_buffer := [] |} |} |} in
  (Forall (Display.paintable bits) snapshots /\
   snapshots <> [] /\
   concat chunks = Widget.encode_stream snapshots /\
   Z.of_nat (length (Widget.encode_stream snapshots)) < 2 ^ 31 /\
   Display.m_pageInfoReader s0 = Wire.waiting [] []) /\
  exists p,
    Picture.updatePageInfo Z (fun c => c) (fun c factor => c * 100 / factor)
      bits (fun _ => 0x00ff00) [Scenario.zeroRegion] = Ok p /\
    Display.receiveAll Z (fun c => c) (fun c factor => c * 100 / factor)
      bits (fun _ => 0x00ff00) s0 chunks
    = Ok {| Display.m_pageInfoReader := Wire.waiting [Scenario.zeroRegion] [];
            Display.shown := p |}.
Proof.
  intros bits snapshots stream chunks s0.
  assert (P : Forall (Display.paintable bits) snapshots).
  { apply Forall_cons; [|apply Forall_cons; [|apply Forall_cons;
                                                  [|apply Forall_nil]]].
    - split; [apply Forall_cons; [closed_prop|apply Forall_nil]|].
      split; [|intros _; split; [closed_prop|vm_compute; reflexivity]].
      unfold Layout.wellFormed. split; [cbn; lia|].
      split; apply Forall_cons; try apply Forall_nil; closed_prop.
    - split; [apply Forall_nil|].
      split; [|intros H; contradiction].
      unfold Layout.wellFormed. split; [exact I|].
      split; apply Forall_nil.
    - split; [apply Forall_cons; [closed_prop|apply Forall_nil]|].
      split; [|intros _; split; [closed_prop|vm_compute; reflexivity]].
      unfold Layout.wellFormed. split; [cbn; lia|].
      split; apply Forall_cons; try apply Forall_nil; closed_prop. }
  assert (N : snapshots <> []) by discriminate.
  assert (C : concat chunks = Widget.encode_stream snapshots)
    by (vm_compute; reflexivity).
  assert (L : Z.of_nat (length (Widget.encode_stream snapshots)) < 2 ^ 31)
    by closed_prop.
  assert (S0 : Display.m_pageInfoReader s0 = Wire.waiting [] [])
    by reflexivity.
  split; [split; [exact P|split; [exact N|split; [exact C|split; [exact L|exact S0]]]]|].
  exact (network_display_is_the_last_snapshot Z (fun c => c)
           (fun c factor => c * 100 / factor) bits (fun _ => 0x00ff00)
           snapshots chunks s0 [] P N C L S0).
Defined.

(** The local and the remote path draw the same picture.  For a non-empty
    well-formed snapshot of fewer than [2^18] rows whose image Qt has
    allocated, [localUpdateTimeout] on the regions read from the process and
    [networkDataAvailable] on the frame that carries the same regions both
    return and leave the same picture, image included, and the local path
    emits no signal.  They differ on an empty snapshot: the remote path
    replaces the picture by the empty one with the null image, the local
    path keeps the picture it has and emits
    [showPageInfo(0, 0, QString())]. *)
Theorem local_and_remote_updates_agree
    (QColor : Type) (rgb : QColor -> Z) (darker : QColor -> Z -> QColor)
    (bits : Z -> Z -> list Z) (colorOf : Classify.QColor -> QColor)
    (regions regions0 : list Decoder.MappedRegion) (s : Display.state) :
  Display.paintable bits regions ->
  Z.of_nat (length (Wire.encode_frame regions)) < 2 ^ 31 ->
  Display.m_pageInfoReader s = Wire.waiting regions0 [] ->
  exists p,
    Display.networkDataAvailable QColor rgb darker bits colorOf s
      (Wire.encode_frame regions)
    = Ok {| Display.m_pageInfoReader := Wire.waiting regions [];
            Display.shown := p |} /\
    match regions with
    | [] =>
        p = {| Picture.m_regions := []; Picture.m_largeRegions := [];
               Picture.m_img := {| Pixels.m_width := 0; Pixels.m_height := 0;
                                   Pixels.m_buffer := [] |} |} /\
        Display.localUpdateTimeout QColor rgb darker bits colorOf s regions
        = Ok (s, [Mosaic.showPageInfo 0 0 []])
    | _ :: _ =>
        Display.localUpdateTimeout QColor rgb darker bits colorOf s regions
        = Ok ({| Display.m_pageInfoReader := Display.m_pageInfoReader s;
                 Display.shown := p |}, [])
    end.
Proof.
  intros Hp Hlen Hs.
  destruct (paintable_updatePageInfo QColor rgb darker bits colorOf regions Hp)
    as (p & Hrun).
  exists p.
  assert (Hadd : Decoder.addData (Wire.waiting regions0 []) (Wire.encode_frame regions)
                 = Ok (true, Wire.waiting regions []))
    by (apply addData_one_frame; [apply Hp|lia]).
  split.
  - unfold Display.networkDataAvailable. rewrite Hs, Hadd.
    cbn [bind fst snd Decoder.m_mappedRegions Wire.waiting].
    rewrite Hrun. reflexivity.
  - destruct regions as [|r rest].
    + split; [|reflexivity]. cbn in Hrun. now inversion Hrun.
    + unfold Display.localUpdateTimeout. rewrite Hrun. reflexivity.
Qed.

Lemma local_and_remote_updates_agree_witness :
  let bits := fun width height : Z => repeat 0 (Z.to_nat (width * height)) in
  let s := {| Display.m_pageInfoReader := Wire.waiting [] [];
              Display.shown :=
                {| Picture.m_regions := []; Picture.m_largeRegions := [];
                   Picture.m_img := {| Pixels.m_width := 0;
                                       Pixels.m_height := 0;
                                       Pixels.m_buffer := [] |} |} |} in
  (Display.paintable bits [Scenario.anonRegion] /\
   Z.of_nat (length (Wire.encode_frame [Scenario.anonRegion])) < 2 ^ 31 /\
   Display.m_pageInfoReader s = Wire.waiting [] []) /\
  exists p,
    Display.networkDataAvailable Z (fun c => c) (fun c factor => c * 100 / factor)
      bits (fun _ => 0x00ff00) s (Wire.encode_frame [Scenario.anonRegion])
    = Ok {| Display.m_pageInfoReader := Wire.waiting [Scenario.anonRegion] [];
            Display.shown := p |} /\
    Display.localUpdateTimeout Z (fun c => c) (fun c factor => c * 100 / factor)
      bits (fun _ => 0x00ff00) s [Scenario.anonRegion]
    = Ok ({| Display.m_pageInfoReader := Display.m_pageInfoReader s;
             Display.shown := p |}, []).
Proof.
  intros bits s.
  assert (P : Display.paintable bits [Scenario.anonRegion]).
  { split; [apply Forall_cons; [closed_prop|apply Forall_nil]|].
    split; [|intros _; split; [closed_prop|vm_compute; reflexivity]].
    unfold Layout.wellFormed. split; [cbn; lia|].
    split; apply Forall_cons; try apply Forall_nil; closed_prop. }
  assert (L : Z.of_nat (length (Wire.encode_frame [Scenario.anonRegion])) < 2 ^ 31)
    by closed_prop.
  assert (S0 : Display.m_pageInfoReader s = Wire.waiting [] []) by reflexivity.
  split; [split; [exact P|split; [exact L|exact S0]]|].
  exact (local_and_remote_updates_agree Z (fun c => c)
           (fun c factor => c * 100 / factor) bits (fun _ => 0x00ff00)
           [Scenario.anonRegion] [] s P L S0).
Defined.
